(** * Oracle CLI: session store, file discovery, cookies, markdown fences

    A shallow embedding of the parts of the oracle command-line tool that
    its specification makes checkable statements about:

    - [JsString]: the string primitives of the JavaScript runtime that the
      code relies on ([toLowerCase], global regex matches of a one-character
      class, [split], [join], [slice], [repeat], [trimEnd]);
    - [Markdown]: [pickFence] and [formatFileSection] (src/oracle/markdown.ts);
    - [Cookies]: [normalizeExpiration] (src/browser/chromeCookies.ts);
    - [Tools]: [toolSupportForModel] and [buildAnthropicParams];
    - [Files]: [readFiles] and its helpers (src/oracle/files.js);
    - [SessionStore]: slugs, unique ids, metadata reads and updates, zombie
      detection and the combined log (src/sessionStore.js).

    Strings are sequences of 8-bit code units ([string]); case mapping and
    character classes act on the ASCII range, all other code units are left
    alone.  Numbers that the code divides or subtracts are doubles: a
    finite one is carried as the rational it stands for, and the operation
    rounds its exact result to binary64. *)

From Stdlib Require Import ZArith QArith Qround Qabs Qpower Lqa SpecFloat.
From Stdlib Require Import Ascii String Sorting.Sorted Sorting.Permutation Lia.
From stdpp Require Import base tactics option list strings gmap pretty.

Local Open Scope Z_scope.

(* ===================================================================== *)
(** ** JavaScript string primitives *)
(* ===================================================================== *)

Module JsString.

Definition code (c : ascii) : nat := nat_of_ascii c.

(** [String.prototype.toLowerCase], on the ASCII letters. *)
Definition lower_char (c : ascii) : ascii :=
  if ((65 <=? code c) && (code c <=? 90))%nat
  then ascii_of_nat (code c + 32) else c.

Fixpoint toLowerCase (s : string) : string :=
  match s with
  | EmptyString => EmptyString
  | String c s' => String (lower_char c) (toLowerCase s')
  end.

(** The character class [[a-z0-9]]. *)
Definition is_lower_alnum (c : ascii) : bool :=
  (((97 <=? code c) && (code c <=? 122)) || ((48 <=? code c) && (code c <=? 57)))%nat.

Definition is_backtick (c : ascii) : bool := bool_decide (c = "`"%char).

(** Whitespace as [trim], [trimEnd] and the regex class [\s] see it. *)
Definition is_space (c : ascii) : bool := Ascii.is_space c.

Definition all_chars (P : ascii -> bool) : string -> bool :=
  fix go s := match s with
              | EmptyString => true
              | String c s' => P c && go s'
              end.

Definition starts_with_char (P : ascii -> bool) (s : string) : bool :=
  match s with
  | EmptyString => false
  | String c _ => P c
  end.

(** [s.match(/[P]+/g) ?? []] and [[...s.matchAll(/[P]+/g)]] for a
    one-character class [P]: the successive leftmost-longest matches.  A
    character of the class either extends the match that starts right
    after it or, when the next character is outside the class, is a match
    of its own. *)
Fixpoint match_runs (P : ascii -> bool) (s : string) : list string :=
  match s with
  | EmptyString => []
  | String c s' =>
      if P c then
        if starts_with_char P s' then
          match match_runs P s' with
          | w :: ws => String c w :: ws
          | [] => [String c EmptyString]
          end
        else String c EmptyString :: match_runs P s'
      else match_runs P s'
  end.

(** [s.slice(0, n)] *)
Fixpoint slice0 (n : nat) (s : string) : string :=
  match n, s with
  | S n', String c s' => String c (slice0 n' s')
  | _, _ => EmptyString
  end.

(** [Array.prototype.join] *)
Fixpoint join (sep : string) (l : list string) : string :=
  match l with
  | [] => EmptyString
  | [w] => w
  | w :: l' => w +:+ sep +:+ join sep l'
  end.

(** [s.split(c)] for a one-character separator. *)
Fixpoint split (c : ascii) (s : string) : list string :=
  match s with
  | EmptyString => [EmptyString]
  | String x s' =>
      if bool_decide (x = c) then EmptyString :: split c s'
      else match split c s' with
           | w :: ws => String x w :: ws
           | [] => [String x EmptyString]
           end
  end.

(** JavaScript truthiness of a string, as in [filter(Boolean)]. *)
Definition truthy (s : string) : bool :=
  match s with EmptyString => false | _ => true end.

(** [s.repeat(n)] *)
Fixpoint repeat (s : string) (n : nat) : string :=
  match n with
  | O => EmptyString
  | S n' => s +:+ repeat s n'
  end.

(** [s.startsWith(p)] *)
Definition startsWith (s p : string) : bool := String.prefix p s.

(** [s.trimEnd()], also [s.replace(/\s+$/u, '')]. *)
Fixpoint trimEnd (s : string) : string :=
  match s with
  | EmptyString => EmptyString
  | String c s' =>
      match trimEnd s' with
      | EmptyString => if is_space c then EmptyString else String c EmptyString
      | t => String c t
      end
  end.

(** [s.trim()] *)
Fixpoint trimStart (s : string) : string :=
  match s with
  | String c s' => if is_space c then trimStart s' else s
  | EmptyString => EmptyString
  end.

Definition trim (s : string) : string := trimEnd (trimStart s).

(** *** What "the maximal runs of a class" means

    [maximal_runs P s ws]: [s] is cut into separators (characters outside
    [P]) and the words [ws], each a non-empty block of [P]-characters that
    cannot be extended to the right; as separators hold no [P]-character
    it cannot be extended to the left either. *)
Inductive maximal_runs (P : ascii -> bool) : string -> list string -> Prop :=
| runs_done sep :
    all_chars (fun c => negb (P c)) sep = true ->
    maximal_runs P sep []
| runs_word sep w rest ws :
    all_chars (fun c => negb (P c)) sep = true ->
    w <> EmptyString ->
    all_chars P w = true ->
    starts_with_char P rest = false ->
    maximal_runs P rest ws ->
    maximal_runs P (sep +:+ w +:+ rest) (w :: ws).

(** [t] occurs in [s] as a substring. *)
Definition occurs_in (t s : string) : Prop :=
  exists pre post, s = pre +:+ t +:+ post.

End JsString.

(** Exceptions: a call either returns or throws. *)
Inductive outcome (E A : Type) : Type :=
| Ok (a : A)
| Throw (e : E).
Arguments Ok {E A} a.
Arguments Throw {E A} e.

Definition obind {E A B} (m : outcome E A) (k : A -> outcome E B) : outcome E B :=
  match m with
  | Ok a => k a
  | Throw e => Throw e
  end.

Notation "'try!' x <- m ; k" := (obind m (fun x => k))
  (at level 10, x name, m at level 100, k at level 200).

Definition newline : string := String "010"%char EmptyString.

(* ===================================================================== *)
(** ** Markdown file sections (src/oracle/markdown.ts) *)
(* ===================================================================== *)

Module Markdown.
Import JsString.

Definition EXT_TO_LANG : list (string * string) :=
  [ (".ts", "ts"); (".tsx", "tsx"); (".js", "js"); (".jsx", "jsx");
    (".json", "json"); (".swift", "swift"); (".md", "md"); (".sh", "bash");
    (".bash", "bash"); (".zsh", "bash"); (".py", "python"); (".rb", "ruby");
    (".rs", "rust"); (".go", "go"); (".java", "java"); (".c", "c");
    (".h", "c"); (".cpp", "cpp"); (".hpp", "cpp"); (".css", "css");
    (".scss", "scss"); (".sql", "sql"); (".yaml", "yaml"); (".yml", "yaml") ].

Definition table_get (table : list (string * string)) (key : string) : option string :=
  snd <$> List.find (fun kv => String.eqb (fst kv) key) table.

Definition pickFence (content : string) : string :=
  let matches := match_runs is_backtick content in
  let maxTicks := fold_left (fun max m => Nat.max max (String.length m)) matches 0%nat in
  let fenceLength := Nat.max 3 (maxTicks + 1) in
  repeat "`" fenceLength.

Section WithPath.
(** [path.extname] of node:path. *)
Variable path_extname : string -> string.

Definition detectFenceLanguage (displayPath : string) : option string :=
  let ext := toLowerCase (path_extname displayPath) in
  table_get EXT_TO_LANG ext.

Definition formatFileSection (displayPath content : string) : string :=
  let fence := pickFence content in
  let lang := detectFenceLanguage displayPath in
  let normalized := trimEnd content in
  let header := "### File: " +:+ displayPath in
  let fenceOpen := match lang with
                   | Some l => if truthy l then fence +:+ l else fence
                   | None => fence
                   end in
  join newline [header; fenceOpen; normalized; fence; EmptyString].
End WithPath.

(** [n] backticks. *)
Definition ticks (n : nat) : string := repeat "`" n.

(** The greatest length among the strings of [l], [0] for none. *)
Definition max_len (l : list string) : nat :=
  fold_left (fun max m => Nat.max max (String.length m)) l 0%nat.

(** The length of the longest run of consecutive backticks in [s]: [n]
    backticks in a row occur in [s], and no more than [n] do. *)
Definition longest_backtick_run (s : string) (n : nat) : Prop :=
  occurs_in (repeat "`" n) s /\
  forall m, occurs_in (repeat "`" m) s -> (m <= n)%nat.

End Markdown.

(* ===================================================================== *)
(** ** Cookie expirations (src/browser/chromeCookies.ts) *)
(* ===================================================================== *)

Module Cookies.

(** A JavaScript number: a double.  A finite one is carried as the rational
    it stands for; the operations below round their exact results to the
    nearest double, as the language has it. *)
Inductive number : Type :=
| NaN
| Infinity (negative : bool)
| Finite (q : Q).

(** **** Rounding to binary64 *)

(** [floor(log2 a)] for a positive [a]: the difference of the bit lengths
    of numerator and denominator, or one less. *)
Definition exponent_of (a : Q) : Z :=
  let guess := Z.log2 (Qnum a) - Z.log2 (Zpos (Qden a)) in
  if Qle_bool (2 ^ guess) a then guess else guess - 1.

(** The integer nearest to [x], the even one of two that are equally
    near. *)
Definition round_half_even (x : Q) : Z :=
  let below := Qfloor x in
  match (x - inject_Z below ?= 1 # 2)%Q with
  | Lt => below
  | Gt => below + 1
  | Eq => if Z.even below then below else below + 1
  end.

(** The double nearest to [q] (IEEE 754 binary64, round to nearest, ties
    to even): 53 significant bits, the unit in the last place no smaller
    than [2 ^ -1074], and infinity from [2 ^ 1024] on. *)
Definition binary64 (q : Q) : number :=
  if Qeq_bool q 0 then Finite 0
  else
    let a := Qabs q in
    let ulp := (2 ^ Z.max (exponent_of a - 52) (-1074))%Q in
    let r := (inject_Z (round_half_even (a / ulp)) * ulp)%Q in
    if Qle_bool (2 ^ 1024) r then Infinity (negb (Qle_bool 0 q))
    else Finite (if Qle_bool 0 q then r else - r).

(** The same operations in the Standard Library's executable model of
    IEEE 754 ([SpecFloat]), on integers, to compare [binary64] with. *)
Definition reference_double (z : Z) : spec_float := binary_normalize 53 1024 z 0 false.

Definition reference_value (f : spec_float) : number :=
  match f with
  | S754_zero _ => Finite 0
  | S754_infinity negative => Infinity negative
  | S754_nan => NaN
  | S754_finite negative m e =>
      Finite ((if negative then - inject_Z (Zpos m) else inject_Z (Zpos m)) * 2 ^ e)
  end.

Definition same_number (x y : number) : bool :=
  match x, y with
  | NaN, NaN => true
  | Infinity s, Infinity t => Bool.eqb s t
  | Finite p, Finite q => Qeq_bool p q
  | _, _ => false
  end.

(** **** The operations of [normalizeExpiration] *)

Definition is_zero (x : number) : bool :=
  match x with Finite q => Qeq_bool q 0 | _ => false end.

Definition isNaN (x : number) : bool :=
  match x with NaN => true | _ => false end.

(** [x <= c] and [x > c] against a finite constant. *)
Definition le_const (x : number) (c : Q) : bool :=
  match x with
  | NaN => false
  | Infinity negative => negative
  | Finite q => Qle_bool q c
  end.

Definition gt_const (x : number) (c : Q) : bool :=
  match x with
  | NaN => false
  | Infinity negative => negb negative
  | Finite q => negb (Qle_bool q c)
  end.

(** [Math.round]: the nearest integer, halves going up.  The integer is a
    double whenever its argument is one. *)
Definition Math_round (x : number) : number :=
  match x with
  | Finite q => Finite (inject_Z (Qfloor (q + (1 # 2))))
  | other => other
  end.

(** [x / c] and [x - c] for a positive constant [c]: the exact result,
    rounded to a double. *)
Definition div_const (x : number) (c : Q) : number :=
  match x with Finite q => binary64 (q / c) | other => other end.

Definition sub_const (x : number) (c : Q) : number :=
  match x with Finite q => binary64 (q - c) | other => other end.

(** [!expires] for an optional number: absent, [0] and [NaN] are falsy. *)
Definition falsy (expires : option number) : bool :=
  match expires with
  | None => true
  | Some x => is_zero x || isNaN x
  end.

Definition normalizeExpiration (expires : option number) : option number :=
  match expires with
  | None => None
  | Some value =>
      if falsy expires || isNaN value then None
      else if le_const value 0 then None
      else if gt_const value 1000000000000 then
        Some (Math_round (sub_const (div_const value 1000000) 11644473600))
      else if gt_const value 1000000000 then
        Some (Math_round (div_const value 1000))
      else Some (Math_round value)
  end.

Definition whole (z : Z) : option number := Some (Finite (inject_Z z)).

(** [r] is the whole number nearest to [x], the upper one at a half. *)
Definition rounds_to (x : Q) (r : Z) : Prop :=
  (inject_Z r <= x + (1 # 2))%Q /\ (x + (1 # 2) < inject_Z r + 1)%Q.

(** [r] is the whole number nearest to some number no further than [eps]
    from [x]: the nearest to [x] itself, unless [x] is within [eps] of a
    half. *)
Definition rounds_within (eps x : Q) (r : Z) : Prop :=
  (inject_Z r - eps <= x + (1 # 2))%Q /\ (x + (1 # 2) < inject_Z r + 1 + eps)%Q.

(** The conversion of microseconds since 1601, in the model and in the
    reference. *)
Definition microseconds_to_seconds (v : Z) : number :=
  sub_const (div_const (binary64 (inject_Z v)) 1000000) 11644473600.

Definition reference_microseconds_to_seconds (v : Z) : number :=
  reference_value
    (SFsub 53 1024
       (SFdiv 53 1024 (reference_double v) (reference_double 1000000))
       (reference_double 11644473600)).

End Cookies.

(* ===================================================================== *)
(** ** Tool capabilities and the Anthropic adapter *)
(* ===================================================================== *)

Module Tools.
Import JsString.

Record ToolSupport := { search : bool }.

(** src/oracle/tools.ts *)
Definition toolSupportForModel (model : string) : ToolSupport :=
  if startsWith model "claude" then {| search := false |}
  else {| search := true |}.

(** The Anthropic family of models: the names that begin with
    [claude]. *)
Definition anthropic_family (model : string) : Prop :=
  exists rest, model = "claude" +:+ rest.

(** The provider-agnostic request body. *)
Inductive ContentPiece :=
| PieceNull
| PieceText (text : option string)   (* an object with a [text] key *)
| PieceOther.                        (* an object without one *)

Record InputTurn := { role : string; content : option (list ContentPiece) }.

Inductive Tool := WebSearchPreview.

Record OracleRequestBody := {
  body_model : string;
  instructions : option string;
  input : option (list InputTurn);
  tools : option (list Tool);
  max_output_tokens : option Z;
  background : option bool;
  store : option bool;
}.

(** The native call parameters of the Anthropic SDK ([MessageCreateParams]);
    [system], [tools] and [tool_choice] are optional there. *)
Record TextBlock := { block_text : string }.
Record Message := { msg_role : string; msg_content : list TextBlock }.

Record MessageCreateParams := {
  params_model : string;
  max_tokens : Z;
  messages : list Message;
  system : option string;
  params_tools : option (list Tool);
  tool_choice : option string;
}.

Definition DEFAULT_MAX_OUTPUT_TOKENS : Z := 1024.

Definition piece_text (piece : ContentPiece) : string :=
  match piece with
  | PieceText (Some t) => t
  | _ => EmptyString
  end.

(** src/oracle/anthropic.ts.  [params.system] is assigned only for
    instructions that are not blank; nothing assigns [tools]. *)
Definition buildAnthropicParams (body : OracleRequestBody) (model : string)
  : MessageCreateParams :=
  let userText :=
    join (newline +:+ newline)
      (flat_map (fun item =>
                   List.filter truthy (map piece_text (default [] (content item))))
                (default [] (input body))) in
  {| params_model := model;
     max_tokens := default DEFAULT_MAX_OUTPUT_TOKENS (max_output_tokens body);
     messages := [ {| msg_role := "user";
                      msg_content := [ {| block_text := userText |} ] |} ];
     system := match instructions body with
               | Some i =>
                   if truthy i && (0 <? String.length (trim i))%nat
                   then Some i else None
               | None => None
               end;
     params_tools := None;
     tool_choice := None |}.

End Tools.

(* ===================================================================== *)
(** ** File discovery (src/oracle/files.js) *)
(* ===================================================================== *)

Module Files.
Import JsString.

Definition MAX_FILE_SIZE_BYTES : N := (1 * 1024 * 1024)%N.

Definition DEFAULT_IGNORED_DIRS : list string :=
  ["node_modules"; "dist"; "coverage"; ".git"; ".turbo"; ".next"; "build"; "tmp"].

(** The structured details an error carries. *)
Inductive details :=
| DetailsPath (path : string)
| DetailsPatterns (patterns excludes : list string)
| DetailsOversized (files : list string) (limitBytes : N).

Inductive error :=
| FileValidationError (message : string) (d : details)
| Error (message : string)
| Rejected (what : string).   (* a rejection of the file system module or of fast-glob *)

Record Stats := { isFile : bool; isDirectory : bool; size : option N }.

(** The [fsModule] option: [stat] and [readFile] reject with [None];
    [nativeFs] says whether it is the default module or marked as a native
    adapter. *)
Record FsModule := {
  stat : string -> option Stats;
  readFile : string -> option string;
  nativeFs : bool;
}.

Record Partitioned := {
  globPatterns : list string;
  excludePatterns : list string;
  literalFiles : list string;
  literalDirectories : list string;
}.

Record FileContent := { path : string; content : string }.

(** [x.toFixed(1)] of the non-negative rational [num / den]: the integer
    [n] nearest to ten times the value (the larger one on a tie), printed
    with its last digit behind the point. *)
Definition toFixed1 (num den : N) : string :=
  let n := ((2 * 10 * num + den) / (2 * den))%N in
  pretty (n / 10)%N +:+ "." +:+ pretty (n mod 10)%N.

Definition formatBytes (size : N) : string :=
  if (1024 * 1024 <=? size)%N then toFixed1 size (1024 * 1024) +:+ " MB"
  else if (1024 <=? size)%N then toFixed1 size 1024 +:+ " KB"
  else pretty size +:+ " B".

Definition toPosix (value : string) : string :=
  (fix go s := match s with
               | EmptyString => EmptyString
               | String c s' => String (if bool_decide (c = "\"%char) then "/"%char else c) (go s')
               end) value.

Section WithEnvironment.
Variable cwd : string.
Variable fsModule : FsModule.
(** node:path *)
Variable path_isAbsolute : string -> bool.
Variable path_resolve : string -> string -> string.
Variable path_relative : string -> string -> string.
(** fast-glob's [isDynamicPattern] *)
Variable isDynamicPattern : string -> bool.
(** The two expansion strategies: one hands the patterns to fast-glob and
    the [.gitignore] files of the working tree, the other walks the
    directories of a caller-supplied file system. *)
Variable expandWithNativeGlob : Partitioned -> outcome string (list string).
Variable expandWithCustomFs : Partitioned -> outcome string (list string).
(** The default-ignore decision for one candidate, given the literal
    inputs and all candidates (which fix the allowed paths and the
    whitelist): the ignored directory name, if any. *)
Variable findIgnoredAncestor : Partitioned -> list string -> string -> option string.

Definition normalizeGlob (pattern : string) : string :=
  if negb (truthy pattern) then EmptyString
  else
    let normalized := if path_isAbsolute pattern then path_relative cwd pattern else pattern in
    let normalized := toPosix normalized in
    if startsWith normalized "./" then
      match normalized with
      | String _ (String _ rest) => rest
      | _ => normalized
      end
    else normalized.

Definition relativePath (targetPath : string) : string :=
  let relative := path_relative cwd targetPath in
  if truthy relative then relative else targetPath.

Fixpoint partition_loop (rawPaths : list string) (result : Partitioned)
  : outcome error Partitioned :=
  match rawPaths with
  | [] => Ok result
  | entry :: rest =>
      let raw := trim entry in
      if negb (truthy raw) then partition_loop rest result
      else if startsWith raw "!" then
        let normalized := normalizeGlob (match raw with String _ r => r | _ => raw end) in
        partition_loop rest
          (if truthy normalized
           then {| globPatterns := globPatterns result;
                   excludePatterns := excludePatterns result ++ [normalized];
                   literalFiles := literalFiles result;
                   literalDirectories := literalDirectories result |}
           else result)
      else if isDynamicPattern raw then
        partition_loop rest
          {| globPatterns := globPatterns result ++ [normalizeGlob raw];
             excludePatterns := excludePatterns result;
             literalFiles := literalFiles result;
             literalDirectories := literalDirectories result |}
      else
        let absolutePath := if path_isAbsolute raw then raw else path_resolve cwd raw in
        match stat fsModule absolutePath with
        | None =>
            Throw (FileValidationError ("Missing file or directory: " +:+ raw)
                                       (DetailsPath absolutePath))
        | Some stats =>
            if isDirectory stats then
              partition_loop rest
                {| globPatterns := globPatterns result;
                   excludePatterns := excludePatterns result;
                   literalFiles := literalFiles result;
                   literalDirectories := literalDirectories result ++ [absolutePath] |}
            else if isFile stats then
              partition_loop rest
                {| globPatterns := globPatterns result;
                   excludePatterns := excludePatterns result;
                   literalFiles := literalFiles result ++ [absolutePath];
                   literalDirectories := literalDirectories result |}
            else
              Throw (FileValidationError ("Not a file or directory: " +:+ raw)
                                         (DetailsPath absolutePath))
        end
  end.

Definition partitionFileInputs (rawPaths : list string) : outcome error Partitioned :=
  partition_loop rawPaths
    {| globPatterns := []; excludePatterns := [];
       literalFiles := []; literalDirectories := [] |}.

(** [stats.size > maxFileSizeBytes], guarded by a truthy limit and a
    numeric size. *)
Definition exceeds (maxFileSizeBytes : N) (stats : Stats) : bool :=
  negb (maxFileSizeBytes =? 0)%N &&
  match size stats with
  | Some sz => (maxFileSizeBytes <? sz)%N
  | None => false
  end.

Definition oversized_entry (filePath : string) (stats : Stats) : string :=
  let relative := if truthy (path_relative cwd filePath)
                  then path_relative cwd filePath else filePath in
  relative +:+ " (" +:+ formatBytes (default 0%N (size stats)) +:+ ")".

(** The loop over the filtered candidates, with its two accumulators. *)
Fixpoint size_loop (maxFileSizeBytes : N) (candidates oversized accepted : list string)
  : outcome error (list string * list string) :=
  match candidates with
  | [] => Ok (oversized, accepted)
  | filePath :: rest =>
      match stat fsModule filePath with
      | None =>
          Throw (FileValidationError
                   ("Missing file or directory: " +:+ relativePath filePath)
                   (DetailsPath filePath))
      | Some stats =>
          if negb (isFile stats) then size_loop maxFileSizeBytes rest oversized accepted
          else if exceeds maxFileSizeBytes stats then
            size_loop maxFileSizeBytes rest
              (oversized ++ [oversized_entry filePath stats]) accepted
          else size_loop maxFileSizeBytes rest oversized (accepted ++ [filePath])
      end
  end.

Fixpoint read_loop (accepted : list string) (files : list FileContent)
  : outcome error (list FileContent) :=
  match accepted with
  | [] => Ok files
  | filePath :: rest =>
      match readFile fsModule filePath with
      | None => Throw (Rejected filePath)
      | Some c => read_loop rest (files ++ [ {| path := filePath; content := c |} ])
      end
  end.

Definition NO_MATCH_MESSAGE : string := "No files matched the provided --file patterns.".

Definition oversized_message (oversized : list string) : string :=
  "The following files exceed the 1 MB limit:" +:+ newline +:+ "- "
    +:+ join (newline +:+ "- ") oversized.

Definition filterCandidates (partitioned : Partitioned) (candidatePaths : list string)
  : list string :=
  List.filter (fun filePath =>
                 match findIgnoredAncestor partitioned candidatePaths filePath with
                 | None => true
                 | Some _ => false
                 end) candidatePaths.

Definition library (r : outcome string (list string)) : outcome error (list string) :=
  match r with
  | Ok l => Ok l
  | Throw what => Throw (Rejected what)
  end.

Definition expandCandidates (partitioned : Partitioned) : outcome error (list string) :=
  if nativeFs fsModule then library (expandWithNativeGlob partitioned)
  else if (0 <? length (globPatterns partitioned))%nat
          || (0 <? length (excludePatterns partitioned))%nat
  then Throw (Error "Glob patterns and exclusions are only supported for on-disk files.")
  else library (expandWithCustomFs partitioned).

(** The second half of [readFiles]: the size check over the filtered
    candidates and the reads of the accepted ones. *)
Definition readCandidates (maxFileSizeBytes : N) (filteredCandidates : list string)
  : outcome error (list FileContent) :=
  try! sizes <- size_loop maxFileSizeBytes filteredCandidates [] [];
  let '(oversized, accepted) := sizes in
  if (0 <? length oversized)%nat then
    Throw (FileValidationError (oversized_message oversized)
             (DetailsOversized oversized maxFileSizeBytes))
  else read_loop accepted [].

Definition readFiles (filePaths : option (list string)) (maxFileSizeBytes : N)
  : outcome error (list FileContent) :=
  match filePaths with
  | None | Some [] => Ok []
  | Some filePaths =>
      try! partitioned <- partitionFileInputs filePaths;
      try! candidatePaths <- expandCandidates partitioned;
      let filteredCandidates := filterCandidates partitioned candidatePaths in
      if (length filteredCandidates =? 0)%nat then
        Throw (FileValidationError NO_MATCH_MESSAGE
                 (DetailsPatterns (globPatterns partitioned) (excludePatterns partitioned)))
      else readCandidates maxFileSizeBytes filteredCandidates
  end.

(** *** The declarative reading of the size rule *)

(** A candidate is a regular file over the limit. *)
Definition is_oversized (maxFileSizeBytes : N) (filePath : string) : bool :=
  match stat fsModule filePath with
  | Some stats => isFile stats && exceeds maxFileSizeBytes stats
  | None => false
  end.

(** A candidate is a regular file within the limit. *)
Definition is_accepted (maxFileSizeBytes : N) (filePath : string) : bool :=
  match stat fsModule filePath with
  | Some stats => isFile stats && negb (exceeds maxFileSizeBytes stats)
  | None => false
  end.

Definition named_with_size (filePath : string) : string :=
  match stat fsModule filePath with
  | Some stats => oversized_entry filePath stats
  | None => EmptyString
  end.

End WithEnvironment.

End Files.

(* ===================================================================== *)
(** ** The session store (src/sessionStore.js) *)
(* ===================================================================== *)

Module SessionStore.
Import JsString.

Definition METADATA_FILENAME : string := "meta.json".
Definition LEGACY_SESSION_FILENAME : string := "session.json".
Definition LEGACY_REQUEST_FILENAME : string := "request.json".
Definition MODELS_DIRNAME : string := "models".
Definition MODEL_JSON_EXTENSION : string := ".json".
Definition MODEL_LOG_EXTENSION : string := ".log".
Definition MAX_STATUS_LIMIT : Z := 1000.
Definition ZOMBIE_MAX_AGE_MS : Z := 60 * 60 * 1000.
Definition DEFAULT_SLUG : string := "session".
Definition MAX_SLUG_WORDS : nat := 5.
Definition MIN_CUSTOM_SLUG_WORDS : nat := 3.
Definition MAX_SLUG_WORD_LENGTH : nat := 10.

Inductive error :=
| Error (message : string)
| TypeError (message : string)
| FsError (code : string) (path : string).

(** *** Slugs *)

Definition slugify (text : option string) (maxWords : nat) : string :=
  let normalized := match text with Some t => toLowerCase t | None => EmptyString end in
  let words := match_runs is_lower_alnum normalized in
  let trimmed := map (slice0 MAX_SLUG_WORD_LENGTH) (take maxWords words) in
  if (0 <? length trimmed)%nat then join "-" trimmed else DEFAULT_SLUG.

Definition countSlugWords (slug : string) : nat :=
  length (List.filter truthy (split "-" slug)).

Definition INVALID_SLUG_MESSAGE : string :=
  "Custom slug must include between " +:+ pretty MIN_CUSTOM_SLUG_WORDS
    +:+ " and " +:+ pretty MAX_SLUG_WORDS +:+ " words.".

Definition normalizeCustomSlug (candidate : string) : outcome error string :=
  let slug := slugify (Some candidate) MAX_SLUG_WORDS in
  let wordCount := countSlugWords slug in
  if (wordCount <? MIN_CUSTOM_SLUG_WORDS)%nat || (MAX_SLUG_WORDS <? wordCount)%nat
  then Throw (Error INVALID_SLUG_MESSAGE)
  else Ok slug.

(** [if (customSlug)]: an absent or empty custom slug counts as none. *)
Definition createSessionId (prompt customSlug : option string) : outcome error string :=
  match customSlug with
  | Some c => if truthy c then normalizeCustomSlug c
              else Ok (slugify prompt MAX_SLUG_WORDS)
  | None => Ok (slugify prompt MAX_SLUG_WORDS)
  end.

(** The slug the specification describes, from the maximal alphanumeric
    runs [ws] of the lower-cased text, and the number of words it keeps. *)
Definition slug_of_words (ws : list string) : string :=
  match ws with
  | [] => "session"
  | _ => join "-" (map (slice0 10) (take 5 ws))
  end.

Definition kept_words (ws : list string) : nat :=
  match ws with
  | [] => 1%nat
  | _ => Nat.min 5 (length ws)
  end.

(** *** Stored values *)

Record LogRef := { log_path : option string; log_bytes : option Z }.

(** One record of [models/<model>.json]. *)
Record ModelRun := {
  model : string;
  run_status : option string;
  startedAt : option string;
  completedAt : option string;
  log : option LogRef;
}.

(** The values of a metadata object's fields; nested objects other than
    the attached model runs are carried by their JSON text. *)
Inductive jsval :=
| JNull
| JBool (b : bool)
| JNum (n : Z)
| JStr (s : string)
| JRuns (runs : list ModelRun)
| JOther (json : string).

(** A metadata object: its own enumerable fields.  The spread
    [{ ...a, ...b }] is the union that prefers [b]. *)
Definition spread (a b : gmap string jsval) : gmap string jsval := b ∪ a.

Definition js_truthy (v : option jsval) : bool :=
  match v with
  | None | Some JNull => false
  | Some (JBool b) => b
  | Some (JNum n) => negb (n =? 0)
  | Some (JStr s) => truthy s
  | Some (JRuns _) | Some (JOther _) => true
  end.

(** [a ?? b] *)
Definition nullish (a b : option jsval) : option jsval :=
  match a with
  | None | Some JNull => b
  | _ => a
  end.

(** *** The disk

    A path holds a directory (with the names in it, in no order that
    matters: [readdir] sorts them, see [readdir_or_empty]), a text file, or
    a file whose text is the JSON of a metadata object or of a model-run
    record.  A JSON file of the other kind, like a text file, does
    not parse as what the reader expects. *)
Inductive node :=
| Dir (entries : list string)
| TextFile (text : string)
| MetaFile (meta : gmap string jsval)
| RunFile (run : ModelRun).

Definition path_join (a b : string) : string := a +:+ "/" +:+ b.
Definition path_isAbsolute (p : string) : bool := startsWith p "/".
Definition endsWith (s suffix : string) : bool :=
  String.prefix (String.rev suffix) (String.rev s).

(** [Array.prototype.sort] with a comparator, for comparators that order
    the array consistently: the stable sort, by insertion.  Where the
    comparator does not, the language leaves the order to the engine, and
    the order of such an array is not read off this definition, but for an
    array in which every element is already in order with the next: that
    one the sort of Node, which starts by looking for such a run, returns
    as it is, and so does this one. *)
Section Sort.
Context {A : Type} (compareFn : A -> A -> Z).

Fixpoint sort_insert (x : A) (l : list A) : list A :=
  match l with
  | [] => [x]
  | y :: l' => if 0 <? compareFn x y then y :: sort_insert x l' else x :: l
  end.

Definition js_sort (l : list A) : list A := foldr sort_insert [] l.
End Sort.

(** Comparison of two strings unit by unit: [strcmp], and what
    [localeCompare] gives on timestamps and on lower-case model names. *)
Definition byCodeUnits (a b : string) : Z :=
  match String.compare a b with
  | Eq => 0
  | Lt => -1
  | Gt => 1
  end.

Section Store.
(** [process.env.ORACLE_HOME_DIR ?? path.join(os.homedir(), '.oracle')] *)
Variable ORACLE_HOME : string.
(** The successive readings of the system clock, in milliseconds. *)
Variable clock : nat -> Z.
(** [Date.parse]; [None] is [NaN]. *)
Variable Date_parse : jsval -> option Z.
(** [new Date(ms).toISOString()] *)
Variable toISOString : Z -> string.
(** [String.prototype.localeCompare] *)
Variable localeCompare : string -> string -> Z.
(** [JSON.stringify], for a JSON file read back as text. *)
Variable JSON_stringify_meta : gmap string jsval -> string.
Variable JSON_stringify_run : ModelRun -> string.

Definition SESSIONS_DIR : string := path_join ORACLE_HOME "sessions".
Definition sessionDir (id : string) : string := path_join SESSIONS_DIR id.
Definition metaPath (id : string) : string := path_join (sessionDir id) METADATA_FILENAME.
Definition requestPath (id : string) : string := path_join (sessionDir id) LEGACY_REQUEST_FILENAME.
Definition legacySessionPath (id : string) : string := path_join (sessionDir id) LEGACY_SESSION_FILENAME.
Definition logPath (id : string) : string := path_join (sessionDir id) "output.log".
Definition modelsDir (id : string) : string := path_join (sessionDir id) MODELS_DIRNAME.
Definition modelJsonPath (id model : string) : string :=
  path_join (modelsDir id) (model +:+ MODEL_JSON_EXTENSION).
Definition modelLogPath (id model : string) : string :=
  path_join (modelsDir id) (model +:+ MODEL_LOG_EXTENSION).
(** [path.relative(sessionDir(id), modelLogPath(id, model))] *)
Definition relativeModelLogPath (model : string) : string :=
  path_join MODELS_DIRNAME (model +:+ MODEL_LOG_EXTENSION).

(** **** Reads of the disk *)

Definition fileExists (d : gmap string node) (targetPath : string) : bool :=
  bool_decide (is_Some (d !! targetPath)).

(** [fs.readFile(p, 'utf8')]; [None] when it rejects. *)
Definition readFile (d : gmap string node) (p : string) : option string :=
  match d !! p with
  | Some (TextFile t) => Some t
  | Some (MetaFile m) => Some (JSON_stringify_meta m)
  | Some (RunFile r) => Some (JSON_stringify_run r)
  | Some (Dir _) | None => None
  end.

(** [JSON.parse(await fs.readFile(p, 'utf8'))] at the two kinds. *)
Definition readMetaJson (d : gmap string node) (p : string) : option (gmap string jsval) :=
  match d !! p with Some (MetaFile m) => Some m | _ => None end.

Definition readRunJson (d : gmap string node) (p : string) : option ModelRun :=
  match d !! p with Some (RunFile r) => Some r | _ => None end.

(** [fs.readdir(p).catch(() => [])].  The runtime hands the names over
    sorted with [strcmp], whatever the order in which they were created. *)
Definition readdir_or_empty (d : gmap string node) (p : string) : list string :=
  match d !! p with Some (Dir entries) => js_sort byCodeUnits entries | _ => [] end.

(** **** Unique session ids *)

Fixpoint unique_loop (fuel : nat) (d : gmap string node)
         (baseSlug candidate : string) (suffix : nat) : option string :=
  match fuel with
  | O => None
  | S fuel' =>
      if fileExists d (sessionDir candidate)
      then unique_loop fuel' d baseSlug (baseSlug +:+ "-" +:+ pretty suffix) (S suffix)
      else Some candidate
  end.

(** The loop leaves after at most as many rounds as the disk has paths,
    plus one (see [unique_loop_total]). *)
Definition ensureUniqueSessionId (d : gmap string node) (baseSlug : string) : option string :=
  unique_loop (S (size d)) d baseSlug baseSlug 2.

(** The [k]-th candidate the loop tries, from [k = 0]. *)
Definition candidate_id (baseSlug : string) (k : nat) : string :=
  match k with
  | O => baseSlug
  | S k' => baseSlug +:+ "-" +:+ pretty (S k)
  end.

(** [fs.mkdir(sessionDir(id), { recursive: true })], the step of session
    creation that claims an id: the name of the new directory also joins the
    names in the sessions directory. *)
Definition claimSessionDir (d : gmap string node) (id : string) : gmap string node :=
  match d !! sessionDir id with
  | Some _ => d
  | None =>
      <[sessionDir id := Dir []]>
        (match d !! SESSIONS_DIR with
         | Some (Dir entries) => <[SESSIONS_DIR := Dir (entries ++ [id])]> d
         | _ => d
         end)
  end.

(** **** Model runs *)

Definition ensureModelLogReference (record : ModelRun) : ModelRun :=
  let logPathRelative :=
    match log record with
    | Some {| log_path := Some p |} => p
    | _ => relativeModelLogPath (model record)
    end in
  {| model := model record;
     run_status := run_status record;
     startedAt := startedAt record;
     completedAt := completedAt record;
     log := Some {| log_path := Some logPathRelative;
                    log_bytes := match log record with
                                 | Some l => log_bytes l
                                 | None => None
                                 end |} |}.

Fixpoint model_run_loop (d : gmap string node) (dir : string) (entries : list string)
         (result : list ModelRun) : list ModelRun :=
  match entries with
  | [] => result
  | entry :: rest =>
      if negb (endsWith entry MODEL_JSON_EXTENSION) then model_run_loop d dir rest result
      else match readRunJson d (path_join dir entry) with
           | Some parsed => model_run_loop d dir rest (result ++ [ensureModelLogReference parsed])
           | None => model_run_loop d dir rest result
           end
  end.

Definition listModelRunFiles (d : gmap string node) (sessionId : string) : list ModelRun :=
  let dir := modelsDir sessionId in
  model_run_loop d dir (readdir_or_empty d dir) [].

Definition attachModelRuns (d : gmap string node) (meta : gmap string jsval)
           (sessionId : string) : gmap string jsval :=
  let runs := listModelRunFiles d sessionId in
  if (length runs =? 0)%nat then meta else <["models" := JRuns runs]> meta.

(** **** The combined log *)

Definition opt_truthy (s : option string) : bool :=
  match s with Some t => truthy t | None => false end.

(** A record has a start time, and which. *)
Definition started (run : ModelRun) : Prop := opt_truthy (startedAt run) = true.
Definition start_of (run : ModelRun) : string := default EmptyString (startedAt run).

Definition compareRuns (a b : ModelRun) : Z :=
  if opt_truthy (startedAt a) && opt_truthy (startedAt b)
  then localeCompare (default EmptyString (startedAt a)) (default EmptyString (startedAt b))
  else localeCompare (model a) (model b).

(** The order in the words of the specification, to compare with
    [compareRuns]: by start time, and by model name for equal start times
    and for a record without a start time. *)
Definition spec_order (a b : ModelRun) : bool :=
  if opt_truthy (startedAt a) && opt_truthy (startedAt b)
  then
    let byStart := localeCompare (default EmptyString (startedAt a))
                                 (default EmptyString (startedAt b)) in
    (byStart <? 0) || ((byStart =? 0) && (localeCompare (model a) (model b) <=? 0))
  else localeCompare (model a) (model b) <=? 0.

Definition runLogFile (sessionId : string) (run : ModelRun) : string :=
  match log run with
  | Some {| log_path := Some p |} =>
      if truthy p
      then if path_isAbsolute p then p else path_join (sessionDir sessionId) p
      else modelLogPath sessionId (model run)
  | _ => modelLogPath sessionId (model run)
  end.

Definition runLogBody (d : gmap string node) (sessionId : string) (run : ModelRun) : string :=
  default EmptyString (readFile d (runLogFile sessionId run)).

Definition logSection (run : ModelRun) (body : string) : string :=
  trimEnd ("=== " +:+ model run +:+ " ===" +:+ newline +:+ body).

Fixpoint log_loop (d : gmap string node) (sessionId : string) (ordered : list ModelRun)
         (sections : list string) (hasContent : bool) : list string * bool :=
  match ordered with
  | [] => (sections, hasContent)
  | run :: rest =>
      let body := runLogBody d sessionId run in
      let hasContent := if (0 <? String.length body)%nat then true else hasContent in
      log_loop d sessionId rest (sections ++ [logSection run body]) hasContent
  end.

Definition readSessionLog (d : gmap string node) (sessionId : string) : string :=
  let runs := listModelRunFiles d sessionId in
  if (length runs =? 0)%nat then default EmptyString (readFile d (logPath sessionId))
  else
    let ordered := js_sort compareRuns runs in
    let '(sections, hasContent) := log_loop d sessionId ordered [] false in
    if negb hasContent then
      match readFile d (logPath sessionId) with
      | Some legacy => legacy
      | None => join (newline +:+ newline) sections
      end
    else join (newline +:+ newline) sections.

(** **** Effects: the disk and the clock

    A call runs in a world made of the disk and the number of clock
    readings taken so far; it returns a value and the next world, or
    throws. *)
Record world := { fs : gmap string node; reads : nat }.

(** The world after one more reading of the clock. *)
Definition tick (w : world) : world := {| fs := fs w; reads := S (reads w) |}.

Definition M (A : Type) : Type := world -> outcome error (A * world).

Definition ret {A} (a : A) : M A := fun w => Ok (a, w).

Definition bind {A B} (m : M A) (k : A -> M B) : M B :=
  fun w => match m w with
           | Ok (a, w') => k a w'
           | Throw e => Throw e
           end.

Notation "'await' x <- m ; k" := (bind m (fun x => k))
  (at level 10, x name, m at level 100, k at level 200).

Definition disk_now : M (gmap string node) := fun w => Ok (fs w, w).

(** [Date.now()] *)
Definition Date_now : M Z :=
  fun w => Ok (clock (reads w), {| fs := fs w; reads := S (reads w) |}).

(** [fs.writeFile(path.join(dir, name), text, 'utf8')]: rejects unless
    [dir] is an existing directory; the name of a new file also joins the
    names in [dir], at no place in particular ([readdir_or_empty] sorts
    them). *)
Definition writeFile (dir name : string) (content : node) : M unit :=
  fun w =>
    let p := path_join dir name in
    match fs w !! dir with
    | Some (Dir entries) =>
        match fs w !! p with
        | Some (Dir _) => Throw (FsError "EISDIR" p)
        | Some _ => Ok (tt, {| fs := <[p := content]> (fs w); reads := reads w |})
        | None =>
            Ok (tt, {| fs := <[p := content]> (<[dir := Dir (entries ++ [name])]> (fs w));
                       reads := reads w |})
        end
    | Some _ => Throw (FsError "ENOTDIR" p)
    | None => Throw (FsError "ENOENT" p)
    end.

(** [fs.mkdir(SESSIONS_DIR, { recursive: true })]; the ancestors of the
    sessions directory lie outside the modelled disk. *)
Definition ensureSessionStorage : M unit :=
  fun w =>
    match fs w !! SESSIONS_DIR with
    | Some (Dir _) => Ok (tt, w)
    | Some _ => Throw (FsError "EEXIST" SESSIONS_DIR)
    | None => Ok (tt, {| fs := <[SESSIONS_DIR := Dir []]> (fs w); reads := reads w |})
    end.

(** **** Zombie detection *)

Definition status_is_running (meta : gmap string jsval) : bool :=
  match meta !! "status" with
  | Some (JStr s) => String.eqb s "running"
  | _ => false
  end.

Definition isZombie (meta : gmap string jsval) : M bool :=
  if negb (status_is_running meta) then ret false
  else
    let reference := nullish (meta !! "startedAt") (meta !! "createdAt") in
    if negb (js_truthy reference) then ret false
    else
      match reference with
      | None => ret false
      | Some r =>
          match Date_parse r with
          | None => ret false
          | Some startedMs =>
              await now <- Date_now;
              ret (ZOMBIE_MAX_AGE_MS <? now - startedMs)
          end
      end.

Definition ZOMBIE_MESSAGE : string := "Session marked as zombie (>60m stale)".

(** The reclassified record, completed at time [t]. *)
Definition zombified (meta : gmap string jsval) (t : Z) : gmap string jsval :=
  <["completedAt" := JStr (toISOString t)]>
    (<["errorMessage" := JStr ZOMBIE_MESSAGE]>
       (<["status" := JStr "error"]> meta)).

Definition markZombie (meta : gmap string jsval) (persist : bool) : M (gmap string jsval) :=
  await zombie <- isZombie meta;
  if negb zombie then ret meta
  else
    await t <- Date_now;
    let updated := zombified meta t in
    if persist then
      match meta !! "id" with
      | Some (JStr id) =>
          await _ <- writeFile (sessionDir id) METADATA_FILENAME (MetaFile updated);
          ret updated
      | _ => fun _ => Throw (TypeError "The path argument must be of type string")
      end
    else ret updated.

(** **** Metadata reads and updates *)

Definition isSessionMetadataRecord (value : gmap string jsval) : bool :=
  match value !! "id" with
  | Some (JStr _) => js_truthy (value !! "status")
  | _ => false
  end.

Definition readModernSessionMetadata (sessionId : string) : M (option (gmap string jsval)) :=
  await d <- disk_now;
  match readMetaJson d (metaPath sessionId) with
  | None => ret None
  | Some parsed =>
      if negb (isSessionMetadataRecord parsed) then ret None
      else
        let enriched := attachModelRuns d parsed sessionId in
        await marked <- markZombie enriched false;
        ret (Some marked)
  end.

Definition readLegacySessionMetadata (sessionId : string) : M (option (gmap string jsval)) :=
  await d <- disk_now;
  match readMetaJson d (legacySessionPath sessionId) with
  | None => ret None
  | Some parsed =>
      let enriched := attachModelRuns d parsed sessionId in
      await marked <- markZombie enriched false;
      ret (Some marked)
  end.

Definition readSessionMetadata (sessionId : string) : M (option (gmap string jsval)) :=
  await modern <- readModernSessionMetadata sessionId;
  match modern with
  | Some m => ret (Some m)
  | None =>
      await legacy <- readLegacySessionMetadata sessionId;
      match legacy with
      | Some l => ret (Some l)
      | None => ret None
      end
  end.

Definition updateSessionMetadata (sessionId : string) (updates : gmap string jsval)
  : M (gmap string jsval) :=
  await modern <- readModernSessionMetadata sessionId;
  await existing <-
    match modern with
    | Some m => ret m
    | None =>
        await legacy <- readLegacySessionMetadata sessionId;
        ret (default {[ "id" := JStr sessionId ]} legacy)
    end;
  let next := spread existing updates in
  await _ <- writeFile (sessionDir sessionId) METADATA_FILENAME (MetaFile next);
  ret next.

(** [new Date(v).getTime()]; [None] is [NaN]. *)
Definition getTime (v : option jsval) : option Z :=
  match v with
  | None => None
  | Some JNull => Some 0
  | Some (JBool b) => Some (if b then 1 else 0)
  | Some (JNum n) => if Z.abs n <=? 8640000000000000 then Some n else None
  | Some other => Date_parse other
  end.

Definition compareCreatedDesc (a b : gmap string jsval) : Z :=
  match getTime (b !! "createdAt"), getTime (a !! "createdAt") with
  | Some tb, Some ta => tb - ta
  | _, _ => 0
  end.

Fixpoint list_loop (entries : list string) (metas : list (gmap string jsval))
  : M (list (gmap string jsval)) :=
  match entries with
  | [] => ret metas
  | entry :: rest =>
      await meta <- readSessionMetadata entry;
      match meta with
      | Some m =>
          await m' <- markZombie m true;
          list_loop rest (metas ++ [m'])
      | None => list_loop rest metas
      end
  end.

Definition listSessionsMetadata : M (list (gmap string jsval)) :=
  await _ <- ensureSessionStorage;
  await d <- disk_now;
  let entries := readdir_or_empty d SESSIONS_DIR in
  await metas <- list_loop entries [];
  ret (js_sort compareCreatedDesc metas).

(** **** What the zombie rule says

    The age reference of a record: its [startedAt], or its [createdAt]
    when [startedAt] is absent, as a time when it parses as one. *)
Definition reference_time (meta : gmap string jsval) : option Z :=
  match meta !! "startedAt" with
  | None | Some JNull =>
      match meta !! "createdAt" with
      | Some v => if js_truthy (Some v) then Date_parse v else None
      | None => None
      end
  | Some v => if js_truthy (Some v) then Date_parse v else None
  end.

(** Running, and started strictly more than 60 minutes before [now]. *)
Definition stale_running (meta : gmap string jsval) (now : Z) : Prop :=
  meta !! "status" = Some (JStr "running") /\
  exists startedMs, reference_time meta = Some startedMs /\
                    now - startedMs > 60 * 60 * 1000.

End Store.

End SessionStore.

(* ===================================================================== *)
(** ** Timestamps

    The store writes its timestamps with [toISOString] and reads them back
    with [Date.parse].  This instance of the two covers that one format,
    [YYYY-MM-DDTHH:mm:ss.sssZ]; it serves to run the store on concrete
    disks. *)
(* ===================================================================== *)

Module IsoDate.

Definition digit (c : ascii) : option Z :=
  let n := Z.of_nat (nat_of_ascii c) in
  if (48 <=? n) && (n <=? 57) then Some (n - 48) else None.

(** Read exactly [n] decimal digits. *)
Fixpoint digits (n : nat) (acc : Z) (s : string) : option (Z * string) :=
  match n with
  | O => Some (acc, s)
  | S n' =>
      match s with
      | String c s' =>
          match digit c with
          | Some v => digits n' (10 * acc + v) s'
          | None => None
          end
      | EmptyString => None
      end
  end.

Definition expect (c : ascii) (s : string) : option string :=
  match s with
  | String x s' => if bool_decide (x = c) then Some s' else None
  | EmptyString => None
  end.

(** Days between 1970-01-01 and a date of the proleptic Gregorian
    calendar. *)
Definition days_from_civil (y m d : Z) : Z :=
  let y' := if m <=? 2 then y - 1 else y in
  let era := y' / 400 in
  let yoe := y' - era * 400 in
  let doy := (153 * (if 2 <? m then m - 3 else m + 9) + 2) / 5 + d - 1 in
  let doe := yoe * 365 + yoe / 4 - yoe / 100 + doy in
  era * 146097 + doe - 719468.

Definition is_leap (y : Z) : bool :=
  ((y mod 4 =? 0) && negb (y mod 100 =? 0)) || (y mod 400 =? 0).

Definition days_in_month (y m : Z) : Z :=
  if m =? 2 then (if is_leap y then 29 else 28)
  else if (m =? 4) || (m =? 6) || (m =? 9) || (m =? 11) then 30
  else 31.

Definition parse (s : string) : option Z :=
  '(y, s) ← digits 4 0 s; s ← expect "-" s;
  '(m, s) ← digits 2 0 s; s ← expect "-" s;
  '(d, s) ← digits 2 0 s; s ← expect "T" s;
  '(hh, s) ← digits 2 0 s; s ← expect ":" s;
  '(mm, s) ← digits 2 0 s; s ← expect ":" s;
  '(ss, s) ← digits 2 0 s; s ← expect "." s;
  '(ms, s) ← digits 3 0 s; s ← expect "Z" s;
  if bool_decide (s = EmptyString)
     && (1 <=? m) && (m <=? 12) && (1 <=? d) && (d <=? days_in_month y m)
     && (hh <=? 23) && (mm <=? 59) && (ss <=? 59)
  then Some ((((days_from_civil y m d * 24 + hh) * 60 + mm) * 60 + ss) * 1000 + ms)
  else None.

Definition civil_from_days (z : Z) : Z * Z * Z :=
  let z := z + 719468 in
  let era := z / 146097 in
  let doe := z - era * 146097 in
  let yoe := (doe - doe / 1460 + doe / 36524 - doe / 146096) / 365 in
  let doy := doe - (365 * yoe + yoe / 4 - yoe / 100) in
  let mp := (5 * doy + 2) / 153 in
  let d := doy - (153 * mp + 2) / 5 + 1 in
  let m := if mp <? 10 then mp + 3 else mp - 9 in
  (yoe + era * 400 + (if m <=? 2 then 1 else 0), m, d).

(** [n] in decimal, padded with zeros to [width] digits. *)
Definition padded (width : nat) (n : Z) : string :=
  let text := pretty (Z.to_N n) in
  JsString.repeat "0" (width - String.length text) +:+ text.

(** For the years 0000 to 9999. *)
Definition toISOString (ms : Z) : string :=
  let days := ms / 86400000 in
  let rest := ms mod 86400000 in
  let '(y, m, d) := civil_from_days days in
  padded 4 y +:+ "-" +:+ padded 2 m +:+ "-" +:+ padded 2 d +:+ "T"
    +:+ padded 2 (rest / 3600000) +:+ ":" +:+ padded 2 (rest / 60000 mod 60) +:+ ":"
    +:+ padded 2 (rest / 1000 mod 60) +:+ "." +:+ padded 3 (rest mod 1000) +:+ "Z".

End IsoDate.

(* ===================================================================== *)
(** ** Concrete inputs

    A file system for [readFiles] and disks for the session store, on which
    the definitions above are run. *)
(* ===================================================================== *)

Module Examples.
Import JsString Files.

Definition demo_stat (p : string) : option Stats :=
  if String.eqb p "/w/exact.bin" then
    Some {| isFile := true; isDirectory := false; size := Some 1048576%N |}
  else if String.eqb p "/w/over.bin" then
    Some {| isFile := true; isDirectory := false; size := Some 1048577%N |}
  else if String.eqb p "/w/huge.bin" then
    Some {| isFile := true; isDirectory := false; size := Some 5767168%N |}
  else None.

Definition demo_fs : FsModule :=
  {| stat := demo_stat;
     readFile := fun p => if String.eqb p "/w/exact.bin" then Some "data" else None;
     nativeFs := true |}.

(** [path.relative("/w", p)] for the paths under [/w]. *)
Definition demo_relative (from to : string) : string :=
  match to with
  | String _ (String _ (String _ rest)) => rest
  | _ => to
  end.

Definition demo_isAbsolute (p : string) : bool := startsWith p "/".
Definition demo_resolve (base p : string) : string := base +:+ "/" +:+ p.

(** A glob expansion for inputs that are all literal files: the files
    themselves. *)
Definition demo_glob (partitioned : Partitioned) : outcome string (list string) :=
  Ok (literalFiles partitioned).

Import SessionStore.

Definition home : string := "/home/u/.oracle".

Definition parse_date (v : jsval) : option Z :=
  match v with
  | JStr s => IsoDate.parse s
  | _ => None
  end.

(** A clock that shows [t] at its first reading and one millisecond more
    at each further one. *)
Definition clock_from (t : Z) (n : nat) : Z := t + Z.of_nat n.

(** The text of a JSON file; no example reads one as text. *)
Definition json_of_meta (m : gmap string jsval) : string := "{}".
Definition json_of_run (r : ModelRun) : string := "{}".

Definition running_since (id started : string) : gmap string jsval :=
  <["id" := JStr id]>
    (<["status" := JStr "running"]>
       (<["createdAt" := JStr started]>
          (<["startedAt" := JStr started]> ∅))).

(** One session with a current-format metadata file and an empty log. *)
Definition session_disk (id : string) (meta : gmap string jsval) : gmap string node :=
  <[SESSIONS_DIR home := Dir [id]]>
    (<[sessionDir home id := Dir ["meta.json"; "output.log"]]>
       (<[metaPath home id := MetaFile meta]>
          (<[logPath home id := TextFile EmptyString]> ∅))).

(** A sessions directory with no session in it. *)
Definition empty_store : gmap string node := <[SESSIONS_DIR home := Dir []]> ∅.

(** A session directory that holds no metadata file yet. *)
Definition bare_session_disk (id : string) : gmap string node :=
  <[SESSIONS_DIR home := Dir [id]]> (<[sessionDir home id := Dir []]> ∅).

Definition finished_run (name started : string) : ModelRun :=
  {| model := name; run_status := Some "completed"; startedAt := Some started;
     completedAt := None; log := None |}.

Definition pending_run (name : string) : ModelRun :=
  {| model := name; run_status := Some "pending"; startedAt := None;
     completedAt := None; log := None |}.

(** A session with a record and a log for each of [runs], and with the
    legacy log [legacy] when there is one. *)
Definition models_disk (id : string) (runs : list (ModelRun * string))
           (legacy : option string) : gmap string node :=
  let files :=
    foldr (fun '(run, text) d =>
             <[modelJsonPath home id (model run) := RunFile run]>
               (<[modelLogPath home id (model run) := TextFile text]> d))
          (<[modelsDir home id :=
               Dir (flat_map (fun '(run, _) => [model run +:+ MODEL_JSON_EXTENSION;
                                                model run +:+ MODEL_LOG_EXTENSION]) runs)]> ∅)
          runs in
  <[SESSIONS_DIR home := Dir [id]]>
    (match legacy with
     | Some text =>
         <[sessionDir home id := Dir ["models"; "output.log"]]>
           (<[logPath home id := TextFile text]> files)
     | None => <[sessionDir home id := Dir ["models"]]> files
     end).

(** Two models that started at the same instant, and answered. *)
Definition two_models_disk : gmap string node :=
  models_disk "compare-two-models"
    [ (finished_run "gpt-5" "2025-01-01T00:00:00.000Z", "gpt-5 answered");
      (finished_run "gpt-5-pro" "2025-01-01T00:00:00.000Z", "gpt-5-pro answered") ]
    (Some EmptyString).

(** Three models, of which one has not started yet. *)
Definition mixed_disk : gmap string node :=
  models_disk "compare-three-models"
    [ (finished_run "gpt-5-pro" "2025-01-01T00:00:00.000Z", "gpt-5-pro answered");
      (finished_run "claude-4.5-sonnet" "2025-01-01T00:00:05.000Z", "claude answered");
      (pending_run "gemini-3-pro", EmptyString) ]
    (Some EmptyString).

(** Two models whose logs are still empty, in a session directory without a
    legacy log. *)
Definition silent_disk : gmap string node :=
  models_disk "compare-two-models"
    [ (pending_run "gpt-5", EmptyString); (pending_run "gpt-5-pro", EmptyString) ]
    None.

End Examples.

(* ===================================================================== *)
(** ** The session store, continued: ranges, model records, paths *)
(* ===================================================================== *)

Module StoreOps.
Import JsString SessionStore.

(** [a.slice(0, end)] of an array; a negative [end] counts from the back. *)
Definition slice_to {A : Type} (stop : Z) (l : list A) : list A :=
  if 0 <=? stop then take (Z.to_nat stop) l
  else take (length l - Z.to_nat (- stop)) l.

(** What [filterSessionsByRange] returns. *)
Record SessionRange := {
  entries : list (gmap string jsval);
  truncated : bool;
  total : nat;
}.

(** What [getSessionPaths] returns. *)
Record SessionPaths := {
  paths_dir : string;
  paths_metadata : string;
  paths_log : string;
  paths_request : string;
}.

(** The fields a partial update of a model record may carry: a key that is
    not given, or a key given with its value ([None] for [undefined]). *)
Record ModelRunUpdate := {
  set_status : option (option string);
  set_startedAt : option (option string);
  set_completedAt : option (option string);
  set_log : option (option LogRef);
}.

(** [path.basename], for paths without a trailing separator. *)
Definition basename (p : string) : string :=
  default EmptyString (last (split "/" p)).

Definition dquote : string := String (ascii_of_nat 34) EmptyString.

(** Names for which [path.join(dir, name)] is [dir], a separator and
    [name]: no separator inside and, for a directory of its own, none of
    the empty name, [.] and [..]. *)
Definition plain_name (name : string) : Prop :=
  all_chars (fun x => negb (bool_decide (x = "/"%char))) name = true.

(** The characters of a slug: [[a-z0-9-]]. *)
Definition is_slug_char (c : ascii) : bool :=
  is_lower_alnum c || bool_decide (c = "-"%char).

Definition path_segment (name : string) : Prop :=
  plain_name name /\ name <> EmptyString /\ name <> "." /\ name <> "..".

Section Store.
Variable ORACLE_HOME : string.
Variable clock : nat -> Z.
Variable Date_parse : jsval -> option Z.
Variable toISOString : Z -> string.

Notation "'await' x <- m ; k" := (bind m (fun x => k))
  (at level 10, x name, m at level 100, k at level 200).

(** *** filterSessionsByRange *)

(** [new Date(meta.createdAt).getTime() >= cutoff] *)
Definition created_since (cutoff : Q) (meta : gmap string jsval) : bool :=
  match getTime Date_parse (meta !! "createdAt") with
  | Some t => Qle_bool cutoff (inject_Z t)
  | None => false
  end.

(** [hours] is a finite number and [limit] a whole one; the defaults of the
    destructured argument are [DEFAULT_HOURS], [false] and [DEFAULT_LIMIT]. *)
Definition filterSessionsByRange (metas : list (gmap string jsval))
           (hours : Q) (includeAll : bool) (limit : Z) : M SessionRange :=
  let maxLimit := Z.min limit MAX_STATUS_LIMIT in
  await filtered <-
    (if negb includeAll then
       await now <- Date_now clock;
       let cutoff := (inject_Z now - hours * 60 * 60 * 1000)%Q in
       ret (List.filter (created_since cutoff) metas)
     else ret metas);
  let limited := slice_to maxLimit filtered in
  let truncated := maxLimit <? Z.of_nat (length filtered) in
  ret {| entries := limited; truncated := truncated; total := length filtered |}.

Definition DEFAULT_HOURS : Q := 24.
Definition DEFAULT_LIMIT : Z := 100.

(** A record created at or after [cutoff] milliseconds. *)
Definition created_at_or_after (cutoff : Q) (meta : gmap string jsval) : Prop :=
  exists t, getTime Date_parse (meta !! "createdAt") = Some t /\ (cutoff <= inject_Z t)%Q.

(** The creation time of a record in milliseconds, for records that have
    one. *)
Definition created_ms (meta : gmap string jsval) : Z :=
  default 0 (getTime Date_parse (meta !! "createdAt")).

(** *** Model records *)

(** One level of [fs.mkdir(p, { recursive: true })]: [parent/name] is left
    alone when it is a directory, created (its name joining the names in
    [parent], which [readdir_or_empty] sorts) when it is absent, and in the
    way when it is a file. *)
Definition mkdir_in (parent name : string) : M unit :=
  fun w =>
    let p := path_join parent name in
    match fs w !! p with
    | Some (Dir _) => Ok (tt, w)
    | Some _ => Throw (FsError "EEXIST" p)
    | None =>
        match fs w !! parent with
        | Some (Dir listed) =>
            Ok (tt, {| fs := <[p := Dir []]> (<[parent := Dir (listed ++ [name])]> (fs w));
                       reads := reads w |})
        | Some _ => Throw (FsError "ENOTDIR" p)
        | None => Throw (FsError "ENOENT" p)
        end
    end.

(** [ensureDir(modelsDir(sessionId))]: the sessions directory, the session
    directory and its [models] directory, each created when absent. *)
Definition ensureModelsDir (sessionId : string) : M unit :=
  await _ <- ensureSessionStorage ORACLE_HOME;
  await _ <- mkdir_in (SESSIONS_DIR ORACLE_HOME) sessionId;
  mkdir_in (sessionDir ORACLE_HOME sessionId) MODELS_DIRNAME.

Definition readModelRunFile (d : gmap string node) (sessionId model : string)
  : option ModelRun :=
  match readRunJson d (modelJsonPath ORACLE_HOME sessionId model) with
  | Some parsed => Some (ensureModelLogReference parsed)
  | None => None
  end.

(** [{ ...existing, ...updates, model }] *)
Definition mergeModelRun (existing : ModelRun) (updates : ModelRunUpdate) (model : string)
  : ModelRun :=
  {| SessionStore.model := model;
     run_status := default (run_status existing) (set_status updates);
     startedAt := default (startedAt existing) (set_startedAt updates);
     completedAt := default (completedAt existing) (set_completedAt updates);
     log := default (log existing) (set_log updates) |}.

Definition pendingModelRun (model : string) : ModelRun :=
  {| SessionStore.model := model; run_status := Some "pending"; startedAt := None;
     completedAt := None; log := None |}.

Definition updateModelRunMetadata (sessionId model : string) (updates : ModelRunUpdate)
  : M ModelRun :=
  await _ <- ensureModelsDir sessionId;
  await d <- disk_now;
  let existing := default (pendingModelRun model) (readModelRunFile d sessionId model) in
  let next := ensureModelLogReference (mergeModelRun existing updates model) in
  await _ <- writeFile (modelsDir ORACLE_HOME sessionId) (model +:+ MODEL_JSON_EXTENSION)
                       (RunFile next);
  ret next.

Definition readModelRunMetadata (sessionId model : string) : M (option ModelRun) :=
  await d <- disk_now;
  ret (readModelRunFile d sessionId model).

(** The names in the directory at [p], as the disk holds them;
    [readdir_or_empty] is this list, sorted. *)
Definition stored_names (d : gmap string node) (p : string) : list string :=
  match d !! p with Some (Dir entries) => entries | _ => [] end.

(** The record that [listModelRunFiles] takes from the entry [entry] of the
    [models] directory. *)
Definition listed_from (d : gmap string node) (sessionId entry : string) (run : ModelRun)
  : Prop :=
  In entry (readdir_or_empty d (modelsDir ORACLE_HOME sessionId)) /\
  endsWith entry MODEL_JSON_EXTENSION = true /\
  exists parsed,
    readRunJson d (path_join (modelsDir ORACLE_HOME sessionId) entry) = Some parsed /\
    run = ensureModelLogReference parsed.

(** Nothing but a directory lies at [p]; no directory lies at [p]. *)
Definition dir_or_absent (d : gmap string node) (p : string) : Prop :=
  match d !! p with
  | Some (Dir _) | None => True
  | Some _ => False
  end.

Definition not_a_directory (d : gmap string node) (p : string) : Prop :=
  match d !! p with
  | Some (Dir _) => False
  | _ => True
  end.

(** *** getSessionPaths *)

Fixpoint missing_loop (d : gmap string node) (required missing : list string) : list string :=
  match required with
  | [] => missing
  | file :: rest =>
      if negb (fileExists d file) then missing_loop d rest (missing ++ [basename file])
      else missing_loop d rest missing
  end.

Definition getSessionPaths (d : gmap string node) (sessionId : string)
  : outcome error SessionPaths :=
  let dir := sessionDir ORACLE_HOME sessionId in
  let metadata := metaPath ORACLE_HOME sessionId in
  let log := logPath ORACLE_HOME sessionId in
  let request := requestPath ORACLE_HOME sessionId in
  let required := [metadata; log] in
  let missing := missing_loop d required [] in
  if (0 <? length missing)%nat then
    Throw (Error ("Session " +:+ dquote +:+ sessionId +:+ dquote +:+ " is missing: "
                    +:+ join ", " missing))
  else Ok {| paths_dir := dir; paths_metadata := metadata;
             paths_log := log; paths_request := request |}.

End Store.

End StoreOps.

(* ===================================================================== *)
(** ** The session store, continued: creating a session *)
(* ===================================================================== *)

Module SessionInit.
Import JsString SessionStore StoreOps.

(** The run options that [initializeSession] looks at.  [browserConfig] is
    carried by its JSON text; the options that are only copied into the
    stored [options] object are carried by [options_json] below. *)
Record RunOptions := {
  opt_prompt : option string;
  opt_slug : option string;
  opt_mode : option string;
  opt_model : option string;
  opt_models : option (list string);
  opt_browserConfig : option string;
}.

(** One [fs.writeFile(path.join(dir, name), content, 'utf8')]. *)
Definition write : Type := string * string * node.

(** [a || b] on strings. *)
Definition or_text (a : option string) (b : string) : string :=
  match a with
  | Some s => if truthy s then s else b
  | None => b
  end.

(** A field of an object literal.  One whose value is [undefined] is not
    written by [JSON.stringify] and reads as [undefined]: it is left out. *)
Definition with_field (k : string) (v : option jsval) (m : gmap string jsval)
  : gmap string jsval :=
  match v with
  | Some x => <[k := x]> m
  | None => m
  end.

(** A write puts a file, not a directory. *)
Definition is_file (content : node) : Prop :=
  match content with
  | Dir _ => False
  | _ => True
  end.

(** No path lies below a session directory that does not exist. *)
Definition store_closed (ORACLE_HOME : string) (d : gmap string node) : Prop :=
  forall id rest,
    d !! sessionDir ORACLE_HOME id = None ->
    d !! path_join (sessionDir ORACLE_HOME id) rest = None.

Section Init.
Variable ORACLE_HOME : string.
Variable clock : nat -> Z.
Variable toISOString : Z -> string.
Variable DEFAULT_MODEL : string.

(** The JSON text of the stored [options] object: the options given, with
    [slug], [mode] and [models] as the session has them. *)
Variable options_json : RunOptions -> string -> string -> list string -> string.

(** The order in which the writes started together under [Promise.all]
    reach the disk, from the writes of each task in program order. *)
Variable schedule : list (list write) -> list write.

Notation "'await' x <- m ; k" := (bind m (fun x => k))
  (at level 10, x name, m at level 100, k at level 200).

Definition modelList (options : RunOptions) : list string :=
  match opt_models options with
  | Some (m :: ms) => m :: ms
  | _ =>
      match opt_model options with
      | Some m => if truthy m then [m] else []
      | None => []
      end
  end.

(** [modelList[0] ?? options.model] *)
Definition primaryModel (options : RunOptions) : option string :=
  match head (modelList options) with
  | Some m => Some m
  | None => opt_model options
  end.

(** The models that get a record and a log of their own. *)
Definition runNames (options : RunOptions) : list string :=
  if (0 <? length (modelList options))%nat then modelList options
  else [default DEFAULT_MODEL (primaryModel options)].

Definition initialMetadata (sessionId createdAt : string) (options : RunOptions)
           (cwd notifications : option string) : gmap string jsval :=
  let mode := default "api" (opt_mode options) in
  <["id" := JStr sessionId]>
    (<["createdAt" := JStr createdAt]>
       (<["status" := JStr "pending"]>
          (<["promptPreview" := JStr (slice0 160 (or_text (opt_prompt options) EmptyString))]>
             (with_field "model" (JStr <$> primaryModel options)
                (<["models" := JRuns (map pendingModelRun (modelList options))]>
                   (with_field "cwd" (JStr <$> cwd)
                      (<["mode" := JStr mode]>
                         (with_field "browser"
                            ((fun config => JOther ("{" +:+ dquote +:+ "config" +:+ dquote
                                                        +:+ ":" +:+ config +:+ "}"))
                               <$> opt_browserConfig options)
                            (with_field "notifications" (JOther <$> notifications)
                               (<["options" :=
                                    JOther (options_json options sessionId mode
                                                         (modelList options))]> ∅)))))))))).

(** [{ model, status: 'pending', log: { path } }] *)
Definition initialModelRun (modelName : string) : ModelRun :=
  {| model := modelName; run_status := Some "pending"; startedAt := None;
     completedAt := None;
     log := Some {| log_path := Some (relativeModelLogPath modelName);
                    log_bytes := None |} |}.

(** The two writes of one model's task: its record, then its empty log. *)
Definition model_writes (sessionId modelName : string) : list write :=
  [ (modelsDir ORACLE_HOME sessionId, modelName +:+ MODEL_JSON_EXTENSION,
     RunFile (initialModelRun modelName));
    (modelsDir ORACLE_HOME sessionId, modelName +:+ MODEL_LOG_EXTENSION,
     TextFile EmptyString) ].

Fixpoint write_all (writes : list write) : M unit :=
  match writes with
  | [] => ret tt
  | (dir, name, content) :: rest =>
      await _ <- writeFile dir name content;
      write_all rest
  end.

(** The loop of [ensureUniqueSessionId] ends on every disk (see
    [unique_loop_total]); the branch for a loop that does not end is never
    taken.  A write under [Promise.all] that fails ends the call. *)
Definition initializeSession (options : RunOptions) (cwd notifications : option string)
  : M (gmap string jsval) :=
  await _ <- ensureSessionStorage ORACLE_HOME;
  match createSessionId (Some (or_text (opt_prompt options) DEFAULT_SLUG)) (opt_slug options)
  with
  | Throw e => fun _ => Throw e
  | Ok baseSlug =>
      await d <- disk_now;
      match ensureUniqueSessionId ORACLE_HOME d baseSlug with
      | None => fun _ => Throw (Error "no session id is free")
      | Some sessionId =>
          await _ <- mkdir_in (SESSIONS_DIR ORACLE_HOME) sessionId;
          await now <- Date_now clock;
          let metadata :=
            initialMetadata sessionId (toISOString now) options cwd notifications in
          await _ <- mkdir_in (sessionDir ORACLE_HOME sessionId) MODELS_DIRNAME;
          await _ <- writeFile (sessionDir ORACLE_HOME sessionId) METADATA_FILENAME
                               (MetaFile metadata);
          await _ <- write_all (schedule (map (model_writes sessionId) (runNames options)));
          await _ <- writeFile (sessionDir ORACLE_HOME sessionId) "output.log"
                               (TextFile EmptyString);
          ret metadata
      end
  end.

End Init.

End SessionInit.

(* ===================================================================== *)
(** ** File sections and token statistics
       (src/oracle/files.js, src/oracle/tokenStats.ts) *)
(* ===================================================================== *)

Module FileSections.
Import JsString Files.

Record FileSection := {
  index : nat;
  absolutePath : string;
  displayPath : string;
  sectionText : string;
  section_content : string;
}.

(** One row of the token report; [percent] is absent without a budget. *)
Record FileTokenStat := {
  stat_path : string;
  stat_displayPath : string;
  tokens : Z;
  percent : option Q;
}.

Record FileTokenStats := { stats : list FileTokenStat; totalTokens : Z }.

Section WithCwd.
Variable cwd : string.
Variable path_relative : string -> string -> string.
(** The tokenizer with its options applied; it counts whole tokens. *)
Variable tokenizer : string -> Z.

(** The callback of [files.map((file, index) => ...)]. *)
Definition createFileSection (i : nat) (file : FileContent) : FileSection :=
  let relative :=
    toPosix (let r := path_relative cwd (path file) in if truthy r then r else path file) in
  let sectionText :=
    join newline [ "### File " +:+ pretty (i + 1)%nat +:+ ": " +:+ relative;
                   "```";
                   trimEnd (content file);
                   "```" ] in
  {| index := i + 1;
     absolutePath := path file;
     displayPath := relative;
     sectionText := sectionText;
     section_content := content file |}.

Definition createFileSections (files : list FileContent) : list FileSection :=
  imap createFileSection files.

(** src/oracle/tokenStats.ts *)
Definition getFileTokenStats (files : list FileContent) (inputTokenBudget : option Z)
  : FileTokenStats :=
  if (length files =? 0)%nat then {| stats := []; totalTokens := 0 |}
  else
    let sections := createFileSections files in
    let stats :=
      SessionStore.js_sort (fun a b => tokens b - tokens a)
        (map (fun section =>
                let tokens := tokenizer (sectionText section) in
                let percent :=
                  match inputTokenBudget with
                  | Some budget =>
                      if budget =? 0 then None
                      else Some (inject_Z tokens / inject_Z budget * 100)%Q
                  | None => None
                  end in
                {| stat_path := absolutePath section;
                   stat_displayPath := displayPath section;
                   tokens := tokens;
                   percent := percent |})
             sections) in
    let totalTokens := fold_left (fun sum entry => sum + tokens entry) stats 0 in
    {| stats := stats; totalTokens := totalTokens |}.

End WithCwd.

(** A string without a backslash. *)
Definition no_backslash (s : string) : Prop :=
  all_chars (fun c => negb (bool_decide (c = "\"%char))) s = true.

End FileSections.

(** What the partition of the inputs says of a path: a regular file that
    is no directory, a directory. *)
Module FilesSpec.
Import JsString Files.

Section WithFs.
Variable fsModule : FsModule.

Definition is_regular_file (absolutePath : string) : Prop :=
  exists stats, stat fsModule absolutePath = Some stats /\
                isDirectory stats = false /\ isFile stats = true.

Definition is_directory (absolutePath : string) : Prop :=
  exists stats, stat fsModule absolutePath = Some stats /\ isDirectory stats = true.

End WithFs.

(** The number of inputs a partition holds. *)
Definition partitioned_count (result : Partitioned) : nat :=
  length (globPatterns result) + length (excludePatterns result)
  + length (literalFiles result) + length (literalDirectories result).

End FilesSpec.

(* ===================================================================== *)
(** ** The prompt with its files (src/oracle/request.js) *)
(* ===================================================================== *)

Module PromptRequest.
Import JsString Files FileSections.

Section WithCwd.
Variable cwd : string.
Variable path_relative : string -> string -> string.

Definition buildPrompt (basePrompt : string) (files : list FileContent) : string :=
  if (length files =? 0)%nat then basePrompt
  else
    let sections := createFileSections cwd path_relative files in
    let sectionText := join (newline +:+ newline) (map sectionText sections) in
    trim basePrompt +:+ newline +:+ newline +:+ sectionText.

End WithCwd.

End PromptRequest.

(* ===================================================================== *)
(** ** The prompt as markdown (src/oracle/promptAssembly.ts) *)
(* ===================================================================== *)

Module PromptMarkdown.
Import JsString Markdown.

Record PromptFileSection := { displayPath : string; content : string }.

Definition is_newline (c : ascii) : bool := bool_decide (c = "010"%char).

(** [s.replace(/\n{3,}/g, '\n\n')]: every maximal run of three or more
    line feeds becomes two, shorter runs stay.  [kept] counts the line feeds
    of the current run that are already in the output. *)
Fixpoint collapse_from (kept : nat) (s : string) : string :=
  match s with
  | EmptyString => EmptyString
  | String c s' =>
      if is_newline c then
        if (kept <? 2)%nat then String c (collapse_from (S kept) s')
        else collapse_from kept s'
      else String c (collapse_from 0 s')
  end.

Definition collapseBlankLines (s : string) : string := collapse_from 0 s.

Section WithPath.
Variable path_extname : string -> string.

Definition buildPromptMarkdown (systemPrompt userPrompt : string)
           (sections : list PromptFileSection) : string :=
  let lines :=
    ["[SYSTEM]"; systemPrompt; EmptyString; "[USER]"; userPrompt; EmptyString]
      ++ map (fun section =>
                formatFileSection path_extname (displayPath section) (content section))
             sections in
  trimEnd (collapseBlankLines (join newline lines)).

End WithPath.

(** The number of line feeds [s] starts with. *)
Fixpoint leading_newlines (s : string) : nat :=
  match s with
  | String c s' => if is_newline c then S (leading_newlines s') else 0
  | EmptyString => 0
  end.

End PromptMarkdown.

(* ===================================================================== *)
(** ** Requests and responses of the Anthropic adapter
       (src/oracle/request.js, src/oracle/anthropic.ts) *)
(* ===================================================================== *)

Module Anthropic.
Import JsString Tools.

(** The model configuration as far as the request reads it; [reasoning]
    is the reasoning setting, when the model has one. *)
Record ModelConfig := { config_model : string; config_reasoning : option string }.

Record RequestOptions := {
  modelConfig : ModelConfig;
  systemPrompt : string;
  userPrompt : string;
  searchEnabled : bool;
  maxOutputTokens : option Z;
  wants_background : bool;
  storeResponse : bool;
}.

(** The request body with its [reasoning] field beside it. *)
Record BuiltRequest := { request_body : OracleRequestBody; reasoning : option string }.

Definition buildRequestBody (options : RequestOptions) : BuiltRequest :=
  {| request_body :=
       {| body_model := config_model (modelConfig options);
          instructions := Some (systemPrompt options);
          input := Some [ {| role := "user";
                             content := Some [ PieceText (Some (userPrompt options)) ] |} ];
          tools := if searchEnabled options then Some [WebSearchPreview] else None;
          max_output_tokens := maxOutputTokens options;
          background := if wants_background options then Some true else None;
          store := if storeResponse options then Some true else None |};
     reasoning := config_reasoning (modelConfig options) |}.

(** *** Responses *)










End Anthropic.

(* ===================================================================== *)
(** ** Chrome cookies (src/browser/chromeCookies.ts, src/browser/cookies.js) *)
(* ===================================================================== *)

Module ChromeCookies.
Import JsString Cookies.

(** A cookie as the Chrome cookie reader returns it; [Secure] and
    [HttpOnly] are given when they are booleans. *)
Record RawCookie := {
  raw_name : option string;
  raw_value : option string;
  raw_domain : option string;
  raw_path : option string;
  raw_expires : option number;
  raw_Secure : option bool;
  raw_HttpOnly : option bool;
}.

(** [CookieParam]: the cookie handed to the browser.  Cookies read from
    Chrome have every field but [url]; inline cookies may lack any. *)
Record CookieParam := {
  name : option string;
  value : option string;
  domain : option string;
  path : option string;
  expires : option number;
  secure : option bool;
  httpOnly : option bool;
  url : option string;
}.

Inductive error :=
| Error (message : string)
| TypeError (message : string)
| ChromeCookieSyncError (message : string).

(** [error instanceof Error ? error.message : String(error)] *)
Definition message_of (e : error) : string :=
  match e with
  | Error m | TypeError m | ChromeCookieSyncError m => m
  end.

(** [value.charCodeAt(i) < 0x20] *)
Definition is_control (c : ascii) : bool := (code c <? 32)%nat.

(** The loop advances over the leading control characters; the rest is
    returned. *)
Fixpoint cleanValue (value : string) : string :=
  match value with
  | String c rest => if is_control c then cleanValue rest else value
  | EmptyString => EmptyString
  end.

Definition normalizeCookie (cookie : RawCookie) (fallbackHost : string) : option CookieParam :=
  match raw_name cookie with
  | None => None
  | Some cookie_name =>
      if negb (truthy cookie_name) then None
      else
        let domain :=
          match raw_domain cookie with
          | Some d => if startsWith d "."
                      then match d with String _ rest => rest | EmptyString => d end
                      else d
          | None => fallbackHost
          end in
        Some {| name := Some cookie_name;
                value := Some (cleanValue (default EmptyString (raw_value cookie)));
                domain := Some domain;
                path := Some (default "/" (raw_path cookie));
                expires := normalizeExpiration (raw_expires cookie);
                secure := Some (default true (raw_Secure cookie));
                httpOnly := Some (default false (raw_HttpOnly cookie));
                url := None |}
  end.

(** [`${cookie.domain ?? fallbackHost}:${cookie.name}`]; an absent name
    prints as [undefined]. *)
Definition cookie_key (cookie : CookieParam) (fallbackHost : string) : string :=
  default fallbackHost (domain cookie) +:+ ":" +:+ default "undefined" (name cookie).

(** A [Map] from keys to cookies, in insertion order. *)
Definition has (merged : list (string * CookieParam)) (key : string) : bool :=
  existsb (fun entry => String.eqb (fst entry) key) merged.

Definition values (merged : list (string * CookieParam)) : list CookieParam :=
  map snd merged.

(** [Array.from(new Set(l))]: the first occurrence of each element, in
    order. *)
Fixpoint unique_from (seen l : list string) : list string :=
  match l with
  | [] => []
  | x :: rest =>
      if existsb (String.eqb x) seen then unique_from seen rest
      else x :: unique_from (seen ++ [x]) rest
  end.

Definition unique (l : list string) : list string := unique_from [] l.

Section Load.
(** [new URL(u).hostname]; [None] when the constructor throws. *)
Variable hostname : string -> option string.
(** [stripQuery], which falls back to its argument for what is no URL. *)
Variable stripQuery : string -> string.
Variable COOKIE_URLS : list string.
(** [resolveCookieFilePath] for the profile and cookie path of the call:
    the cookie file, or the error of a missing one. *)
Variable resolveCookieFilePath : outcome error string.
(** [chromeCookies.getCookiesPromised(u, 'puppeteer', cookieFile)]: the
    cookies when an array comes back, [None] for anything else. *)
Variable getCookiesPromised : string -> string -> outcome error (option (list RawCookie)).

(** [filterNames && filterNames.size > 0 && !filterNames.has(cookie.name)] *)
Definition filtered_out (filterNames : option (list string)) (cookie : RawCookie) : bool :=
  match filterNames with
  | Some names =>
      (0 <? length names)%nat
      && negb (match raw_name cookie with
               | Some n => existsb (String.eqb n) names
               | None => false
               end)
  | None => false
  end.

(** The loop over the cookies of one URL. *)
Fixpoint merge_raw (filterNames : option (list string)) (fallbackHost : string)
         (raw : list RawCookie) (merged : list (string * CookieParam))
  : list (string * CookieParam) :=
  match raw with
  | [] => merged
  | cookie :: rest =>
      if filtered_out filterNames cookie then merge_raw filterNames fallbackHost rest merged
      else match normalizeCookie cookie fallbackHost with
           | None => merge_raw filterNames fallbackHost rest merged
           | Some normalized =>
               let key := cookie_key normalized fallbackHost in
               if negb (has merged key)
               then merge_raw filterNames fallbackHost rest (merged ++ [(key, normalized)])
               else merge_raw filterNames fallbackHost rest merged
           end
  end.

(** The loop over the URLs. *)
Fixpoint load_loop (cookieFile : string) (filterNames : option (list string))
         (urls : list string) (merged : list (string * CookieParam))
  : outcome error (list (string * CookieParam)) :=
  match urls with
  | [] => Ok merged
  | u :: rest =>
      try! raw <- getCookiesPromised u cookieFile;
      match raw with
      | None => load_loop cookieFile filterNames rest merged
      | Some cookies =>
          match hostname u with
          | None => Throw (TypeError "Invalid URL")
          | Some fallbackHost =>
              load_loop cookieFile filterNames rest
                        (merge_raw filterNames fallbackHost cookies merged)
          end
      end
  end.

Definition urlsToCheck (targetUrl : string) : list string :=
  unique (stripQuery targetUrl :: COOKIE_URLS).

Definition loadChromeCookies (targetUrl : string) (filterNames : option (list string))
  : outcome error (list CookieParam) :=
  let urls := urlsToCheck targetUrl in
  try! cookieFile <- resolveCookieFilePath;
  try! merged <- load_loop cookieFile filterNames urls [];
  Ok (values merged).

(** *** src/browser/cookies.js *)

(** [new Set(names.map((name) => name.trim()).filter(Boolean))], or [null]
    for no names. *)
Definition normalizeCookieNames (names : option (list string)) : option (list string) :=
  match names with
  | None => None
  | Some l => if (length l =? 0)%nat then None
              else Some (unique (List.filter truthy (map trim l)))
  end.

Fixpoint merge_loaded (fallbackHostname : string) (cookies : list CookieParam)
         (merged : list (string * CookieParam)) : list (string * CookieParam) :=
  match cookies with
  | [] => merged
  | cookie :: rest =>
      let key := cookie_key cookie fallbackHostname in
      if negb (has merged key)
      then merge_loaded fallbackHostname rest (merged ++ [(key, cookie)])
      else merge_loaded fallbackHostname rest merged
  end.

Fixpoint read_loop (allowlist : option (list string)) (urls : list string)
         (merged : list (string * CookieParam))
  : outcome error (list (string * CookieParam)) :=
  match urls with
  | [] => Ok merged
  | candidateUrl :: rest =>
      try! cookies <- loadChromeCookies candidateUrl allowlist;
      match hostname candidateUrl with
      | None => Throw (TypeError "Invalid URL")
      | Some fallbackHostname =>
          read_loop allowlist rest (merge_loaded fallbackHostname cookies merged)
      end
  end.

Definition readChromeCookies (u : string) (filterNames : option (list string))
  : outcome error (list CookieParam) :=
  let urls := urlsToCheck u in
  let allowlist := normalizeCookieNames filterNames in
  try! merged <- read_loop allowlist urls [];
  Ok (values merged).

(** [a ?? b] for an optional field. *)
Definition or_default {A} (a : option A) (b : A) : option A :=
  match a with Some x => Some x | None => Some b end.

(** [cookie?.name] is truthy. *)
Definition has_name (cookie : CookieParam) : bool :=
  match name cookie with Some n => truthy n | None => false end.

(** The cookie [normalized] of the loop: the cookie given, with the
    fallbacks for the fields it lacks and its expiration converted. *)
Definition normalized_inline (fallbackHost : string) (cookie : CookieParam) : CookieParam :=
  {| name := name cookie;
     value := or_default (value cookie) EmptyString;
     domain := or_default (domain cookie) fallbackHost;
     path := or_default (path cookie) "/";
     expires := normalizeExpiration (expires cookie);
     secure := or_default (secure cookie) true;
     httpOnly := or_default (httpOnly cookie) false;
     url := url cookie |}.

Fixpoint inline_loop (fallbackHost : string) (rawCookies : list CookieParam)
         (merged : list (string * CookieParam)) : list (string * CookieParam) :=
  match rawCookies with
  | [] => merged
  | cookie :: rest =>
      if negb (has_name cookie)
      then inline_loop fallbackHost rest merged
      else
        let normalized := normalized_inline fallbackHost cookie in
        let key := cookie_key normalized fallbackHost in
        if negb (has merged key)
        then inline_loop fallbackHost rest (merged ++ [(key, normalized)])
        else inline_loop fallbackHost rest merged
  end.

Definition normalizeInlineCookies (rawCookies : list CookieParam) (fallbackHost : string)
  : list CookieParam :=
  values (inline_loop fallbackHost rawCookies []).

Definition opt_truthy (s : option string) : bool :=
  match s with Some t => truthy t | None => false end.

Definition attachUrl (cookie : CookieParam) (fallbackUrl : string) : CookieParam :=
  let with_url :=
    if negb (opt_truthy (url cookie)) then
      if negb (opt_truthy (domain cookie))
         || match domain cookie with Some d => String.eqb d "localhost" | None => false end
      then Some fallbackUrl
      else if negb (startsWith (default EmptyString (domain cookie)) ".")
           then Some ("https://" +:+ default EmptyString (domain cookie))
           else url cookie
    else url cookie in
  {| name := name cookie;
     value := value cookie;
     domain := if opt_truthy with_url then None else domain cookie;
     path := path cookie;
     expires := expires cookie;
     secure := secure cookie;
     httpOnly := httpOnly cookie;
     url := with_url |}.

(** *** syncCookies *)

(** [Network.setCookie]: the [success] flag of its result, when the result
    has one, or the error it rejects with. *)
Variable Network_setCookie : CookieParam -> outcome error (option bool).

(** The loop over the cookies, with the count of applied cookies and the
    lines handed to the logger. *)
Fixpoint apply_loop (u : string) (cookies : list CookieParam) (applied : nat)
         (logged : list string) : nat * list string :=
  match cookies with
  | [] => (applied, logged)
  | cookie :: rest =>
      let cookieWithUrl := attachUrl cookie u in
      match Network_setCookie cookieWithUrl with
      | Ok result =>
          apply_loop u rest (if default false result then S applied else applied) logged
      | Throw e =>
          apply_loop u rest applied
            (logged ++ ["Failed to set cookie " +:+ default "undefined" (name cookie)
                          +:+ ": " +:+ message_of e])
      end
  end.

(** The cookies to apply: the inline ones when there are any, else those
    read from Chrome. *)
Definition cookiesToSync (u : string) (filterNames : option (list string))
           (inlineCookies : option (list CookieParam)) : outcome error (list CookieParam) :=
  match inlineCookies with
  | Some (c :: l) =>
      match hostname u with
      | Some host => Ok (normalizeInlineCookies (c :: l) host)
      | None => Throw (TypeError "Invalid URL")
      end
  | _ => readChromeCookies u filterNames
  end.

(** The result and the lines logged. *)
Definition syncCookies (u : string) (allowErrors : bool) (filterNames : option (list string))
           (inlineCookies : option (list CookieParam)) : outcome error nat * list string :=
  match cookiesToSync u filterNames inlineCookies with
  | Ok cookies =>
      if (length cookies =? 0)%nat then (Ok 0%nat, [])
      else let '(applied, logged) := apply_loop u cookies 0 [] in (Ok applied, logged)
  | Throw e =>
      if allowErrors
      then (Ok 0%nat, ["Cookie sync failed (continuing with override): " +:+ message_of e])
      else (Throw (ChromeCookieSyncError (message_of e)), [])
  end.

(** The browser accepted the cookie: [setCookie] returned a truthy
    [success]. *)
Definition accepted (u : string) (cookie : CookieParam) : bool :=
  match Network_setCookie (attachUrl cookie u) with
  | Ok (Some true) => true
  | _ => false
  end.

Definition rejected (u : string) (cookie : CookieParam) : bool :=
  match Network_setCookie (attachUrl cookie u) with
  | Throw _ => true
  | Ok _ => false
  end.

End Load.

(** *** What holds of a cookie read from Chrome *)

Definition starts_with_control (s : string) : bool := starts_with_char is_control s.

(** The key of a cookie that has a domain and a name. *)
Definition key_of (cookie : CookieParam) : string := cookie_key cookie EmptyString.

(** Every field but [url] is set, the name is not empty and the value
    does not start with a control character. *)
Definition well_formed (cookie : CookieParam) : Prop :=
  (exists n, name cookie = Some n /\ n <> EmptyString) /\
  (exists v, value cookie = Some v /\ starts_with_control v = false) /\
  is_Some (domain cookie) /\ is_Some (path cookie) /\
  is_Some (secure cookie) /\ is_Some (httpOnly cookie) /\
  url cookie = None.

(** The entries of a [Map] of cookies: distinct keys, each the key of its
    cookie, and every cookie with property [P]. *)
Definition keyed (P : CookieParam -> Prop) (merged : list (string * CookieParam)) : Prop :=
  List.NoDup (map fst merged) /\
  Forall (fun entry => fst entry = key_of (snd entry) /\ P (snd entry)) merged.

(** An inline cookie after normalization: it has a name that is not
    empty, and every defaulted field is set. *)
Definition inline_normalized (cookie : CookieParam) : Prop :=
  (exists n, name cookie = Some n /\ n <> EmptyString) /\
  is_Some (value cookie) /\ is_Some (domain cookie) /\ is_Some (path cookie) /\
  is_Some (secure cookie) /\ is_Some (httpOnly cookie).

(** The cookies of [l] whose key is not in [seen] and is the key of no
    earlier cookie of [l], in order. *)
Fixpoint first_of_each_key (seen : list string) (l : list CookieParam) : list CookieParam :=
  match l with
  | [] => []
  | cookie :: rest =>
      if existsb (String.eqb (key_of cookie)) seen then first_of_each_key seen rest
      else cookie :: first_of_each_key (seen ++ [key_of cookie]) rest
  end.

(** The name of the cookie is one of [names]. *)
Definition named_in (names : list string) (cookie : CookieParam) : Prop :=
  exists n, name cookie = Some n /\ In n names.

End ChromeCookies.

(* ===================================================================== *)
(** ** Locating the Chrome cookie database (src/browser/chromeCookies.ts) *)
(* ===================================================================== *)

Module CookieFile.
Import JsString.

(** [value.includes(c)] for a one-character [c]. *)
Definition includes_char (c : ascii) (value : string) : bool :=
  negb (all_chars (fun x => negb (bool_decide (x = c))) value).

Definition looksLikePath (value : string) : bool :=
  includes_char "/" value || includes_char "\" value.

(** [input.slice(2)] *)
Definition slice2 (input : string) : string :=
  match input with
  | String _ (String _ rest) => rest
  | _ => EmptyString
  end.

Section WithSystem.
(** [fs.stat]; [None] when it rejects. *)
Variable stat : string -> option Files.Stats.
Variable existsSync : string -> bool.
Variable homedir : string.
Variable process_cwd : string.
Variable platform : string.
Variable LOCALAPPDATA : option string.
(** node:path *)
Variable path_join : string -> string -> string.
Variable path_isAbsolute : string -> bool.
Variable path_resolve : string -> string -> string.

(** [path.join(base, a, b, ...)] *)
Definition join_all (base : string) (segments : list string) : string :=
  fold_left path_join segments base.

Definition expandPath (input : string) : string :=
  if startsWith input "~/" then path_join homedir (slice2 input)
  else if path_isAbsolute input then input
  else path_resolve process_cwd input.

Definition fileExists (candidate : string) : bool :=
  match stat candidate with
  | Some stats => Files.isFile stats
  | None => false
  end.

Definition ensureCookieFile (inputPath : string) : outcome ChromeCookies.error string :=
  let expanded := expandPath inputPath in
  match stat expanded with
  | None =>
      Throw (ChromeCookies.Error ("Unable to locate Chrome cookie DB at " +:+ expanded))
  | Some stats =>
      if Files.isDirectory stats then
        let directFile := path_join expanded "Cookies" in
        if fileExists directFile then Ok directFile
        else
          let networkFile := join_all expanded ["Network"; "Cookies"] in
          if fileExists networkFile then Ok networkFile
          else Throw (ChromeCookies.Error ("No Cookies DB found under " +:+ expanded))
      else Ok expanded
  end.

Definition profileCandidates : outcome ChromeCookies.error (list string) :=
  if String.eqb platform "darwin" then
    Ok [ join_all homedir ["Library"; "Application Support"; "Google"; "Chrome"];
         join_all homedir ["Library"; "Application Support"; "Microsoft Edge"];
         join_all homedir ["Library"; "Application Support"; "Chromium"] ]
  else if String.eqb platform "linux" then
    Ok [ join_all homedir [".config"; "google-chrome"];
         join_all homedir [".config"; "microsoft-edge"];
         join_all homedir [".config"; "chromium"] ]
  else if String.eqb platform "win32" then
    let localAppData := default (join_all homedir ["AppData"; "Local"]) LOCALAPPDATA in
    Ok [ join_all localAppData ["Google"; "Chrome"; "User Data"];
         join_all localAppData ["Microsoft"; "Edge"; "User Data"];
         join_all localAppData ["Chromium"; "User Data"] ]
  else Throw (ChromeCookies.Error ("Unsupported platform: " +:+ platform)).

(** The first candidate that exists, or the first one when none does. *)
Definition defaultProfileRoot : outcome ChromeCookies.error string :=
  try! candidates <- profileCandidates;
  match List.find existsSync candidates with
  | Some candidate => Ok candidate
  | None => Ok (default EmptyString (head candidates))
  end.

(** [value && value.trim().length > 0] *)
Definition not_blank (value : option string) : bool :=
  match value with
  | Some v => truthy v && (0 <? String.length (trim v))%nat
  | None => false
  end.

Definition resolveCookieFilePath (explicitPath profile : option string)
  : outcome ChromeCookies.error string :=
  if not_blank explicitPath then ensureCookieFile (default EmptyString explicitPath)
  else if match profile with
          | Some p => truthy p && looksLikePath p
          | None => false
          end
  then ensureCookieFile (default EmptyString profile)
  else
    let profileName := if not_blank profile then default EmptyString profile else "Default" in
    try! baseDir <- defaultProfileRoot;
    ensureCookieFile (path_join baseDir profileName).

(** [stat] shows something at [p] that can be a cookie database: a file, or
    at least no directory. *)
Definition usable_file (p : string) : Prop :=
  exists stats, stat p = Some stats /\
                (Files.isDirectory stats = false \/ Files.isFile stats = true).

(** What a failed search reports: nothing at the place looked at, or a
    directory there without a cookie database in it. *)
Definition not_found (e : ChromeCookies.error) : Prop :=
  exists expanded,
    (e = ChromeCookies.Error ("Unable to locate Chrome cookie DB at " +:+ expanded) /\
     stat expanded = None) \/
    (e = ChromeCookies.Error ("No Cookies DB found under " +:+ expanded) /\
     (exists stats, stat expanded = Some stats /\ Files.isDirectory stats = true) /\
     fileExists (path_join expanded "Cookies") = false /\
     fileExists (path_join (path_join expanded "Network") "Cookies") = false).

End WithSystem.

End CookieFile.

(* ===================================================================== *)
(** ** Expanding directories on a caller-supplied file system *)
(* ===================================================================== *)

Module CustomFs.
Import JsString Files.

Section WithFs.
(** [fsModule.readdir] and [fsModule.stat]; a rejection carries its
    reason. *)
Variable readdir : string -> outcome string (list string).
Variable stat : string -> outcome string Stats.
(** [path.join] *)
Variable path_join : string -> string -> string.

(** The walk of a directory.  A call is given the number of nested calls
    it may make; [None] says that these did not suffice, which does not
    happen on a tree of directories when the number exceeds its depth. *)
Definition expand_loop (recur : string -> option (outcome string (list string)))
           (directory : string)
  : list string -> list string -> option (outcome string (list string)) :=
  fix loop entries results :=
    match entries with
    | [] => Some (Ok results)
    | entry :: rest =>
        let childPath := path_join directory entry in
        match stat childPath with
        | Throw e => Some (Throw e)
        | Ok stats =>
            if isDirectory stats then
              match recur childPath with
              | Some (Ok nested) => loop rest (results ++ nested)
              | Some (Throw e) => Some (Throw e)
              | None => None
              end
            else if isFile stats then loop rest (results ++ [childPath])
            else loop rest results
        end
    end.

Fixpoint expandDirectoryRecursive (fuel : nat) (directory : string)
  : option (outcome string (list string)) :=
  match fuel with
  | O => None
  | S fuel' =>
      match readdir directory with
      | Throw e => Some (Throw e)
      | Ok entries => expand_loop (expandDirectoryRecursive fuel') directory entries []
      end
  end.

(** The paths added to the set so far, in the order of their adding. *)
Fixpoint directories_loop (fuel : nat) (directories paths : list string)
  : option (outcome string (list string)) :=
  match directories with
  | [] => Some (Ok paths)
  | directory :: rest =>
      match expandDirectoryRecursive fuel directory with
      | Some (Ok nested) => directories_loop fuel rest (paths ++ nested)
      | Some (Throw e) => Some (Throw e)
      | None => None
      end
  end.

Definition expandWithCustomFs (fuel : nat) (partitioned : Partitioned)
  : option (outcome string (list string)) :=
  match directories_loop fuel (literalDirectories partitioned) (literalFiles partitioned) with
  | Some (Ok paths) => Some (Ok (ChromeCookies.unique paths))
  | other => other
  end.

(** [p] is an entry of [d], or of a directory found below [d]. *)
Inductive found_below : string -> string -> Prop :=
| found_child d entries e :
    readdir d = Ok entries -> In e entries -> found_below d (path_join d e)
| found_deeper d entries e stats p :
    readdir d = Ok entries -> In e entries ->
    stat (path_join d e) = Ok stats -> isDirectory stats = true ->
    found_below (path_join d e) p ->
    found_below d p.

(** [stat] shows a file that is no directory. *)
Definition regular_file (p : string) : Prop :=
  exists stats, stat p = Ok stats /\ isDirectory stats = false /\ isFile stats = true.

(** A directory among the entries of a directory lies less deep. *)
Definition measures_depth (depth : string -> nat) : Prop :=
  forall d entries e stats,
    readdir d = Ok entries -> In e entries ->
    stat (path_join d e) = Ok stats -> isDirectory stats = true ->
    (depth (path_join d e) < depth d)%nat.

End WithFs.

End CustomFs.

(* ===================================================================== *)
(** ** Command-line options *)
(* ===================================================================== *)

Module CliOptions.
Import JsString.

Inductive error :=
| InvalidArgumentError (message : string).

Definition is_comma (c : ascii) : bool := bool_decide (c = ","%char).

(** The value commander hands over: one string, an array, or nothing. *)
Definition collectPaths (value : option (string + list string)) (previous : list string)
  : list string :=
  let falsy :=
    match value with
    | None => true
    | Some (inl s) => negb (truthy s)
    | Some (inr _) => false
    end in
  if falsy then previous
  else
    let nextValues :=
      match value with
      | Some (inl s) => [s]
      | Some (inr l) => l
      | None => []
      end in
    previous ++ List.filter truthy (map trim (flat_map (split ",") nextValues)).

Definition SEARCH_MODE_MESSAGE : string :=
  "Search mode must be " +:+ String (ascii_of_nat 34) "on" +:+ String (ascii_of_nat 34) " or "
    +:+ String (ascii_of_nat 34) "off" +:+ String (ascii_of_nat 34) ".".

(** [list.includes(s)] *)
Definition includes (list : list string) (s : string) : bool :=
  existsb (String.eqb s) list.

Definition parseSearchOption (value : string) : outcome error bool :=
  let normalized := toLowerCase (trim value) in
  if includes ["on"; "true"; "1"; "yes"] normalized then Ok true
  else if includes ["off"; "false"; "0"; "no"] normalized then Ok false
  else Throw (InvalidArgumentError SEARCH_MODE_MESSAGE).

(** An entry as [collectPaths] adds it: trimmed, not empty, without a
    comma. *)
Definition tidy_entry (e : string) : Prop :=
  e <> EmptyString /\ trim e = e /\ all_chars (fun c => negb (is_comma c)) e = true.

End CliOptions.

(* ===================================================================== *)
(** ** More concrete inputs *)
(* ===================================================================== *)

Module StoreExamples.
Import JsString SessionStore StoreOps Examples.

Definition completed_at (id created : string) : gmap string jsval :=
  <["id" := JStr id]>
    (<["status" := JStr "completed"]>
       (<["createdAt" := JStr created]> ∅)).

Definition newer_session : gmap string jsval :=
  completed_at "newer" "2025-01-01T00:00:00.000Z".
Definition older_session : gmap string jsval :=
  completed_at "older" "2024-12-30T00:00:00.000Z".

(** Two finished sessions; the sessions directory lists the older first. *)
Definition two_sessions_disk : gmap string node :=
  <[SESSIONS_DIR home := Dir ["older"; "newer"]]>
    (<[sessionDir home "older" := Dir ["meta.json"]]>
       (<[metaPath home "older" := MetaFile older_session]>
          (<[sessionDir home "newer" := Dir ["meta.json"]]>
             (<[metaPath home "newer" := MetaFile newer_session]> ∅)))).

(** 2025-01-01T01:01:00.000Z *)
Definition one_past_one : Z := 1735693260000.

Definition started_update : ModelRunUpdate :=
  {| set_status := Some (Some "running");
     set_startedAt := Some (Some "2025-01-01T01:01:00.000Z");
     set_completedAt := None;
     set_log := None |}.

End StoreExamples.

Module InitExamples.
Import JsString SessionStore SessionInit Examples.

(** A run of one model on a prompt, with no custom slug. *)
Definition login_options : RunOptions :=
  {| opt_prompt := Some "Fix login bug"; opt_slug := None; opt_mode := None;
     opt_model := Some "gpt-5-pro"; opt_models := None; opt_browserConfig := None |}.

(** The stored options; no example reads them. *)
Definition options_text (options : RunOptions) (slug mode : string) (models : list string)
  : string := "{}".

(** The writes started together reach the disk last first. *)
Definition last_first (tasks : list (list write)) : list write := rev (concat tasks).

End InitExamples.

Module CustomFsExamples.
Import JsString Files.

(** A directory [/src] with a file and a directory [lib] that holds one
    file. *)
Definition tree_readdir (d : string) : outcome string (list string) :=
  if String.eqb d "/src" then Ok ["a.ts"; "lib"]
  else if String.eqb d "/src/lib" then Ok ["b.ts"]
  else Throw "ENOTDIR".

Definition tree_stat (p : string) : outcome string Stats :=
  if String.eqb p "/src/lib" then
    Ok {| isFile := false; isDirectory := true; size := None |}
  else if String.eqb p "/src/a.ts" || String.eqb p "/src/lib/b.ts" then
    Ok {| isFile := true; isDirectory := false; size := Some 10%N |}
  else Throw "ENOENT".

Definition tree_join (a b : string) : string := a +:+ "/" +:+ b.

Definition tree_depth (d : string) : nat :=
  if String.eqb d "/src" then 2 else if String.eqb d "/src/lib" then 1 else 0.

(** The directory, and one of its files named on its own. *)
Definition tree_inputs : Partitioned :=
  {| globPatterns := []; excludePatterns := [];
     literalFiles := ["/src/a.ts"]; literalDirectories := ["/src"] |}.

End CustomFsExamples.

Module CookieExamples.
Import JsString Cookies ChromeCookies.

Definition demo_hostname (u : string) : option string := Some "chatgpt.com".
Definition demo_stripQuery (u : string) : string := u.
Definition demo_urls : list string := ["https://chatgpt.com/"].

Definition session_cookie (v : string) : RawCookie :=
  {| raw_name := Some "session"; raw_value := Some v; raw_domain := Some ".chatgpt.com";
     raw_path := None; raw_expires := None; raw_Secure := None; raw_HttpOnly := Some true |}.

Definition nameless_cookie : RawCookie :=
  {| raw_name := None; raw_value := Some "x"; raw_domain := None;
     raw_path := None; raw_expires := None; raw_Secure := None; raw_HttpOnly := None |}.

(** Chrome returns the same cookie twice, then one without a name. *)
Definition demo_getCookies (u cookieFile : string) : outcome error (option (list RawCookie)) :=
  Ok (Some [session_cookie "first"; session_cookie "second"; nameless_cookie]).

Definition kept_cookie : CookieParam :=
  {| name := Some "session"; value := Some "first"; domain := Some "chatgpt.com";
     path := Some "/"; expires := None; secure := Some true; httpOnly := Some true;
     url := None |}.

End CookieExamples.

(* ===================================================================== *)
(** * Proofs *)
(* ===================================================================== *)

(** ** Facts about the string primitives *)

Module JsStringFacts.
Import JsString.

Local Arguments String.append : simpl nomatch.

Lemma app_nil_r s : s +:+ EmptyString = s.
Proof. induction s; simpl; congruence. Qed.

Lemma app_assoc s t u : (s +:+ t) +:+ u = s +:+ t +:+ u.
Proof. induction s; simpl; congruence. Qed.

Lemma length_app s t : String.length (s +:+ t) = (String.length s + String.length t)%nat.
Proof. induction s; simpl; congruence. Qed.

Lemma all_chars_app P s t :
  all_chars P (s +:+ t) = all_chars P s && all_chars P t.
Proof.
  induction s as [|c s IH]; simpl; [done|].
  rewrite IH. by rewrite andb_assoc.
Qed.

Lemma all_chars_impl (P Q : ascii -> bool) s :
  (forall c, P c = true -> Q c = true) ->
  all_chars P s = true -> all_chars Q s = true.
Proof.
  intros HPQ. induction s as [|c s IH]; simpl; [done|].
  intros [Hc Hs]%andb_true_iff. rewrite (HPQ _ Hc). simpl. auto.
Qed.

Lemma all_chars_slice0 P n s :
  all_chars P s = true -> all_chars P (slice0 n s) = true.
Proof.
  revert n. induction s as [|c s IH]; intros [|n]; simpl; try done.
  intros [Hc Hs]%andb_true_iff. rewrite Hc. simpl. auto.
Qed.

Lemma slice0_nonempty n s : s <> EmptyString -> slice0 (S n) s <> EmptyString.
Proof. destruct s; simpl; congruence. Qed.

Lemma length_slice0 n s : String.length (slice0 n s) = Nat.min n (String.length s).
Proof.
  revert n. induction s as [|c s IH]; intros [|n]; simpl; auto.
Qed.

(** *** Global matches of a character class *)

Section Runs.
Variable P : ascii -> bool.

Local Notation "'outside'" := (fun c => negb (P c)).

Lemma match_runs_outside sep :
  all_chars outside sep = true -> match_runs P sep = [].
Proof.
  induction sep as [|c sep IH]; simpl; [done|].
  intros [Hc Hs]%andb_true_iff. apply negb_true_iff in Hc. rewrite Hc. auto.
Qed.

Lemma match_runs_skip sep s :
  all_chars outside sep = true -> match_runs P (sep +:+ s) = match_runs P s.
Proof.
  induction sep as [|c sep IH]; simpl; [done|].
  intros [Hc Hs]%andb_true_iff. apply negb_true_iff in Hc. rewrite Hc. auto.
Qed.

Lemma starts_with_char_app w rest :
  w <> EmptyString -> starts_with_char P (w +:+ rest) = starts_with_char P w.
Proof. destruct w; simpl; congruence. Qed.

Lemma match_runs_word w rest :
  w <> EmptyString -> all_chars P w = true -> starts_with_char P rest = false ->
  match_runs P (w +:+ rest) = w :: match_runs P rest.
Proof.
  induction w as [|c w IH]; [done|]. intros _ [Hc Hw]%andb_true_iff Hrest.
  simpl. rewrite Hc. destruct w as [|c' w].
  - simpl. by rewrite Hrest.
  - assert (Hc' : P c' = true) by (simpl in Hw; by apply andb_true_iff in Hw as [? _]).
    change (starts_with_char P (String c' w +:+ rest)) with (P c').
    rewrite Hc'. by rewrite IH.
Qed.

Lemma match_runs_extend c s :
  P c = true -> starts_with_char P s = true ->
  match_runs P (String c s) =
    match match_runs P s with
    | w :: ws => String c w :: ws
    | [] => [String c EmptyString]
    end.
Proof. intros Hc Hs. simpl. by rewrite Hc, Hs. Qed.

(** The matcher returns the maximal runs ... *)
Lemma match_runs_maximal s : maximal_runs P s (match_runs P s).
Proof.
  induction s as [|c s IH]; simpl.
  - by apply runs_done.
  - destruct (P c) eqn:Hc.
    + destruct (starts_with_char P s) eqn:Hs.
      * inversion IH as [sep Hsep Heq Hnil | sep w rest ws Hsep Hw HPw Hrest Hruns Heq Hcons].
        { subst. destruct s as [|c' s]; [done|]. simpl in Hs, Hsep.
          rewrite Hs in Hsep. done. }
        assert (sep = EmptyString) as ->.
        { destruct sep as [|c' sep]; [done|]. subst s. simpl in Hs, Hsep.
          rewrite Hs in Hsep. done. }
        simpl in Heq. subst s.
        apply (runs_word P EmptyString (String c w) rest ws); simpl; auto.
        by rewrite Hc, HPw.
      * apply (runs_word P EmptyString (String c EmptyString) s (match_runs P s)); simpl; auto.
        by rewrite Hc.
    + inversion IH as [sep Hsep Heq Hnil | sep w rest ws Hsep Hw HPw Hrest Hruns Heq Hcons].
      * apply runs_done. simpl. by rewrite Hc.
      * apply (runs_word P (String c sep) w rest ws); simpl; auto.
        by rewrite Hc.
Qed.

(** ... and they are the only cut of [s] into maximal runs. *)
Lemma maximal_runs_unique s ws : maximal_runs P s ws -> match_runs P s = ws.
Proof.
  induction 1 as [sep Hsep | sep w rest ws Hsep Hw HPw Hrest Hruns IH].
  - by apply match_runs_outside.
  - rewrite match_runs_skip by done. rewrite match_runs_word by done. by f_equal.
Qed.

Lemma maximal_runs_words s ws :
  maximal_runs P s ws -> Forall (fun w => w <> EmptyString /\ all_chars P w = true) ws.
Proof. induction 1; constructor; auto. Qed.

Lemma match_runs_words s :
  Forall (fun w => w <> EmptyString /\ all_chars P w = true) (match_runs P s).
Proof. eapply maximal_runs_words, match_runs_maximal. Qed.

Lemma maximal_runs_occur s ws :
  maximal_runs P s ws -> Forall (fun w => occurs_in w s) ws.
Proof.
  induction 1 as [sep Hsep | sep w rest ws Hsep Hw HPw Hrest Hruns IH]; constructor.
  - by exists sep, rest.
  - eapply Forall_impl; [exact IH|]. intros v (pre & post & ->).
    exists (sep +:+ w +:+ pre), post. by rewrite !app_assoc.
Qed.
End Runs.

(** *** [split] after [join] *)

Section SplitJoin.
Variable c : ascii.

Local Notation "'not_sep'" := (fun x => negb (bool_decide (x = c))).

Lemma split_no_sep w : all_chars not_sep w = true -> split c w = [w].
Proof.
  induction w as [|x w IH]; simpl; [done|].
  intros [Hx Hw]%andb_true_iff. apply negb_true_iff in Hx. rewrite Hx.
  by rewrite IH.
Qed.

Lemma split_word_sep w rest :
  all_chars not_sep w = true ->
  split c (w +:+ String c rest) = w :: split c rest.
Proof.
  induction w as [|x w IH]; simpl.
  - intros _. by rewrite bool_decide_eq_true_2.
  - intros [Hx Hw]%andb_true_iff. apply negb_true_iff in Hx. rewrite Hx.
    by rewrite IH.
Qed.

Lemma split_join ws :
  ws <> [] -> Forall (fun w => all_chars not_sep w = true) ws ->
  split c (join (String c EmptyString) ws) = ws.
Proof.
  induction ws as [|w ws IH]; [done|]. intros _ Hall.
  apply Forall_cons in Hall as [Hw Hws]. destruct ws as [|w' ws].
  - simpl. by apply split_no_sep.
  - change (join (String c EmptyString) (w :: w' :: ws))
      with (w +:+ String c EmptyString +:+ join (String c EmptyString) (w' :: ws)).
    change (String c EmptyString +:+ join (String c EmptyString) (w' :: ws))
      with (String c (join (String c EmptyString) (w' :: ws))).
    rewrite split_word_sep by done. f_equal. by apply IH.
Qed.
End SplitJoin.

Lemma filter_truthy_all ws :
  Forall (fun w => w <> EmptyString) ws -> List.filter truthy ws = ws.
Proof.
  induction 1 as [|w ws Hw _ IH]; simpl; [done|].
  destruct w; [done|]. simpl. by rewrite IH.
Qed.

Lemma lower_alnum_not_dash x :
  is_lower_alnum x = true -> negb (bool_decide (x = "-"%char)) = true.
Proof.
  intros H. apply negb_true_iff, bool_decide_eq_false. intros ->. done.
Qed.

End JsStringFacts.

(* ===================================================================== *)
(** ** Markdown fences *)
(* ===================================================================== *)

Module MarkdownFacts.
Import JsString JsStringFacts Markdown.

Local Arguments String.append : simpl nomatch.

Lemma fold_max_from l acc :
  fold_left (fun max m => Nat.max max (String.length m)) l acc = Nat.max acc (max_len l).
Proof.
  unfold max_len. revert acc. induction l as [|w l IH]; intros acc; simpl.
  - lia.
  - rewrite IH, (IH (String.length w)). lia.
Qed.

Lemma max_len_cons w l : max_len (w :: l) = Nat.max (String.length w) (max_len l).
Proof. unfold max_len at 1. simpl. by rewrite fold_max_from. Qed.

Lemma max_len_elem l : l <> [] -> exists w, In w l /\ max_len l = String.length w.
Proof.
  induction l as [|w l IH]; [done|]. intros _. rewrite max_len_cons.
  destruct l as [|w' l].
  - exists w. split; [by left|]. unfold max_len. simpl. lia.
  - destruct IH as (v & Hv & Hlen); [done|].
    destruct (Nat.max_spec (String.length w) (max_len (w' :: l))) as [[_ ->] | [_ ->]].
    + exists v. split; [by right | done].
    + exists w. split; [by left | done].
Qed.

Lemma pickFence_eq content :
  pickFence content = ticks (Nat.max 3 (max_len (match_runs is_backtick content) + 1)).
Proof. reflexivity. Qed.

Lemma length_ticks n : String.length (ticks n) = n.
Proof. induction n; simpl; [done|]. unfold ticks in *. simpl. by rewrite IHn. Qed.

Lemma backticks_are_ticks w :
  all_chars is_backtick w = true -> w = ticks (String.length w).
Proof.
  induction w as [|c w IH]; simpl; [done|].
  intros [Hc Hw]%andb_true_iff. apply bool_decide_eq_true in Hc as ->.
  unfold ticks in *. simpl. by rewrite <- IH.
Qed.

(** The first match of a string that opens with [m] backticks has at least
    that length. *)
Lemma first_run_ticks m post :
  exists w ws, match_runs is_backtick (ticks (S m) +:+ post) = w :: ws
               /\ (S m <= String.length w)%nat.
Proof.
  induction m as [|m (w & ws & Heq & Hlen)].
  - unfold ticks. simpl. destruct (starts_with_char is_backtick post).
    + destruct (match_runs is_backtick post) as [|w ws]; eexists _, _; split; try done; simpl; lia.
    + eexists _, _; split; [done|]. simpl. lia.
  - change (ticks (S (S m)) +:+ post) with (String "`" (ticks (S m) +:+ post)).
    rewrite match_runs_extend by done. rewrite Heq.
    eexists _, _; split; [done|]. simpl. lia.
Qed.

Lemma max_len_match_runs_cons c s :
  (max_len (match_runs is_backtick s) <= max_len (match_runs is_backtick (String c s)))%nat.
Proof.
  simpl. destruct (is_backtick c); [|done].
  destruct (starts_with_char is_backtick s).
  - destruct (match_runs is_backtick s) as [|w ws]; rewrite ?max_len_cons;
      cbn [String.length]; unfold max_len; cbn [fold_left]; lia.
  - rewrite max_len_cons. lia.
Qed.

Lemma occurs_ticks_bound m s :
  occurs_in (ticks m) s -> (m <= max_len (match_runs is_backtick s))%nat.
Proof.
  intros (pre & post & ->). destruct m as [|m]; [lia|].
  induction pre as [|c pre IH].
  - change (EmptyString +:+ ticks (S m) +:+ post) with (ticks (S m) +:+ post).
    destruct (first_run_ticks m post) as (w & ws & -> & Hlen).
    rewrite max_len_cons. lia.
  - etrans; [exact IH|].
    change (String c pre +:+ ticks (S m) +:+ post)
      with (String c (pre +:+ ticks (S m) +:+ post)).
    apply max_len_match_runs_cons.
Qed.

Lemma ticks_max_len_occurs s :
  occurs_in (ticks (max_len (match_runs is_backtick s))) s.
Proof.
  destruct (match_runs is_backtick s) as [|w0 ws0] eqn:Hruns.
  - exists EmptyString, s. reflexivity.
  - destruct (max_len_elem (w0 :: ws0)) as (w & Hin & ->); [done|].
    rewrite <- Hruns in Hin.
    pose proof (match_runs_words is_backtick s) as Hwords.
    pose proof (maximal_runs_occur _ _ _ (match_runs_maximal is_backtick s)) as Hocc.
    rewrite List.Forall_forall in Hwords, Hocc.
    destruct (Hwords _ Hin) as [_ Hticks].
    rewrite <- (backticks_are_ticks _ Hticks). by apply Hocc.
Qed.

Lemma longest_run_is_max_len s :
  longest_backtick_run s (max_len (match_runs is_backtick s)).
Proof. split; [apply ticks_max_len_occurs | intros m; apply occurs_ticks_bound]. Qed.

Lemma longest_run_unique s n m :
  longest_backtick_run s n -> longest_backtick_run s m -> n = m.
Proof. intros [Hn1 Hn2] [Hm1 Hm2]. apply Nat.le_antisymm; auto. Qed.

Lemma no_backtick_runs s :
  all_chars (fun c => negb (is_backtick c)) s = true -> match_runs is_backtick s = [].
Proof. apply match_runs_outside. Qed.

(** C7. For every content the fence is made of [max 3 (n + 1)] backticks,
    [n] being the length of the longest run of consecutive backticks in the
    content; a content with a run of 4 backticks gets at least 5, a content
    without backticks gets exactly three, and the fence is never a substring
    of the content. *)
Theorem pickFence_safe (content : string) :
  exists n,
    longest_backtick_run content n /\
    pickFence content = repeat "`" (Nat.max 3 (n + 1)) /\
    String.length (pickFence content) = Nat.max 3 (n + 1) /\
    (occurs_in "````" content -> (5 <= String.length (pickFence content))%nat) /\
    (all_chars (fun c => negb (is_backtick c)) content = true ->
     pickFence content = "```") /\
    ~ occurs_in (pickFence content) content.
Proof.
  exists (max_len (match_runs is_backtick content)).
  pose proof (longest_run_is_max_len content) as Hlong.
  rewrite pickFence_eq, length_ticks.
  split; [done|]. split; [done|]. split; [done|]. split; [|split].
  - intros H4. apply (occurs_ticks_bound 4) in H4. lia.
  - intros Hnone. by rewrite no_backtick_runs.
  - intros Hocc. apply occurs_ticks_bound in Hocc. lia.
Qed.

Lemma pickFence_safe_witness :
  (5 <= String.length (pickFence "a ```` b"))%nat /\ pickFence "plain text" = "```".
Proof.
  split.
  - destruct (pickFence_safe "a ```` b") as (n & _ & _ & _ & H4 & _).
    apply H4. by exists "a ", " b".
  - destruct (pickFence_safe "plain text") as (n & _ & _ & _ & _ & Hnone & _).
    apply Hnone. reflexivity.
Defined.

End MarkdownFacts.

(* ===================================================================== *)
(** ** Slugs *)
(* ===================================================================== *)

Module SlugFacts.
Import JsString JsStringFacts SessionStore.

Local Arguments String.append : simpl nomatch.

Lemma slugify_words text :
  slugify (Some text) MAX_SLUG_WORDS
  = slug_of_words (match_runs is_lower_alnum (toLowerCase text)).
Proof.
  unfold slugify, slug_of_words.
  destruct (match_runs is_lower_alnum (toLowerCase text)) as [|w ws]; reflexivity.
Qed.

Lemma slugify_absent : slugify None MAX_SLUG_WORDS = "session".
Proof. reflexivity. Qed.

Lemma trimmed_words_wellformed ws :
  Forall (fun w => w <> EmptyString /\ all_chars is_lower_alnum w = true) ws ->
  Forall (fun w => w <> EmptyString /\ all_chars is_lower_alnum w = true)
         (map (slice0 10) (take 5 ws)).
Proof.
  intros Hws. apply Forall_map. apply Forall_take.
  eapply Forall_impl; [exact Hws|]. intros w [Hne Hal]. split.
  - by apply slice0_nonempty.
  - by apply all_chars_slice0.
Qed.

Lemma countSlugWords_join ws :
  ws <> [] ->
  Forall (fun w => w <> EmptyString /\ all_chars is_lower_alnum w = true) ws ->
  countSlugWords (join "-" ws) = length ws.
Proof.
  intros Hne Hws. unfold countSlugWords.
  rewrite split_join; [|done|].
  - rewrite filter_truthy_all; [done|]. eapply Forall_impl; [exact Hws|]. by intros w [? _].
  - eapply Forall_impl; [exact Hws|]. intros w [_ Hal].
    eapply all_chars_impl; [|exact Hal]. apply lower_alnum_not_dash.
Qed.

Lemma countSlugWords_slug ws :
  Forall (fun w => w <> EmptyString /\ all_chars is_lower_alnum w = true) ws ->
  countSlugWords (slug_of_words ws) = kept_words ws.
Proof.
  intros Hws. destruct ws as [|w ws]; [reflexivity|].
  unfold slug_of_words, kept_words.
  rewrite countSlugWords_join.
  - by rewrite length_map, length_take.
  - done.
  - by apply trimmed_words_wellformed.
Qed.

Lemma normalizeCustomSlug_cases candidate :
  let n := countSlugWords (slugify (Some candidate) MAX_SLUG_WORDS) in
  normalizeCustomSlug candidate =
    if decide (n < 3 \/ 5 < n)%nat
    then Throw (Error "Custom slug must include between 3 and 5 words.")
    else Ok (slugify (Some candidate) MAX_SLUG_WORDS).
Proof.
  intros n. unfold normalizeCustomSlug. fold n.
  unfold MIN_CUSTOM_SLUG_WORDS, MAX_SLUG_WORDS at 1.
  destruct (Nat.ltb_spec n 3), (Nat.ltb_spec 5 n), (decide (n < 3 \/ 5 < n)%nat);
    simpl; try reflexivity; lia.
Qed.

Lemma slice0_prefix n s : exists tail, s = slice0 n s +:+ tail.
Proof.
  revert n. induction s as [|c s IH]; intros [|n]; simpl; try by eexists.
  destruct (IH n) as [tail Htail]. exists tail. by rewrite <- Htail.
Qed.

Lemma prefix_is_slice0 word run tail :
  run = word +:+ tail -> word = slice0 (String.length word) run.
Proof.
  intros ->. induction word as [|c word IH]; simpl; [by destruct tail|]. by rewrite <- IH.
Qed.

Lemma kept_word_lookup n ws i run :
  ws !! i = Some run -> (i < n)%nat ->
  map (slice0 10) (take n ws) !! i = Some (slice0 10 run).
Proof.
  revert n i. induction ws as [|w ws IH]; intros [|n] [|i] Hrun Hi; try done; try lia.
  - by injection Hrun as ->.
  - simpl in *. apply IH; [done|lia].
Qed.

(** C2. For every text, with [ws] the maximal alphanumeric runs of its
    lower-cased form: as a prompt it gets the slug made of the first 5 runs,
    each cut to 10 characters, joined by hyphens, or [session] when there is
    no run.  The words of the slug are as many as there are runs, but at
    most 5; the [i]-th word is the start of the [i]-th run, whole when the
    run has at most 10 characters and its first 10 characters otherwise.
    As a custom slug the text goes through the same normalization, whose
    result has as many hyphen-separated words as runs were kept, and the call
    throws the invalid-slug error exactly when that number is below 3 or
    above 5, and returns the normalized slug otherwise. *)
Theorem slug_generation (text : string) :
  exists ws,
    maximal_runs is_lower_alnum (toLowerCase text) ws /\
    let slug := match ws with
                | [] => "session"
                | _ => join "-" (map (slice0 10) (take 5 ws))
                end in
    let n := countSlugWords slug in
    createSessionId (Some text) None = Ok slug /\
    n = match ws with [] => 1%nat | _ => Nat.min 5 (length ws) end /\
    (normalizeCustomSlug text
       = Throw (Error "Custom slug must include between 3 and 5 words.")
     <-> (n < 3 \/ 5 < n)%nat) /\
    ((3 <= n <= 5)%nat -> normalizeCustomSlug text = Ok slug) /\
    (text <> EmptyString ->
     forall prompt, createSessionId prompt (Some text) = normalizeCustomSlug text) /\
    (exists words,
        (ws <> [] -> createSessionId (Some text) None = Ok (join "-" words)) /\
        length words = Nat.min 5 (length ws) /\
        (forall i run,
            ws !! i = Some run -> (i < 5)%nat ->
            exists word tail,
              words !! i = Some word /\ run = word +:+ tail /\
              String.length word = Nat.min 10 (String.length run)) /\
        Forall (fun word => (1 <= String.length word <= 10)%nat /\
                            all_chars is_lower_alnum word = true) words).
Proof.
  exists (match_runs is_lower_alnum (toLowerCase text)).
  split; [apply match_runs_maximal|].
  pose proof (match_runs_words is_lower_alnum (toLowerCase text)) as Hws.
  pose proof (slugify_words text) as Hslug.
  pose proof (normalizeCustomSlug_cases text) as Hnorm. simpl in Hnorm.
  rewrite Hslug in Hnorm. unfold slug_of_words in *.
  set (ws := match_runs is_lower_alnum (toLowerCase text)) in *.
  cbv zeta. split; [|split; [|split; [|split; [|split]]]].
  - unfold createSessionId. by rewrite Hslug.
  - apply (countSlugWords_slug ws Hws).
  - rewrite Hnorm. case_decide; split; intros; try done; lia.
  - intros Hn. rewrite Hnorm. case_decide; [lia | done].
  - intros Hne prompt. unfold createSessionId. destruct text; done.
  - exists (map (slice0 10) (take 5 ws)). split; [|split; [|split]].
    + intros Hne. unfold createSessionId. rewrite Hslug. by destruct ws.
    + by rewrite length_map, length_take.
    + intros i run Hrun Hi. destruct (slice0_prefix 10 run) as [tail Htail].
      exists (slice0 10 run), tail. split; [by apply kept_word_lookup|].
      split; [done|]. apply length_slice0.
    + apply Forall_map, Forall_take. eapply Forall_impl; [exact Hws|].
      intros run [Hne Hall]. split; [|by apply all_chars_slice0].
      rewrite length_slice0. destruct run; [done|]. cbn [String.length]. lia.
Qed.

Lemma slug_generation_witness :
  createSessionId (Some "Fix the LOGIN-page bug!") None = Ok "fix-the-login-page-bug"
  /\ createSessionId
       (Some "Investigate authentication failures across staging, production and canary")
       None
     = Ok "investigat-authentica-failures-across-staging"
  /\ normalizeCustomSlug "my great session" = Ok "my-great-session"
  /\ createSessionId None (Some "Two words")
      = Throw (Error "Custom slug must include between 3 and 5 words.").
Proof.
  split; [|split; [|split]].
  - destruct (slug_generation "Fix the LOGIN-page bug!") as (ws & Hruns & H & _).
    apply maximal_runs_unique in Hruns. subst ws. exact H.
  - destruct (slug_generation
                "Investigate authentication failures across staging, production and canary")
      as (ws & Hruns & _ & _ & _ & _ & _ & words & H & Hlen & Hwords & _).
    apply maximal_runs_unique in Hruns. subst ws.
    rewrite H by (vm_compute; discriminate). f_equal.
    assert (Hword : forall i run,
               match_runs is_lower_alnum
                 (toLowerCase "Investigate authentication failures across staging, production and canary")
                 !! i = Some run ->
               (i < 5)%nat ->
               words !! i = Some (slice0 (Nat.min 10 (String.length run)) run)).
    { intros i run Hrun Hi.
      destruct (Hwords i run Hrun Hi) as (word & tail & Hword & Hcut & Hlong).
      rewrite Hword, <- Hlong. f_equal. by apply (prefix_is_slice0 _ _ tail). }
    pose proof (Hword 0%nat _ eq_refl) as H0.
    pose proof (Hword 1%nat _ eq_refl) as H1.
    pose proof (Hword 2%nat _ eq_refl) as H2.
    pose proof (Hword 3%nat _ eq_refl) as H3.
    pose proof (Hword 4%nat _ eq_refl) as H4.
    vm_compute in Hlen.
    destruct words as [|a [|b [|c [|d [|e [|]]]]]]; try discriminate Hlen.
    specialize (H0 ltac:(lia)). specialize (H1 ltac:(lia)). specialize (H2 ltac:(lia)).
    specialize (H3 ltac:(lia)). specialize (H4 ltac:(lia)).
    simpl in H0, H1, H2, H3, H4.
    injection H0 as ->. injection H1 as ->. injection H2 as ->.
    injection H3 as ->. injection H4 as ->.
    reflexivity.
  - destruct (slug_generation "my great session") as (ws & Hruns & _ & _ & _ & H & _).
    apply maximal_runs_unique in Hruns. subst ws. apply H. vm_compute. lia.
  - destruct (slug_generation "Two words") as (ws & Hruns & _ & _ & Hthrow & _ & H & _).
    apply maximal_runs_unique in Hruns. subst ws.
    rewrite H by done. apply Hthrow. vm_compute. lia.
Defined.

End SlugFacts.

(* ===================================================================== *)
(** ** Cookie expirations *)
(* ===================================================================== *)

Module CookiesFacts.
Import Cookies.

Local Open Scope Q_scope.

Lemma pow2_pos z : 0 < 2 ^ z.
Proof. by apply Qpower_0_lt. Qed.

Lemma pow2_add a b : 2 ^ (a + b) == 2 ^ a * 2 ^ b.
Proof. by apply Qpower_plus. Qed.

Lemma pow2_le a b : (a <= b)%Z -> 2 ^ a <= 2 ^ b.
Proof. intros H. by apply Qpower_le_compat_l. Qed.

Lemma pow2_lt_inv a b : 2 ^ a < 2 ^ b -> (a < b)%Z.
Proof. intros H. by apply (Qpower_lt_compat_l_inv 2). Qed.

Lemma pow2_Z z : (0 <= z)%Z -> 2 ^ z == inject_Z (2 ^ z).
Proof. intros H. symmetry. by apply (Zpower_Qpower 2). Qed.

Lemma pow2_half z : 2 ^ (z - 1) == 2 ^ z * (1 # 2).
Proof. unfold Z.sub. rewrite pow2_add. reflexivity. Qed.

Lemma pow2_double z : 2 ^ (z + 1) == 2 * 2 ^ z.
Proof. rewrite pow2_add. change (2 ^ 1) with (2 # 1). ring. Qed.

Lemma fraction_lt (n d N D : Z) :
  (0 < d)%Z -> (0 < D)%Z -> (n * D < N * d)%Z ->
  inject_Z n / inject_Z d < inject_Z N / inject_Z D.
Proof.
  intros Hd HD Hlt.
  apply Qlt_shift_div_r; [by rewrite <- (Zlt_Qlt 0)|].
  unfold Qdiv. rewrite <- Qmult_assoc, (Qmult_comm (/ _)), Qmult_assoc.
  apply Qlt_shift_div_l; [by rewrite <- (Zlt_Qlt 0)|].
  rewrite <- !inject_Z_mult. by rewrite <- Zlt_Qlt.
Qed.

Lemma pow2_sub_Z a b :
  (0 <= a)%Z -> (0 <= b)%Z -> 2 ^ (a - b) == inject_Z (2 ^ a) / inject_Z (2 ^ b).
Proof.
  intros Ha Hb. rewrite Qpower_minus by done. by rewrite !pow2_Z.
Qed.

(** The exponent of a positive number: the power of two at or below it. *)
Lemma exponent_of_spec a :
  0 < a -> 2 ^ exponent_of a <= a /\ a < 2 ^ (exponent_of a + 1).
Proof.
  intros Ha. destruct a as [n d]. unfold exponent_of. cbn [Qnum Qden].
  assert (Hn : (0 < n)%Z) by (unfold Qlt in Ha; simpl in Ha; lia).
  pose proof (Z.log2_spec n Hn) as [Hn1 Hn2].
  pose proof (Z.log2_spec (Z.pos d) (Pos2Z.is_pos d)) as [Hd1 Hd2].
  pose proof (Z.log2_nonneg n) as Hln. pose proof (Z.log2_nonneg (Z.pos d)) as Hld.
  set (ln := Z.log2 n) in *. set (ld := Z.log2 (Z.pos d)) in *.
  assert (Hfrac : n # d == inject_Z n / inject_Z (Z.pos d)) by apply Qmake_Qdiv.
  assert (Hp : forall z, (0 <= z)%Z -> (0 < 2 ^ z)%Z) by (intros; by apply Z.pow_pos_nonneg).
  assert (Hup : n # d < 2 ^ (ln - ld + 1)).
  { replace (ln - ld + 1)%Z with ((ln + 1) - ld)%Z by lia.
    rewrite pow2_sub_Z, Hfrac by lia.
    apply fraction_lt; [done|by apply Hp|].
    replace (ln + 1)%Z with (Z.succ ln) by lia.
    pose proof (Hp ld Hld). nia. }
  assert (Hlow : 2 ^ (ln - ld - 1) < n # d).
  { replace (ln - ld - 1)%Z with (ln - (ld + 1))%Z by lia.
    rewrite pow2_sub_Z, Hfrac by lia.
    apply fraction_lt; [by apply Hp; lia|done|].
    replace (ld + 1)%Z with (Z.succ ld) by lia.
    pose proof (Hp ln Hln). nia. }
  destruct (Qle_bool (2 ^ (ln - ld)) (n # d)) eqn:E.
  - apply Qle_bool_iff in E. done.
  - split; [by apply Qlt_le_weak|].
    replace (ln - ld - 1 + 1)%Z with (ln - ld)%Z by lia.
    apply Qnot_le_lt. intros H. apply Qle_bool_iff in H. congruence.
Qed.

Lemma exponent_below a k : 0 < a -> a < 2 ^ k -> (exponent_of a < k)%Z.
Proof.
  intros Ha Hk. destruct (exponent_of_spec a Ha) as [Hlow _].
  apply pow2_lt_inv. by eapply Qle_lt_trans.
Qed.

(** Rounding to an integer moves by half a unit at most, and leaves an
    integer where it is. *)
Lemma round_half_even_near x :
  inject_Z (round_half_even x) - (1 # 2) <= x /\ x <= inject_Z (round_half_even x) + (1 # 2).
Proof.
  unfold round_half_even.
  pose proof (Qfloor_le x) as Hlow. pose proof (Qlt_floor x) as Hup.
  rewrite inject_Z_plus in Hup. change (inject_Z 1) with 1 in Hup.
  destruct (x - inject_Z (Qfloor x) ?= 1 # 2) eqn:E.
  - apply Qeq_alt in E.
    destruct (Z.even (Qfloor x)); rewrite ?inject_Z_plus; change (inject_Z 1) with 1;
      split; lra.
  - apply Qlt_alt in E. split; lra.
  - apply Qgt_alt in E. rewrite inject_Z_plus. change (inject_Z 1) with 1. split; lra.
Qed.

Lemma round_half_even_integer x z : x == inject_Z z -> round_half_even x = z.
Proof.
  intros Hx. unfold round_half_even.
  assert (Hfloor : Qfloor x = z) by (rewrite Hx; apply Qfloor_Z).
  rewrite Hfloor.
  assert ((x - inject_Z z ?= 1 # 2) = Lt) as ->; [|done].
  apply (proj1 (Qlt_alt _ _)). lra.
Qed.

(** The mantissa times the unit is within half a unit of the number. *)
Lemma rounded_near a s :
  let r := inject_Z (round_half_even (a / 2 ^ s)) * 2 ^ s in
  r - 2 ^ s * (1 # 2) <= a /\ a <= r + 2 ^ s * (1 # 2).
Proof.
  intros r. subst r. pose proof (pow2_pos s) as Hu. set (u := 2 ^ s) in *.
  destruct (round_half_even_near (a / u)) as [Hlow Hup].
  set (m := inject_Z (round_half_even (a / u))) in *.
  assert (Hau : a / u * u == a).
  { unfold Qdiv. rewrite <- Qmult_assoc, (Qmult_comm (/ u)), Qmult_inv_r; [ring|lra]. }
  apply (Qmult_le_compat_r _ _ u) in Hlow; [|lra].
  apply (Qmult_le_compat_r _ _ u) in Hup; [|lra].
  rewrite Hau in Hlow, Hup. split.
  - eapply Qle_trans; [|exact Hlow]. apply Qle_lteq. right. ring.
  - eapply Qle_trans; [exact Hup|]. apply Qle_lteq. right. ring.
Qed.

Lemma Qabs_positive x : ~ x == 0 -> 0 < Qabs x.
Proof.
  intros Hx. apply Qabs_case; intros H; lra.
Qed.

Lemma binary64_nonzero x :
  ~ x == 0 ->
  binary64 x =
    let ulp := 2 ^ Z.max (exponent_of (Qabs x) - 52) (-1074) in
    let r := inject_Z (round_half_even (Qabs x / ulp)) * ulp in
    if Qle_bool (2 ^ 1024) r then Infinity (negb (Qle_bool 0 x))
    else Finite (if Qle_bool 0 x then r else - r).
Proof.
  intros Hx. unfold binary64.
  destruct (Qeq_bool x 0) eqn:E; [|done]. by apply Qeq_bool_iff in E.
Qed.

Lemma signed_magnitude x r :
  Qabs x - r == 0 -> (if Qle_bool 0 x then r else - r) == x.
Proof.
  intros Hr. destruct (Qle_bool 0 x) eqn:E.
  - apply Qle_bool_iff in E. rewrite (Qabs_pos x E) in Hr. lra.
  - assert (x <= 0) as Hneg.
    { apply Qlt_le_weak, Qnot_le_lt. intros H. apply Qle_bool_iff in H. congruence. }
    rewrite (Qabs_neg x Hneg) in Hr. lra.
Qed.

Lemma signed_magnitude_near x r eps :
  r - eps <= Qabs x -> Qabs x <= r + eps ->
  x - eps <= (if Qle_bool 0 x then r else - r) /\
  (if Qle_bool 0 x then r else - r) <= x + eps.
Proof.
  intros Hlow Hup. destruct (Qle_bool 0 x) eqn:E.
  - apply Qle_bool_iff in E. rewrite (Qabs_pos x E) in Hlow, Hup. split; lra.
  - assert (x <= 0) as Hneg.
    { apply Qlt_le_weak, Qnot_le_lt. intros H. apply Qle_bool_iff in H. congruence. }
    rewrite (Qabs_neg x Hneg) in Hlow, Hup. split; lra.
Qed.

(** A number below [2 ^ k] in magnitude is rounded to a double that lies
    within [2 ^ (k - 54)] of it: half a unit in the last of 53 places. *)
Lemma binary64_near x k :
  Qabs x < 2 ^ k -> (-1021 <= k <= 1023)%Z ->
  exists y, binary64 x = Finite y /\ x - 2 ^ (k - 54) <= y /\ y <= x + 2 ^ (k - 54).
Proof.
  intros Hk Hrange. pose proof (pow2_pos (k - 54)) as Heps.
  destruct (Qeq_bool x 0) eqn:Hzero.
  { apply Qeq_bool_iff in Hzero. exists 0. split.
    - unfold binary64. by rewrite (Qeq_eq_bool _ _ Hzero).
    - split; lra. }
  apply Qeq_bool_neq in Hzero. rewrite (binary64_nonzero x Hzero). cbv zeta.
  pose proof (Qabs_positive x Hzero) as Ha.
  pose proof (exponent_below _ _ Ha Hk) as He.
  set (s := Z.max (exponent_of (Qabs x) - 52) (-1074)).
  assert (Hs : (s <= k - 53)%Z) by lia.
  destruct (rounded_near (Qabs x) s) as [Hlow Hup]. cbv zeta in Hlow, Hup.
  set (r := inject_Z (round_half_even (Qabs x / 2 ^ s)) * 2 ^ s) in *.
  assert (Hhalf : 2 ^ s * (1 # 2) <= 2 ^ (k - 54)).
  { rewrite <- pow2_half. apply pow2_le. lia. }
  assert (Htop : 2 ^ (k - 54) + 2 ^ k <= 2 ^ 1024).
  { assert (2 ^ (k - 54) <= 2 ^ k) by (apply pow2_le; lia).
    assert (2 ^ (k + 1) <= 2 ^ 1024) by (apply pow2_le; lia).
    rewrite pow2_double in *. lra. }
  assert (Qle_bool (2 ^ 1024) r = false) as ->.
  { destruct (Qle_bool (2 ^ 1024) r) eqn:E; [|done].
    apply Qle_bool_iff in E. lra. }
  eexists. split; [reflexivity|].
  apply signed_magnitude_near; lra.
Qed.

(** In relative terms: the double lies within [2 ^ -53] of the number's
    magnitude from it, or within half the smallest unit. *)
Lemma binary64_relative x :
  Qabs x < 2 ^ 1023 ->
  exists y, binary64 x = Finite y /\
            x - (Qabs x * 2 ^ (-53) + 2 ^ (-1075)) <= y /\
            y <= x + (Qabs x * 2 ^ (-53) + 2 ^ (-1075)).
Proof.
  intros Hk. pose proof (pow2_pos (-1075)) as Htiny. pose proof (pow2_pos (-53)) as Hrel.
  pose proof (Qabs_nonneg x) as Hnonneg.
  destruct (Qeq_bool x 0) eqn:Hzero.
  { apply Qeq_bool_iff in Hzero. exists 0. split.
    - unfold binary64. by rewrite (Qeq_eq_bool _ _ Hzero).
    - assert (0 <= Qabs x * 2 ^ (-53)) by (apply Qmult_le_0_compat; lra).
      set (e := Qabs x * 2 ^ (-53)) in *. split; lra. }
  apply Qeq_bool_neq in Hzero. rewrite (binary64_nonzero x Hzero). cbv zeta.
  pose proof (Qabs_positive x Hzero) as Ha.
  pose proof (exponent_below _ _ Ha Hk) as He.
  destruct (exponent_of_spec _ Ha) as [Hlow _].
  set (s := Z.max (exponent_of (Qabs x) - 52) (-1074)).
  destruct (rounded_near (Qabs x) s) as [Hrl Hru]. cbv zeta in Hrl, Hru.
  set (r := inject_Z (round_half_even (Qabs x / 2 ^ s)) * 2 ^ s) in *.
  assert (Hhalf : 2 ^ s * (1 # 2) <= Qabs x * 2 ^ (-53) + 2 ^ (-1075)).
  { rewrite <- pow2_half. destruct (Z.max_spec (exponent_of (Qabs x) - 52) (-1074))
      as [[_ Hs]|[_ Hs]]; fold s in Hs; rewrite Hs.
    - change (-1074 - 1)%Z with (-1075)%Z.
      assert (0 <= Qabs x * 2 ^ (-53)) by (apply Qmult_le_0_compat; lra).
      set (e := Qabs x * 2 ^ (-53)) in *. lra.
    - replace (exponent_of (Qabs x) - 52 - 1)%Z with (exponent_of (Qabs x) + -53)%Z by lia.
      rewrite pow2_add.
      assert (2 ^ exponent_of (Qabs x) * 2 ^ (-53) <= Qabs x * 2 ^ (-53))
        by (apply Qmult_le_compat_r; lra).
      set (e := Qabs x * 2 ^ (-53)) in *.
      set (e' := 2 ^ exponent_of (Qabs x) * 2 ^ (-53)) in *. lra. }
  assert (Hsmall : Qabs x * 2 ^ (-53) + 2 ^ (-1075) <= 2 ^ 1023).
  { assert (2 ^ (-1075) <= 2 ^ 1022 * (1 # 2)).
    { rewrite <- pow2_half. apply pow2_le. lia. }
    assert (Qabs x * 2 ^ (-53) <= 2 ^ 1023 * 2 ^ (-53)) by (apply Qmult_le_compat_r; lra).
    assert (2 ^ 1023 * 2 ^ (-53) <= 2 ^ 1022 * (1 # 2)).
    { rewrite <- pow2_add, <- pow2_half. apply pow2_le. lia. }
    assert (2 ^ 1022 <= 2 ^ 1023) by (apply pow2_le; lia).
    set (e := Qabs x * 2 ^ (-53)) in *. set (t := 2 ^ (-1075)) in *.
    set (p := 2 ^ 1023 * 2 ^ (-53)) in *. set (a := 2 ^ 1022) in *. set (b := 2 ^ 1023) in *.
    lra. }
  assert (Htop : 2 ^ 1023 + 2 ^ 1023 <= 2 ^ 1024).
  { change 1024%Z with (1023 + 1)%Z. rewrite pow2_double.
    set (b := 2 ^ 1023). apply Qle_lteq. right. ring. }
  set (eps := Qabs x * 2 ^ (-53) + 2 ^ (-1075)) in *.
  set (b := 2 ^ 1023) in *. set (c := 2 ^ 1024) in *. set (h := 2 ^ s * (1 # 2)) in *.
  assert (Qle_bool c r = false) as ->.
  { destruct (Qle_bool c r) eqn:E; [|done].
    apply Qle_bool_iff in E. lra. }
  eexists. split; [reflexivity|].
  apply signed_magnitude_near; lra.
Qed.

(** A number with at most 53 significant bits is a double. *)
Lemma binary64_exact x m j :
  x == inject_Z m * 2 ^ j -> (Z.abs m < 2 ^ 53)%Z -> (-1074 <= j <= 970)%Z ->
  exists y, binary64 x = Finite y /\ y == x.
Proof.
  intros Hx Hm Hj.
  destruct (Qeq_bool x 0) eqn:Hzero.
  { apply Qeq_bool_iff in Hzero. exists 0. split.
    - unfold binary64. by rewrite (Qeq_eq_bool _ _ Hzero).
    - by symmetry. }
  apply Qeq_bool_neq in Hzero. rewrite (binary64_nonzero x Hzero). cbv zeta.
  pose proof (Qabs_positive x Hzero) as Ha.
  assert (Habs : Qabs x == inject_Z (Z.abs m) * 2 ^ j).
  { rewrite Hx, Qabs_Qmult, (Qabs_pos (2 ^ j)) by apply Qlt_le_weak, pow2_pos.
    apply Qmult_comp; [|reflexivity]. unfold Qabs, inject_Z. reflexivity. }
  assert (Hbelow : Qabs x < 2 ^ (53 + j)).
  { rewrite Habs, pow2_add, (pow2_Z 53) by lia.
    apply Qmult_lt_compat_r; [apply pow2_pos|]. by rewrite <- Zlt_Qlt. }
  pose proof (exponent_below _ _ Ha Hbelow) as He.
  set (s := Z.max (exponent_of (Qabs x) - 52) (-1074)).
  assert (Hs : (s <= j)%Z) by lia.
  assert (Hscaled : Qabs x / 2 ^ s == inject_Z (Z.abs m * 2 ^ (j - s))).
  { rewrite Habs, inject_Z_mult, <- (pow2_Z (j - s)) by lia.
    replace j with ((j - s) + s)%Z at 1 by lia. rewrite pow2_add.
    pose proof (pow2_pos s). field. lra. }
  rewrite (round_half_even_integer _ _ Hscaled).
  assert (Hr : inject_Z (Z.abs m * 2 ^ (j - s)) * 2 ^ s == Qabs x).
  { rewrite <- Hscaled. pose proof (pow2_pos s). field. lra. }
  set (r := inject_Z (Z.abs m * 2 ^ (j - s)) * 2 ^ s) in *.
  assert (Qle_bool (2 ^ 1024) r = false) as ->.
  { destruct (Qle_bool (2 ^ 1024) r) eqn:E; [|done].
    apply Qle_bool_iff in E.
    assert (2 ^ (53 + j) <= 2 ^ 1024) by (apply pow2_le; lia). lra. }
  eexists. split; [reflexivity|]. apply signed_magnitude. lra.
Qed.

Lemma Qle_bool_false q c : c < q -> Qle_bool q c = false.
Proof.
  intros Hlt. destruct (Qle_bool q c) eqn:E; [|done].
  apply Qle_bool_iff in E. exfalso. by apply (Qlt_not_le _ _ Hlt).
Qed.

Lemma Qle_bool_true q c : q <= c -> Qle_bool q c = true.
Proof. apply Qle_bool_iff. Qed.

Lemma Qeq_bool_pos q : 0 < q -> Qeq_bool q 0 = false.
Proof.
  intros Hlt. destruct (Qeq_bool q 0) eqn:E; [|done].
  apply Qeq_bool_iff in E. rewrite E in Hlt. by apply Qlt_irrefl in Hlt.
Qed.

Lemma round_rounds_to x : rounds_to x (Qfloor (x + (1 # 2))).
Proof.
  split.
  - apply Qfloor_le.
  - pose proof (Qlt_floor (x + (1 # 2))) as H.
    rewrite inject_Z_plus in H. exact H.
Qed.

Lemma Qfloor_between w r : inject_Z r <= w -> w < inject_Z r + 1 -> Qfloor w = r.
Proof.
  intros Hlow Hup.
  pose proof (Qfloor_le w) as Hfl. pose proof (Qlt_floor w) as Hfu.
  rewrite inject_Z_plus in Hfu. change (inject_Z 1) with 1 in Hfu.
  assert (H1 : inject_Z (Qfloor w) < inject_Z (r + 1))
    by (rewrite inject_Z_plus; change (inject_Z 1) with 1; lra).
  assert (H2 : inject_Z r < inject_Z (Qfloor w + 1))
    by (rewrite inject_Z_plus; change (inject_Z 1) with 1; lra).
  rewrite <- Zlt_Qlt in H1, H2. lia.
Qed.

Lemma normalize_positive q :
  0 < q ->
  normalizeExpiration (Some (Finite q)) =
    if negb (Qle_bool q 1000000000000) then
      Some (Math_round (sub_const (binary64 (q / 1000000)) 11644473600))
    else if negb (Qle_bool q 1000000000) then
      Some (Math_round (binary64 (q / 1000)))
    else whole (Qfloor (q + (1 # 2))).
Proof.
  intros Hpos. unfold normalizeExpiration, falsy. simpl.
  rewrite (Qeq_bool_pos _ Hpos), (Qle_bool_false _ _ Hpos). simpl.
  destruct (Qle_bool q 1000000000000); simpl; [|done].
  destruct (Qle_bool q 1000000000); simpl; done.
Qed.

(** What [Math.round] makes of a double that lies within [eps] of [x]. *)
Lemma Math_round_near eps x y :
  x - eps <= y -> y <= x + eps ->
  exists r, Math_round (Finite y) = Finite (inject_Z r) /\ rounds_within eps x r.
Proof.
  intros Hlow Hup. exists (Qfloor (y + (1 # 2))). split; [done|].
  destruct (round_rounds_to y) as [H1 H2]. split; lra.
Qed.

Lemma microseconds_near q :
  1000000000000 < q -> q <= 2 ^ 63 ->
  exists r, normalizeExpiration (Some (Finite q)) = whole r
            /\ rounds_within (1 # 512) (q / 1000000 - 11644473600) r.
Proof.
  intros Hlow Hup.
  rewrite normalize_positive, (Qle_bool_false _ _ Hlow) by lra. cbn [negb].
  assert (Hx : q / 1000000 == q * (1 # 1000000)) by reflexivity.
  set (x := q / 1000000) in *.
  destruct (binary64_near x 44) as (y1 & -> & Hy1l & Hy1u); [|lia|].
  { apply Qabs_case; intros _; lra. }
  change (2 ^ (44 - 54)) with (1 # 1024) in *.
  cbn [sub_const].
  destruct (binary64_near (y1 - 11644473600) 44) as (y2 & -> & Hy2l & Hy2u); [|lia|].
  { apply Qabs_case; intros _; lra. }
  change (2 ^ (44 - 54)) with (1 # 1024) in *.
  destruct (Math_round_near (1 # 512) (x - 11644473600) y2) as (r & -> & Hr);
    [lra..|].
  by exists r.
Qed.

(** Every finite double above [10^12]: the two roundings together move
    the result by no more than [2 ^ -50] of the magnitudes involved. *)
Lemma microseconds_any q :
  1000000000000 < q -> q < 2 ^ 1024 ->
  exists r, normalizeExpiration (Some (Finite q)) = whole r
            /\ rounds_within ((q / 1000000 + 11644473600) / 2 ^ 50)
                             (q / 1000000 - 11644473600) r.
Proof.
  intros Hlow Hup.
  rewrite normalize_positive, (Qle_bool_false _ _ Hlow) by lra. cbn [negb].
  assert (Hx : q / 1000000 == q * (1 # 1000000)) by reflexivity.
  set (x := q / 1000000) in *.
  assert (Heps : (x + 11644473600) / 2 ^ 50 == (x + 11644473600) * (1 # 1125899906842624))
    by reflexivity.
  set (eps := (x + 11644473600) / 2 ^ 50) in *.
  assert (Hbig : 2 ^ 40 <= 2 ^ 1023) by (apply pow2_le; lia).
  change (2 ^ 40) with 1099511627776 in Hbig.
  assert (Htop : 2 ^ 1024 == 2 * 2 ^ 1023) by (change 1024%Z with (1023 + 1)%Z; apply pow2_double).
  assert (Htiny : 2 ^ (-1075) <= 2 ^ (-53)) by (apply pow2_le; lia).
  pose proof (pow2_pos (-1075)) as Htiny0.
  change (2 ^ (-53)) with (1 # 9007199254740992) in Htiny.
  assert (Hax : Qabs x == x) by (apply Qabs_pos; lra).
  destruct (binary64_relative x) as (y1 & -> & Hy1l & Hy1u).
  { rewrite Hax. set (b := 2 ^ 1023) in *. set (c := 2 ^ 1024) in *. lra. }
  rewrite Hax in Hy1l, Hy1u. change (2 ^ (-53)) with (1 # 9007199254740992) in Hy1l, Hy1u.
  cbn [sub_const].
  set (t := 2 ^ (-1075)) in *. set (b := 2 ^ 1023) in *. set (c := 2 ^ 1024) in *.
  assert (Hw : Qabs (y1 - 11644473600) <= x + (x * (1 # 9007199254740992) + t) + 11644473600).
  { apply Qabs_case; intros _; lra. }
  destruct (binary64_relative (y1 - 11644473600)) as (y2 & -> & Hy2l & Hy2u).
  { fold b. lra. }
  fold t in Hy2l, Hy2u. change (2 ^ (-53)) with (1 # 9007199254740992) in Hy2l, Hy2u.
  set (w := Qabs (y1 - 11644473600)) in *.
  destruct (Math_round_near eps (x - 11644473600) y2) as (r & -> & Hr); [lra..|].
  by exists r.
Qed.

Lemma Math_round_whole y z : y == inject_Z z -> Math_round (Finite y) = Finite (inject_Z z).
Proof.
  intros Hy. cbn [Math_round]. do 2 f_equal. apply Qfloor_between; lra.
Qed.

Lemma microseconds_whole (n : Z) :
  (1000000 < n < 2 ^ 53)%Z ->
  normalizeExpiration (whole (n * 1000000)) = whole (n - 11644473600).
Proof.
  intros [Hlow Hup]. unfold whole.
  assert (Hq : 1000000000000 < inject_Z (n * 1000000)).
  { change 1000000000000 with (inject_Z 1000000000000). rewrite <- Zlt_Qlt. lia. }
  assert (Hpos : 0 < inject_Z (n * 1000000)) by (eapply Qlt_trans; [|exact Hq]; reflexivity).
  rewrite (normalize_positive _ Hpos), (Qle_bool_false _ _ Hq). cbn [negb].
  assert (Hx : inject_Z (n * 1000000) / 1000000 == inject_Z n * 2 ^ 0).
  { rewrite inject_Z_mult. change (inject_Z 1000000) with 1000000. field. }
  destruct (binary64_exact _ n 0 Hx) as (y1 & -> & Hy1); [lia..|].
  cbn [sub_const].
  assert (Hw : y1 - 11644473600 == inject_Z (n - 11644473600) * 2 ^ 0).
  { unfold Z.sub. rewrite inject_Z_plus, inject_Z_opp, Hy1, Hx.
    change (inject_Z 11644473600) with 11644473600. change (2 ^ 0) with 1. ring. }
  destruct (binary64_exact _ (n - 11644473600) 0 Hw) as (y2 & -> & Hy2); [lia..|].
  f_equal. apply Math_round_whole. rewrite Hy2, Hw. change (2 ^ 0) with 1. ring.
Qed.

Lemma milliseconds_near q :
  1000000000 < q -> q <= 1000000000000 ->
  exists r, normalizeExpiration (Some (Finite q)) = whole r
            /\ rounds_within (1 # 16777216) (q / 1000) r.
Proof.
  intros Hlow Hup.
  rewrite normalize_positive, (Qle_bool_true _ _ Hup), (Qle_bool_false _ _ Hlow) by lra.
  cbn [negb].
  assert (Hx : q / 1000 == q * (1 # 1000)) by reflexivity.
  set (x := q / 1000) in *.
  destruct (binary64_near x 30) as (y & -> & Hyl & Hyu); [|lia|].
  { apply Qabs_case; intros _; lra. }
  change (2 ^ (30 - 54)) with (1 # 16777216) in *.
  destruct (Math_round_near (1 # 16777216) x y) as (r & -> & Hr); [lra..|].
  by exists r.
Qed.

(** A whole number of milliseconds is rounded as if the division were
    exact: a quotient at a half is a double, and every other quotient is a
    thousandth or more away from the next half. *)
Lemma milliseconds_whole (z : Z) :
  (1000000000 < z <= 1000000000000)%Z ->
  exists r, normalizeExpiration (whole z) = whole r /\ rounds_to (inject_Z z / 1000) r.
Proof.
  intros [Hlow Hup]. unfold whole.
  assert (Hq1 : 1000000000 < inject_Z z).
  { change 1000000000 with (inject_Z 1000000000). rewrite <- Zlt_Qlt. lia. }
  assert (Hq2 : inject_Z z <= 1000000000000).
  { change 1000000000000 with (inject_Z 1000000000000). rewrite <- Zle_Qle. lia. }
  assert (Hpos : 0 < inject_Z z) by (eapply Qlt_trans; [|exact Hq1]; reflexivity).
  rewrite (normalize_positive _ Hpos), (Qle_bool_true _ _ Hq2), (Qle_bool_false _ _ Hq1).
  cbn [negb].
  assert (Hx : inject_Z z / 1000 == inject_Z z * (1 # 1000)) by reflexivity.
  set (x := inject_Z z / 1000) in *.
  exists (Qfloor (x + (1 # 2))). split; [|apply round_rounds_to].
  set (r := Qfloor (x + (1 # 2))).
  destruct (round_rounds_to x) as [Hr1 Hr2]. fold r in Hr1, Hr2.
  assert (Hz1 : (1000 * r <= z + 500)%Z).
  { rewrite Zle_Qle, inject_Z_mult, inject_Z_plus.
    change (inject_Z 1000) with 1000. change (inject_Z 500) with 500. lra. }
  assert (Hz2 : (z + 500 < 1000 * r + 1000)%Z).
  { rewrite Zlt_Qlt, !inject_Z_plus, inject_Z_mult.
    change (inject_Z 1000) with 1000. change (inject_Z 500) with 500. lra. }
  destruct (Z.eq_dec (z + 500)%Z (1000 * r)%Z) as [Hhalf|Hnot].
  - assert (Hexact : x + (1 # 2) == inject_Z r).
    { assert (inject_Z (z + 500) == inject_Z (1000 * r)) as Heq by by rewrite Hhalf.
      rewrite inject_Z_plus, inject_Z_mult in Heq.
      change (inject_Z 1000) with 1000 in Heq. change (inject_Z 500) with 500 in Heq. lra. }
    assert (Hdyadic : x == inject_Z (2 * r - 1) * 2 ^ (-1)).
    { change (2 ^ (-1)) with (1 # 2). unfold Z.sub.
      rewrite inject_Z_plus, inject_Z_mult, inject_Z_opp.
      change (inject_Z 2) with 2. change (inject_Z 1) with 1. lra. }
    destruct (binary64_exact _ _ _ Hdyadic) as (y & -> & Hy); [lia..|].
    cbn [Math_round]. do 3 f_equal. apply Qfloor_between; lra.
  - assert (Hz3 : (1000 * r + 1 <= z + 500)%Z) by lia.
    assert (Hq3 : inject_Z r + (1 # 1000) <= x + (1 # 2)).
    { rewrite Zle_Qle, !inject_Z_plus, inject_Z_mult in Hz3.
      change (inject_Z 1000) with 1000 in Hz3. change (inject_Z 500) with 500 in Hz3.
      change (inject_Z 1) with 1 in Hz3. lra. }
    assert (Hz4 : (z + 500 <= 1000 * r + 999)%Z) by lia.
    assert (Hq4 : x + (1 # 2) <= inject_Z r + (999 # 1000)).
    { rewrite Zle_Qle, !inject_Z_plus, inject_Z_mult in Hz4.
      change (inject_Z 1000) with 1000 in Hz4. change (inject_Z 500) with 500 in Hz4.
      change (inject_Z 999) with 999 in Hz4. lra. }
    destruct (binary64_near x 30) as (y & -> & Hyl & Hyu); [|lia|].
    { apply Qabs_case; intros _; lra. }
    change (2 ^ (30 - 54)) with (1 # 16777216) in *.
    cbn [Math_round]. do 3 f_equal. apply Qfloor_between; lra.
Qed.

(** The rounding of [binary64] is that of the Standard Library's model of
    IEEE 754, on timestamps of this century, on the two values below
    [10^15] whose conversion ends in a half, at the bounds of the three
    ranges, and past the integers that a double holds. *)
Lemma binary64_as_reference :
  forallb (fun v => same_number (microseconds_to_seconds v)
                                (reference_microseconds_to_seconds v))
          [ 13350000000000000; 13350000000123457; 13397356800000000;
            885538833499999; 946560371499999; 1000000000001; 1700000000000;
            11644473600000000; 11644473600500000; 11644473601499999;
            9007199254740993; 9223372036854775807;
            100000000000000000000000 ]%Z
  = true.
Proof. vm_compute. reflexivity. Qed.

(** Where the conversion in doubles differs from the conversion in exact
    arithmetic: the quotient less the offset is [-10758934766.500001], the
    double nearest to it is [-10758934766.5], and [Math.round] takes that
    half up. *)
Lemma normalizeExpiration_at_a_half :
  normalizeExpiration (whole 885538833499999) = whole (-10758934766) /\
  rounds_to (885538833499999 / 1000000 - 11644473600) (-10758934767) /\
  rounds_within (1 # 512) (885538833499999 / 1000000 - 11644473600) (-10758934766).
Proof.
  split; [vm_compute; reflexivity|]. split; split; vm_compute; done.
Qed.

(** C3. A finite value above 10^12 is taken as Chromium microseconds since
    1601: divided by one million, less 11,644,473,600, each in double
    arithmetic, and rounded to a whole number.  That number is the whole
    number nearest to the exact quotient less the offset, unless the exact
    value is close to a half, where it may be the other neighbour: closer
    than 1/512 up to 2^63 microseconds, and closer than 2^-50 of quotient
    plus offset for every finite double.  For a whole number of seconds the
    result is that number less 11,644,473,600.  A value above 10^9 is taken
    as milliseconds, divided by one thousand and rounded: to the nearest
    whole second for a whole number of milliseconds, and for other values to
    the nearest unless the quotient is within 2^-24 of a half.  A value up
    to 10^9 is taken as seconds and rounded to the nearest whole number.
    Zero, negative values, [NaN] and absent values give no expiration, and
    infinity stays infinity.  So 1_700_000_000 gives 1_700_000 and
    1_700_000_000_000 gives 1_700_000_000_000 / 1_000_000 - 11_644_473_600. *)
Theorem normalizeExpiration_spec :
  (forall q, 1000000000000 < q -> q <= 2 ^ 63 ->
     exists r, normalizeExpiration (Some (Finite q)) = whole r
               /\ rounds_within (1 # 512) (q / 1000000 - 11644473600) r) /\
  (forall q, 1000000000000 < q -> q < 2 ^ 1024 ->
     exists r, normalizeExpiration (Some (Finite q)) = whole r
               /\ rounds_within ((q / 1000000 + 11644473600) / 2 ^ 50)
                                (q / 1000000 - 11644473600) r) /\
  (forall n : Z, (1000000 < n < 2 ^ 53)%Z ->
     normalizeExpiration (whole (n * 1000000)) = whole (n - 11644473600)) /\
  (forall q, 1000000000 < q -> q <= 1000000000000 ->
     exists r, normalizeExpiration (Some (Finite q)) = whole r
               /\ rounds_within (1 # 16777216) (q / 1000) r) /\
  (forall z : Z, (1000000000 < z <= 1000000000000)%Z ->
     exists r, normalizeExpiration (whole z) = whole r
               /\ rounds_to (inject_Z z / 1000) r) /\
  (forall q, 0 < q -> q <= 1000000000 ->
     exists r, normalizeExpiration (Some (Finite q)) = whole r
               /\ rounds_to q r) /\
  (forall q, q <= 0 -> normalizeExpiration (Some (Finite q)) = None) /\
  normalizeExpiration None = None /\
  normalizeExpiration (Some NaN) = None /\
  normalizeExpiration (Some (Infinity true)) = None /\
  normalizeExpiration (Some (Infinity false)) = Some (Infinity false) /\
  normalizeExpiration (Some (Finite 1700000000)) = whole 1700000 /\
  normalizeExpiration (Some (Finite 1700000000000))
    = whole (1700000000000 / 1000000 - 11644473600).
Proof.
  split; [exact microseconds_near|]. split; [exact microseconds_any|].
  split; [exact microseconds_whole|].
  split; [exact milliseconds_near|]. split; [exact milliseconds_whole|].
  split; [|split; [|repeat split; vm_compute; reflexivity]].
  - intros q Hlo Hhi. eexists. split; [|apply round_rounds_to].
    rewrite normalize_positive by done.
    assert (q <= 1000000000000) as Hhi' by lra.
    by rewrite (Qle_bool_true _ _ Hhi'), (Qle_bool_true _ _ Hhi).
  - intros q Hq. unfold normalizeExpiration, falsy. simpl.
    destruct (Qeq_bool q 0); simpl; [done|].
    by rewrite (Qle_bool_true _ _ Hq).
Qed.

Lemma normalizeExpiration_spec_witness :
  (exists r, normalizeExpiration (Some (Finite 13350000000123457)) = whole r
             /\ rounds_within (1 # 512) (13350000000123457 / 1000000 - 11644473600) r) /\
  (exists r, normalizeExpiration (Some (Finite (2 ^ 70))) = whole r
             /\ rounds_within ((2 ^ 70 / 1000000 + 11644473600) / 2 ^ 50)
                              (2 ^ 70 / 1000000 - 11644473600) r) /\
  normalizeExpiration (whole (13350000000 * 1000000)) = whole (13350000000 - 11644473600) /\
  (exists r, normalizeExpiration (Some (Finite (3000001001 # 2))) = whole r
             /\ rounds_within (1 # 16777216) ((3000001001 # 2) / 1000) r) /\
  (exists r, normalizeExpiration (whole 1500000500) = whole r
             /\ rounds_to (1500000500 / 1000) r) /\
  (exists r, normalizeExpiration (Some (Finite (3 # 2))) = whole r
             /\ rounds_to (3 # 2) r) /\
  normalizeExpiration (Some (Finite (-5))) = None.
Proof.
  destruct normalizeExpiration_spec
    as (Hmicro & Hany & Hseconds & Hmilli & Hwhole & Hsec & Hneg & _).
  split; [|split; [|split; [|split; [|split; [|split]]]]].
  - apply (Hmicro 13350000000123457); [reflexivity | vm_compute; discriminate].
  - apply (Hany (2 ^ 70)); vm_compute; reflexivity.
  - apply (Hseconds 13350000000%Z). vm_compute. split; reflexivity.
  - apply (Hmilli (3000001001 # 2)); [reflexivity | vm_compute; discriminate].
  - apply (Hwhole 1500000500%Z). vm_compute. split; [reflexivity | discriminate].
  - apply (Hsec (3 # 2)); [reflexivity | vm_compute; discriminate].
  - apply (Hneg (-5)). vm_compute. discriminate.
Defined.

End CookiesFacts.

(* ===================================================================== *)
(** ** Search capability *)
(* ===================================================================== *)

Module ToolsFacts.
Import JsString Tools.

Local Arguments String.append : simpl nomatch.

Lemma prefix_app p s : String.prefix p s = true <-> exists rest, s = p +:+ rest.
Proof.
  revert s. induction p as [|c p IH]; intros s.
  - split; [intros _; by exists s|]. intros _. by destruct s.
  - destruct s as [|c' s]; simpl.
    + split; [done|]. by intros [rest ?].
    + destruct (ascii_dec c c') as [->|Hne].
      * rewrite IH. split; intros [rest Heq]; exists rest; congruence.
      * split; [done|]. intros [rest Heq]. congruence.
Qed.

(** C8. The capability registry reports web search as unsupported exactly
    for the models of the Anthropic family and as supported for all others;
    and the native parameters the Anthropic adapter builds never carry a
    tool, whatever tools the request body lists. *)
Theorem search_capability_gating :
  (forall model, search (toolSupportForModel model) = false <-> anthropic_family model) /\
  (forall model, search (toolSupportForModel model) = true <-> ~ anthropic_family model) /\
  (forall body model,
     params_tools (buildAnthropicParams body model) = None /\
     tool_choice (buildAnthropicParams body model) = None).
Proof.
  assert (Hfam : forall model, startsWith model "claude" = true <-> anthropic_family model).
  { intros model. apply prefix_app. }
  split; [|split].
  - intros model. rewrite <- Hfam. unfold toolSupportForModel.
    destruct (startsWith model "claude"); simpl; split; congruence.
  - intros model. rewrite <- Hfam. unfold toolSupportForModel.
    destruct (startsWith model "claude"); simpl; split; congruence.
  - intros body model. split; reflexivity.
Qed.

Lemma search_capability_gating_witness :
  search (toolSupportForModel "claude-4.5-sonnet") = false /\
  search (toolSupportForModel "gpt-5-pro") = true.
Proof.
  destruct search_capability_gating as (Hoff & Hon & _). split.
  - apply Hoff. by exists "-4.5-sonnet".
  - apply Hon. intros [rest Heq]. discriminate Heq.
Defined.

End ToolsFacts.

(* ===================================================================== *)
(** ** File discovery *)
(* ===================================================================== *)

Module FilesFacts.
Import JsString JsStringFacts Files Examples.

Local Arguments String.append : simpl nomatch.

Section WithEnvironment.
Variable cwd : string.
Variable fsModule : FsModule.
Variable path_isAbsolute : string -> bool.
Variable path_resolve : string -> string -> string.
Variable path_relative : string -> string -> string.
Variable isDynamicPattern : string -> bool.
Variable expandWithNativeGlob : Partitioned -> outcome string (list string).
Variable expandWithCustomFs : Partitioned -> outcome string (list string).
Variable findIgnoredAncestor : Partitioned -> list string -> string -> option string.

Local Notation "'sizeLoop'" := (size_loop cwd fsModule path_relative).
Local Notation "'named'" := (named_with_size cwd fsModule path_relative).
Local Notation "'oversizedP'" := (is_oversized fsModule).
Local Notation "'acceptedP'" := (is_accepted fsModule).
Local Notation "'readAll'" := (read_loop fsModule).
Local Notation "'candidates_read'" := (readCandidates cwd fsModule path_relative).
Local Notation "'partitioned_of'" :=
  (partitionFileInputs cwd fsModule path_isAbsolute path_resolve path_relative isDynamicPattern).
Local Notation "'partitionLoop'" :=
  (partition_loop cwd fsModule path_isAbsolute path_resolve path_relative isDynamicPattern).
Local Notation "'expanded'" :=
  (expandCandidates fsModule expandWithNativeGlob expandWithCustomFs).
Local Notation "'filtered'" := (filterCandidates findIgnoredAncestor).
Local Notation "'files_read'" :=
  (readFiles cwd fsModule path_isAbsolute path_resolve path_relative isDynamicPattern
             expandWithNativeGlob expandWithCustomFs findIgnoredAncestor).

(** The loop computes the two filters, in candidate order. *)
Lemma size_loop_filters maxBytes candidates oversized accepted :
  Forall (fun p => is_Some (stat fsModule p)) candidates ->
  sizeLoop maxBytes candidates oversized accepted =
    Ok (oversized ++ map named (List.filter (oversizedP maxBytes) candidates),
        accepted ++ List.filter (acceptedP maxBytes) candidates).
Proof.
  intros Hstat. revert oversized accepted.
  induction Hstat as [|p candidates [stats Hp] _ IH]; intros oversized accepted; simpl.
  - by rewrite !List.app_nil_r.
  - unfold is_oversized, is_accepted, named_with_size. rewrite Hp.
    destruct (isFile stats); simpl; [|apply IH].
    destruct (exceeds maxBytes stats); simpl.
    + rewrite IH, Hp. by rewrite <- List.app_assoc.
    + rewrite IH. by rewrite <- List.app_assoc.
Qed.

Lemma readCandidates_cases maxBytes candidates :
  Forall (fun p => is_Some (stat fsModule p)) candidates ->
  candidates_read maxBytes candidates =
    match map named (List.filter (oversizedP maxBytes) candidates) with
    | [] => readAll (List.filter (acceptedP maxBytes) candidates) []
    | names => Throw (FileValidationError (oversized_message names)
                                          (DetailsOversized names maxBytes))
    end.
Proof.
  intros Hstat. unfold readCandidates. rewrite size_loop_filters by done. simpl.
  by destruct (map named (List.filter (oversizedP maxBytes) candidates)).
Qed.

Lemma size_rule maxBytes p stats sz :
  stat fsModule p = Some stats -> isFile stats = true -> size stats = Some sz ->
  maxBytes <> 0%N ->
  (oversizedP maxBytes p = true <-> (maxBytes < sz)%N) /\
  (acceptedP maxBytes p = true <-> (sz <= maxBytes)%N).
Proof.
  intros Hp Hfile Hsz Hmax. unfold is_oversized, is_accepted, exceeds.
  rewrite Hp, Hfile, Hsz. apply N.eqb_neq in Hmax. rewrite Hmax. simpl.
  destruct (N.ltb_spec maxBytes sz); simpl; split; split; intros; try done; lia.
Qed.

Lemma readFiles_candidates filePaths partitioned candidatePaths maxBytes :
  filePaths <> [] ->
  partitioned_of filePaths = Ok partitioned ->
  expanded partitioned = Ok candidatePaths ->
  filtered partitioned candidatePaths <> [] ->
  files_read (Some filePaths) maxBytes
  = candidates_read maxBytes (filtered partitioned candidatePaths).
Proof.
  intros Hne Hpart Hexp Hcands. destruct filePaths as [|entry rest]; [done|].
  unfold readFiles. rewrite Hpart. simpl. rewrite Hexp. simpl.
  by destruct (filtered partitioned candidatePaths).
Qed.

(** C5. Take a non-empty input whose partition and expansion succeed, and
    whose candidates, after the ignore filter, can all be stat'ed.  At the
    1 MB limit a regular file of exactly 1,048,576 bytes is accepted and one
    of more bytes is oversized; when some candidate is oversized the call
    throws one file-validation error whose message and details list every
    oversized file, each with its formatted size, and returns no file
    content; when none is, the accepted files are read. *)
Theorem file_size_limit
        (filePaths : list string) (partitioned : Partitioned) (candidatePaths : list string)
        (Hinput : filePaths <> [])
        (Hpartition : partitionFileInputs cwd fsModule path_isAbsolute path_resolve
                        path_relative isDynamicPattern filePaths = Ok partitioned)
        (Hexpand : expandCandidates fsModule expandWithNativeGlob expandWithCustomFs
                     partitioned = Ok candidatePaths)
        (Hresolved : Forall (fun p => is_Some (stat fsModule p))
                            (filterCandidates findIgnoredAncestor partitioned candidatePaths)) :
  let read := readFiles cwd fsModule path_isAbsolute path_resolve path_relative isDynamicPattern
                        expandWithNativeGlob expandWithCustomFs findIgnoredAncestor in
  let over := is_oversized fsModule MAX_FILE_SIZE_BYTES in
  let within := is_accepted fsModule MAX_FILE_SIZE_BYTES in
  let name_with_size := named_with_size cwd fsModule path_relative in
  let candidates := filterCandidates findIgnoredAncestor partitioned candidatePaths in
  let oversized := List.filter over candidates in
  let names := map name_with_size oversized in
  (forall p stats sz,
      stat fsModule p = Some stats -> isFile stats = true -> size stats = Some sz ->
      (sz = 1048576%N -> within p = true /\ over p = false) /\
      ((1048576 < sz)%N -> over p = true /\ within p = false) /\
      name_with_size p
      = (if truthy (path_relative cwd p) then path_relative cwd p else p)
          +:+ " (" +:+ formatBytes sz +:+ ")") /\
  (oversized <> [] ->
   read (Some filePaths) MAX_FILE_SIZE_BYTES =
     Throw (FileValidationError
              ("The following files exceed the 1 MB limit:" +:+ newline +:+ "- "
                 +:+ join (newline +:+ "- ") names)
              (DetailsOversized names MAX_FILE_SIZE_BYTES))) /\
  (oversized = [] -> candidates <> [] ->
   read (Some filePaths) MAX_FILE_SIZE_BYTES
   = read_loop fsModule (List.filter within candidates) []).
Proof.
  intros read over within name_with_size candidates oversized names.
  subst read over within name_with_size.
  split; [|split].
  - intros p stats sz Hp Hfile Hsz.
    destruct (size_rule MAX_FILE_SIZE_BYTES p stats sz Hp Hfile Hsz) as [Hov Hacc]; [done|].
    unfold MAX_FILE_SIZE_BYTES in *. split; [|split].
    + intros ->. split; [apply Hacc; lia|].
      apply not_true_is_false. intros E. apply Hov in E. lia.
    + intros Hbig. split; [by apply Hov|].
      apply not_true_is_false. intros E. apply Hacc in E. lia.
    + unfold named_with_size, oversized_entry. by rewrite Hp, Hsz.
  - intros Hne.
    assert (Hcands : candidates <> []).
    { intros Hnil. apply Hne. unfold oversized. by rewrite Hnil. }
    rewrite (readFiles_candidates _ _ _ _ Hinput Hpartition Hexpand Hcands).
    rewrite readCandidates_cases by done. fold candidates. fold oversized. fold names.
    destruct names eqn:E; [|done].
    subst names. apply map_eq_nil in E. done.
  - intros Hnone Hcands.
    rewrite (readFiles_candidates _ _ _ _ Hinput Hpartition Hexpand Hcands).
    rewrite readCandidates_cases by done. fold candidates. fold oversized.
    by rewrite Hnone.
Qed.

(** *** No match *)

Lemma partition_never_no_match rawPaths result d :
  partitionLoop rawPaths result <> Throw (FileValidationError NO_MATCH_MESSAGE d).
Proof.
  revert result. induction rawPaths as [|entry rest IH]; intros result; simpl; [done|].
  destruct (negb (truthy (trim entry))); [apply IH|].
  destruct (startsWith (trim entry) "!"); [apply IH|].
  destruct (isDynamicPattern (trim entry)); [apply IH|].
  destruct (stat fsModule _) as [stats|]; [|done].
  destruct (isDirectory stats); [apply IH|].
  destruct (isFile stats); [apply IH|done].
Qed.

Lemma size_loop_never_no_match maxBytes candidates oversized accepted d :
  sizeLoop maxBytes candidates oversized accepted
    <> Throw (FileValidationError NO_MATCH_MESSAGE d).
Proof.
  revert oversized accepted.
  induction candidates as [|p candidates IH]; intros oversized accepted; simpl; [done|].
  destruct (stat fsModule p) as [stats|]; [|done].
  destruct (negb (isFile stats)); [apply IH|].
  destruct (exceeds maxBytes stats); apply IH.
Qed.

Lemma read_loop_never_validation accepted files message d :
  readAll accepted files <> Throw (FileValidationError message d).
Proof.
  revert files. induction accepted as [|p accepted IH]; intros files; simpl; [done|].
  destruct (readFile fsModule p); [apply IH|done].
Qed.

Lemma readCandidates_never_no_match maxBytes candidates d :
  candidates_read maxBytes candidates <> Throw (FileValidationError NO_MATCH_MESSAGE d).
Proof.
  unfold readCandidates.
  pose proof (size_loop_never_no_match maxBytes candidates [] [] d) as Hloop.
  destruct (sizeLoop maxBytes candidates [] []) as [[oversized accepted]|e]; simpl.
  - destruct (0 <? length oversized)%nat; [done|]. apply read_loop_never_validation.
  - congruence.
Qed.

Lemma expand_never_validation partitioned message d :
  expanded partitioned <> Throw (FileValidationError message d).
Proof.
  unfold expandCandidates, library.
  destruct (nativeFs fsModule).
  - by destruct (expandWithNativeGlob partitioned).
  - destruct (_ || _); [done|]. by destruct (expandWithCustomFs partitioned).
Qed.

(** C10. An absent or empty list of file paths gives the empty list of
    files and no error.  The no-files-matched error is thrown only for a
    non-empty input whose partition and expansion succeed and leave no
    candidate after the ignore filter, and in that situation it is thrown. *)
Theorem empty_input_is_not_an_error (maxBytes : N) :
  let read := readFiles cwd fsModule path_isAbsolute path_resolve path_relative isDynamicPattern
                        expandWithNativeGlob expandWithCustomFs findIgnoredAncestor in
  let partition := partitionFileInputs cwd fsModule path_isAbsolute path_resolve path_relative
                                       isDynamicPattern in
  let expand := expandCandidates fsModule expandWithNativeGlob expandWithCustomFs in
  let keep_unignored := filterCandidates findIgnoredAncestor in
  read None maxBytes = Ok [] /\
  read (Some []) maxBytes = Ok [] /\
  (forall filePaths d,
      read (Some filePaths) maxBytes
        = Throw (FileValidationError "No files matched the provided --file patterns." d) ->
      filePaths <> [] /\
      exists partitioned candidatePaths,
        partition filePaths = Ok partitioned /\
        expand partitioned = Ok candidatePaths /\
        keep_unignored partitioned candidatePaths = []) /\
  (forall filePaths partitioned candidatePaths,
      filePaths <> [] ->
      partition filePaths = Ok partitioned ->
      expand partitioned = Ok candidatePaths ->
      keep_unignored partitioned candidatePaths = [] ->
      read (Some filePaths) maxBytes
        = Throw (FileValidationError "No files matched the provided --file patterns."
                   (DetailsPatterns (globPatterns partitioned) (excludePatterns partitioned)))).
Proof.
  cbv zeta.
  split; [reflexivity|]. split; [reflexivity|]. split.
  - intros filePaths d Hthrow. destruct filePaths as [|entry rest]; [done|].
    split; [done|]. unfold readFiles in Hthrow.
    destruct (partitioned_of (entry :: rest)) as [partitioned|e] eqn:Hpart; simpl in Hthrow.
    2:{ exfalso. inversion Hthrow; subst.
        by apply (partition_never_no_match (entry :: rest)
                    {| globPatterns := []; excludePatterns := [];
                       literalFiles := []; literalDirectories := [] |} d). }
    destruct (expanded partitioned) as [candidatePaths|e] eqn:Hexp; simpl in Hthrow.
    2:{ exfalso. inversion Hthrow; subst. by eapply expand_never_validation. }
    exists partitioned, candidatePaths. split; [done|]. split; [done|].
    destruct (filtered partitioned candidatePaths) as [|p l] eqn:Hfil; [done|].
    simpl in Hthrow. exfalso. by eapply readCandidates_never_no_match.
  - intros filePaths partitioned candidatePaths Hne Hpart Hexp Hfil.
    destruct filePaths as [|entry rest]; [done|].
    unfold readFiles. rewrite Hpart. simpl. rewrite Hexp. simpl. by rewrite Hfil.
Qed.

End WithEnvironment.

Lemma file_size_limit_witness :
  let read := readFiles "/w" demo_fs demo_isAbsolute demo_resolve demo_relative
                        (fun _ => false) demo_glob (fun _ => Ok []) (fun _ _ _ => None) in
  read (Some ["/w/exact.bin"; "/w/over.bin"; "/w/huge.bin"]) MAX_FILE_SIZE_BYTES
  = Throw (FileValidationError
             ("The following files exceed the 1 MB limit:" +:+ newline
                +:+ "- over.bin (1.0 MB)" +:+ newline +:+ "- huge.bin (5.5 MB)")
             (DetailsOversized ["over.bin (1.0 MB)"; "huge.bin (5.5 MB)"] 1048576%N))
  /\ read (Some ["/w/exact.bin"]) MAX_FILE_SIZE_BYTES
     = Ok [ {| path := "/w/exact.bin"; content := "data" |} ].
Proof.
  intros read. split.
  - refine (proj1 (proj2 (file_size_limit
              "/w" demo_fs demo_isAbsolute demo_resolve demo_relative
              (fun _ => false) demo_glob (fun _ => Ok []) (fun _ _ _ => None)
              ["/w/exact.bin"; "/w/over.bin"; "/w/huge.bin"]
              {| globPatterns := []; excludePatterns := [];
                 literalFiles := ["/w/exact.bin"; "/w/over.bin"; "/w/huge.bin"];
                 literalDirectories := [] |}
              ["/w/exact.bin"; "/w/over.bin"; "/w/huge.bin"] _ _ _ _)) _).
    + discriminate.
    + reflexivity.
    + reflexivity.
    + repeat constructor; by eexists.
    + discriminate.
  - refine (proj2 (proj2 (file_size_limit
              "/w" demo_fs demo_isAbsolute demo_resolve demo_relative
              (fun _ => false) demo_glob (fun _ => Ok []) (fun _ _ _ => None)
              ["/w/exact.bin"]
              {| globPatterns := []; excludePatterns := [];
                 literalFiles := ["/w/exact.bin"]; literalDirectories := [] |}
              ["/w/exact.bin"] _ _ _ _)) _ _).
    + discriminate.
    + reflexivity.
    + reflexivity.
    + repeat constructor; by eexists.
    + reflexivity.
    + discriminate.
Defined.

Lemma empty_input_is_not_an_error_witness :
  readFiles "/w" demo_fs demo_isAbsolute demo_resolve demo_relative
            (fun _ => false) demo_glob (fun _ => Ok []) (fun _ _ _ => None)
            (Some ["  "]) MAX_FILE_SIZE_BYTES
  = Throw (FileValidationError "No files matched the provided --file patterns."
                               (DetailsPatterns [] [])).
Proof.
  refine (proj2 (proj2 (proj2 (empty_input_is_not_an_error
            "/w" demo_fs demo_isAbsolute demo_resolve demo_relative
            (fun _ => false) demo_glob (fun _ => Ok []) (fun _ _ _ => None)
            MAX_FILE_SIZE_BYTES)))
            ["  "] {| globPatterns := []; excludePatterns := [];
                      literalFiles := []; literalDirectories := [] |} [] _ _ _ _);
    [discriminate | reflexivity | reflexivity | reflexivity].
Defined.

End FilesFacts.

(* ===================================================================== *)
(** ** Unique session ids *)
(* ===================================================================== *)

Module UniqueIdFacts.
Import JsString JsStringFacts SessionStore.

Local Arguments String.append : simpl nomatch.

Section Store.
Variable ORACLE_HOME : string.

Local Notation "'dirOf'" := (sessionDir ORACLE_HOME).
Local Notation "'taken' d id" := (fileExists d (sessionDir ORACLE_HOME id))
  (at level 10, d at level 9, id at level 9).

Lemma candidate_id_next baseSlug k :
  baseSlug +:+ "-" +:+ pretty (k + 2)%nat = candidate_id baseSlug (S k).
Proof. unfold candidate_id. by replace (k + 2)%nat with (S (S k)) by lia. Qed.

Lemma app_length_neq s t : t <> EmptyString -> s <> s +:+ t.
Proof.
  intros Ht Heq. apply (f_equal String.length) in Heq.
  rewrite length_app in Heq. destruct t; [done|]. simpl in Heq. lia.
Qed.

Lemma candidate_id_inj baseSlug : Inj (=) (=) (candidate_id baseSlug).
Proof.
  intros [|j] [|k] Heq; unfold candidate_id in Heq.
  - done.
  - by apply app_length_neq in Heq.
  - symmetry in Heq. by apply app_length_neq in Heq.
  - apply (inj (String.app baseSlug)) in Heq.
    apply (inj (String.app "-")) in Heq.
    apply pretty_nat_inj in Heq. lia.
Qed.

Lemma sessionDir_inj : Inj (=) (=) dirOf.
Proof.
  intros a b Heq. unfold sessionDir, path_join in Heq.
  apply (inj (String.app _)) in Heq. by apply (inj (String.app "/")) in Heq.
Qed.

Lemma fileExists_dom (d : gmap string node) p : fileExists d p = true <-> p ∈ dom d.
Proof.
  unfold fileExists. rewrite bool_decide_eq_true. by rewrite elem_of_dom.
Qed.

(** Among the first [size d + 1] candidates one is free: the candidates are
    pairwise different paths and the disk holds [size d] paths. *)
Lemma some_candidate_free (d : gmap string node) baseSlug :
  exists k, (k <= size d)%nat /\ taken d (candidate_id baseSlug k) = false.
Proof.
  destruct (decide (Forall (fun k => taken d (candidate_id baseSlug k) = true)
                           (seq 0 (S (size d))))) as [Hall|Hex].
  - exfalso.
    set (paths := (fun k => dirOf (candidate_id baseSlug k)) <$> seq 0 (S (size d))).
    assert (Hnodup : NoDup paths).
    { apply NoDup_fmap_2; [|apply NoDup_seq].
      intros j k Heq. by apply (candidate_id_inj baseSlug), sessionDir_inj. }
    assert (Hsub : list_to_set (C := gset string) paths ⊆ dom d).
    { intros p [k [-> Hk]]%elem_of_list_to_set%list_elem_of_fmap.
      rewrite List.Forall_forall in Hall. apply fileExists_dom. apply Hall.
      by apply list_elem_of_In. }
    apply subseteq_size in Hsub.
    rewrite size_list_to_set in Hsub by done.
    unfold paths in Hsub. rewrite length_fmap, length_seq, size_dom in Hsub. lia.
  - apply not_Forall_Exists in Hex; [|intros k; apply _].
    apply List.Exists_exists in Hex as (k & Hk & Hfree).
    apply in_seq in Hk. exists k. split; [lia|]. by apply not_true_is_false.
Qed.

Lemma least_candidate_free (d : gmap string node) baseSlug :
  exists m, (m <= size d)%nat /\
            taken d (candidate_id baseSlug m) = false /\
            forall j, (j < m)%nat -> taken d (candidate_id baseSlug j) = true.
Proof.
  destruct (some_candidate_free d baseSlug) as (k & Hk & Hfree).
  revert Hk Hfree. generalize (size d). intros bound.
  induction k as [k IH] using lt_wf_ind. intros Hk Hfree.
  destruct (decide (Forall (fun j => taken d (candidate_id baseSlug j) = true) (seq 0 k)))
    as [Hall|Hex].
  - exists k. split; [done|]. split; [done|]. intros j Hj.
    rewrite List.Forall_forall in Hall. apply Hall, in_seq. lia.
  - apply not_Forall_Exists in Hex; [|intros j; apply _].
    apply List.Exists_exists in Hex as (j & Hj & Hjfree).
    apply in_seq in Hj. apply (IH j); [lia | lia | by apply not_true_is_false].
Qed.

Lemma unique_loop_round (d : gmap string node) baseSlug fuel candidate suffix :
  unique_loop ORACLE_HOME (S fuel) d baseSlug candidate suffix =
    if taken d candidate
    then unique_loop ORACLE_HOME fuel d baseSlug (baseSlug +:+ "-" +:+ pretty suffix) (S suffix)
    else Some candidate.
Proof. reflexivity. Qed.

(** The loop, started at candidate [k], leaves at the first free candidate
    [m] when it has fuel for the rounds in between. *)
Lemma unique_loop_finds (d : gmap string node) baseSlug fuel k m :
  (k <= m)%nat -> (m - k < fuel)%nat ->
  taken d (candidate_id baseSlug m) = false ->
  (forall j, (k <= j < m)%nat -> taken d (candidate_id baseSlug j) = true) ->
  unique_loop ORACLE_HOME fuel d baseSlug (candidate_id baseSlug k) (k + 2)
  = Some (candidate_id baseSlug m).
Proof.
  revert k. induction fuel as [|fuel IH]; intros k Hkm Hfuel Hfree Htaken; [lia|].
  rewrite unique_loop_round. destruct (decide (k = m)) as [->|Hne].
  - by rewrite Hfree.
  - rewrite Htaken by lia. rewrite candidate_id_next.
    replace (S (k + 2)) with (S k + 2)%nat by lia.
    apply IH; [lia | lia | done |]. intros j Hj. apply Htaken. lia.
Qed.

Lemma unique_loop_from_start (d : gmap string node) baseSlug fuel m :
  (m < fuel)%nat ->
  taken d (candidate_id baseSlug m) = false ->
  (forall j, (j < m)%nat -> taken d (candidate_id baseSlug j) = true) ->
  unique_loop ORACLE_HOME fuel d baseSlug baseSlug 2 = Some (candidate_id baseSlug m).
Proof.
  intros Hfuel Hfree Htaken.
  apply (unique_loop_finds d baseSlug fuel 0 m); [lia | lia | done |].
  intros j Hj. apply Htaken. lia.
Qed.

(** The loop never runs out of rounds, and more fuel changes nothing. *)
Lemma unique_loop_total (d : gmap string node) baseSlug fuel :
  (size d < fuel)%nat ->
  unique_loop ORACLE_HOME fuel d baseSlug baseSlug 2
  = ensureUniqueSessionId ORACLE_HOME d baseSlug
  /\ is_Some (ensureUniqueSessionId ORACLE_HOME d baseSlug).
Proof.
  intros Hfuel. destruct (least_candidate_free d baseSlug) as (m & Hm & Hfree & Htaken).
  unfold ensureUniqueSessionId.
  rewrite (unique_loop_from_start d baseSlug fuel m) by (done || lia).
  rewrite (unique_loop_from_start d baseSlug (S (size d)) m) by (done || lia).
  split; [done|by eexists].
Qed.

Lemma ensureUniqueSessionId_first_free (d : gmap string node) baseSlug m :
  taken d (candidate_id baseSlug m) = false ->
  (forall j, (j < m)%nat -> taken d (candidate_id baseSlug j) = true) ->
  ensureUniqueSessionId ORACLE_HOME d baseSlug = Some (candidate_id baseSlug m).
Proof.
  intros Hfree Htaken.
  destruct (least_candidate_free d baseSlug) as (m' & Hm' & Hfree' & Htaken').
  assert (m = m') as <-.
  { destruct (Nat.lt_trichotomy m m') as [Hlt|[->|Hgt]]; [|done|].
    - rewrite (Htaken' m Hlt) in Hfree. done.
    - rewrite (Htaken m' Hgt) in Hfree'. done. }
  unfold ensureUniqueSessionId.
  apply unique_loop_from_start; [lia | done | done].
Qed.

Lemma listed_exists (d : gmap string node) id p :
  fileExists match d !! SESSIONS_DIR ORACLE_HOME with
             | Some (Dir entries) => <[SESSIONS_DIR ORACLE_HOME := Dir (entries ++ [id])]> d
             | _ => d
             end p
  = fileExists d p.
Proof.
  destruct (d !! SESSIONS_DIR ORACLE_HOME) as [[entries| | |]|] eqn:E; try done.
  unfold fileExists. destruct (decide (p = SESSIONS_DIR ORACLE_HOME)) as [->|Hne].
  - rewrite lookup_insert_eq, E. by rewrite !bool_decide_eq_true_2.
  - by rewrite lookup_insert_ne.
Qed.

Lemma taken_claimed (d : gmap string node) id : taken (claimSessionDir ORACLE_HOME d id) id = true.
Proof.
  apply fileExists_dom, elem_of_dom. unfold claimSessionDir.
  destruct (d !! dirOf id) eqn:E; [by eexists|]. rewrite lookup_insert_eq. by eexists.
Qed.

Lemma taken_claimed_other (d : gmap string node) id id' :
  id <> id' -> taken (claimSessionDir ORACLE_HOME d id) id' = taken d id'.
Proof.
  intros Hne. unfold claimSessionDir.
  destruct (d !! dirOf id) eqn:E; [done|].
  rewrite <- (listed_exists d id (dirOf id')). unfold fileExists.
  rewrite lookup_insert_ne; [done|]. intros Heq. by apply sessionDir_inj in Heq.
Qed.

(** C6. [ensureUniqueSessionId] always returns, and what it returns is the
    first candidate of [slug], [slug-2], [slug-3], ... whose directory does
    not exist: the base slug itself when that is free.  So on a disk where
    [slug], [slug-2] and [slug-3] are free, three sessions created in turn
    with the same base slug get the ids [slug], [slug-2] and [slug-3]. *)
Theorem session_id_uniqueness (d : gmap string node) (baseSlug : string) :
  (exists k,
      ensureUniqueSessionId ORACLE_HOME d baseSlug = Some (candidate_id baseSlug k) /\
      fileExists d (sessionDir ORACLE_HOME (candidate_id baseSlug k)) = false /\
      forall j, (j < k)%nat ->
                fileExists d (sessionDir ORACLE_HOME (candidate_id baseSlug j)) = true) /\
  (fileExists d (sessionDir ORACLE_HOME baseSlug) = false ->
   ensureUniqueSessionId ORACLE_HOME d baseSlug = Some baseSlug) /\
  (fileExists d (sessionDir ORACLE_HOME baseSlug) = false ->
   fileExists d (sessionDir ORACLE_HOME (baseSlug +:+ "-2")) = false ->
   fileExists d (sessionDir ORACLE_HOME (baseSlug +:+ "-3")) = false ->
   let d1 := claimSessionDir ORACLE_HOME d baseSlug in
   let d2 := claimSessionDir ORACLE_HOME d1 (baseSlug +:+ "-2") in
   ensureUniqueSessionId ORACLE_HOME d baseSlug = Some baseSlug /\
   ensureUniqueSessionId ORACLE_HOME d1 baseSlug = Some (baseSlug +:+ "-2") /\
   ensureUniqueSessionId ORACLE_HOME d2 baseSlug = Some (baseSlug +:+ "-3")).
Proof.
  split; [|split].
  - destruct (least_candidate_free d baseSlug) as (m & Hm & Hfree & Htaken).
    exists m. split; [|done]. by apply ensureUniqueSessionId_first_free.
  - intros Hfree. apply (ensureUniqueSessionId_first_free d baseSlug 0); [done|]. lia.
  - intros H1 H2 H3 d1 d2.
    assert (Hne2 : baseSlug <> baseSlug +:+ "-2") by by apply app_length_neq.
    assert (Hne3 : baseSlug <> baseSlug +:+ "-3") by by apply app_length_neq.
    assert (Hne23 : baseSlug +:+ "-2" <> baseSlug +:+ "-3").
    { intros Heq. by apply (inj (String.app baseSlug)) in Heq. }
    split; [|split].
    + apply (ensureUniqueSessionId_first_free d baseSlug 0); [done|]. lia.
    + apply (ensureUniqueSessionId_first_free d1 baseSlug 1).
      * change (candidate_id baseSlug 1) with (baseSlug +:+ "-2").
        unfold d1. by rewrite taken_claimed_other.
      * intros j Hj. assert (j = 0)%nat as -> by lia. apply taken_claimed.
    + apply (ensureUniqueSessionId_first_free d2 baseSlug 2).
      * change (candidate_id baseSlug 2) with (baseSlug +:+ "-3").
        unfold d2, d1. by rewrite !taken_claimed_other.
      * intros j Hj. destruct j as [|[|j]]; [| |lia].
        -- unfold d2. rewrite taken_claimed_other by done. apply taken_claimed.
        -- apply taken_claimed.
Qed.

End Store.

Lemma session_id_uniqueness_witness :
  let home := "/home/u/.oracle" in
  let d : gmap string node := {[ "/home/u/.oracle/sessions" := Dir [] ]} in
  let d1 := claimSessionDir home d "fix-login-bug" in
  let d2 := claimSessionDir home d1 "fix-login-bug-2" in
  ensureUniqueSessionId home d "fix-login-bug" = Some "fix-login-bug" /\
  ensureUniqueSessionId home d1 "fix-login-bug" = Some "fix-login-bug-2" /\
  ensureUniqueSessionId home d2 "fix-login-bug" = Some "fix-login-bug-3".
Proof.
  intros home d.
  apply (proj2 (proj2 (session_id_uniqueness home d "fix-login-bug")));
    by vm_compute.
Defined.

End UniqueIdFacts.

(* ===================================================================== *)
(** ** Metadata: zombie detection, reads, updates *)
(* ===================================================================== *)

Module MetadataFacts.
Import JsString JsStringFacts SessionStore.

Local Arguments String.append : simpl nomatch.

Section Store.
Variable ORACLE_HOME : string.
Variable clock : nat -> Z.
Variable Date_parse : jsval -> option Z.
Variable toISOString : Z -> string.

Local Notation "'is_zombie'" := (isZombie clock Date_parse).
Local Notation "'mark'" := (markZombie ORACLE_HOME clock Date_parse toISOString).
Local Notation "'zombie_of'" := (zombified toISOString).
Local Notation "'stale'" := (stale_running Date_parse).
Local Notation "'read_modern'" :=
  (readModernSessionMetadata ORACLE_HOME clock Date_parse toISOString).
Local Notation "'read_legacy'" :=
  (readLegacySessionMetadata ORACLE_HOME clock Date_parse toISOString).
Local Notation "'read_meta'" :=
  (readSessionMetadata ORACLE_HOME clock Date_parse toISOString).
Local Notation "'update_meta'" :=
  (updateSessionMetadata ORACLE_HOME clock Date_parse toISOString).

Lemma status_is_running_iff meta :
  status_is_running meta = true <-> meta !! "status" = Some (JStr "running").
Proof.
  unfold status_is_running. destruct (meta !! "status") as [[]|]; try (split; congruence).
  rewrite String.eqb_eq. split; congruence.
Qed.

Lemma reference_time_code meta :
  reference_time Date_parse meta =
    let reference := nullish (meta !! "startedAt") (meta !! "createdAt") in
    if js_truthy reference
    then match reference with Some r => Date_parse r | None => None end
    else None.
Proof.
  unfold reference_time, nullish.
  destruct (meta !! "startedAt") as [[]|]; simpl; try done;
    destruct (meta !! "createdAt") as [v|]; simpl; done.
Qed.

(** [isZombie] answers [true] exactly for a stale running record, reading
    the clock once; it never touches the disk. *)
Lemma isZombie_stale meta w :
  stale meta (clock (reads w)) -> is_zombie meta w = Ok (true, tick w).
Proof.
  intros [Hstatus (startedMs & Href & Hage)].
  apply status_is_running_iff in Hstatus. rewrite reference_time_code in Href.
  unfold isZombie. rewrite Hstatus. simpl in *.
  destruct (js_truthy (nullish _ _)); [|done]. simpl.
  destruct (nullish _ _) as [r|]; [|done]. rewrite Href.
  unfold bind, Date_now, ret, tick. simpl. do 2 f_equal.
  unfold ZOMBIE_MAX_AGE_MS. apply Z.ltb_lt. lia.
Qed.

Lemma isZombie_fresh meta w :
  ~ stale meta (clock (reads w)) ->
  exists w', is_zombie meta w = Ok (false, w') /\ fs w' = fs w.
Proof.
  intros Hfresh. unfold isZombie.
  destruct (status_is_running meta) eqn:Hstatus; simpl; [|by exists w].
  apply status_is_running_iff in Hstatus.
  pose proof (reference_time_code meta) as Href. simpl in Href.
  destruct (js_truthy (nullish _ _)); simpl; [|by exists w].
  destruct (nullish _ _) as [r|]; [|by exists w].
  destruct (Date_parse r) as [startedMs|] eqn:Hparse; [|by exists w].
  unfold bind, Date_now, ret. simpl. exists (tick w). split; [|done].
  do 2 f_equal. apply Z.ltb_ge. unfold ZOMBIE_MAX_AGE_MS.
  destruct (Z_le_gt_dec (clock (reads w) - startedMs) (60 * 60 * 1000)) as [Hle|Hgt]; [done|].
  exfalso. apply Hfresh. split; [done|]. exists startedMs. by rewrite Href.
Qed.

(** A record that is not running (a reclassified one, say) is returned as
    it is, with no write, also by the persisting call. *)
Lemma markZombie_not_running meta persist w :
  meta !! "status" <> Some (JStr "running") -> mark meta persist w = Ok (meta, w).
Proof.
  intros Hstatus. unfold markZombie, bind, isZombie.
  destruct (status_is_running meta) eqn:E; [|done].
  by apply status_is_running_iff in E.
Qed.

Lemma zombified_status meta t : zombie_of meta t !! "status" = Some (JStr "error").
Proof. unfold zombified. rewrite !lookup_insert_ne by done. apply lookup_insert_eq. Qed.

Lemma markZombie_zombified meta t persist w :
  mark (zombie_of meta t) persist w = Ok (zombie_of meta t, w).
Proof. apply markZombie_not_running. by rewrite zombified_status. Qed.

Lemma markZombie_read_stale meta w :
  stale meta (clock (reads w)) ->
  mark meta false w = Ok (zombie_of meta (clock (S (reads w))), tick (tick w)).
Proof.
  intros Hstale. unfold markZombie, bind. by rewrite (isZombie_stale _ _ Hstale).
Qed.

Lemma markZombie_read_fresh meta w :
  ~ stale meta (clock (reads w)) ->
  exists w', mark meta false w = Ok (meta, w') /\ fs w' = fs w.
Proof.
  intros Hfresh. destruct (isZombie_fresh _ _ Hfresh) as (w' & Hz & Hfs).
  exists w'. unfold markZombie, bind. by rewrite Hz.
Qed.

Lemma markZombie_read_total meta w :
  exists result w', mark meta false w = Ok (result, w') /\ fs w' = fs w.
Proof.
  destruct (status_is_running meta) eqn:Hstatus.
  - unfold markZombie, bind, isZombie. rewrite Hstatus. simpl.
    destruct (js_truthy (nullish _ _)); simpl; [|by exists meta, w].
    destruct (nullish _ _) as [r|]; [|by exists meta, w].
    destruct (Date_parse r) as [startedMs|]; [|by exists meta, w].
    unfold Date_now, ret. simpl.
    destruct (ZOMBIE_MAX_AGE_MS <? _); simpl; by eexists _, _.
  - exists meta, w. split; [|done]. apply markZombie_not_running.
    intros E. apply status_is_running_iff in E. congruence.
Qed.

(** Reading the current-format file: what is stored, with the model runs on
    disk attached, goes through the zombie rule; nothing is written. *)
Lemma readModern_stored id stored w :
  readMetaJson (fs w) (metaPath ORACLE_HOME id) = Some stored ->
  isSessionMetadataRecord stored = true ->
  let enriched := attachModelRuns ORACLE_HOME (fs w) stored id in
  (stale enriched (clock (reads w)) ->
   read_modern id w = Ok (Some (zombie_of enriched (clock (S (reads w)))), tick (tick w))) /\
  (~ stale enriched (clock (reads w)) ->
   exists w', read_modern id w = Ok (Some enriched, w') /\ fs w' = fs w).
Proof.
  intros Hread Hrecord enriched.
  assert (Hstep : read_modern id w
                  = bind (mark enriched false) (fun marked => ret (Some marked)) w).
  { unfold readModernSessionMetadata, bind at 1, disk_now. by rewrite Hread, Hrecord. }
  rewrite Hstep. unfold bind. split.
  - intros Hstale. by rewrite (markZombie_read_stale _ _ Hstale).
  - intros Hfresh. destruct (markZombie_read_fresh _ _ Hfresh) as (w' & Hm & Hfs).
    exists w'. by rewrite Hm.
Qed.

Lemma readModern_absent id w :
  readMetaJson (fs w) (metaPath ORACLE_HOME id) = None ->
  read_modern id w = Ok (None, w).
Proof.
  intros Hread. unfold readModernSessionMetadata, bind, disk_now. by rewrite Hread.
Qed.

Lemma readLegacy_absent id w :
  readMetaJson (fs w) (legacySessionPath ORACLE_HOME id) = None ->
  read_legacy id w = Ok (None, w).
Proof.
  intros Hread. unfold readLegacySessionMetadata, bind, disk_now. by rewrite Hread.
Qed.

Lemma readMetaJson_missing (d : gmap string node) p : d !! p = None -> readMetaJson d p = None.
Proof. intros H. unfold readMetaJson. by rewrite H. Qed.

(** C9, as amended.  With neither metadata file on disk, the update of a
    session whose directory exists succeeds: it returns the record [{ id }]
    merged with the update and leaves exactly that record in [meta.json];
    without the session directory the write is rejected and the call
    throws. *)
Theorem update_is_upsert_in_existing_directory
        (w : world) (sessionId : string) (updates : gmap string jsval)
        (Hmodern : fs w !! metaPath ORACLE_HOME sessionId = None)
        (Hlegacy : fs w !! legacySessionPath ORACLE_HOME sessionId = None) :
  let update := updateSessionMetadata ORACLE_HOME clock Date_parse toISOString in
  let next := spread {[ "id" := JStr sessionId ]} updates in
  (forall entries,
      fs w !! sessionDir ORACLE_HOME sessionId = Some (Dir entries) ->
      exists w',
        update sessionId updates w = Ok (next, w') /\
        fs w' !! metaPath ORACLE_HOME sessionId = Some (MetaFile next) /\
        (forall key value, updates !! key = Some value -> next !! key = Some value) /\
        (updates !! "id" = None -> next !! "id" = Some (JStr sessionId))) /\
  (fs w !! sessionDir ORACLE_HOME sessionId = None ->
   update sessionId updates w
   = Throw (FsError "ENOENT" (metaPath ORACLE_HOME sessionId))).
Proof.
  intros update. subst update.
  intros next.
  assert (Hstart :
    update_meta sessionId updates w =
      (bind (writeFile (sessionDir ORACLE_HOME sessionId) METADATA_FILENAME (MetaFile next))
            (fun _ => ret next)) w).
  { unfold updateSessionMetadata.
    unfold bind at 1. rewrite readModern_absent by by apply readMetaJson_missing.
    unfold bind at 1. unfold bind at 1.
    rewrite readLegacy_absent by by apply readMetaJson_missing. reflexivity. }
  rewrite Hstart. change (metaPath ORACLE_HOME sessionId)
    with (path_join (sessionDir ORACLE_HOME sessionId) METADATA_FILENAME) in *.
  split.
  - intros entries Hdir. unfold bind, writeFile. rewrite Hdir, Hmodern.
    eexists. split; [reflexivity|]. simpl. split; [by rewrite lookup_insert_eq|]. split.
    + intros key value Hkey. unfold next, spread. by apply lookup_union_Some_l.
    + intros Hid. unfold next, spread. rewrite lookup_union_r by done.
      by rewrite lookup_singleton_eq.
  - intros Hdir. unfold bind, writeFile. by rewrite Hdir.
Qed.

(** One round of the listing loop over a session whose read comes back
    not running: the persisting call writes nothing. *)
Lemma list_loop_not_running entry rest metas w m w1 :
  read_meta entry w = Ok (Some m, w1) ->
  m !! "status" <> Some (JStr "running") ->
  list_loop ORACLE_HOME clock Date_parse toISOString (entry :: rest) metas w
  = list_loop ORACLE_HOME clock Date_parse toISOString rest (metas ++ [m]) w1.
Proof.
  intros Hread Hstatus. simpl. unfold bind at 1. rewrite Hread.
  unfold bind at 1. by rewrite markZombie_not_running.
Qed.

End Store.

Import Examples.

(** The read side of the zombie rule on a concrete disk: a running session
    started 61 minutes before the clock reading comes back as an error with
    the zombie message and a completion time; one started 59 minutes before
    comes back as stored. *)
Lemma read_after_61_minutes :
  let stored := running_since "nightly-sync" "2025-01-01T00:00:00.000Z" in
  let d := session_disk "nightly-sync" stored in
  readSessionMetadata home (clock_from 1735693260000) parse_date IsoDate.toISOString
                      "nightly-sync" {| fs := d; reads := 0 |}
  = Ok (Some (<["completedAt" := JStr "2025-01-01T01:01:00.001Z"]>
                (<["errorMessage" := JStr "Session marked as zombie (>60m stale)"]>
                   (<["status" := JStr "error"]> stored))),
        {| fs := d; reads := 2 |}).
Proof. vm_compute. reflexivity. Qed.

Lemma read_after_59_minutes :
  let stored := running_since "nightly-sync" "2025-01-01T00:00:00.000Z" in
  let d := session_disk "nightly-sync" stored in
  readSessionMetadata home (clock_from 1735693140000) parse_date IsoDate.toISOString
                      "nightly-sync" {| fs := d; reads := 0 |}
  = Ok (Some stored, {| fs := d; reads := 1 |}).
Proof. vm_compute. reflexivity. Qed.

(** C1, the listing.  On a disk with one running session that started 61
    minutes before, the listing returns the record reclassified as an error
    with the zombie message, and the disk it leaves is the disk it found:
    [meta.json] still holds the record with status [running].  The
    persisting call is handed the record the read has already reclassified,
    which is no longer running, so it returns without writing. *)
Theorem listing_leaves_zombie_unwritten :
  let stored := running_since "nightly-sync" "2025-01-01T00:00:00.000Z" in
  let d := session_disk "nightly-sync" stored in
  let clock := clock_from 1735693260000 in
  listSessionsMetadata home clock parse_date IsoDate.toISOString {| fs := d; reads := 0 |}
  = Ok ([zombified IsoDate.toISOString stored (clock 1%nat)], {| fs := d; reads := 2 |})
  /\ zombified IsoDate.toISOString stored (clock 1%nat) !! "status" = Some (JStr "error")
  /\ readMetaJson d (metaPath home "nightly-sync") = Some stored
  /\ stored !! "status" = Some (JStr "running").
Proof. repeat split; vm_compute; reflexivity. Qed.

(** C9 as stated fails where the session directory does not exist: the
    write of [meta.json] is rejected and the update throws. *)
Lemma update_without_directory_throws :
  let w := {| fs := empty_store; reads := 0 |} in
  fs w !! metaPath home "ghost" = None /\
  fs w !! legacySessionPath home "ghost" = None /\
  updateSessionMetadata home (clock_from 0) parse_date IsoDate.toISOString
                        "ghost" (<["status" := JStr "running"]> ∅) w
  = Throw (FsError "ENOENT" "/home/u/.oracle/sessions/ghost/meta.json").
Proof. repeat split; vm_compute; reflexivity. Qed.

Lemma update_is_upsert_witness :
  let id := "draft-release-notes" in
  let updates : gmap string jsval := <["status" := JStr "running"]> ∅ in
  let next := spread {[ "id" := JStr id ]} updates in
  exists w',
    updateSessionMetadata home (clock_from 0) parse_date IsoDate.toISOString id updates
                          {| fs := bare_session_disk id; reads := 0 |} = Ok (next, w') /\
    fs w' !! metaPath home id = Some (MetaFile next) /\
    (forall key value, updates !! key = Some value -> next !! key = Some value) /\
    (updates !! "id" = None -> next !! "id" = Some (JStr id)).
Proof.
  intros id updates next.
  refine (proj1 (update_is_upsert_in_existing_directory
                   home (clock_from 0) parse_date IsoDate.toISOString
                   {| fs := bare_session_disk id; reads := 0 |} id updates _ _) [] _);
    reflexivity.
Defined.

End MetadataFacts.

(* ===================================================================== *)
(** ** The combined log *)
(* ===================================================================== *)

Module CombinedLogFacts.
Import JsString JsStringFacts SessionStore.

Local Arguments String.append : simpl nomatch.

Section SortFacts.
Context {A : Type} (compareFn : A -> A -> Z).

Local Notation "'le'" := (fun a b => compareFn a b <= 0).

Lemma sort_insert_perm x l : Permutation (sort_insert compareFn x l) (x :: l).
Proof.
  induction l as [|y l IH]; simpl; [done|].
  destruct (0 <? compareFn x y); [|done].
  rewrite IH. apply perm_swap.
Qed.

Lemma js_sort_perm l : Permutation (js_sort compareFn l) l.
Proof.
  induction l as [|x l IH]; simpl; [done|].
  rewrite sort_insert_perm. by constructor.
Qed.

Lemma sort_insert_front x l :
  Forall (fun y => compareFn x y <= 0) l -> sort_insert compareFn x l = x :: l.
Proof.
  destruct 1 as [|y l Hy _]; simpl; [done|].
  by destruct (Z.ltb_spec 0 (compareFn x y)); [lia|].
Qed.

(** Elements none of which sorts after another keep their order: the sort
    is stable. *)
Lemma js_sort_stable l :
  (forall x y, In x l -> In y l -> compareFn x y <= 0) -> js_sort compareFn l = l.
Proof.
  induction l as [|x l IH]; intros Hle; simpl; [done|].
  rewrite IH by (intros; apply Hle; by right).
  apply sort_insert_front, List.Forall_forall. intros y Hy.
  apply Hle; [by left | by right].
Qed.

(** The elements that [keep] selects keep their order, when none of them
    sorts after another. *)
Lemma sort_insert_filter (keep : A -> bool) x l :
  (forall y, In y l -> keep x = true -> keep y = true -> compareFn x y <= 0) ->
  List.filter keep (sort_insert compareFn x l) = List.filter keep (x :: l).
Proof.
  induction l as [|y l IH]; intros Hle; [done|].
  cbn [sort_insert]. destruct (Z.ltb_spec 0 (compareFn x y)) as [Hgt|_]; [|done].
  assert (IH' : List.filter keep (sort_insert compareFn x l) = List.filter keep (x :: l)).
  { apply IH. intros z Hz. apply Hle. by right. }
  cbn [List.filter] in *. rewrite IH'.
  destruct (keep x) eqn:Hx; [|done].
  destruct (keep y) eqn:Hy; [|done].
  specialize (Hle y (or_introl eq_refl) eq_refl Hy). lia.
Qed.

Lemma js_sort_filter (keep : A -> bool) l :
  (forall x y, In x l -> In y l -> keep x = true -> keep y = true -> compareFn x y <= 0) ->
  List.filter keep (js_sort compareFn l) = List.filter keep l.
Proof.
  induction l as [|x l IH]; intros Hle; [done|].
  cbn [js_sort foldr]. change (foldr (sort_insert compareFn) [] l) with (js_sort compareFn l).
  rewrite sort_insert_filter.
  - cbn [List.filter]. rewrite IH; [done|]. intros a b Ha Hb. apply Hle; by right.
  - intros y Hy. apply Hle; [by left|].
    right. eapply Permutation_in; [apply js_sort_perm | done].
Qed.

Lemma sort_insert_sorted x l :
  (forall y, In y l -> 0 < compareFn x y -> compareFn y x <= 0) ->
  Sorted le l -> Sorted le (sort_insert compareFn x l).
Proof.
  intros Hanti Hsorted. induction Hsorted as [|y l Hsorted IH Hhd]; simpl.
  - repeat constructor.
  - destruct (Z.ltb_spec 0 (compareFn x y)) as [Hgt|Hle].
    + constructor.
      * apply IH. intros z Hz. apply Hanti. by right.
      * destruct Hhd as [|z l Hyz]; simpl.
        -- constructor. apply Hanti; [by left | done].
        -- destruct (0 <? compareFn x z); constructor; [done|].
           apply Hanti; [by left | done].
    + constructor; [by constructor|]. by constructor.
Qed.

Lemma js_sort_sorted l :
  (forall x y, In x l -> In y l -> 0 < compareFn x y -> compareFn y x <= 0) ->
  Sorted le (js_sort compareFn l).
Proof.
  induction l as [|x l IH]; intros Hanti; simpl; [constructor|].
  apply sort_insert_sorted.
  - intros y Hy. apply Hanti; [by left|].
    right. eapply Permutation_in; [apply js_sort_perm | done].
  - apply IH. intros a b Ha Hb. apply Hanti; by right.
Qed.

Lemma Sorted_ext (R1 R2 : A -> A -> Prop) l :
  (forall a b, In a l -> In b l -> R1 a b -> R2 a b) -> Sorted R1 l -> Sorted R2 l.
Proof.
  intros Hext Hsorted. induction Hsorted as [|x l Hsorted IH Hhd]; [constructor|].
  constructor.
  - apply IH. intros a b Ha Hb. apply Hext; by right.
  - destruct Hhd as [|y l Hxy]; constructor. apply Hext; [by left | right; by left | done].
Qed.
End SortFacts.

Section Store.
Variable ORACLE_HOME : string.
Variable localeCompare : string -> string -> Z.
Variable JSON_stringify_meta : gmap string jsval -> string.
Variable JSON_stringify_run : ModelRun -> string.

(** A string compares equal to itself, and of two strings at most one sorts
    after the other. *)
Hypothesis localeCompare_refl : forall a, localeCompare a a = 0.
Hypothesis localeCompare_antisym : forall a b, 0 < localeCompare a b -> localeCompare b a <= 0.

Local Notation "'compare_runs'" := (compareRuns localeCompare).
Local Notation "'body_of'" :=
  (runLogBody ORACLE_HOME JSON_stringify_meta JSON_stringify_run).
Local Notation "'logLoop'" :=
  (log_loop ORACLE_HOME JSON_stringify_meta JSON_stringify_run).
Local Notation "'combined_log'" :=
  (readSessionLog ORACLE_HOME localeCompare JSON_stringify_meta JSON_stringify_run).
Local Notation "'legacy_log'" :=
  (fun d id => readFile JSON_stringify_meta JSON_stringify_run d (logPath ORACLE_HOME id)).

Lemma compareRuns_started a b :
  started a -> started b -> compare_runs a b = localeCompare (start_of a) (start_of b).
Proof. unfold started, compareRuns. by intros -> ->. Qed.

Lemma compareRuns_unstarted a b :
  ~ started a -> compare_runs a b = localeCompare (model a) (model b).
Proof.
  unfold started, compareRuns. intros Ha.
  by destruct (opt_truthy (startedAt a)).
Qed.

Lemma log_loop_map d id ordered sections hasContent :
  logLoop d id ordered sections hasContent =
    (sections ++ map (fun run => logSection run (body_of d id run)) ordered,
     hasContent || existsb (fun run => (0 <? String.length (body_of d id run))%nat) ordered).
Proof.
  revert sections hasContent.
  induction ordered as [|run ordered IH]; intros sections hasContent; simpl.
  - by rewrite List.app_nil_r, orb_false_r.
  - rewrite IH, <- List.app_assoc. simpl. f_equal.
    destruct (0 <? String.length (body_of d id run))%nat; simpl; [|done].
    by rewrite orb_true_r.
Qed.

Lemma has_content_perm d id l l' :
  Permutation l l' ->
  existsb (fun run => (0 <? String.length (body_of d id run))%nat) l
  = existsb (fun run => (0 <? String.length (body_of d id run))%nat) l'.
Proof.
  induction 1 as [|x l l' _ IH|x y l|l l' l'' _ IH1 _ IH2]; simpl.
  - done.
  - by rewrite IH.
  - by rewrite !orb_assoc, (orb_comm (0 <? _)%nat).
  - by rewrite IH1.
Qed.

(** C4, as amended.  With per-model records on disk, the combined log holds
    one section per record, each under its [=== <model> ===] header.  When
    every record has a start time the sections come in start-time order, and
    records with equal start times keep the order in which the directory
    lists them, whatever their model names.  When no record has a start time
    the sections come in model-name order, records of one name in listing
    order.  When no per-model log has content, the legacy log is returned if
    it can be read; if it cannot, or when some per-model log has content,
    the sections are returned. *)
Theorem combined_log_order
        (d : gmap string node) (sessionId : string)
        (Hruns : listModelRunFiles ORACLE_HOME d sessionId <> []) :
  let body := runLogBody ORACLE_HOME JSON_stringify_meta JSON_stringify_run d sessionId in
  let combined := readSessionLog ORACLE_HOME localeCompare JSON_stringify_meta
                                  JSON_stringify_run d sessionId in
  let legacy_text := readFile JSON_stringify_meta JSON_stringify_run d (logPath ORACLE_HOME sessionId) in
  let runs := listModelRunFiles ORACLE_HOME d sessionId in
  let section := fun run => trimEnd ("=== " +:+ model run +:+ " ===" +:+ newline
                                       +:+ body run) in
  (Forall (fun run => body run = EmptyString) runs ->
   forall legacy, legacy_text = Some legacy -> combined = legacy) /\
  exists shown,
    Permutation shown runs /\
    (Exists (fun run => body run <> EmptyString) runs \/ legacy_text = None ->
     combined = join (newline +:+ newline) (map section shown)) /\
    (Forall started runs ->
     Sorted (fun a b => localeCompare (start_of a) (start_of b) <= 0) shown /\
     (forall t, List.filter (fun run => String.eqb (start_of run) t) shown
                = List.filter (fun run => String.eqb (start_of run) t) runs) /\
     ((forall a b, In a runs -> In b runs -> start_of a = start_of b) -> shown = runs)) /\
    (Forall (fun run => ~ started run) runs ->
     Sorted (fun a b => localeCompare (model a) (model b) <= 0) shown /\
     (forall name, List.filter (fun run => String.eqb (model run) name) shown
                   = List.filter (fun run => String.eqb (model run) name) runs)).
Proof.
  intros body combined legacy_text. subst body combined legacy_text.
  intros runs section.
  set (ordered := js_sort compare_runs runs).
  assert (Hperm : Permutation ordered runs) by apply js_sort_perm.
  assert (Hlog : combined_log d sessionId =
                 if existsb (fun run => (0 <? String.length (body_of d sessionId run))%nat) runs
                 then join (newline +:+ newline) (map section ordered)
                 else match legacy_log d sessionId with
                      | Some legacy => legacy
                      | None => join (newline +:+ newline) (map section ordered)
                      end).
  { unfold readSessionLog. fold runs.
    destruct (length runs =? 0)%nat eqn:Hlen.
    { apply Nat.eqb_eq in Hlen. by destruct runs. }
    fold ordered. rewrite log_loop_map. simpl.
    rewrite (has_content_perm d sessionId ordered runs Hperm).
    by destruct (existsb _ runs). }
  assert (Hempty : forall run, body_of d sessionId run = EmptyString
                               <-> (0 <? String.length (body_of d sessionId run))%nat = false).
  { intros run. destruct (body_of d sessionId run); simpl; split; done. }
  assert (Hsilent : Forall (fun run => body_of d sessionId run = EmptyString) runs ->
                    existsb (fun run => (0 <? String.length (body_of d sessionId run))%nat) runs
                    = false).
  { intros Hnone. apply not_true_is_false. intros (run & Hin & Hbody)%existsb_exists.
    rewrite List.Forall_forall in Hnone. apply Hnone, Hempty in Hin. congruence. }
  assert (Hin : forall a, In a ordered -> In a runs).
  { intros a. by apply Permutation_in. }
  split.
  { intros Hnone legacy Hlegacy. rewrite Hlog, (Hsilent Hnone). simpl in *. by rewrite Hlegacy. }
  exists ordered. split; [done|]. split; [|split].
  - intros [Hcontent|Hlegacy]; rewrite Hlog.
    + apply List.Exists_exists in Hcontent as (run & Hrun & Hbody).
      assert (existsb (fun run => (0 <? String.length (body_of d sessionId run))%nat) runs
              = true) as ->; [|done].
      apply existsb_exists. exists run. split; [done|].
      destruct (0 <? _)%nat eqn:E; [done|]. by apply Hempty in E.
    + simpl in *. rewrite Hlegacy. by destruct (existsb _ runs).
  - intros Hstarted. rewrite List.Forall_forall in Hstarted.
    split; [|split].
    + eapply Sorted_ext; [|apply js_sort_sorted].
      * intros a b Ha Hb. simpl. by rewrite compareRuns_started by auto.
      * intros a b Ha Hb. rewrite !compareRuns_started by auto.
        apply localeCompare_antisym.
    + intros t. apply js_sort_filter. intros a b Ha Hb Hat Hbt.
      apply String.eqb_eq in Hat, Hbt.
      rewrite compareRuns_started, Hat, Hbt by auto.
      by rewrite localeCompare_refl.
    + intros Hsame. apply js_sort_stable. intros a b Ha Hb.
      rewrite compareRuns_started by auto. rewrite (Hsame a b Ha Hb).
      by rewrite localeCompare_refl.
  - intros Hunstarted. rewrite List.Forall_forall in Hunstarted.
    split.
    + eapply Sorted_ext; [|apply js_sort_sorted].
      * intros a b Ha Hb. simpl. by rewrite compareRuns_unstarted by auto.
      * intros a b Ha Hb. rewrite !compareRuns_unstarted by auto.
        apply localeCompare_antisym.
    + intros name. apply js_sort_filter. intros a b Ha Hb Han Hbn.
      apply String.eqb_eq in Han, Hbn.
      rewrite compareRuns_unstarted, Han, Hbn by auto.
      by rewrite localeCompare_refl.
Qed.

End Store.

Import Examples.

Lemma byCodeUnits_refl a : byCodeUnits a a = 0.
Proof.
  unfold byCodeUnits. pose proof (String.compare_antisym a a) as H.
  destruct (String.compare a a); simpl in H; congruence.
Qed.

Lemma byCodeUnits_antisym a b : 0 < byCodeUnits a b -> byCodeUnits b a <= 0.
Proof.
  unfold byCodeUnits. rewrite (String.compare_antisym b a).
  destruct (String.compare a b); simpl; lia.
Qed.

(** A list of three that holds three given values, all different, is one of
    their six arrangements. *)
Lemma three_arranged {A} (x y z : A) l :
  x <> y -> x <> z -> y <> z ->
  Permutation l [x; y; z] ->
  l = [x; y; z] \/ l = [x; z; y] \/ l = [y; x; z] \/
  l = [y; z; x] \/ l = [z; x; y] \/ l = [z; y; x].
Proof.
  intros Hxy Hxz Hyz Hperm.
  pose proof (Permutation_length Hperm) as Hlen.
  destruct l as [|a [|b [|c [|]]]]; try discriminate Hlen.
  assert (Hnd : List.NoDup [a; b; c]).
  { eapply Permutation_NoDup; [symmetry; exact Hperm|].
    repeat constructor; simpl; intuition congruence. }
  assert (Ha : In a [x; y; z]) by (eapply Permutation_in; [exact Hperm | by left]).
  assert (Hb : In b [x; y; z])
    by (eapply Permutation_in; [exact Hperm | right; by left]).
  assert (Hc : In c [x; y; z])
    by (eapply Permutation_in; [exact Hperm | right; right; by left]).
  inversion Hnd as [|? ? Hab Hnd']; subst.
  inversion Hnd' as [|? ? Hbc _]; subst.
  simpl in Ha, Hb, Hc, Hab, Hbc.
  destruct Ha as [<-|[<-|[<-|[]]]]; destruct Hb as [<-|[<-|[<-|[]]]];
    destruct Hc as [<-|[<-|[<-|[]]]]; tauto.
Qed.

Lemma three_sorted {A} (R : A -> A -> Prop) a b c :
  StronglySorted R [a; b; c] -> R a b /\ R a c /\ R b c.
Proof.
  intros H. apply StronglySorted_inv in H as [H Ha].
  apply StronglySorted_inv in H as [_ Hb].
  apply Forall_inv in Hb.
  pose proof (Forall_inv Ha). apply Forall_inv_tail, Forall_inv in Ha. done.
Qed.

(** C4 as stated fails on each of three sessions.  Two models that started
    at the same instant: [gpt-5] sorts before [gpt-5-pro] by model name, yet
    the combined log keeps the order of the directory listing, in which
    [gpt-5-pro.json] comes first.  Three models of which one has no start
    time: the stated order puts [gpt-5-pro] before [claude-4.5-sonnet] (by
    start time), that one before [gemini-3-pro] and [gemini-3-pro] before
    [gpt-5-pro] (by model name), so no arrangement of the sections follows
    it; the comparator of the code finds every record of the listing in
    order with the next, so the sort moves nothing, and the section of
    [claude-4.5-sonnet] comes before that of [gpt-5-pro], which started
    five seconds earlier.  Two models with empty logs and no legacy
    log to read: what comes back is the two headers, not the content of a
    legacy log. *)
Lemma combined_log_not_as_stated :
  (readdir_or_empty two_models_disk (modelsDir home "compare-two-models")
   = ["gpt-5-pro.json"; "gpt-5-pro.log"; "gpt-5.json"; "gpt-5.log"] /\
   map (fun run => (model run, startedAt run))
       (listModelRunFiles home two_models_disk "compare-two-models")
   = [ ("gpt-5-pro", Some "2025-01-01T00:00:00.000Z");
       ("gpt-5", Some "2025-01-01T00:00:00.000Z") ] /\
   byCodeUnits "gpt-5" "gpt-5-pro" < 0 /\
   readSessionLog home byCodeUnits json_of_meta json_of_run two_models_disk "compare-two-models"
   = "=== gpt-5-pro ===" +:+ newline +:+ "gpt-5-pro answered" +:+ newline +:+ newline
       +:+ "=== gpt-5 ===" +:+ newline +:+ "gpt-5 answered") /\
  (map (fun run => (model run, startedAt run))
       (listModelRunFiles home mixed_disk "compare-three-models")
   = [ ("claude-4.5-sonnet", Some "2025-01-01T00:00:05.000Z");
       ("gemini-3-pro", None);
       ("gpt-5-pro", Some "2025-01-01T00:00:00.000Z") ] /\
   (forall shown,
       Permutation shown (listModelRunFiles home mixed_disk "compare-three-models") ->
       ~ StronglySorted (fun a b => spec_order byCodeUnits a b = true) shown) /\
   Sorted (fun a b => compareRuns byCodeUnits a b < 0)
          (listModelRunFiles home mixed_disk "compare-three-models") /\
   readSessionLog home byCodeUnits json_of_meta json_of_run mixed_disk "compare-three-models"
   = "=== claude-4.5-sonnet ===" +:+ newline +:+ "claude answered" +:+ newline +:+ newline
       +:+ "=== gemini-3-pro ===" +:+ newline +:+ newline
       +:+ "=== gpt-5-pro ===" +:+ newline +:+ "gpt-5-pro answered") /\
  (listModelRunFiles home silent_disk "compare-two-models" <> [] /\
   Forall (fun run => runLogBody home json_of_meta json_of_run silent_disk
                                 "compare-two-models" run = EmptyString)
          (listModelRunFiles home silent_disk "compare-two-models") /\
   readFile json_of_meta json_of_run silent_disk (logPath home "compare-two-models") = None /\
   readSessionLog home byCodeUnits json_of_meta json_of_run silent_disk "compare-two-models"
   = "=== gpt-5 ===" +:+ newline +:+ newline +:+ "=== gpt-5-pro ===").
Proof.
  split; [|split].
  - repeat split; vm_compute; reflexivity.
  - split; [vm_compute; reflexivity|].
    split; [|split; [|vm_compute; reflexivity]];
      [|vm_compute; repeat constructor].
    intros shown Hperm Hsorted.
    assert (Hruns : listModelRunFiles home mixed_disk "compare-three-models"
                    = [ ensureModelLogReference (finished_run "claude-4.5-sonnet"
                                                              "2025-01-01T00:00:05.000Z");
                        ensureModelLogReference (pending_run "gemini-3-pro");
                        ensureModelLogReference (finished_run "gpt-5-pro"
                                                              "2025-01-01T00:00:00.000Z") ])
      by (vm_compute; reflexivity).
    rewrite Hruns in Hperm.
    apply three_arranged in Hperm; [|vm_compute; discriminate..].
    destruct Hperm as [-> | [-> | [-> | [-> | [-> | ->]]]]];
      apply three_sorted in Hsorted as (H1 & H2 & H3);
      vm_compute in H1, H2, H3; congruence.
  - split; [vm_compute; discriminate|]. split; [|split]; [|vm_compute; reflexivity..].
    vm_compute. repeat constructor.
Qed.

Lemma combined_log_order_witness :
  let runs := listModelRunFiles home two_models_disk "compare-two-models" in
  exists shown,
    Permutation shown runs /\
    Sorted (fun a b => byCodeUnits (start_of a) (start_of b) <= 0) shown /\
    shown = runs.
Proof.
  intros runs.
  assert (Hruns : listModelRunFiles home two_models_disk "compare-two-models" <> [])
    by (vm_compute; discriminate).
  assert (Hstarted : Forall started runs) by (vm_compute; repeat constructor).
  destruct (combined_log_order home byCodeUnits json_of_meta json_of_run
              byCodeUnits_refl byCodeUnits_antisym two_models_disk "compare-two-models" Hruns)
    as (_ & shown & Hperm & _ & Hordered & _).
  destruct (Hordered Hstarted) as (Hsorted & _ & Hstable).
  exists shown. split; [exact Hperm|]. split; [exact Hsorted|].
  apply Hstable.
  vm_compute. intros a b [<-|[<-|[]]] [<-|[<-|[]]]; reflexivity.
Defined.

End CombinedLogFacts.

(* ===================================================================== *)
(** ** The session store: ranges, model records, paths *)
(* ===================================================================== *)

Module StoreOpsFacts.
Import JsString JsStringFacts SessionStore StoreOps.

Local Arguments String.append : simpl nomatch.

(** *** Paths *)

Lemma length_path_join a b :
  String.length (path_join a b) = (String.length a + 1 + String.length b)%nat.
Proof. unfold path_join. rewrite !length_app. simpl. lia. Qed.

Lemma path_join_inj a : Inj (=) (=) (path_join a).
Proof.
  intros b c Heq. unfold path_join in Heq.
  apply (inj (String.app a)) in Heq. by apply (inj (String.app "/")) in Heq.
Qed.

Lemma path_join_neq_parent a b : path_join a b <> a.
Proof.
  intros Heq. apply (f_equal String.length) in Heq.
  rewrite length_path_join in Heq. lia.
Qed.

Lemma path_join2_neq_parent a b c : path_join (path_join a b) c <> a.
Proof.
  intros Heq. apply (f_equal String.length) in Heq.
  rewrite !length_path_join in Heq. lia.
Qed.

Lemma path_join3_neq_parent a b c e : path_join (path_join (path_join a b) c) e <> a.
Proof.
  intros Heq. apply (f_equal String.length) in Heq.
  rewrite !length_path_join in Heq. lia.
Qed.

Lemma app_inj_tail s t u : s +:+ u = t +:+ u -> s = t.
Proof.
  revert t. induction s as [|c s IH]; intros [|c' t] Heq; simpl in Heq.
  - done.
  - apply (f_equal String.length) in Heq. simpl in Heq. rewrite length_app in Heq. lia.
  - apply (f_equal String.length) in Heq. simpl in Heq. rewrite length_app in Heq. lia.
  - injection Heq as -> Heq. f_equal. by apply IH.
Qed.

Lemma split_app_sep (c : ascii) a rest :
  split c (a +:+ String c rest) = split c a ++ split c rest.
Proof.
  induction a as [|x a IH]; simpl.
  - by rewrite bool_decide_eq_true_2.
  - rewrite IH. destruct (bool_decide (x = c)); [done|].
    destruct (split c a) as [|v vs] eqn:E; [|reflexivity].
    exfalso. destruct a as [|y a]; simpl in E; [done|].
    destruct (bool_decide (y = c)); [done|]. by destruct (split c a).
Qed.

(** The last segment of [dir/name] is [name] when [name] holds no
    separator. *)
Lemma split_last_segment (c : ascii) a w :
  all_chars (fun x => negb (bool_decide (x = c))) w = true ->
  last (split c (a +:+ String c w)) = Some w.
Proof.
  intros Hw. rewrite split_app_sep, (split_no_sep c w) by done. apply last_snoc.
Qed.

Lemma basename_path_join dir name :
  all_chars (fun x => negb (bool_decide (x = "/"%char))) name = true ->
  basename (path_join dir name) = name.
Proof.
  intros Hname. unfold basename, path_join.
  change ("/" +:+ name) with (String "/" name).
  by rewrite split_last_segment.
Qed.

Section Store.
Variable ORACLE_HOME : string.
Variable clock : nat -> Z.
Variable Date_parse : jsval -> option Z.
Variable toISOString : Z -> string.

(** *** Ranges *)

Lemma created_since_spec cutoff meta :
  created_since Date_parse cutoff meta = true <-> created_at_or_after Date_parse cutoff meta.
Proof.
  unfold created_since, created_at_or_after.
  destruct (getTime Date_parse (meta !! "createdAt")) as [t|].
  - rewrite Qle_bool_iff. split; [by exists t|].
    intros (t' & Ht & Hle). by injection Ht as <-.
  - split; [done | by intros (? & ? & ?)].
Qed.

Lemma filterSessionsByRange_run (metas : list (gmap string jsval)) hours (includeAll : bool) limit w :
  let kept := if includeAll then metas
              else List.filter (created_since Date_parse
                                  (inject_Z (clock (reads w)) - hours * 60 * 60 * 1000)%Q) metas in
  filterSessionsByRange clock Date_parse metas hours includeAll limit w
  = Ok ({| entries := slice_to (Z.min limit MAX_STATUS_LIMIT) kept;
           truncated := Z.min limit MAX_STATUS_LIMIT <? Z.of_nat (length kept);
           total := length kept |},
        if includeAll then w else tick w).
Proof. by destruct includeAll. Qed.

(** X1. With a limit that is not negative, [filterSessionsByRange] always
    returns and never touches the disk.  It returns at most [limit] and
    never more than 1000 entries; [total] counts the records kept and
    [truncated] says exactly whether some of them were left out.  With
    [includeAll] every record is kept and the clock is not read; without it
    the records kept are those created at or after the clock reading less
    [hours] hours.  The entries are the first of the records kept, in their
    order. *)
Theorem filterSessionsByRange_limit
        (metas : list (gmap string jsval)) (hours : Q) (includeAll : bool) (limit : Z)
        (w : world) (Hlimit : 0 <= limit) :
  exists r w',
    filterSessionsByRange clock Date_parse metas hours includeAll limit w = Ok (r, w') /\
    fs w' = fs w /\
    (length (entries r) <= 1000)%nat /\
    Z.of_nat (length (entries r)) = Z.min (Z.min limit 1000) (Z.of_nat (total r)) /\
    (truncated r = true <-> (length (entries r) < total r)%nat) /\
    (includeAll = true ->
     w' = w /\ total r = length metas /\ entries r `prefix_of` metas) /\
    (includeAll = false ->
     let cutoff := (inject_Z (clock (reads w)) - hours * 60 * 60 * 1000)%Q in
     total r = length (List.filter (created_since Date_parse cutoff) metas) /\
     entries r `prefix_of` List.filter (created_since Date_parse cutoff) metas /\
     Forall (created_at_or_after Date_parse cutoff) (entries r)).
Proof.
  rewrite filterSessionsByRange_run. cbv zeta.
  set (kept := if includeAll then metas else _).
  eexists _, _. split; [reflexivity|]. cbn [entries truncated total].
  unfold slice_to, MAX_STATUS_LIMIT.
  destruct (Z.leb_spec 0 (Z.min limit 1000)) as [_|Hneg]; [|lia].
  rewrite length_take.
  split; [by destruct includeAll|]. split; [lia|]. split; [lia|]. split; [|split].
  - rewrite Z.ltb_lt. lia.
  - intros ->. repeat split. apply prefix_take.
  - intros ->. subst kept. cbv zeta. repeat split; [apply prefix_take|].
    apply Forall_take, List.Forall_forall. intros m [_ Hm]%filter_In.
    by apply created_since_spec.
Qed.

(** X2. A negative limit is not rejected: it leaves out that many records
    from the end of those kept, so that more than 1000 entries can come
    back, and the result is always reported as truncated. *)
Theorem filterSessionsByRange_negative_limit
        (metas : list (gmap string jsval)) (hours : Q) (limit : Z)
        (w : world) (Hlimit : limit < 0) :
  exists r,
    filterSessionsByRange clock Date_parse metas hours true limit w = Ok (r, w) /\
    truncated r = true /\
    total r = length metas /\
    entries r = take (length metas - Z.to_nat (- limit)) metas.
Proof.
  rewrite filterSessionsByRange_run. cbv zeta.
  eexists. split; [reflexivity|]. cbn [entries truncated total].
  unfold slice_to, MAX_STATUS_LIMIT.
  destruct (Z.leb_spec 0 (Z.min limit 1000)) as [Hpos|_]; [lia|].
  rewrite Z.min_l by lia. split; [|done]. apply Z.ltb_lt. lia.
Qed.

(** *** Model records *)

Lemma ensureSessionStorage_ok w :
  dir_or_absent (fs w) (SESSIONS_DIR ORACLE_HOME) ->
  exists w',
    ensureSessionStorage ORACLE_HOME w = Ok (tt, w') /\ reads w' = reads w /\
    (exists listed, fs w' !! SESSIONS_DIR ORACLE_HOME = Some (Dir listed)) /\
    forall p, p <> SESSIONS_DIR ORACLE_HOME -> fs w' !! p = fs w !! p.
Proof.
  unfold dir_or_absent, ensureSessionStorage.
  destruct (fs w !! SESSIONS_DIR ORACLE_HOME) as [[listed| | |]|] eqn:E; try done; intros _.
  - exists w. eauto.
  - eexists. split; [reflexivity|]. simpl. split; [done|]. split.
    + rewrite lookup_insert_eq. eauto.
    + intros p Hp. by rewrite lookup_insert_ne.
Qed.

Lemma mkdir_in_ok parent name listed w :
  fs w !! parent = Some (Dir listed) ->
  dir_or_absent (fs w) (path_join parent name) ->
  exists w',
    mkdir_in parent name w = Ok (tt, w') /\ reads w' = reads w /\
    (exists listed', fs w' !! path_join parent name = Some (Dir listed')) /\
    forall p, p <> parent -> p <> path_join parent name -> fs w' !! p = fs w !! p.
Proof.
  intros Hparent. unfold dir_or_absent, mkdir_in.
  destruct (fs w !! path_join parent name) as [[listed'| | |]|] eqn:E; try done; intros _.
  - exists w. eauto.
  - rewrite Hparent. eexists. split; [reflexivity|]. simpl. split; [done|]. split.
    + rewrite lookup_insert_eq. eauto.
    + intros p Hp Hp'. by rewrite !lookup_insert_ne.
Qed.

Lemma ensureModelsDir_ok sessionId w :
  dir_or_absent (fs w) (SESSIONS_DIR ORACLE_HOME) ->
  dir_or_absent (fs w) (sessionDir ORACLE_HOME sessionId) ->
  dir_or_absent (fs w) (modelsDir ORACLE_HOME sessionId) ->
  exists w',
    ensureModelsDir ORACLE_HOME sessionId w = Ok (tt, w') /\ reads w' = reads w /\
    (exists listed, fs w' !! modelsDir ORACLE_HOME sessionId = Some (Dir listed)) /\
    forall p, p <> SESSIONS_DIR ORACLE_HOME -> p <> sessionDir ORACLE_HOME sessionId ->
              p <> modelsDir ORACLE_HOME sessionId -> fs w' !! p = fs w !! p.
Proof.
  intros Hroot Hsession Hmodels.
  destruct (ensureSessionStorage_ok w Hroot) as (w1 & Hrun1 & Hreads1 & [l1 Hdir1] & Hframe1).
  assert (Hsession1 : dir_or_absent (fs w1) (sessionDir ORACLE_HOME sessionId)).
  { unfold dir_or_absent. rewrite Hframe1; [done|]. apply path_join_neq_parent. }
  destruct (mkdir_in_ok _ sessionId _ w1 Hdir1 Hsession1)
    as (w2 & Hrun2 & Hreads2 & [l2 Hdir2] & Hframe2).
  assert (Hmodels2 : dir_or_absent (fs w2) (modelsDir ORACLE_HOME sessionId)).
  { unfold dir_or_absent. rewrite Hframe2, Hframe1; [done| | |].
    - apply path_join2_neq_parent.
    - apply path_join2_neq_parent.
    - apply path_join_neq_parent. }
  destruct (mkdir_in_ok _ MODELS_DIRNAME _ w2 Hdir2 Hmodels2)
    as (w3 & Hrun3 & Hreads3 & Hdir3 & Hframe3).
  exists w3. split; [|split; [congruence|split; [done|]]].
  - unfold ensureModelsDir, bind. rewrite Hrun1. fold (sessionDir ORACLE_HOME sessionId).
    rewrite Hrun2. exact Hrun3.
  - intros p Hp1 Hp2 Hp3. rewrite Hframe3, Hframe2, Hframe1; done.
Qed.

(** The record file differs from the directories above it. *)
Lemma modelJsonPath_neq sessionId model :
  modelJsonPath ORACLE_HOME sessionId model <> SESSIONS_DIR ORACLE_HOME /\
  modelJsonPath ORACLE_HOME sessionId model <> sessionDir ORACLE_HOME sessionId /\
  modelJsonPath ORACLE_HOME sessionId model <> modelsDir ORACLE_HOME sessionId.
Proof.
  split; [apply path_join3_neq_parent|]. split; [apply path_join2_neq_parent|].
  apply path_join_neq_parent.
Qed.

(** The whole run of an update on a disk where only directories lie on the
    way to the record. *)
Lemma updateModelRunMetadata_run sessionId model updates w :
  dir_or_absent (fs w) (SESSIONS_DIR ORACLE_HOME) ->
  dir_or_absent (fs w) (sessionDir ORACLE_HOME sessionId) ->
  dir_or_absent (fs w) (modelsDir ORACLE_HOME sessionId) ->
  not_a_directory (fs w) (modelJsonPath ORACLE_HOME sessionId model) ->
  let before := readModelRunFile ORACLE_HOME (fs w) sessionId model in
  let next := ensureModelLogReference
                (mergeModelRun (default (pendingModelRun model) before) updates model) in
  exists w',
    updateModelRunMetadata ORACLE_HOME sessionId model updates w = Ok (next, w') /\
    reads w' = reads w /\
    fs w' !! modelJsonPath ORACLE_HOME sessionId model = Some (RunFile next) /\
    forall p, p <> SESSIONS_DIR ORACLE_HOME -> p <> sessionDir ORACLE_HOME sessionId ->
              p <> modelsDir ORACLE_HOME sessionId ->
              p <> modelJsonPath ORACLE_HOME sessionId model -> fs w' !! p = fs w !! p.
Proof.
  intros Hroot Hsession Hmodels Hfile before next.
  destruct (ensureModelsDir_ok sessionId w Hroot Hsession Hmodels)
    as (w1 & Hrun1 & Hreads1 & [listed Hdir1] & Hframe1).
  destruct (modelJsonPath_neq sessionId model) as (Hne1 & Hne2 & Hne3).
  assert (Hsame : fs w1 !! modelJsonPath ORACLE_HOME sessionId model
                  = fs w !! modelJsonPath ORACLE_HOME sessionId model)
    by by apply Hframe1.
  assert (Hbefore : readModelRunFile ORACLE_HOME (fs w1) sessionId model = before).
  { unfold before, readModelRunFile, readRunJson. by rewrite Hsame. }
  unfold updateModelRunMetadata, bind at 1. rewrite Hrun1.
  unfold bind at 1, disk_now at 1. rewrite Hbefore. fold next.
  unfold bind, writeFile. rewrite Hdir1.
  change (path_join (modelsDir ORACLE_HOME sessionId) (model +:+ MODEL_JSON_EXTENSION))
    with (modelJsonPath ORACLE_HOME sessionId model).
  rewrite Hsame. unfold not_a_directory in Hfile.
  destruct (fs w !! modelJsonPath ORACLE_HOME sessionId model) as [[]|] eqn:E; try done;
    (eexists; split; [reflexivity|]; simpl; split; [done|]; split;
     [by rewrite lookup_insert_eq|];
     intros p Hp1 Hp2 Hp3 Hp4; rewrite ?lookup_insert_ne by done; by apply Hframe1).
Qed.

(** X3. On a disk where nothing but directories lies on the way to the
    record file, [updateModelRunMetadata] succeeds, creating the sessions
    directory, the session directory and its [models] directory as needed.
    What it returns is what [readModelRunMetadata] reads back afterwards: a
    record of the model asked for that carries a log path.  Apart from the
    three directories and the record file, no path of the disk changes, and
    the clock is not read. *)
Theorem updateModelRunMetadata_round_trip
        (sessionId model : string) (updates : ModelRunUpdate) (w : world)
        (Hid : path_segment sessionId) (Hname : plain_name model)
        (Hroot : dir_or_absent (fs w) (SESSIONS_DIR ORACLE_HOME))
        (Hsession : dir_or_absent (fs w) (sessionDir ORACLE_HOME sessionId))
        (Hmodels : dir_or_absent (fs w) (modelsDir ORACLE_HOME sessionId))
        (Hfile : not_a_directory (fs w) (modelJsonPath ORACLE_HOME sessionId model)) :
  exists next w',
    updateModelRunMetadata ORACLE_HOME sessionId model updates w = Ok (next, w') /\
    readModelRunMetadata ORACLE_HOME sessionId model w' = Ok (Some next, w') /\
    SessionStore.model next = model /\
    (exists p bytes, log next = Some {| log_path := Some p; log_bytes := bytes |}) /\
    reads w' = reads w /\
    (forall p, p <> SESSIONS_DIR ORACLE_HOME -> p <> sessionDir ORACLE_HOME sessionId ->
               p <> modelsDir ORACLE_HOME sessionId ->
               p <> modelJsonPath ORACLE_HOME sessionId model -> fs w' !! p = fs w !! p).
Proof.
  destruct (updateModelRunMetadata_run sessionId model updates w Hroot Hsession Hmodels Hfile)
    as (w' & Hrun & Hreads & Hstored & Hframe).
  eexists _, w'. split; [exact Hrun|]. split; [|split; [done|split; [|done]]].
  - unfold readModelRunMetadata, bind, disk_now, ret, readModelRunFile, readRunJson.
    by rewrite Hstored.
  - simpl. eauto.
Qed.

(** X4. The update is a merge.  A field the update names takes the given
    value; a field it does not name keeps the value of the record read from
    disk, log reference included; with no readable record on disk the new
    one starts as [pending].  The model name is the one asked for, whatever
    name the stored record carries. *)
Theorem updateModelRunMetadata_merges
        (sessionId model : string) (updates : ModelRunUpdate) (w : world)
        (Hid : path_segment sessionId) (Hname : plain_name model)
        (Hroot : dir_or_absent (fs w) (SESSIONS_DIR ORACLE_HOME))
        (Hsession : dir_or_absent (fs w) (sessionDir ORACLE_HOME sessionId))
        (Hmodels : dir_or_absent (fs w) (modelsDir ORACLE_HOME sessionId))
        (Hfile : not_a_directory (fs w) (modelJsonPath ORACLE_HOME sessionId model)) :
  let before := readModelRunFile ORACLE_HOME (fs w) sessionId model in
  exists next w',
    updateModelRunMetadata ORACLE_HOME sessionId model updates w = Ok (next, w') /\
    SessionStore.model next = model /\
    (forall v, set_status updates = Some v -> run_status next = v) /\
    (forall v, set_startedAt updates = Some v -> startedAt next = v) /\
    (forall v, set_completedAt updates = Some v -> completedAt next = v) /\
    (forall stored, before = Some stored ->
       (set_status updates = None -> run_status next = run_status stored) /\
       (set_startedAt updates = None -> startedAt next = startedAt stored) /\
       (set_completedAt updates = None -> completedAt next = completedAt stored) /\
       (set_log updates = None -> log next = log stored)) /\
    (before = None ->
       (set_status updates = None -> run_status next = Some "pending") /\
       (set_startedAt updates = None -> startedAt next = None) /\
       (set_completedAt updates = None -> completedAt next = None)).
Proof.
  cbv zeta.
  destruct (updateModelRunMetadata_run sessionId model updates w Hroot Hsession Hmodels Hfile)
    as (w' & Hrun & _). cbv zeta in Hrun.
  remember (readModelRunFile ORACLE_HOME (fs w) sessionId model) as before eqn:Hb.
  eexists _, w'. split; [exact Hrun|]. simpl.
  split; [done|]. split; [by intros v ->|]. split; [by intros v ->|]. split; [by intros v ->|].
  split.
  - intros stored ->. simpl.
    split; [by intros ->|]. split; [by intros ->|]. split; [by intros ->|].
    intros ->. simpl. unfold readModelRunFile in Hb.
    destruct (readRunJson _ _) as [parsed|]; [|done].
    injection Hb as ->. reflexivity.
  - intros ->. simpl. split; [by intros ->|]. split; by intros ->.
Qed.

(** *** Records written are records listed *)

Lemma rev_app_acc s acc : String.rev_app s acc = String.rev s +:+ acc.
Proof.
  unfold String.rev. revert acc. induction s as [|c s IH]; intros acc; [done|].
  simpl. rewrite IH, (IH (String c EmptyString)). by rewrite app_assoc.
Qed.

Lemma rev_append a b : String.rev (a +:+ b) = String.rev b +:+ String.rev a.
Proof.
  induction a as [|c a IH].
  - simpl. by rewrite app_nil_r.
  - change (String.rev (String c a +:+ b)) with (String.rev_app (a +:+ b) (String c EmptyString)).
    change (String.rev (String c a)) with (String.rev_app a (String c EmptyString)).
    by rewrite !rev_app_acc, IH, app_assoc.
Qed.

Lemma endsWith_app s suffix : endsWith (s +:+ suffix) suffix = true.
Proof. unfold endsWith. rewrite rev_append. apply ToolsFacts.prefix_app. eauto. Qed.

Lemma model_run_loop_acc d dir entries result :
  model_run_loop d dir entries result = result ++ model_run_loop d dir entries [].
Proof.
  revert result. induction entries as [|entry rest IH]; intros result; simpl.
  - by rewrite List.app_nil_r.
  - destruct (negb _); [done|]. destruct (readRunJson _ _) as [parsed|]; [|done].
    rewrite IH, (IH [_]). by rewrite List.app_assoc.
Qed.

Lemma model_run_loop_app d dir l1 l2 :
  model_run_loop d dir (l1 ++ l2) []
  = model_run_loop d dir l1 [] ++ model_run_loop d dir l2 [].
Proof.
  induction l1 as [|entry rest IH]; simpl; [done|].
  destruct (negb _); [done|]. destruct (readRunJson _ _) as [parsed|]; [|done].
  rewrite model_run_loop_acc, (model_run_loop_acc _ _ rest [_]), IH.
  by rewrite List.app_assoc.
Qed.

Lemma model_run_loop_ext d d' dir entries :
  (forall entry, In entry entries -> d' !! path_join dir entry = d !! path_join dir entry) ->
  model_run_loop d' dir entries [] = model_run_loop d dir entries [].
Proof.
  induction entries as [|entry rest IH]; intros Hsame; simpl; [done|].
  unfold readRunJson. rewrite (Hsame entry) by by left.
  destruct (negb _); [apply IH; intros; apply Hsame; by right|].
  destruct (d !! path_join dir entry) as [[]|];
    rewrite ?(model_run_loop_acc _ _ rest [_]), IH; try done; intros; apply Hsame; by right.
Qed.

Lemma model_run_loop_In d dir entries run :
  In run (model_run_loop d dir entries []) <->
  exists entry parsed,
    In entry entries /\ endsWith entry MODEL_JSON_EXTENSION = true /\
    readRunJson d (path_join dir entry) = Some parsed /\ run = ensureModelLogReference parsed.
Proof.
  induction entries as [|entry rest IH]; simpl.
  - split; [done|]. by intros (? & ? & [] & _).
  - destruct (endsWith entry MODEL_JSON_EXTENSION) eqn:Hext; simpl.
    + destruct (readRunJson d (path_join dir entry)) as [parsed|] eqn:Hread.
      * rewrite model_run_loop_acc. simpl. rewrite IH. split.
        -- intros [<-|(e & p & Hin & He & Hp & ->)]; [exists entry, parsed|exists e, p]; eauto.
        -- intros (e & p & [<-|Hin] & He & Hp & ->).
           ++ left. congruence.
           ++ right. eauto 8.
      * rewrite IH. split.
        -- intros (e & p & Hin & He & Hp & ->). exists e, p. eauto.
        -- intros (e & p & [<-|Hin] & He & Hp & ->); [congruence|eauto 8].
    + rewrite IH. split.
      * intros (e & p & Hin & He & Hp & ->). exists e, p. eauto.
      * intros (e & p & [<-|Hin] & He & Hp & ->); [congruence|eauto 8].
Qed.

Lemma listModelRunFiles_In d sessionId run :
  In run (listModelRunFiles ORACLE_HOME d sessionId) <->
  exists entry, listed_from ORACLE_HOME d sessionId entry run.
Proof.
  unfold listModelRunFiles, listed_from. rewrite model_run_loop_In. split.
  - intros (e & p & Hin & He & Hp & ->). exists e. eauto 8.
  - intros (e & Hin & He & p & Hp & ->). exists e, p. eauto.
Qed.

Lemma model_run_loop_cons d dir entry rest :
  model_run_loop d dir (entry :: rest) []
  = model_run_loop d dir [entry] [] ++ model_run_loop d dir rest [].
Proof. apply (model_run_loop_app d dir [entry] rest). Qed.

Lemma model_run_loop_perm d dir l l' :
  Permutation l l' ->
  Permutation (model_run_loop d dir l []) (model_run_loop d dir l' []).
Proof.
  induction 1 as [|x l l' _ IH|x y l|l l' l'' _ IH1 _ IH2].
  - done.
  - rewrite (model_run_loop_cons d dir x l), (model_run_loop_cons d dir x l').
    by apply Permutation_app_head.
  - rewrite (model_run_loop_cons d dir y (x :: l)), (model_run_loop_cons d dir x l),
            (model_run_loop_cons d dir x (y :: l)), (model_run_loop_cons d dir y l).
    apply Permutation_app_swap_app.
  - by etransitivity.
Qed.

(** What [readdir] lists is what the directory holds. *)
Lemma readdir_or_empty_perm d p : Permutation (readdir_or_empty d p) (stored_names d p).
Proof.
  unfold readdir_or_empty, stored_names.
  destruct (d !! p) as [[]|]; try done. apply CombinedLogFacts.js_sort_perm.
Qed.

Lemma readdir_or_empty_In d p entry :
  In entry (readdir_or_empty d p) <-> In entry (stored_names d p).
Proof.
  split; apply Permutation_in; [|symmetry]; apply readdir_or_empty_perm.
Qed.

(** The names in the [models] directory after [ensureModelsDir]. *)
Lemma mkdir_in_listing parent name listed w w' :
  fs w !! parent = Some (Dir listed) ->
  dir_or_absent (fs w) (path_join parent name) ->
  mkdir_in parent name w = Ok (tt, w') ->
  fs w' !! path_join parent name = Some (Dir (stored_names (fs w) (path_join parent name))).
Proof.
  intros Hparent. unfold dir_or_absent, mkdir_in, stored_names.
  destruct (fs w !! path_join parent name) as [[listed'| | |]|] eqn:E; try done; intros _.
  - by intros [= <-].
  - rewrite Hparent. intros [= <-]. simpl. by rewrite lookup_insert_eq.
Qed.

Lemma ensureModelsDir_listing sessionId w w' :
  dir_or_absent (fs w) (SESSIONS_DIR ORACLE_HOME) ->
  dir_or_absent (fs w) (sessionDir ORACLE_HOME sessionId) ->
  dir_or_absent (fs w) (modelsDir ORACLE_HOME sessionId) ->
  ensureModelsDir ORACLE_HOME sessionId w = Ok (tt, w') ->
  fs w' !! modelsDir ORACLE_HOME sessionId
  = Some (Dir (stored_names (fs w) (modelsDir ORACLE_HOME sessionId))).
Proof.
  intros Hroot Hsession Hmodels Hrun.
  destruct (ensureSessionStorage_ok w Hroot) as (w1 & Hrun1 & Hreads1 & [l1 Hdir1] & Hframe1).
  assert (Hsession1 : dir_or_absent (fs w1) (sessionDir ORACLE_HOME sessionId)).
  { unfold dir_or_absent. rewrite Hframe1; [done|]. apply path_join_neq_parent. }
  destruct (mkdir_in_ok _ sessionId _ w1 Hdir1 Hsession1)
    as (w2 & Hrun2 & Hreads2 & [l2 Hdir2] & Hframe2).
  assert (Hsame : fs w2 !! modelsDir ORACLE_HOME sessionId
                  = fs w !! modelsDir ORACLE_HOME sessionId).
  { rewrite Hframe2, Hframe1; [done| | |].
    - apply path_join2_neq_parent.
    - apply path_join2_neq_parent.
    - apply path_join_neq_parent. }
  assert (Hmodels2 : dir_or_absent (fs w2) (modelsDir ORACLE_HOME sessionId)).
  { unfold dir_or_absent. by rewrite Hsame. }
  unfold ensureModelsDir, bind in Hrun. rewrite Hrun1 in Hrun.
  fold (sessionDir ORACLE_HOME sessionId) in Hrun. rewrite Hrun2 in Hrun.
  apply (mkdir_in_listing _ _ _ _ _ Hdir2 Hmodels2) in Hrun.
  change (path_join (path_join (SESSIONS_DIR ORACLE_HOME) sessionId) MODELS_DIRNAME)
    with (modelsDir ORACLE_HOME sessionId) in Hrun.
  rewrite Hrun. unfold stored_names. by rewrite Hsame.
Qed.

(** The names in the [models] directory after an update: the name of the
    record file is added when the file is new. *)
Lemma updateModelRunMetadata_listing sessionId model updates w next w' :
  dir_or_absent (fs w) (SESSIONS_DIR ORACLE_HOME) ->
  dir_or_absent (fs w) (sessionDir ORACLE_HOME sessionId) ->
  dir_or_absent (fs w) (modelsDir ORACLE_HOME sessionId) ->
  not_a_directory (fs w) (modelJsonPath ORACLE_HOME sessionId model) ->
  updateModelRunMetadata ORACLE_HOME sessionId model updates w = Ok (next, w') ->
  stored_names (fs w') (modelsDir ORACLE_HOME sessionId)
  = stored_names (fs w) (modelsDir ORACLE_HOME sessionId)
      ++ (if fileExists (fs w) (modelJsonPath ORACLE_HOME sessionId model) then []
          else [model +:+ MODEL_JSON_EXTENSION]).
Proof.
  intros Hroot Hsession Hmodels Hfile Hrun.
  destruct (ensureModelsDir_ok sessionId w Hroot Hsession Hmodels)
    as (w1 & Hrun1 & Hreads1 & _ & Hframe1).
  pose proof (ensureModelsDir_listing sessionId w w1 Hroot Hsession Hmodels Hrun1) as Hdir1.
  destruct (modelJsonPath_neq sessionId model) as (Hne1 & Hne2 & Hne3).
  assert (Hsame : fs w1 !! modelJsonPath ORACLE_HOME sessionId model
                  = fs w !! modelJsonPath ORACLE_HOME sessionId model)
    by by apply Hframe1.
  unfold updateModelRunMetadata, bind at 1 in Hrun. rewrite Hrun1 in Hrun.
  unfold bind at 1, disk_now at 1 in Hrun.
  unfold bind, writeFile in Hrun. rewrite Hdir1 in Hrun.
  change (path_join (modelsDir ORACLE_HOME sessionId) (model +:+ MODEL_JSON_EXTENSION))
    with (modelJsonPath ORACLE_HOME sessionId model) in Hrun.
  rewrite Hsame in Hrun. unfold not_a_directory in Hfile. unfold fileExists.
  destruct (fs w !! modelJsonPath ORACLE_HOME sessionId model) as [[]|] eqn:E; try done;
    injection Hrun as _ <-; unfold stored_names at 1; simpl.
  1-3: rewrite lookup_insert_ne by done; rewrite Hdir1; by rewrite List.app_nil_r.
  rewrite lookup_insert_ne by done. by rewrite lookup_insert_eq.
Qed.

(** X24. A record written by [updateModelRunMetadata] is listed by
    [listModelRunFiles] afterwards, on a disk whose [models] directory lists
    the record file when it exists.  The update changes the listing at this
    one file only: whatever is listed for the file afterwards is the record
    written, every other record listed afterwards was listed before, and the
    records of the other files stay listed.  The first write for a model
    adds its record to the list, once: the list afterwards holds the new
    record and the records of the list before, each as often as before. *)
Theorem updateModelRunMetadata_listed
        (sessionId model : string) (updates : ModelRunUpdate) (w : world)
        (Hid : path_segment sessionId) (Hname : plain_name model)
        (Hroot : dir_or_absent (fs w) (SESSIONS_DIR ORACLE_HOME))
        (Hsession : dir_or_absent (fs w) (sessionDir ORACLE_HOME sessionId))
        (Hmodels : dir_or_absent (fs w) (modelsDir ORACLE_HOME sessionId))
        (Hfile : not_a_directory (fs w) (modelJsonPath ORACLE_HOME sessionId model))
        (Hlisted : is_Some (fs w !! modelJsonPath ORACLE_HOME sessionId model) ->
                   In (model +:+ MODEL_JSON_EXTENSION)
                      (readdir_or_empty (fs w) (modelsDir ORACLE_HOME sessionId))) :
  exists next w',
    updateModelRunMetadata ORACLE_HOME sessionId model updates w = Ok (next, w') /\
    In next (listModelRunFiles ORACLE_HOME (fs w') sessionId) /\
    (forall run, listed_from ORACLE_HOME (fs w') sessionId (model +:+ MODEL_JSON_EXTENSION) run ->
                 run = next) /\
    (forall entry run, entry <> model +:+ MODEL_JSON_EXTENSION ->
       (listed_from ORACLE_HOME (fs w') sessionId entry run <->
        listed_from ORACLE_HOME (fs w) sessionId entry run)) /\
    (fs w !! modelJsonPath ORACLE_HOME sessionId model = None ->
     ~ In (model +:+ MODEL_JSON_EXTENSION)
          (readdir_or_empty (fs w) (modelsDir ORACLE_HOME sessionId)) ->
     Permutation (listModelRunFiles ORACLE_HOME (fs w') sessionId)
                 (next :: listModelRunFiles ORACLE_HOME (fs w) sessionId)).
Proof.
  destruct (updateModelRunMetadata_run sessionId model updates w Hroot Hsession Hmodels Hfile)
    as (w' & Hrun & Hreads & Hstored & Hframe).
  pose proof (updateModelRunMetadata_listing _ _ _ _ _ _ Hroot Hsession Hmodels Hfile Hrun)
    as Hlisting.
  set (name := model +:+ MODEL_JSON_EXTENSION) in *.
  set (dir := modelsDir ORACLE_HOME sessionId) in *.
  assert (Hother : forall entry, entry <> name ->
            fs w' !! path_join dir entry = fs w !! path_join dir entry).
  { intros entry Hentry. apply Hframe.
    - apply path_join3_neq_parent.
    - apply path_join2_neq_parent.
    - apply path_join_neq_parent.
    - intros Heq. by apply path_join_inj in Heq. }
  assert (Hread : readRunJson (fs w') (path_join dir name) = Some _)
    by (unfold readRunJson, dir, name;
        change (path_join _ _) with (modelJsonPath ORACLE_HOME sessionId model);
        by rewrite Hstored).
  eexists _, w'. split; [exact Hrun|]. split; [|split; [|split]].
  - apply listModelRunFiles_In. exists name. split; [|split].
    + fold dir. apply readdir_or_empty_In. rewrite Hlisting. apply in_or_app.
      unfold fileExists. destruct (bool_decide _) eqn:Hex.
      * left. apply readdir_or_empty_In, Hlisted. by apply bool_decide_eq_true in Hex.
      * right. by left.
    + apply endsWith_app.
    + eexists. split; [exact Hread|reflexivity].
  - intros run (_ & _ & parsed & Hparsed & ->). fold dir in Hparsed.
    rewrite Hread in Hparsed. by injection Hparsed as <-.
  - intros entry run Hentry. unfold listed_from. fold dir.
    unfold readRunJson. rewrite (Hother entry Hentry), !readdir_or_empty_In, Hlisting.
    split; intros (Hin & He & Hp); (split; [|done]).
    + apply in_app_or in Hin as [Hin|Hin]; [done|].
      destruct (fileExists _ _); [done|]. by destruct Hin as [<-|[]].
    + apply in_or_app. by left.
  - intros Habsent Hnew. unfold listModelRunFiles. fold dir.
    assert (Hnames : Permutation (readdir_or_empty (fs w') dir)
                                 (name :: readdir_or_empty (fs w) dir)).
    { rewrite (readdir_or_empty_perm (fs w')), (readdir_or_empty_perm (fs w)), Hlisting.
      unfold fileExists. rewrite Habsent.
      rewrite bool_decide_false by by intros [? ?].
      symmetry. apply Permutation_cons_append. }
    rewrite (model_run_loop_perm _ _ _ _ Hnames), model_run_loop_cons.
    assert (Hext : endsWith name MODEL_JSON_EXTENSION = true) by apply endsWith_app.
    cbn [model_run_loop]. rewrite Hext. cbn [negb]. rewrite Hread. cbn [app].
    apply Permutation_cons; [done|].
    rewrite (model_run_loop_ext (fs w) (fs w') dir); [done|].
    intros entry Hin. apply Hother. by intros ->.
Qed.

(** *** Session paths *)

(** X5. [getSessionPaths] returns the four paths of a session exactly when
    its [meta.json] and its [output.log] both exist, whether or not
    [request.json] does; otherwise it throws an error that names the session
    and lists the missing ones of the two files by their base names, in that
    order. *)
Theorem getSessionPaths_required
        (d : gmap string node) (sessionId : string) (Hid : path_segment sessionId) :
  let hasMeta := fileExists d (metaPath ORACLE_HOME sessionId) in
  let hasLog := fileExists d (logPath ORACLE_HOME sessionId) in
  let missing names :=
    Throw (Error ("Session " +:+ dquote +:+ sessionId +:+ dquote +:+ " is missing: "
                    +:+ names)) in
  getSessionPaths ORACLE_HOME d sessionId =
    match hasMeta, hasLog with
    | true, true =>
        Ok {| paths_dir := sessionDir ORACLE_HOME sessionId;
              paths_metadata := metaPath ORACLE_HOME sessionId;
              paths_log := logPath ORACLE_HOME sessionId;
              paths_request := requestPath ORACLE_HOME sessionId |}
    | false, true => missing "meta.json"
    | true, false => missing "output.log"
    | false, false => missing "meta.json, output.log"
    end.
Proof.
  cbv zeta. unfold getSessionPaths. cbn [missing_loop].
  assert (Hmeta : basename (metaPath ORACLE_HOME sessionId) = "meta.json")
    by by apply basename_path_join.
  assert (Hlog : basename (logPath ORACLE_HOME sessionId) = "output.log")
    by by apply basename_path_join.
  rewrite Hmeta, Hlog.
  by destruct (fileExists d (metaPath ORACLE_HOME sessionId)),
              (fileExists d (logPath ORACLE_HOME sessionId)).
Qed.

(** *** Metadata reads *)

(** X6. [readSessionMetadata] never throws and never writes: for every
    session id and every disk it returns, leaving the disk as it was.  It
    returns nothing exactly when [meta.json] does not hold a metadata
    record (an object with a string [id] and a [status]) and [session.json]
    does not parse; a [session.json] that parses is returned without that
    check. *)
Theorem readSessionMetadata_total_readonly (sessionId : string) (w : world) :
  exists r w',
    readSessionMetadata ORACLE_HOME clock Date_parse toISOString sessionId w = Ok (r, w') /\
    fs w' = fs w /\
    (r = None <->
     (forall stored, readMetaJson (fs w) (metaPath ORACLE_HOME sessionId) = Some stored ->
                     isSessionMetadataRecord stored = false) /\
     readMetaJson (fs w) (legacySessionPath ORACLE_HOME sessionId) = None).
Proof.
  unfold readSessionMetadata, bind at 1, readModernSessionMetadata, bind at 1, disk_now at 1.
  assert (Hlegacy : forall w0, fs w0 = fs w ->
    exists r w',
      bind (readLegacySessionMetadata ORACLE_HOME clock Date_parse toISOString sessionId)
           (fun legacy => match legacy with Some l => ret (Some l) | None => ret None end) w0
      = Ok (r, w') /\ fs w' = fs w /\
      (r = None <-> readMetaJson (fs w) (legacySessionPath ORACLE_HOME sessionId) = None)).
  { intros w0 Hw0. unfold bind at 1, readLegacySessionMetadata, bind at 1, disk_now at 1.
    rewrite Hw0.
    destruct (readMetaJson (fs w) (legacySessionPath ORACLE_HOME sessionId)) as [parsed|].
    - unfold bind.
      destruct (MetadataFacts.markZombie_read_total ORACLE_HOME clock Date_parse toISOString
                  (attachModelRuns ORACLE_HOME (fs w) parsed sessionId) w0)
        as (marked & w' & -> & Hfs).
      exists (Some marked), w'. split; [done|]. split; [congruence|]. split; done.
    - exists None, w0. split; [done|]. split; done. }
  destruct (readMetaJson (fs w) (metaPath ORACLE_HOME sessionId)) as [parsed|].
  - destruct (isSessionMetadataRecord parsed) eqn:Hrecord; simpl.
    + unfold bind.
      destruct (MetadataFacts.markZombie_read_total ORACLE_HOME clock Date_parse toISOString
                  (attachModelRuns ORACLE_HOME (fs w) parsed sessionId) w)
        as (marked & w' & -> & Hfs).
      exists (Some marked), w'. split; [done|]. split; [done|]. split; [done|].
      intros [Habs _]. specialize (Habs parsed eq_refl). congruence.
    + destruct (Hlegacy w eq_refl) as (r & w' & Hrun & Hfs & Hnone).
      exists r, w'. split; [exact Hrun|]. split; [done|]. rewrite Hnone. split.
      * intros H. split; [|done]. by intros stored [= <-].
      * by intros [_ H].
  - destruct (Hlegacy w eq_refl) as (r & w' & Hrun & Hfs & Hnone).
    exists r, w'. split; [exact Hrun|]. split; [done|]. rewrite Hnone. split.
    + intros H. split; [|done]. by intros stored.
    + by intros [_ H].
Qed.

(** *** The listing *)

(** X7. When the listing returns and every record in it has a creation
    time that reads as a date, the records come newest first: each is at
    least as recent as all that follow it. *)
Theorem listSessionsMetadata_newest_first
        (w w' : world) (metas : list (gmap string jsval))
        (Hrun : listSessionsMetadata ORACLE_HOME clock Date_parse toISOString w = Ok (metas, w'))
        (Hdates : Forall (fun m => is_Some (getTime Date_parse (m !! "createdAt"))) metas) :
  StronglySorted (fun a b => created_ms Date_parse b <= created_ms Date_parse a) metas.
Proof.
  unfold listSessionsMetadata, bind in Hrun.
  destruct (ensureSessionStorage ORACLE_HOME w) as [[[] w1]|]; [|done].
  unfold disk_now in Hrun.
  destruct (list_loop _ _ _ _ _ _ w1) as [[read w2]|]; [|done].
  unfold ret in Hrun. injection Hrun as <- <-.
  set (cmp := compareCreatedDesc Date_parse) in *.
  assert (Hin : forall m, In m (js_sort cmp read) ->
                          exists t, getTime Date_parse (m !! "createdAt") = Some t).
  { intros m Hm. rewrite List.Forall_forall in Hdates. by apply Hdates. }
  apply Sorted_StronglySorted; [intros a b c; lia|].
  eapply CombinedLogFacts.Sorted_ext; [|apply CombinedLogFacts.js_sort_sorted].
  - intros a b Ha Hb. simpl. unfold cmp, compareCreatedDesc, created_ms.
    destruct (Hin a Ha) as [ta ->], (Hin b Hb) as [tb ->]. simpl. lia.
  - intros a b _ _. unfold cmp, compareCreatedDesc.
    destruct (getTime Date_parse (b !! "createdAt")),
             (getTime Date_parse (a !! "createdAt")); lia.
Qed.

(** *** Persisted reclassification *)

(** X8. Called with [persist] on a running record older than 60 minutes
    whose session directory exists, [markZombie] writes the reclassified
    record to the session's [meta.json] and returns it; it reads the clock
    twice and changes no other file.  A later read of the session finds the
    error status and the zombie message, and a second call on the returned
    record writes nothing. *)
Theorem markZombie_persist_writes
        (meta : gmap string jsval) (id : string) (listed : list string) (w : world)
        (Hstale : stale_running Date_parse meta (clock (reads w)))
        (Hid : meta !! "id" = Some (JStr id))
        (Hdir : fs w !! sessionDir ORACLE_HOME id = Some (Dir listed))
        (Hfile : not_a_directory (fs w) (metaPath ORACLE_HOME id)) :
  let updated := zombified toISOString meta (clock (S (reads w))) in
  exists w',
    markZombie ORACLE_HOME clock Date_parse toISOString meta true w = Ok (updated, w') /\
    fs w' !! metaPath ORACLE_HOME id = Some (MetaFile updated) /\
    reads w' = S (S (reads w)) /\
    (forall p, p <> metaPath ORACLE_HOME id -> p <> sessionDir ORACLE_HOME id ->
               fs w' !! p = fs w !! p) /\
    markZombie ORACLE_HOME clock Date_parse toISOString updated true w' = Ok (updated, w') /\
    exists m w'',
      readSessionMetadata ORACLE_HOME clock Date_parse toISOString id w' = Ok (Some m, w'') /\
      m !! "status" = Some (JStr "error") /\
      m !! "errorMessage" = Some (JStr "Session marked as zombie (>60m stale)").
Proof.
  intros updated.
  assert (Hstep : markZombie ORACLE_HOME clock Date_parse toISOString meta true w
                  = bind (writeFile (sessionDir ORACLE_HOME id) METADATA_FILENAME
                                    (MetaFile updated))
                         (fun _ => ret updated) (tick (tick w))).
  { unfold markZombie, bind at 1.
    rewrite (MetadataFacts.isZombie_stale clock Date_parse meta w Hstale).
    cbn [negb]. unfold bind at 1, Date_now at 1. cbn [reads tick fs]. by rewrite Hid. }
  rewrite Hstep. unfold bind, writeFile. cbn [fs tick reads]. rewrite Hdir.
  change (path_join (sessionDir ORACLE_HOME id) METADATA_FILENAME)
    with (metaPath ORACLE_HOME id).
  assert (Hstatus : updated !! "status" = Some (JStr "error"))
    by apply MetadataFacts.zombified_status.
  assert (Hmessage : updated !! "errorMessage"
                     = Some (JStr "Session marked as zombie (>60m stale)")).
  { unfold updated, zombified. rewrite lookup_insert_ne by done. apply lookup_insert_eq. }
  assert (Hrecord : isSessionMetadataRecord updated = true).
  { unfold isSessionMetadataRecord. rewrite Hstatus.
    unfold updated, zombified. rewrite !lookup_insert_ne by done. by rewrite Hid. }
  assert (Hafter : forall w', fs w' !! metaPath ORACLE_HOME id = Some (MetaFile updated) ->
    markZombie ORACLE_HOME clock Date_parse toISOString updated true w' = Ok (updated, w') /\
    exists m w'',
      readSessionMetadata ORACLE_HOME clock Date_parse toISOString id w' = Ok (Some m, w'') /\
      m !! "status" = Some (JStr "error") /\
      m !! "errorMessage" = Some (JStr "Session marked as zombie (>60m stale)")).
  { intros w' Hstored. split.
    { apply MetadataFacts.markZombie_not_running. by rewrite Hstatus. }
    set (enriched := attachModelRuns ORACLE_HOME (fs w') updated id).
    assert (Hkeys : enriched !! "status" = Some (JStr "error") /\
                    enriched !! "errorMessage"
                    = Some (JStr "Session marked as zombie (>60m stale)")).
    { unfold enriched, attachModelRuns. destruct (_ =? _)%nat; [done|].
      by rewrite !lookup_insert_ne by done. }
    exists enriched, w'. split; [|exact Hkeys].
    unfold readSessionMetadata, bind at 1, readModernSessionMetadata, bind at 1,
      disk_now at 1, readMetaJson.
    rewrite Hstored, Hrecord. cbn [negb]. fold enriched. unfold bind at 1.
    rewrite MetadataFacts.markZombie_not_running; [done|].
    destruct Hkeys as [-> _]. done. }
  unfold not_a_directory in Hfile.
  destruct (fs w !! metaPath ORACLE_HOME id) as [[]|] eqn:E; try done;
    (eexists; split; [reflexivity|]; cbn [fs reads];
     split; [by rewrite lookup_insert_eq|]; split; [done|]; split;
     [intros p Hp1 Hp2; by rewrite ?lookup_insert_ne by done|];
     apply Hafter; cbn [fs]; by rewrite lookup_insert_eq).
Qed.

End Store.

Import Examples StoreExamples.

Lemma filterSessionsByRange_limit_witness :
  exists r w',
    filterSessionsByRange (clock_from one_past_one) parse_date
                          [newer_session; older_session] 24 false 5
                          {| fs := two_sessions_disk; reads := 0 |} = Ok (r, w') /\
    fs w' = two_sessions_disk /\
    (length (entries r) <= 1000)%nat /\
    (truncated r = true <-> (length (entries r) < total r)%nat).
Proof.
  destruct (filterSessionsByRange_limit (clock_from one_past_one) parse_date
              [newer_session; older_session] 24 false 5
              {| fs := two_sessions_disk; reads := 0 |})
    as (r & w' & Hrun & Hfs & Hmax & _ & Htruncated & _); [lia|].
  exists r, w'. repeat split; try done; apply Htruncated.
Defined.

Lemma filterSessionsByRange_negative_limit_witness :
  exists r,
    filterSessionsByRange (clock_from one_past_one) parse_date
                          [newer_session; older_session] 24 true (-1)
                          {| fs := two_sessions_disk; reads := 0 |}
    = Ok (r, {| fs := two_sessions_disk; reads := 0 |}) /\
    truncated r = true /\
    entries r = [newer_session].
Proof.
  destruct (filterSessionsByRange_negative_limit (clock_from one_past_one) parse_date
              [newer_session; older_session] 24 (-1)
              {| fs := two_sessions_disk; reads := 0 |})
    as (r & Hrun & Htruncated & _ & Hentries); [lia|].
  exists r. repeat split; done.
Defined.

Lemma updateModelRunMetadata_round_trip_witness :
  exists next w',
    updateModelRunMetadata home "fix-login-bug" "gpt-5-pro" started_update
                           {| fs := bare_session_disk "fix-login-bug"; reads := 0 |}
    = Ok (next, w') /\
    readModelRunMetadata home "fix-login-bug" "gpt-5-pro" w' = Ok (Some next, w') /\
    SessionStore.model next = "gpt-5-pro".
Proof.
  destruct (updateModelRunMetadata_round_trip home "fix-login-bug" "gpt-5-pro" started_update
              {| fs := bare_session_disk "fix-login-bug"; reads := 0 |})
    as (next & w' & Hrun & Hread & Hmodel & _);
    try (vm_compute; exact I).
  - repeat split; try reflexivity; discriminate.
  - reflexivity.
  - exists next, w'. repeat split; done.
Defined.

Lemma updateModelRunMetadata_merges_witness :
  exists next w',
    updateModelRunMetadata home "fix-login-bug" "gpt-5-pro" started_update
                           {| fs := bare_session_disk "fix-login-bug"; reads := 0 |}
    = Ok (next, w') /\
    run_status next = Some "running" /\
    completedAt next = None.
Proof.
  destruct (updateModelRunMetadata_merges home "fix-login-bug" "gpt-5-pro" started_update
              {| fs := bare_session_disk "fix-login-bug"; reads := 0 |})
    as (next & w' & Hrun & _ & Hstatus & _ & _ & _ & Hnew);
    try (vm_compute; exact I).
  - repeat split; try reflexivity; discriminate.
  - reflexivity.
  - exists next, w'. split; [exact Hrun|]. split.
    + by apply Hstatus.
    + apply Hnew; [vm_compute|]; reflexivity.
Defined.

Lemma updateModelRunMetadata_listed_witness :
  exists next w',
    updateModelRunMetadata home "fix-login-bug" "gpt-5-pro" started_update
                           {| fs := bare_session_disk "fix-login-bug"; reads := 0 |}
    = Ok (next, w') /\
    listModelRunFiles home (fs w') "fix-login-bug" = [next].
Proof.
  destruct (updateModelRunMetadata_listed home "fix-login-bug" "gpt-5-pro" started_update
              {| fs := bare_session_disk "fix-login-bug"; reads := 0 |})
    as (next & w' & Hrun & _ & _ & _ & Hfresh);
    try (vm_compute; exact I).
  - repeat split; try reflexivity; discriminate.
  - reflexivity.
  - vm_compute. by intros [? ?].
  - exists next, w'. split; [exact Hrun|].
    apply Permutation_length_1_inv. symmetry. apply Hfresh.
    + reflexivity.
    + vm_compute. tauto.
Defined.

Lemma getSessionPaths_required_witness :
  getSessionPaths home (session_disk "nightly-sync" newer_session) "nightly-sync"
  = Ok {| paths_dir := "/home/u/.oracle/sessions/nightly-sync";
          paths_metadata := "/home/u/.oracle/sessions/nightly-sync/meta.json";
          paths_log := "/home/u/.oracle/sessions/nightly-sync/output.log";
          paths_request := "/home/u/.oracle/sessions/nightly-sync/request.json" |} /\
  getSessionPaths home (bare_session_disk "nightly-sync") "nightly-sync"
  = Throw (Error ("Session " +:+ dquote +:+ "nightly-sync" +:+ dquote
                    +:+ " is missing: meta.json, output.log")).
Proof.
  assert (Hid : path_segment "nightly-sync")
    by (repeat split; try reflexivity; discriminate).
  split.
  - rewrite (getSessionPaths_required home _ "nightly-sync" Hid). vm_compute. reflexivity.
  - rewrite (getSessionPaths_required home _ "nightly-sync" Hid). vm_compute. reflexivity.
Defined.

Lemma listSessionsMetadata_newest_first_witness :
  listSessionsMetadata home (clock_from one_past_one) parse_date IsoDate.toISOString
                       {| fs := two_sessions_disk; reads := 0 |}
  = Ok ([newer_session; older_session], {| fs := two_sessions_disk; reads := 0 |}) /\
  StronglySorted (fun a b => created_ms parse_date b <= created_ms parse_date a)
                 [newer_session; older_session].
Proof.
  assert (Hrun : listSessionsMetadata home (clock_from one_past_one) parse_date
                   IsoDate.toISOString {| fs := two_sessions_disk; reads := 0 |}
                 = Ok ([newer_session; older_session],
                       {| fs := two_sessions_disk; reads := 0 |}))
    by (vm_compute; reflexivity).
  split; [exact Hrun|].
  apply (listSessionsMetadata_newest_first home (clock_from one_past_one) parse_date
           IsoDate.toISOString _ _ _ Hrun).
  repeat (constructor; [eexists; vm_compute; reflexivity|]). constructor.
Defined.

Lemma markZombie_persist_writes_witness :
  let meta := running_since "nightly-sync" "2025-01-01T00:00:00.000Z" in
  let w := {| fs := session_disk "nightly-sync" meta; reads := 0 |} in
  exists w',
    markZombie home (clock_from one_past_one) parse_date IsoDate.toISOString meta true w
    = Ok (zombified IsoDate.toISOString meta (one_past_one + 1), w') /\
    fs w' !! metaPath home "nightly-sync"
    = Some (MetaFile (zombified IsoDate.toISOString meta (one_past_one + 1))).
Proof.
  intros meta w.
  destruct (markZombie_persist_writes home (clock_from one_past_one) parse_date
              IsoDate.toISOString meta "nightly-sync" ["meta.json"; "output.log"] w)
    as (w' & Hrun & Hstored & _).
  - split; [vm_compute; reflexivity|]. exists 1735689600000.
    split; vm_compute; reflexivity.
  - vm_compute. reflexivity.
  - vm_compute. reflexivity.
  - vm_compute. exact I.
  - exists w'. split; [exact Hrun | exact Hstored].
Defined.

End StoreOpsFacts.

(* ===================================================================== *)
(** ** Creating a session *)
(* ===================================================================== *)

Module SessionInitFacts.
Import JsString JsStringFacts SessionStore StoreOps SessionInit StoreOpsFacts.

Local Arguments String.append : simpl nomatch.

(** *** Single steps on the disk *)

Lemma writeFile_new dir name content w entries :
  fs w !! dir = Some (Dir entries) ->
  fs w !! path_join dir name = None ->
  writeFile dir name content w
  = Ok (tt, {| fs := <[path_join dir name := content]>
                       (<[dir := Dir (entries ++ [name])]> (fs w));
               reads := reads w |}).
Proof. intros Hdir Hfile. unfold writeFile. by rewrite Hdir, Hfile. Qed.

Lemma mkdir_in_new parent name w listed :
  fs w !! parent = Some (Dir listed) ->
  fs w !! path_join parent name = None ->
  mkdir_in parent name w
  = Ok (tt, {| fs := <[path_join parent name := Dir []]>
                       (<[parent := Dir (listed ++ [name])]> (fs w));
               reads := reads w |}).
Proof. intros Hdir Hfile. unfold mkdir_in. by rewrite Hfile, Hdir. Qed.

Lemma path_join_assoc a b c : path_join (path_join a b) c = path_join a (path_join b c).
Proof. unfold path_join. by rewrite !app_assoc. Qed.

(** A record file and a log file never share a name. *)
Lemma json_neq_log a b : a +:+ MODEL_JSON_EXTENSION <> b +:+ MODEL_LOG_EXTENSION.
Proof.
  intros Heq. apply (f_equal String.rev) in Heq. rewrite !rev_append in Heq.
  vm_compute in Heq. discriminate.
Qed.

(** *** Writes into one directory

    Writes of files into an existing directory all succeed when none of them
    meets a directory; when the writes of one name carry the same content,
    each file holds what was written to it, in whatever order the writes
    come. *)
Lemma write_all_into dir writes :
  forall w entries,
    fs w !! dir = Some (Dir entries) ->
    (forall d n c, In (d, n, c) writes ->
                   d = dir /\ is_file c /\ not_a_directory (fs w) (path_join dir n)) ->
    (forall d n c d' c', In (d, n, c) writes -> In (d', n, c') writes -> c = c') ->
    exists w',
      write_all writes w = Ok (tt, w') /\ reads w' = reads w /\
      (exists entries',
          fs w' !! dir = Some (Dir entries') /\
          forall e, In e entries' <->
                    In e entries \/
                    (fs w !! path_join dir e = None /\ exists c, In (dir, e, c) writes)) /\
      (forall n c, In (dir, n, c) writes -> fs w' !! path_join dir n = Some c) /\
      (forall p, p <> dir -> (forall n c, In (dir, n, c) writes -> p <> path_join dir n) ->
                 fs w' !! p = fs w !! p).
Proof.
  induction writes as [|[[d n] c] rest IH]; intros w entries Hdir Hall Hsame.
  - exists w. split; [done|]. split; [done|]. split; [|split; [by intros ? ? []|done]].
    exists entries. split; [done|]. intros e. split; [by left|].
    by intros [?|(_ & ? & [])].
  - destruct (Hall d n c) as (-> & Hc & Hn); [by left|].
    set (p := path_join dir n) in *.
    assert (Hp : p <> dir) by apply path_join_neq_parent.
    (* the disk after the first write *)
    assert (exists w1 entries1,
               writeFile dir n c w = Ok (tt, w1) /\ reads w1 = reads w /\
               fs w1 !! dir = Some (Dir entries1) /\
               fs w1 !! p = Some c /\
               (forall q, q <> dir -> q <> p -> fs w1 !! q = fs w !! q) /\
               (forall e, In e entries1 <->
                          In e entries \/ (fs w !! p = None /\ e = n)))
      as (w1 & entries1 & Hrun1 & Hreads1 & Hdir1 & Hp1 & Hframe1 & Hentries1).
    { unfold writeFile. rewrite Hdir. fold p. unfold not_a_directory in Hn.
      destruct (fs w !! p) as [[]|] eqn:E; try done.
      1-3: eexists _, entries; split; [reflexivity|]; simpl; split; [done|];
           split; [by rewrite lookup_insert_ne|]; split; [by rewrite lookup_insert_eq|];
           split; [by intros q ? ?; rewrite lookup_insert_ne|];
           intros e; split; [by left|]; by intros [?|[? _]].
      eexists _, (entries ++ [n]). split; [reflexivity|]. simpl. split; [done|].
      split; [by rewrite lookup_insert_ne, lookup_insert_eq|].
      split; [by rewrite lookup_insert_eq|].
      split; [by intros q ? ?; rewrite !lookup_insert_ne|].
      intros e. rewrite in_app_iff. simpl. split.
      - intros [?|[<-|[]]]; [by left|by right].
      - intros [?|[_ ->]]; [by left|right; by left]. }
    assert (Hother : forall e, e <> n -> fs w1 !! path_join dir e = fs w !! path_join dir e).
    { intros e He. apply Hframe1; [apply path_join_neq_parent|].
      intros Heq. by apply path_join_inj in Heq. }
    destruct (IH w1 entries1 Hdir1) as (w' & Hrun & Hreads & (entries' & Hdir' & Hentries')
                                        & Hcontent & Hframe).
    { intros d' n' c' Hin. destruct (Hall d' n' c') as (-> & Hc' & Hn'); [by right|].
      split; [done|]. split; [done|]. unfold not_a_directory.
      destruct (decide (n' = n)) as [->|Hne].
      - fold p. rewrite Hp1. by destruct c.
      - by rewrite Hother. }
    { intros d1 n1 c1 d2 c2 Hin1 Hin2. eapply Hsame; right; eauto. }
    exists w'. split; [|split; [congruence|split; [|split]]].
    + simpl. unfold bind. by rewrite Hrun1.
    + exists entries'. split; [done|]. intros e. rewrite Hentries', Hentries1. split.
      * intros [[?|[Habsent ->]]|[Habsent [c' Hin]]].
        -- by left.
        -- right. split; [done|]. exists c. by left.
        -- right. destruct (decide (e = n)) as [->|Hne].
           ++ fold p in Habsent. congruence.
           ++ rewrite Hother in Habsent by done. split; [done|]. exists c'. by right.
      * intros [?|[Habsent [c' [Hin|Hin]]]].
        -- left. by left.
        -- injection Hin as <- <-. left. right. by split.
        -- destruct (decide (e = n)) as [->|Hne].
           ++ left. right. by split.
           ++ right. rewrite Hother by done. split; [done|]. by exists c'.
    + intros n' c' [Hin|Hin].
      * injection Hin as <- <-.
        destruct (decide (n ∈ map (fun x : write => x.1.2) rest)) as [Hagain|Hnever].
        -- apply list_elem_of_In, in_map_iff in Hagain as ([[d2 n2] c2] & Hn2 & Hin2).
           simpl in Hn2. subst n2.
           destruct (Hall d2 n c2) as (-> & _); [by right|].
           rewrite (Hsame dir n c dir c2); [by apply Hcontent|by left|by right].
        -- fold p. rewrite Hframe; [done|done|].
           intros n2 c2 Hin2 Heq. apply path_join_inj in Heq. subst n2.
           apply Hnever, list_elem_of_In, in_map_iff. by exists (dir, n, c2).
      * by apply Hcontent.
    + intros q Hq Hnot. rewrite Hframe.
      * apply Hframe1; [done|]. apply (Hnot n c). by left.
      * done.
      * intros n' c' Hin. apply (Hnot n' c'). by right.
Qed.

Section Init.
Variable ORACLE_HOME : string.
Variable clock : nat -> Z.
Variable Date_parse : jsval -> option Z.
Variable toISOString : Z -> string.
Variable DEFAULT_MODEL : string.
Variable options_json : RunOptions -> string -> string -> list string -> string.
Variable schedule : list (list write) -> list write.
Variable localeCompare : string -> string -> Z.
Variable JSON_stringify_meta : gmap string jsval -> string.
Variable JSON_stringify_run : ModelRun -> string.

Lemma runNames_nonempty options : exists m, In m (runNames DEFAULT_MODEL options).
Proof.
  unfold runNames. destruct (modelList options) as [|m ms]; simpl; eauto.
Qed.

(** The log of a model whose record is the initial one is read from
    [models/<model>.log]. *)
Lemma initial_log_body d sessionId m :
  d !! modelLogPath ORACLE_HOME sessionId m = Some (TextFile EmptyString) ->
  runLogBody ORACLE_HOME JSON_stringify_meta JSON_stringify_run d sessionId (initialModelRun m)
  = EmptyString.
Proof.
  intros Hlog. unfold runLogBody, runLogFile. cbn [log initialModelRun log_path].
  unfold relativeModelLogPath.
  replace (path_join (sessionDir ORACLE_HOME sessionId)
                     (path_join MODELS_DIRNAME (m +:+ MODEL_LOG_EXTENSION)))
    with (modelLogPath ORACLE_HOME sessionId m)
    by (unfold modelLogPath, modelsDir; apply path_join_assoc).
  change (truthy (path_join MODELS_DIRNAME (m +:+ MODEL_LOG_EXTENSION))) with true.
  change (path_isAbsolute (path_join MODELS_DIRNAME (m +:+ MODEL_LOG_EXTENSION))) with false.
  cbv iota. unfold readFile. by rewrite Hlog.
Qed.

(** The writes of the model tasks. *)
Lemma In_model_writes sessionId names d n c :
  In (d, n, c) (concat (map (model_writes ORACLE_HOME sessionId) names)) <->
  exists m, In m names /\ d = modelsDir ORACLE_HOME sessionId /\
            ((n = m +:+ MODEL_JSON_EXTENSION /\ c = RunFile (initialModelRun m)) \/
             (n = m +:+ MODEL_LOG_EXTENSION /\ c = TextFile EmptyString)).
Proof.
  rewrite in_concat. split.
  - intros (ws & Hws & Hin). apply in_map_iff in Hws as (m & <- & Hm).
    exists m. split; [done|]. simpl in Hin.
    destruct Hin as [[= <- <- <-]|[[= <- <- <-]|[]]]; split; auto.
  - intros (m & Hm & -> & Hcase). exists (model_writes ORACLE_HOME sessionId m).
    split; [apply in_map_iff; by exists m|]. simpl.
    destruct Hcase as [[-> ->]|[-> ->]]; auto.
Qed.

Lemma model_writes_consistent sessionId names d n c d' c' :
  In (d, n, c) (concat (map (model_writes ORACLE_HOME sessionId) names)) ->
  In (d', n, c') (concat (map (model_writes ORACLE_HOME sessionId) names)) ->
  c = c'.
Proof.
  rewrite !In_model_writes.
  intros (m & _ & _ & [[-> ->]|[-> ->]]) (m' & _ & _ & [[Heq ->]|[Heq ->]]).
  - apply app_inj_tail in Heq. by subst.
  - by apply json_neq_log in Heq.
  - symmetry in Heq. by apply json_neq_log in Heq.
  - done.
Qed.

(** X25. [initializeSession] on a store where no path lies below a missing
    session directory: it fails only with the error of an invalid custom
    slug; otherwise it creates the session under an id that was free, reads
    the clock once for [createdAt], and returns the pending record.
    Afterwards [getSessionPaths] finds the session, [readSessionMetadata]
    reads the record back with the model records attached, each model of the
    run has its pending record and an empty log, the [models] directory
    lists these records and no others, and no path that existed before has
    changed but the sessions directory.  All this holds in whatever order
    the writes started together reach the disk. *)
Theorem initializeSession_creates
        (options : RunOptions) (cwd notifications : option string) (w : world)
        (Hroot : dir_or_absent (fs w) (SESSIONS_DIR ORACLE_HOME))
        (Hclosed : store_closed ORACLE_HOME (fs w))
        (Hsched : forall tasks, Permutation (concat tasks) (schedule tasks))
        (Hnames : Forall plain_name (runNames DEFAULT_MODEL options)) :
  match createSessionId (Some (or_text (opt_prompt options) DEFAULT_SLUG)) (opt_slug options)
  with
  | Throw e =>
      initializeSession ORACLE_HOME clock toISOString DEFAULT_MODEL options_json schedule
                        options cwd notifications w = Throw e
  | Ok baseSlug =>
      exists k meta w',
        let sessionId := candidate_id baseSlug k in
        initializeSession ORACLE_HOME clock toISOString DEFAULT_MODEL options_json schedule
                          options cwd notifications w = Ok (meta, w') /\
        fs w !! sessionDir ORACLE_HOME sessionId = None /\
        (forall j, (j < k)%nat ->
                   is_Some (fs w !! sessionDir ORACLE_HOME (candidate_id baseSlug j))) /\
        meta !! "id" = Some (JStr sessionId) /\
        meta !! "status" = Some (JStr "pending") /\
        meta !! "createdAt" = Some (JStr (toISOString (clock (reads w)))) /\
        reads w' = S (reads w) /\
        (exists paths, getSessionPaths ORACLE_HOME (fs w') sessionId = Ok paths) /\
        readSessionMetadata ORACLE_HOME clock Date_parse toISOString sessionId w'
        = Ok (Some (<["models" := JRuns (listModelRunFiles ORACLE_HOME (fs w') sessionId)]>
                      meta), w') /\
        (forall run, In run (listModelRunFiles ORACLE_HOME (fs w') sessionId) <->
                     exists m, In m (runNames DEFAULT_MODEL options) /\
                               run = initialModelRun m) /\
        (forall m, In m (runNames DEFAULT_MODEL options) ->
                   readModelRunMetadata ORACLE_HOME sessionId m w'
                   = Ok (Some (initialModelRun m), w') /\
                   fs w' !! modelLogPath ORACLE_HOME sessionId m
                   = Some (TextFile EmptyString)) /\
        readSessionLog ORACLE_HOME localeCompare JSON_stringify_meta JSON_stringify_run
                       (fs w') sessionId = EmptyString /\
        (forall p, is_Some (fs w !! p) -> p <> SESSIONS_DIR ORACLE_HOME ->
                   fs w' !! p = fs w !! p)
  end.
Proof.
  destruct (createSessionId _ _) as [baseSlug|e] eqn:Hslug.
  2: { unfold initializeSession, bind.
       destruct (ensureSessionStorage_ok ORACLE_HOME w Hroot) as (w1 & -> & _).
       by rewrite Hslug. }
  destruct (ensureSessionStorage_ok ORACLE_HOME w Hroot)
    as (w1 & Hrun1 & Hreads1 & [l1 Hdir1] & Hframe1).
  destruct (UniqueIdFacts.least_candidate_free ORACLE_HOME (fs w1) baseSlug)
    as (k & _ & Hfree & Htaken).
  pose proof (UniqueIdFacts.ensureUniqueSessionId_first_free
                ORACLE_HOME (fs w1) baseSlug k Hfree Htaken) as Hid.
  set (sessionId := candidate_id baseSlug k) in *.
  set (root := SESSIONS_DIR ORACLE_HOME) in *.
  set (sd := sessionDir ORACLE_HOME sessionId) in *.
  set (md := modelsDir ORACLE_HOME sessionId).
  set (mp := metaPath ORACLE_HOME sessionId).
  set (lp := logPath ORACLE_HOME sessionId).
  set (names := runNames DEFAULT_MODEL options).
  set (meta := initialMetadata options_json sessionId (toISOString (clock (reads w1)))
                               options cwd notifications).
  (* the new paths are all free *)
  assert (Hsd1 : fs w1 !! sd = None).
  { unfold fileExists in Hfree. apply bool_decide_eq_false in Hfree.
    by apply eq_None_not_Some. }
  assert (Hsd : fs w !! sd = None).
  { rewrite <- Hframe1; [done|apply path_join_neq_parent]. }
  assert (Hbelow : forall rest, fs w1 !! path_join sd rest = None).
  { intros rest. rewrite Hframe1; [by apply Hclosed|apply path_join2_neq_parent]. }
  assert (Hfile : forall n, path_join md n = path_join sd (path_join MODELS_DIRNAME n))
    by (intros n; apply path_join_assoc).
  assert (Hsd_root : sd <> root) by apply path_join_neq_parent.
  assert (Hmd_root : md <> root) by apply path_join2_neq_parent.
  assert (Hmd_sd : md <> sd) by apply path_join_neq_parent.
  assert (Hmp_root : mp <> root) by apply path_join2_neq_parent.
  assert (Hmp_sd : mp <> sd) by apply path_join_neq_parent.
  assert (Hmp_md : mp <> md) by (intros Heq; by apply path_join_inj in Heq).
  assert (Hlp_root : lp <> root) by apply path_join2_neq_parent.
  assert (Hlp_sd : lp <> sd) by apply path_join_neq_parent.
  assert (Hlp_md : lp <> md) by (intros Heq; by apply path_join_inj in Heq).
  assert (Hlp_mp : lp <> mp) by (intros Heq; by apply path_join_inj in Heq).
  assert (Hf_root : forall n, path_join md n <> root) by (intros n; apply path_join3_neq_parent).
  assert (Hf_sd : forall n, path_join md n <> sd) by (intros n; apply path_join2_neq_parent).
  assert (Hf_md : forall n, path_join md n <> md) by (intros n; apply path_join_neq_parent).
  assert (Hf_mp : forall n, path_join md n <> mp).
  { intros n Heq. rewrite Hfile in Heq. by apply path_join_inj in Heq. }
  assert (Hf_lp : forall n, path_join md n <> lp).
  { intros n Heq. rewrite Hfile in Heq. by apply path_join_inj in Heq. }
  (* the session directory, the clock, the models directory, the record *)
  pose proof (mkdir_in_new root sessionId w1 l1 Hdir1 Hsd1) as Hrun2.
  fold sd in Hrun2.
  set (w2 := {| fs := <[sd := Dir []]> (<[root := Dir (l1 ++ [sessionId])]> (fs w1));
                reads := S (reads w1) |}).
  assert (Hrun3 : mkdir_in sd MODELS_DIRNAME w2
                  = Ok (tt, {| fs := <[md := Dir []]> (<[sd := Dir ([] ++ [MODELS_DIRNAME])]> (fs w2));
                               reads := reads w2 |})).
  { apply mkdir_in_new.
    - unfold w2. simpl. by rewrite lookup_insert_eq.
    - fold md. unfold w2. simpl. rewrite !lookup_insert_ne by done. apply Hbelow. }
  set (w3 := {| fs := <[md := Dir []]> (<[sd := Dir ([] ++ [MODELS_DIRNAME])]> (fs w2));
                reads := reads w2 |}) in *.
  assert (Hrun4 : writeFile sd METADATA_FILENAME (MetaFile meta) w3
                  = Ok (tt, {| fs := <[mp := MetaFile meta]>
                                       (<[sd := Dir (([] ++ [MODELS_DIRNAME]) ++ [METADATA_FILENAME])]>
                                          (fs w3));
                               reads := reads w3 |})).
  { apply writeFile_new.
    - unfold w3. simpl. rewrite lookup_insert_ne by done. by rewrite lookup_insert_eq.
    - fold mp. unfold w3, w2. simpl. rewrite !lookup_insert_ne by done. apply Hbelow. }
  set (w4 := {| fs := <[mp := MetaFile meta]>
                        (<[sd := Dir (([] ++ [MODELS_DIRNAME]) ++ [METADATA_FILENAME])]> (fs w3));
                reads := reads w3 |}) in *.
  assert (Hw4 : forall q, q <> root -> q <> sd -> q <> md -> q <> mp -> fs w4 !! q = fs w1 !! q).
  { intros q ? ? ? ?. unfold w4, w3, w2. simpl. by rewrite !lookup_insert_ne. }
  assert (Hmd4 : fs w4 !! md = Some (Dir [])).
  { unfold w4, w3. simpl. rewrite !lookup_insert_ne by done. by rewrite lookup_insert_eq. }
  (* the writes of the model tasks *)
  set (writes := schedule (map (model_writes ORACLE_HOME sessionId) names)).
  assert (Hwrites : forall d n c,
             In (d, n, c) writes <->
             exists m, In m names /\ d = md /\
                       ((n = m +:+ MODEL_JSON_EXTENSION /\ c = RunFile (initialModelRun m)) \/
                        (n = m +:+ MODEL_LOG_EXTENSION /\ c = TextFile EmptyString))).
  { intros d n c. unfold md. rewrite <- (In_model_writes sessionId names).
    unfold writes. split; intros Hin.
    - eapply Permutation_in; [symmetry; apply Hsched|done].
    - eapply Permutation_in; [apply Hsched|done]. }
  destruct (write_all_into md writes w4 [] Hmd4)
    as (w5 & Hrun5 & Hreads5 & (entries5 & Hmd5 & Hentries5) & Hcontent5 & Hframe5).
  { intros d n c Hin. apply Hwrites in Hin as (m & _ & -> & Hcase).
    split; [done|]. split; [by destruct Hcase as [[_ ->]|[_ ->]]|].
    unfold not_a_directory. rewrite Hw4 by done. by rewrite Hfile, Hbelow. }
  { intros d n c d' c' Hin Hin'. unfold writes in Hin, Hin'.
    eapply (model_writes_consistent sessionId names).
    - eapply Permutation_in; [symmetry; apply Hsched|exact Hin].
    - eapply Permutation_in; [symmetry; apply Hsched|exact Hin']. }
  assert (Hsd5 : fs w5 !! sd = Some (Dir (([] ++ [MODELS_DIRNAME]) ++ [METADATA_FILENAME]))).
  { rewrite Hframe5; [|done|by intros n c _].
    unfold w4. simpl. rewrite lookup_insert_ne by done. by rewrite lookup_insert_eq. }
  assert (Hlp5 : fs w5 !! path_join sd "output.log" = None).
  { fold lp. rewrite Hframe5; [|done|by intros n c _]. rewrite Hw4 by done. apply Hbelow. }
  pose proof (writeFile_new sd "output.log" (TextFile EmptyString) w5 _ Hsd5 Hlp5) as Hrun6.
  fold lp in Hrun6.
  set (w6 := {| fs := <[lp := TextFile EmptyString]>
                        (<[sd := Dir ((([] ++ [MODELS_DIRNAME]) ++ [METADATA_FILENAME])
                                        ++ ["output.log"])]> (fs w5));
                reads := reads w5 |}) in *.
  assert (Hw6 : forall q, q <> sd -> q <> lp -> fs w6 !! q = fs w5 !! q).
  { intros q ? ?. unfold w6. simpl. by rewrite !lookup_insert_ne. }
  assert (Hjson : forall m, In m names ->
            fs w6 !! modelJsonPath ORACLE_HOME sessionId m = Some (RunFile (initialModelRun m))).
  { intros m Hm. unfold modelJsonPath. fold md. rewrite Hw6 by done.
    apply Hcontent5, Hwrites. exists m. auto. }
  assert (Hlog : forall m, In m names ->
            fs w6 !! modelLogPath ORACLE_HOME sessionId m = Some (TextFile EmptyString)).
  { intros m Hm. unfold modelLogPath. fold md. rewrite Hw6 by done.
    apply Hcontent5, Hwrites. exists m. auto. }
  assert (Hlisted : forall run, In run (listModelRunFiles ORACLE_HOME (fs w6) sessionId) <->
                                exists m, In m names /\ run = initialModelRun m).
  { intros run. rewrite listModelRunFiles_In. unfold listed_from. fold md.
    setoid_rewrite readdir_or_empty_In.
    unfold stored_names. rewrite Hw6, Hmd5 by done. split.
    - intros (entry & Hin & Hext & parsed & Hparsed & ->).
      apply Hentries5 in Hin as [[]|(_ & c & Hin)].
      pose proof Hin as Hc%Hcontent5. apply Hwrites in Hin as (m & Hm & _ & Hcase).
      unfold readRunJson in Hparsed. rewrite Hw6, Hc in Hparsed by done.
      destruct Hcase as [[-> ->]|[-> ->]]; [|done].
      injection Hparsed as <-. by exists m.
    - intros (m & Hm & ->). exists (m +:+ MODEL_JSON_EXTENSION).
      assert (Hin : In (md, m +:+ MODEL_JSON_EXTENSION, RunFile (initialModelRun m)) writes)
        by (apply Hwrites; exists m; auto).
      split; [|split; [apply endsWith_app|]].
      + apply Hentries5. right. split; [|by eexists].
        rewrite Hw4 by done. by rewrite Hfile, Hbelow.
      + exists (initialModelRun m). split; [|done].
        unfold readRunJson.
        change (path_join md (m +:+ MODEL_JSON_EXTENSION))
          with (modelJsonPath ORACLE_HOME sessionId m).
        by rewrite Hjson. }
  assert (Hmeta6 : fs w6 !! mp = Some (MetaFile meta)).
  { rewrite Hw6 by done. rewrite Hframe5; [|done|by intros n c _].
    unfold w4. simpl. by rewrite lookup_insert_eq. }
  assert (Hlp6 : fs w6 !! lp = Some (TextFile EmptyString)).
  { unfold w6. simpl. by rewrite lookup_insert_eq. }
  assert (Hstatus : meta !! "status" = Some (JStr "pending")).
  { unfold meta, initialMetadata. rewrite !lookup_insert_ne by done. by rewrite lookup_insert_eq. }
  assert (Hmid : meta !! "id" = Some (JStr sessionId)).
  { unfold meta, initialMetadata. by rewrite lookup_insert_eq. }
  assert (Hruns : (length (listModelRunFiles ORACLE_HOME (fs w6) sessionId) =? 0)%nat = false).
  { apply Nat.eqb_neq. intros Hlen. apply length_zero_iff_nil in Hlen.
    destruct (runNames_nonempty options) as [m Hm].
    assert (Hin : In (initialModelRun m) (listModelRunFiles ORACLE_HOME (fs w6) sessionId))
      by (apply Hlisted; by exists m).
    by rewrite Hlen in Hin. }
  exists k, meta, w6. cbv zeta. fold sessionId sd.
  split; [|split; [done|split; [|split; [done|split; [done|split;
    [|split; [|split; [|split; [|split; [done|split; [|split]]]]]]]]]]].
  - unfold initializeSession, bind. rewrite Hrun1, Hslug. unfold disk_now at 1. rewrite Hid.
    fold root sd. rewrite Hrun2. unfold Date_now at 1. cbn [fs reads].
    change (path_join root sessionId) with sd. fold w2. fold meta.
    rewrite Hrun3. fold w3. rewrite Hrun4. fold w4. fold names writes.
    rewrite Hrun5. rewrite Hrun6. reflexivity.
  - intros j Hj. specialize (Htaken j Hj). unfold fileExists in Htaken.
    apply bool_decide_eq_true in Htaken. rewrite <- Hframe1; [done|apply path_join_neq_parent].
  - unfold meta, initialMetadata. rewrite lookup_insert_ne by done.
    rewrite lookup_insert_eq. by rewrite Hreads1.
  - unfold w6. cbn [reads]. rewrite Hreads5. unfold w4, w3, w2. cbn [reads]. by rewrite Hreads1.
  - unfold getSessionPaths. cbn [missing_loop]. fold mp lp. unfold fileExists.
    rewrite Hmeta6, Hlp6. rewrite !bool_decide_eq_true_2 by eauto. cbn. eauto.
  - unfold readSessionMetadata, bind, readModernSessionMetadata, bind, disk_now, readMetaJson.
    fold mp. rewrite Hmeta6. unfold isSessionMetadataRecord. rewrite Hmid, Hstatus.
    cbn [js_truthy truthy negb]. unfold attachModelRuns. rewrite Hruns.
    rewrite MetadataFacts.markZombie_not_running; [done|].
    rewrite lookup_insert_ne by done. by rewrite Hstatus.
  - intros m Hm. split; [|by apply Hlog].
    unfold readModelRunMetadata, bind, disk_now, ret, readModelRunFile, readRunJson.
    by rewrite Hjson.
  - unfold readSessionLog. rewrite Hruns.
    rewrite CombinedLogFacts.log_loop_map. cbn [app orb].
    destruct (existsb _ _) eqn:Hbody.
    + apply existsb_exists in Hbody as (run & Hin & Hpos).
      eapply Permutation_in in Hin; [|apply CombinedLogFacts.js_sort_perm].
      apply Hlisted in Hin as (m & Hm & ->).
      rewrite (initial_log_body (fs w6) sessionId m) in Hpos; [done|]. by apply Hlog.
    + cbn [negb]. fold lp. unfold readFile. by rewrite Hlp6.
  - intros p Hp Hroot'.
    assert (Hp_sd : p <> sd) by (intros ->; rewrite Hsd in Hp; by destruct Hp).
    assert (Hp_below : forall rest, p <> path_join sd rest).
    { intros rest ->. destruct Hp as [x Hx].
      pose proof (Hclosed sessionId rest Hsd) as Habsent. unfold sd in Hx. congruence. }
    rewrite Hw6 by (done || apply Hp_below).
    rewrite Hframe5.
    + rewrite Hw4; [by apply Hframe1|done|done|apply Hp_below|apply Hp_below].
    + apply Hp_below.
    + intros n c _. rewrite Hfile. apply Hp_below.
Qed.

End Init.

Import Examples InitExamples.

Lemma initializeSession_creates_witness :
  exists meta w',
    initializeSession home (clock_from 1735689600000) IsoDate.toISOString "gpt-5-pro"
                      options_text last_first login_options None None
                      {| fs := empty_store; reads := 0 |}
    = Ok (meta, w') /\
    meta !! "id" = Some (JStr "fix-login-bug") /\
    meta !! "createdAt" = Some (JStr "2025-01-01T00:00:00.000Z") /\
    fs w' !! modelLogPath home "fix-login-bug" "gpt-5-pro" = Some (TextFile EmptyString).
Proof.
  pose proof (initializeSession_creates home (clock_from 1735689600000) parse_date
                IsoDate.toISOString "gpt-5-pro" options_text last_first byCodeUnits
                json_of_meta json_of_run login_options None None
                {| fs := empty_store; reads := 0 |}) as Hcreates.
  assert (Hslug : createSessionId (Some (or_text (opt_prompt login_options) DEFAULT_SLUG))
                                  (opt_slug login_options) = Ok "fix-login-bug")
    by (vm_compute; reflexivity).
  rewrite Hslug in Hcreates.
  destruct Hcreates as (k & meta & w' & Hrun & _ & Hfirst & Hid & _ & Hcreated & _ & _ & _ & _
                        & Hmodel & _).
  - vm_compute. exact I.
  - intros id rest _. cbn [fs]. unfold empty_store.
    rewrite lookup_insert_ne by apply not_eq_sym, path_join2_neq_parent. apply lookup_empty.
  - intros tasks. apply Permutation_rev.
  - repeat constructor.
  - destruct k as [|k].
    + exists meta, w'. split; [exact Hrun|]. split; [exact Hid|]. split; [exact Hcreated|].
      apply Hmodel. by left.
    + destruct (Hfirst 0%nat) as [x Hx]; [lia|]. vm_compute in Hx. discriminate.
Defined.

End SessionInitFacts.

(* ===================================================================== *)
(** ** Slugs as directory names *)
(* ===================================================================== *)

Module SlugShapeFacts.
Import JsString JsStringFacts SessionStore StoreOps.

Local Arguments String.append : simpl nomatch.

Local Notation "'word'" := (fun w => w <> EmptyString /\ all_chars is_lower_alnum w = true).

Lemma lower_char_slug c : is_slug_char c = true -> lower_char c = c.
Proof.
  unfold is_slug_char, is_lower_alnum, lower_char, code.
  intros [Halnum | Hdash]%orb_true_iff.
  - destruct (Nat.leb_spec 65 (nat_of_ascii c)), (Nat.leb_spec (nat_of_ascii c) 90);
      simpl; try done.
    exfalso. apply orb_true_iff in Halnum as [[H1 H2]%andb_true_iff | [H1 H2]%andb_true_iff];
      apply Nat.leb_le in H1, H2; lia.
  - apply bool_decide_eq_true in Hdash as ->. reflexivity.
Qed.

Lemma toLowerCase_slug s : all_chars is_slug_char s = true -> toLowerCase s = s.
Proof.
  induction s as [|c s IH]; simpl; [done|].
  intros [Hc Hs]%andb_true_iff. by rewrite lower_char_slug, IH.
Qed.

Lemma slice0_short n s : (String.length s <= n)%nat -> slice0 n s = s.
Proof.
  revert n. induction s as [|c s IH]; intros [|n]; simpl; try done; [lia|].
  intros Hle. rewrite IH; [done | lia].
Qed.

Lemma word_slug_chars w :
  all_chars is_lower_alnum w = true -> all_chars is_slug_char w = true.
Proof.
  apply all_chars_impl. intros c Hc. unfold is_slug_char. by rewrite Hc.
Qed.

(** A hyphen-joined list of words: its characters, its first character,
    its length, and its words as the matcher finds them again. *)
Lemma join_words_shape ws :
  ws <> [] -> Forall word ws ->
  all_chars is_slug_char (join "-" ws) = true /\
  starts_with_char is_lower_alnum (join "-" ws) = true /\
  match_runs is_lower_alnum (join "-" ws) = ws.
Proof.
  induction ws as [|w ws IH]; [done|]. intros _ Hall.
  apply Forall_cons in Hall as [[Hne Hw] Hws]. destruct ws as [|w' ws].
  - simpl. split; [by apply word_slug_chars|]. split.
    + destruct w as [|c w]; [done|]. simpl in *. by apply andb_true_iff in Hw as [-> _].
    + rewrite <- (app_nil_r w) at 1. by rewrite match_runs_word.
  - destruct IH as (IH1 & IH2 & IH3); [done|done|].
    change (join "-" (w :: w' :: ws)) with (w +:+ "-" +:+ join "-" (w' :: ws)).
    split; [|split].
    + rewrite !all_chars_app, IH1, word_slug_chars by done. reflexivity.
    + rewrite starts_with_char_app by done.
      destruct w as [|c w]; [done|]. simpl in *. by apply andb_true_iff in Hw as [-> _].
    + rewrite match_runs_word by done.
      rewrite (match_runs_skip is_lower_alnum "-") by done. by rewrite IH3.
Qed.

Lemma length_join_words ws :
  ws <> [] -> Forall (fun w => String.length w <= 10)%nat ws ->
  (String.length (join "-" ws) + 1 <= 11 * length ws)%nat.
Proof.
  induction ws as [|w ws IH]; [done|]. intros _ Hall.
  apply Forall_cons in Hall as [Hw Hws]. destruct ws as [|w' ws].
  - simpl. lia.
  - change (join "-" (w :: w' :: ws)) with (w +:+ "-" +:+ join "-" (w' :: ws)).
    rewrite !length_app. specialize (IH ltac:(done) Hws).
    change (String.length "-") with 1%nat. simpl length in *. lia.
Qed.

Lemma trimmed_words_idem ws :
  let kept := map (slice0 10) (take 5 ws) in
  map (slice0 10) (take 5 kept) = kept.
Proof.
  intros kept.
  assert (Hlen : (length kept <= 5)%nat) by (unfold kept; rewrite length_map, length_take; lia).
  rewrite take_ge by done.
  unfold kept. rewrite <- list_fmap_compose. apply map_ext. intros w. unfold compose.
  apply slice0_short. rewrite length_slice0. lia.
Qed.

(** What holds of the slug made from the runs [ws]. *)
Lemma slug_of_words_shape ws :
  Forall word ws ->
  let slug := slug_of_words ws in
  all_chars is_slug_char slug = true /\
  starts_with_char is_lower_alnum slug = true /\
  (String.length slug <= 54)%nat /\
  slug_of_words (match_runs is_lower_alnum (toLowerCase slug)) = slug.
Proof.
  intros Hws. destruct ws as [|w ws].
  { cbv zeta. repeat split; try reflexivity. vm_compute. lia. }
  unfold slug_of_words.
  set (kept := map (slice0 10) (take 5 (w :: ws))).
  assert (Hkept : Forall word kept) by by apply SlugFacts.trimmed_words_wellformed.
  assert (Hne : kept <> []) by done.
  destruct (join_words_shape kept Hne Hkept) as (Hchars & Hstart & Hruns).
  cbv zeta. split; [done|]. split; [done|]. split.
  - assert (Hshort : Forall (fun w => String.length w <= 10)%nat kept).
    { unfold kept. apply Forall_map, Forall_take, Forall_true.
      intros v. unfold compose. rewrite length_slice0. lia. }
    pose proof (length_join_words kept Hne Hshort) as Hlen.
    assert (length kept <= 5)%nat by (unfold kept; rewrite length_map, length_take; lia).
    lia.
  - rewrite toLowerCase_slug, Hruns by done.
    destruct kept as [|v vs] eqn:E; [done|]. rewrite <- E.
    unfold kept. by rewrite trimmed_words_idem.
Qed.

(** X9. Whatever the text, the slug made from it is fit to name a session
    directory: it is not empty, holds only lower-case letters, digits and
    hyphens, starts with a letter or digit, has at most 54 characters, and
    is a single path segment.  Slugs are fixed points: the slug of a slug is
    the slug itself, so a custom slug that was accepted is accepted again
    unchanged. *)
Theorem slugify_directory_name (text : option string) :
  let slug := slugify text MAX_SLUG_WORDS in
  slug <> EmptyString /\
  all_chars is_slug_char slug = true /\
  starts_with_char is_lower_alnum slug = true /\
  (String.length slug <= 54)%nat /\
  path_segment slug /\
  slugify (Some slug) MAX_SLUG_WORDS = slug /\
  (forall custom accepted,
      normalizeCustomSlug custom = Ok accepted -> normalizeCustomSlug accepted = Ok accepted).
Proof.
  assert (Hshape : forall text,
    let slug := slugify text MAX_SLUG_WORDS in
    all_chars is_slug_char slug = true /\
    starts_with_char is_lower_alnum slug = true /\
    (String.length slug <= 54)%nat /\
    slugify (Some slug) MAX_SLUG_WORDS = slug).
  { intros [t|]; [|cbv zeta; repeat split; try reflexivity; vm_compute; lia].
    cbv zeta. rewrite !SlugFacts.slugify_words.
    apply slug_of_words_shape, match_runs_words. }
  destruct (Hshape text) as (Hchars & Hstart & Hlen & Hidem). cbv zeta in *.
  set (slug := slugify text MAX_SLUG_WORDS) in *.
  assert (Hne : slug <> EmptyString) by (intros E; by rewrite E in Hstart).
  split; [done|]. split; [done|]. split; [done|]. split; [done|]. split; [|split; [done|]].
  - split; [|split; [done|split]].
    + eapply all_chars_impl; [|exact Hchars]. intros c Hc.
      apply negb_true_iff, bool_decide_eq_false. intros ->. done.
    + intros E. by rewrite E in Hstart.
    + intros E. by rewrite E in Hstart.
  - intros custom accepted. unfold normalizeCustomSlug.
    destruct (_ || _) eqn:Hcount; [done|]. intros [= <-].
    destruct (Hshape (Some custom)) as (_ & _ & _ & ->). by rewrite Hcount.
Qed.

End SlugShapeFacts.

(* ===================================================================== *)
(** ** File discovery: what a result guarantees *)
(* ===================================================================== *)

Module ReadFilesFacts.
Import JsString JsStringFacts Files FilesSpec.

Local Arguments String.append : simpl nomatch.

Section WithEnvironment.
Variable cwd : string.
Variable fsModule : FsModule.
Variable path_isAbsolute : string -> bool.
Variable path_resolve : string -> string -> string.
Variable path_relative : string -> string -> string.
Variable isDynamicPattern : string -> bool.
Variable expandWithNativeGlob : Partitioned -> outcome string (list string).
Variable expandWithCustomFs : Partitioned -> outcome string (list string).
Variable findIgnoredAncestor : Partitioned -> list string -> string -> option string.

Lemma size_loop_stats maxBytes candidates oversized accepted result :
  size_loop cwd fsModule path_relative maxBytes candidates oversized accepted = Ok result ->
  Forall (fun p => is_Some (stat fsModule p)) candidates.
Proof.
  revert oversized accepted. induction candidates as [|p candidates IH];
    intros oversized accepted; simpl; [by constructor|].
  destruct (stat fsModule p) as [stats|] eqn:Hp; [|done].
  intros Hrun. constructor; [by rewrite Hp|].
  destruct (negb (isFile stats)); [by eapply IH|].
  destruct (exceeds maxBytes stats); by eapply IH.
Qed.

Lemma read_loop_files accepted files result :
  read_loop fsModule accepted files = Ok result ->
  exists new,
    result = files ++ new /\ map path new = accepted /\
    Forall (fun f => readFile fsModule (path f) = Some (content f)) new.
Proof.
  revert files. induction accepted as [|p accepted IH]; intros files; simpl.
  - intros [= <-]. exists []. by rewrite List.app_nil_r.
  - destruct (readFile fsModule p) as [c|] eqn:Hp; [|done].
    intros (new & -> & Hpaths & Hread)%IH.
    exists ({| path := p; content := c |} :: new).
    rewrite <- List.app_assoc. split; [done|]. split; [by rewrite <- Hpaths|].
    by constructor.
Qed.

(** X10. What a successful [readFiles] on a non-empty input guarantees:
    the partition and the expansion succeeded and left candidates after the
    ignore filter; none of the candidates is a regular file over the limit;
    the files returned are exactly the candidates that are regular files
    within the limit, in candidate order, each with the content the file
    system gives for its path. *)
Theorem readFiles_returns
        (filePaths : list string) (maxBytes : N) (files : list FileContent)
        (Hinput : filePaths <> [])
        (Hrun : readFiles cwd fsModule path_isAbsolute path_resolve path_relative
                          isDynamicPattern expandWithNativeGlob expandWithCustomFs
                          findIgnoredAncestor (Some filePaths) maxBytes = Ok files) :
  exists partitioned candidatePaths,
    partitionFileInputs cwd fsModule path_isAbsolute path_resolve path_relative
                        isDynamicPattern filePaths = Ok partitioned /\
    expandCandidates fsModule expandWithNativeGlob expandWithCustomFs partitioned
    = Ok candidatePaths /\
    let candidates := filterCandidates findIgnoredAncestor partitioned candidatePaths in
    candidates <> [] /\
    Forall (fun p => is_oversized fsModule maxBytes p = false) candidates /\
    map path files = List.filter (is_accepted fsModule maxBytes) candidates /\
    Forall (fun f => readFile fsModule (path f) = Some (content f)) files /\
    Forall (fun f => exists stats,
                stat fsModule (path f) = Some stats /\ isFile stats = true /\
                forall sz, maxBytes <> 0%N -> size stats = Some sz -> (sz <= maxBytes)%N)
           files.
Proof.
  destruct filePaths as [|entry rest]; [done|]. unfold readFiles in Hrun.
  destruct (partitionFileInputs _ _ _ _ _ _ _) as [partitioned|] eqn:Hpart; [|done].
  simpl in Hrun.
  destruct (expandCandidates _ _ _ _) as [candidatePaths|] eqn:Hexp; [|done].
  simpl in Hrun. exists partitioned, candidatePaths. split; [done|]. split; [done|].
  cbv zeta. set (candidates := filterCandidates _ _ _) in *.
  destruct (length candidates =? 0)%nat eqn:Hlen; [done|].
  split; [intros E; by rewrite E in Hlen|].
  unfold readCandidates in Hrun.
  destruct (size_loop _ _ _ _ _ _ _) as [[oversized accepted]|] eqn:Hsize; [|done].
  pose proof (size_loop_stats _ _ _ _ _ Hsize) as Hstats.
  rewrite (FilesFacts.size_loop_filters cwd fsModule path_relative) in Hsize by done.
  injection Hsize as <- <-. simpl in Hrun.
  destruct (List.filter (is_oversized fsModule maxBytes) candidates) as [|o os] eqn:Hover;
    [|done].
  simpl in Hrun. apply read_loop_files in Hrun as (new & -> & Hpaths & Hread).
  simpl. split; [|split; [done|split; [done|]]].
  - apply List.Forall_forall. intros p Hp.
    destruct (is_oversized fsModule maxBytes p) eqn:E; [|done].
    assert (In p (List.filter (is_oversized fsModule maxBytes) candidates))
      by by apply filter_In.
    by rewrite Hover in *.
  - apply List.Forall_forall. intros f Hf.
    assert (Hin : In (path f) (List.filter (is_accepted fsModule maxBytes) candidates)).
    { rewrite <- Hpaths. by apply in_map. }
    apply filter_In in Hin as [_ Hacc]. unfold is_accepted, exceeds in Hacc.
    destruct (stat fsModule (path f)) as [stats|]; [|done].
    apply andb_true_iff in Hacc as [Hfile Hwithin]. exists stats.
    split; [done|]. split; [done|]. intros sz Hmax Hsz. rewrite Hsz in Hwithin.
    apply N.eqb_neq in Hmax. rewrite Hmax in Hwithin. simpl in Hwithin.
    apply negb_true_iff, N.ltb_ge in Hwithin. done.
Qed.

(** *** The partition of the inputs *)

Local Notation "'well_classified' result" :=
  (Forall (is_regular_file fsModule) (literalFiles result) /\
   Forall (is_directory fsModule) (literalDirectories result) /\
   Forall (fun e => e <> EmptyString) (excludePatterns result))
  (at level 10, result at level 9).

Local Notation "'rejected_entry' rawPaths e" :=
  (exists entry,
      In entry rawPaths /\
      let raw := trim entry in
      let absolutePath := if path_isAbsolute raw then raw else path_resolve cwd raw in
      truthy raw = true /\ startsWith raw "!" = false /\ isDynamicPattern raw = false /\
      (stat fsModule absolutePath = None /\
       e = FileValidationError ("Missing file or directory: " +:+ raw)
                               (DetailsPath absolutePath)
       \/
       exists stats,
         stat fsModule absolutePath = Some stats /\
         isDirectory stats = false /\ isFile stats = false /\
         e = FileValidationError ("Not a file or directory: " +:+ raw)
                                 (DetailsPath absolutePath)))
  (at level 10, rawPaths at level 9, e at level 9).

Lemma partition_loop_classifies rawPaths result :
  well_classified result ->
  match partition_loop cwd fsModule path_isAbsolute path_resolve path_relative
                       isDynamicPattern rawPaths result with
  | Ok final =>
      well_classified final /\
      (partitioned_count final <= partitioned_count result + length rawPaths)%nat
  | Throw e => rejected_entry rawPaths e
  end.
Proof.
  revert result. induction rawPaths as [|entry rest IH]; intros result Hinv.
  - simpl. split; [done|lia].
  - assert (Hstep : forall result',
      well_classified result' ->
      (partitioned_count result' <= S (partitioned_count result))%nat ->
      match partition_loop cwd fsModule path_isAbsolute path_resolve path_relative
                           isDynamicPattern rest result' with
      | Ok final =>
          well_classified final /\
          (partitioned_count final <= partitioned_count result + length (entry :: rest))%nat
      | Throw e => rejected_entry (entry :: rest) e
      end).
    { intros result' Hinv' Hcount. specialize (IH result' Hinv').
      destruct (partition_loop _ _ _ _ _ _ rest result') as [final|e].
      - destruct IH as [Hfinal Hlen]. split; [done|]. simpl. lia.
      - destruct IH as (entry' & Hin & Hentry). exists entry'. split; [by right|done]. }
    destruct Hinv as (Hfiles & Hdirs & Hexcl).
    simpl. destruct (truthy (trim entry)) eqn:Hraw; simpl.
    2:{ apply Hstep; [done|lia]. }
    destruct (startsWith (trim entry) "!") eqn:Hbang.
    { destruct (truthy (normalizeGlob _ _ _ _)) eqn:Hnorm.
      - apply Hstep.
        + split; [done|]. split; [done|]. simpl. apply Forall_app. split; [done|].
          constructor; [|done]. intros E. by rewrite E in Hnorm.
        + unfold partitioned_count. simpl. rewrite List.length_app. simpl. lia.
      - apply Hstep; [done|lia]. }
    destruct (isDynamicPattern (trim entry)) eqn:Hdyn.
    { apply Hstep; [done|]. unfold partitioned_count. simpl. rewrite List.length_app. simpl. lia. }
    set (absolutePath := if path_isAbsolute (trim entry) then trim entry
                         else path_resolve cwd (trim entry)).
    destruct (stat fsModule absolutePath) as [stats|] eqn:Hstat.
    2:{ exists entry. split; [by left|]. cbv zeta. fold absolutePath. repeat split; try done.
        by left. }
    destruct (isDirectory stats) eqn:Hdir.
    { apply Hstep.
      - split; [done|]. split; [|done]. simpl. apply Forall_app. split; [done|].
        constructor; [|done]. by exists stats.
      - unfold partitioned_count. simpl. rewrite List.length_app. simpl. lia. }
    destruct (isFile stats) eqn:Hfile.
    { apply Hstep.
      - split; [|done]. simpl. apply Forall_app. split; [done|].
        constructor; [|done]. by exists stats.
      - unfold partitioned_count. simpl. rewrite List.length_app. simpl. lia. }
    exists entry. split; [by left|]. cbv zeta. fold absolutePath. repeat split; try done.
    right. by exists stats.
Qed.

(** X11. The partition of the inputs either classifies or rejects.  When
    it returns, every literal file it lists was found to be a regular file
    and no directory, every literal directory a directory, no exclusion
    pattern is empty, and it lists at most one item per input.  When it
    throws, the error names one input (trimmed) that is neither blank, nor
    an exclusion, nor a glob pattern, and whose path either cannot be
    stat'ed (a missing file or directory) or is neither a directory nor a
    regular file. *)
Theorem partitionFileInputs_classifies (rawPaths : list string) :
  match partitionFileInputs cwd fsModule path_isAbsolute path_resolve path_relative
                            isDynamicPattern rawPaths with
  | Ok result =>
      Forall (is_regular_file fsModule) (literalFiles result) /\
      Forall (is_directory fsModule) (literalDirectories result) /\
      Forall (fun e => e <> EmptyString) (excludePatterns result) /\
      (partitioned_count result <= length rawPaths)%nat
  | Throw e =>
      exists entry,
        In entry rawPaths /\
        let raw := trim entry in
        let absolutePath := if path_isAbsolute raw then raw else path_resolve cwd raw in
        truthy raw = true /\ startsWith raw "!" = false /\ isDynamicPattern raw = false /\
        (stat fsModule absolutePath = None /\
         e = FileValidationError ("Missing file or directory: " +:+ raw)
                                 (DetailsPath absolutePath)
         \/
         exists stats,
           stat fsModule absolutePath = Some stats /\
           isDirectory stats = false /\ isFile stats = false /\
           e = FileValidationError ("Not a file or directory: " +:+ raw)
                                   (DetailsPath absolutePath))
  end.
Proof.
  unfold partitionFileInputs.
  pose proof (partition_loop_classifies rawPaths
                {| globPatterns := []; excludePatterns := [];
                   literalFiles := []; literalDirectories := [] |}) as H.
  destruct (partition_loop _ _ _ _ _ _ rawPaths _) as [final|e].
  - destruct H as [(Hf & Hd & He) Hlen]; [by repeat split|]. by repeat split.
  - apply H. by repeat split.
Qed.

End WithEnvironment.

Import Examples.

Lemma readFiles_returns_witness :
  exists partitioned candidatePaths,
    partitionFileInputs "/w" demo_fs demo_isAbsolute demo_resolve demo_relative
                        (fun _ => false) ["/w/exact.bin"] = Ok partitioned /\
    expandCandidates demo_fs demo_glob (fun _ => Ok []) partitioned = Ok candidatePaths /\
    filterCandidates (fun _ _ _ => None) partitioned candidatePaths <> [].
Proof.
  destruct (readFiles_returns "/w" demo_fs demo_isAbsolute demo_resolve demo_relative
              (fun _ => false) demo_glob (fun _ => Ok []) (fun _ _ _ => None)
              ["/w/exact.bin"] MAX_FILE_SIZE_BYTES
              [ {| path := "/w/exact.bin"; content := "data" |} ])
    as (partitioned & candidatePaths & Hpart & Hexp & Hcands & _).
  - discriminate.
  - reflexivity.
  - by exists partitioned, candidatePaths.
Defined.

End ReadFilesFacts.

(* ===================================================================== *)
(** ** File sections and token statistics *)
(* ===================================================================== *)

Module FileSectionsFacts.
Import JsString JsStringFacts Files FileSections.

Local Arguments String.append : simpl nomatch.

Lemma toPosix_no_backslash value : no_backslash (toPosix value).
Proof.
  unfold no_backslash, toPosix. induction value as [|c value IH]; [done|].
  cbn [all_chars]. apply andb_true_iff. split; [|exact IH].
  destruct (bool_decide (c = "\"%char)) eqn:E; [done|]. by rewrite E.
Qed.

Lemma Forall_imap {A B} (P : B -> Prop) (f : nat -> A -> B) (l : list A) :
  (forall i x, P (f i x)) -> Forall P (imap f l).
Proof.
  revert f. induction l as [|x l IH]; intros f Hf; simpl; constructor; [done|].
  apply IH. intros i y. apply Hf.
Qed.

Lemma permutation_sum (l l' : list Z) :
  Permutation l l' -> foldr Z.add 0 l = foldr Z.add 0 l'.
Proof. induction 1; simpl; lia. Qed.

Lemma fold_left_sum {A} (f : A -> Z) (l : list A) (acc : Z) :
  fold_left (fun sum entry => sum + f entry) l acc = acc + foldr Z.add 0 (map f l).
Proof.
  revert acc. induction l as [|x l IH]; intros acc; simpl; [lia|]. rewrite IH. lia.
Qed.

Section WithCwd.
Variable cwd : string.
Variable path_relative : string -> string -> string.
Variable tokenizer : string -> Z.

Lemma imap_sections_index k (files : list FileContent) :
  map index (imap (fun i => createFileSection cwd path_relative (k + i)) files)
  = seq (k + 1) (length files).
Proof.
  revert k. induction files as [|file files IH]; intros k; simpl; [done|].
  rewrite Nat.add_0_r. f_equal.
  rewrite (imap_ext _ (fun i => createFileSection cwd path_relative (S k + i))).
  - apply (IH (S k)).
  - intros i x _. simpl. f_equal. lia.
Qed.

Lemma imap_sections_fields (g : nat -> nat) (files : list FileContent) :
  map absolutePath (imap (fun i => createFileSection cwd path_relative (g i)) files)
  = map path files /\
  map section_content (imap (fun i => createFileSection cwd path_relative (g i)) files)
  = map content files.
Proof.
  revert g. induction files as [|file files IH]; intros g; simpl; [done|].
  destruct (IH (g ∘ S)) as [IH1 IH2]. unfold compose in *. split; by f_equal.
Qed.

(** X12. [createFileSections] makes one section per file, in input order
    and numbered from 1, and keeps each file's path and content.  The
    display path of a section holds no backslash, and the text of a section
    is its header with the number and the display path, then the content
    without its trailing white space between two lines of three
    backticks. *)
Theorem createFileSections_numbering (files : list FileContent) :
  let sections := createFileSections cwd path_relative files in
  map index sections = seq 1 (length files) /\
  map absolutePath sections = map path files /\
  map section_content sections = map content files /\
  Forall (fun section =>
            no_backslash (displayPath section) /\
            sectionText section
            = ("### File " +:+ pretty (index section) +:+ ": " +:+ displayPath section)
                +:+ newline +:+ "```" +:+ newline
                +:+ trimEnd (section_content section) +:+ newline +:+ "```")
         sections.
Proof.
  cbv zeta. unfold createFileSections. split; [|split; [|split]].
  - apply (imap_sections_index 0).
  - apply (imap_sections_fields (fun i => i)).
  - apply (imap_sections_fields (fun i => i)).
  - apply Forall_imap. intros i file. split; [apply toPosix_no_backslash|reflexivity].
Qed.

(** X13. The token report has one row per file, with the file's path and
    the tokens of its section text.  The rows come in descending order of
    tokens, and the total is the sum of the tokens of all sections,
    whatever the order; without files the report is empty and the total
    zero. *)
Theorem getFileTokenStats_total (files : list FileContent) (inputTokenBudget : option Z) :
  let report := getFileTokenStats cwd path_relative tokenizer files inputTokenBudget in
  let sections := createFileSections cwd path_relative files in
  Permutation (map (fun entry => (stat_path entry, tokens entry)) (stats report))
              (map (fun section => (absolutePath section, tokenizer (sectionText section)))
                   sections) /\
  length (stats report) = length files /\
  StronglySorted (fun a b => tokens b <= tokens a) (stats report) /\
  totalTokens report
  = foldr Z.add 0 (map (fun section => tokenizer (sectionText section)) sections) /\
  (files = [] -> report = {| stats := []; totalTokens := 0 |}).
Proof.
  cbv zeta. unfold getFileTokenStats.
  destruct files as [|file files]; [by repeat split; constructor|].
  change (length (file :: files) =? 0)%nat with false. cbv iota.
  set (sections := createFileSections cwd path_relative (file :: files)).
  set (row := fun section : FileSection => _).
  set (cmp := fun a b : FileTokenStat => tokens b - tokens a).
  pose proof (CombinedLogFacts.js_sort_perm cmp (map row sections)) as Hperm.
  cbn [stats totalTokens]. split; [|split; [|split; [|split; [|done]]]].
  - rewrite Hperm, map_map. done.
  - rewrite Hperm, length_map. unfold sections, createFileSections. by rewrite length_imap.
  - apply Sorted_StronglySorted; [intros a b c; lia|].
    eapply CombinedLogFacts.Sorted_ext; [|apply CombinedLogFacts.js_sort_sorted].
    + intros a b _ _. unfold cmp. simpl. lia.
    + intros a b _ _. unfold cmp. lia.
  - rewrite fold_left_sum. rewrite (permutation_sum _ _ (Permutation_map tokens Hperm)).
    rewrite map_map. simpl. lia.
Qed.

End WithCwd.

End FileSectionsFacts.

(* ===================================================================== *)
(** ** File sections and the prompt as markdown *)
(* ===================================================================== *)

Module PromptMarkdownFacts.
Import JsString JsStringFacts Markdown PromptMarkdown.

Local Arguments String.append : simpl nomatch.

(** *** Trailing white space *)

Lemma trimEnd_prefix s : exists tail, s = trimEnd s +:+ tail.
Proof.
  induction s as [|c s [tail IH]]; simpl; [by exists EmptyString|].
  destruct (trimEnd s) as [|c' t] eqn:E.
  - simpl in IH. subst tail. destruct (is_space c).
    + by exists (String c s).
    + by exists s.
  - exists tail. simpl. by rewrite IH at 1.
Qed.

Lemma trimEnd_idem s : trimEnd (trimEnd s) = trimEnd s.
Proof.
  induction s as [|c s IH]; simpl; [done|].
  destruct (trimEnd s) as [|c' t] eqn:E.
  - destruct (is_space c) eqn:Hc; simpl; [done|]. by rewrite Hc.
  - change (trimEnd (String c (String c' t)))
      with (match trimEnd (String c' t) with
            | EmptyString => if is_space c then EmptyString else String c EmptyString
            | t' => String c t'
            end).
    by rewrite IH.
Qed.

Lemma occurs_in_trimEnd t s : occurs_in t (trimEnd s) -> occurs_in t s.
Proof.
  intros (pre & post & Heq). destruct (trimEnd_prefix s) as [tail Hs].
  exists pre, (post +:+ tail). rewrite Hs at 1. rewrite Heq. by rewrite !app_assoc.
Qed.

(** *** One file section *)

Lemma table_get_value table key lang :
  table_get table key = Some lang -> In lang (map snd table).
Proof.
  unfold table_get. destruct (List.find _ table) as [[k v]|] eqn:E; [|done].
  intros [= <-]. apply find_some in E as [Hin _]. by apply (in_map snd) in Hin.
Qed.

Lemma table_get_In table key lang :
  NoDup (map fst table) -> In (key, lang) table -> table_get table key = Some lang.
Proof.
  unfold table_get. induction table as [|[k v] table IH]; intros Hnd Hin; [done|].
  apply NoDup_cons in Hnd as [Hk Hnd]. cbn [List.find fst].
  destruct (String.eqb k key) eqn:E.
  - apply String.eqb_eq in E as ->. destruct Hin as [[= ->]|Hin]; [done|].
    exfalso. apply Hk. apply list_elem_of_In. by apply (in_map fst) in Hin.
  - destruct Hin as [[= -> _]|Hin]; [by rewrite String.eqb_refl in E|]. by apply IH.
Qed.

Lemma table_get_Some table key lang :
  table_get table key = Some lang -> In (key, lang) table.
Proof.
  unfold table_get. destruct (List.find _ table) as [[k v]|] eqn:E; [|done].
  intros [= <-]. apply find_some in E as [Hin Hk]. by apply String.eqb_eq in Hk as <-.
Qed.

Lemma EXT_TO_LANG_keys : NoDup (map fst EXT_TO_LANG).
Proof. by apply (bool_decide_unpack _). Qed.

Section WithPath.
Variable path_extname : string -> string.

(** X14. A file section is the header with the display path, the opening
    fence with the language tag, the content without its trailing white
    space, and the closing fence, each on a line of its own.  The tag is
    the language that [EXT_TO_LANG] gives for the lower-cased extension of
    the display path, and nothing when the table has no entry for it.  The
    fence has at least three backticks and occurs nowhere in the content as
    written, so the first line after the opening that holds the fence is
    the closing one. *)
Theorem formatFileSection_fenced (displayPath content : string) :
  exists fence tag,
    fence = pickFence content /\
    (forall lang,
        In (toLowerCase (path_extname displayPath), lang) EXT_TO_LANG -> tag = lang) /\
    ((forall lang, ~ In (toLowerCase (path_extname displayPath), lang) EXT_TO_LANG) ->
     tag = EmptyString) /\
    (tag = EmptyString \/ In tag (map snd EXT_TO_LANG)) /\
    formatFileSection path_extname displayPath content
    = ("### File: " +:+ displayPath) +:+ newline +:+ (fence +:+ tag) +:+ newline
        +:+ trimEnd content +:+ newline +:+ fence +:+ newline /\
    (3 <= String.length fence)%nat /\
    ~ occurs_in fence (trimEnd content).
Proof.
  exists (pickFence content).
  assert (Hsafe : (3 <= String.length (pickFence content))%nat /\
                  ~ occurs_in (pickFence content) (trimEnd content)).
  { rewrite MarkdownFacts.pickFence_eq, MarkdownFacts.length_ticks. split; [lia|].
    intros Hocc%occurs_in_trimEnd. apply MarkdownFacts.occurs_ticks_bound in Hocc. lia. }
  unfold formatFileSection.
  destruct (detectFenceLanguage path_extname displayPath) as [lang|] eqn:Hlang.
  - exists lang. split; [done|].
    split.
    { intros lang' Hin. apply (table_get_In _ _ _ EXT_TO_LANG_keys) in Hin.
      unfold detectFenceLanguage in Hlang. congruence. }
    split.
    { intros Hnone. exfalso. apply (Hnone lang). by apply table_get_Some. }
    split; [right; by eapply table_get_value|].
    split; [|exact Hsafe].
    assert (Hin : In lang (map snd EXT_TO_LANG)) by by eapply table_get_value.
    assert (truthy lang = true) as ->.
    { simpl in Hin. repeat (destruct Hin as [<-|Hin]; [reflexivity|]). done. }
    reflexivity.
  - exists EmptyString. split; [done|].
    split.
    { intros lang Hin. apply (table_get_In _ _ _ EXT_TO_LANG_keys) in Hin.
      unfold detectFenceLanguage in Hlang. congruence. }
    split; [done|]. split; [by left|]. split; [|exact Hsafe].
    by rewrite (app_nil_r (pickFence content)).
Qed.

(** *** The whole prompt *)

Lemma join_cons sep w x l : join sep (w :: x :: l) = w +:+ sep +:+ join sep (x :: l).
Proof. reflexivity. Qed.

Lemma leading_newlines_collapse kept s :
  (kept <= 2)%nat -> (leading_newlines (collapse_from kept s) + kept <= 2)%nat.
Proof.
  revert kept. induction s as [|c s IH]; intros kept Hkept; simpl; [lia|].
  destruct (is_newline c) eqn:Hc.
  - destruct (Nat.ltb_spec kept 2).
    + simpl. rewrite Hc. specialize (IH (S kept)). lia.
    + by apply IH.
  - simpl. rewrite Hc. lia.
Qed.

Lemma occurs_three_cons c s :
  occurs_in (newline +:+ newline +:+ newline) (String c s) ->
  (is_newline c = true /\ (2 <= leading_newlines s)%nat)
  \/ occurs_in (newline +:+ newline +:+ newline) s.
Proof.
  intros ([|c' pre] & post & Heq).
  - left. change (String c s = String "010" (String "010" (String "010" post))) in Heq.
    injection Heq as -> ->. split; [done|]. simpl. lia.
  - right. change (String c s = String c' (pre +:+ (newline +:+ newline +:+ newline) +:+ post))
      in Heq.
    injection Heq as _ ->. by exists pre, post.
Qed.

Lemma collapse_from_no_three kept s :
  (kept <= 2)%nat -> ~ occurs_in (newline +:+ newline +:+ newline) (collapse_from kept s).
Proof.
  revert kept. induction s as [|c s IH]; intros kept Hkept; simpl.
  - intros (pre & post & Heq). by destruct pre.
  - destruct (is_newline c) eqn:Hc.
    + destruct (Nat.ltb_spec kept 2); [|by apply IH].
      intros [[_ Hlead]|Hocc]%occurs_three_cons.
      * pose proof (leading_newlines_collapse (S kept) s). lia.
      * by apply (IH (S kept)); [lia|].
    + intros [[Hnl _]|Hocc]%occurs_three_cons; [congruence|].
      by apply (IH 0%nat); [lia|].
Qed.

(** X15. The prompt rendered as markdown never holds three line feeds in
    a row (no two blank lines follow each other, also not inside a file's
    content), does not end in white space, and begins with the [[SYSTEM]]
    heading. *)
Theorem buildPromptMarkdown_tidy
        (systemPrompt userPrompt : string) (sections : list PromptFileSection) :
  let text := buildPromptMarkdown path_extname systemPrompt userPrompt sections in
  ~ occurs_in (newline +:+ newline +:+ newline) text /\
  trimEnd text = text /\
  startsWith text "[SYSTEM]" = true.
Proof.
  cbv zeta. unfold buildPromptMarkdown. split; [|split].
  - intros Hocc%occurs_in_trimEnd. unfold collapseBlankLines in Hocc.
    apply collapse_from_no_three in Hocc; [done|lia].
  - apply trimEnd_idem.
  - cbn [app]. rewrite join_cons. unfold collapseBlankLines. simpl.
    by destruct (trimEnd _).
Qed.

End WithPath.

End PromptMarkdownFacts.

(* ===================================================================== *)
(** ** The prompt with its files *)
(* ===================================================================== *)

Module PromptRequestFacts.
Import JsString JsStringFacts Files FileSections PromptRequest.

Local Arguments String.append : simpl nomatch.

Lemma occurs_in_join sep l x pre :
  In x l -> occurs_in (sep +:+ x) (pre +:+ sep +:+ join sep l).
Proof.
  revert pre. induction l as [|w l IH]; intros pre; [done|].
  destruct l as [|w' l].
  - intros [->|[]]. exists pre, EmptyString. by rewrite app_nil_r.
  - rewrite PromptMarkdownFacts.join_cons. intros [->|Hin].
    + exists pre, (sep +:+ join sep (w' :: l)). by rewrite !app_assoc.
    + destruct (IH (pre +:+ sep +:+ w) Hin) as (before & after & Heq).
      exists before, after. rewrite <- Heq. by rewrite !app_assoc.
Qed.

Lemma join_suffix sep l suffix :
  l <> [] -> Forall (fun x => exists t, x = t +:+ suffix) l ->
  exists t, join sep l = t +:+ suffix.
Proof.
  induction l as [|w l IH]; [done|]. intros _ Hall.
  apply Forall_cons in Hall as [[t Hw] Hall]. destruct l as [|w' l].
  - by exists t.
  - rewrite PromptMarkdownFacts.join_cons. destruct IH as [t' ->]; [done|done|].
    exists (w +:+ sep +:+ t'). by rewrite !app_assoc.
Qed.

Section WithCwd.
Variable cwd : string.
Variable path_relative : string -> string -> string.

(** X29. Without files [buildPrompt] returns the prompt as it is, white
    space around it included.  With files the prompt is trimmed and the
    sections of [createFileSections] follow it: the result begins with the
    trimmed prompt, a blank line and the header of file 1, every section
    stands in it behind a blank line, and it ends with the closing fence of
    the last section. *)
Theorem buildPrompt_sections (basePrompt : string) (file : FileContent)
        (files : list FileContent) :
  let prompt := buildPrompt cwd path_relative basePrompt (file :: files) in
  let sections := createFileSections cwd path_relative (file :: files) in
  buildPrompt cwd path_relative basePrompt [] = basePrompt /\
  startsWith prompt (trim basePrompt +:+ newline +:+ newline +:+ "### File 1: ") = true /\
  SessionStore.endsWith prompt "```" = true /\
  Forall (fun section => occurs_in (newline +:+ newline +:+ sectionText section) prompt)
         sections.
Proof.
  cbv zeta. split; [done|]. unfold buildPrompt.
  change (length (file :: files) =? 0)%nat with false. cbv iota.
  set (sections := createFileSections cwd path_relative (file :: files)).
  split; [|split].
  - apply ToolsFacts.prefix_app. unfold sections, createFileSections. cbn [imap map].
    set (rest := map sectionText _).
    assert (Hfirst : exists tail,
               sectionText (createFileSection cwd path_relative 0 file)
               = "### File 1: " +:+ tail).
    { eexists. unfold createFileSection. cbn [sectionText join].
      change (pretty (0 + 1)%nat) with "1". rewrite !app_assoc. reflexivity. }
    destruct Hfirst as [tail ->]. destruct rest as [|w rest].
    + exists tail. cbn [join]. by rewrite !app_assoc.
    + rewrite PromptMarkdownFacts.join_cons. eexists. rewrite !app_assoc. reflexivity.
  - destruct (join_suffix (newline +:+ newline) (map sectionText sections) "```")
      as [t ->].
    + done.
    + apply List.Forall_forall. intros text Hin.
      apply in_map_iff in Hin as (section & <- & Hin).
      apply list_elem_of_In, elem_of_lookup_imap in Hin as (i & f & -> & _).
      eexists. unfold createFileSection. cbn [sectionText join].
      rewrite <- !app_assoc. reflexivity.
    + rewrite <- !app_assoc. apply StoreOpsFacts.endsWith_app.
  - apply List.Forall_forall. intros section Hin.
    rewrite <- !(app_assoc newline newline). apply occurs_in_join. by apply in_map.
Qed.

End WithCwd.

End PromptRequestFacts.

(* ===================================================================== *)
(** ** The Anthropic adapter: requests and responses *)
(* ===================================================================== *)

Module AnthropicFacts.
Import JsString JsStringFacts Tools Anthropic.

Local Arguments String.append : simpl nomatch.

Lemma trim_nonempty s : trim s <> EmptyString -> s <> EmptyString.
Proof. intros H ->. by apply H. Qed.

(** X16. A request body built by [buildRequestBody] reaches the Anthropic
    SDK as one user message with one text block that is the user prompt,
    unchanged; the model is the one the client was created for, not the one
    of the body; the output limit is the requested one or 1024; and the
    system prompt is passed exactly when it is not blank. *)
Theorem anthropic_params_of_request (options : RequestOptions) (model : string) :
  let params := buildAnthropicParams (request_body (buildRequestBody options)) model in
  messages params
  = [ {| msg_role := "user"; msg_content := [ {| block_text := userPrompt options |} ] |} ] /\
  params_model params = model /\
  max_tokens params = default 1024 (maxOutputTokens options) /\
  (trim (systemPrompt options) <> EmptyString -> system params = Some (systemPrompt options)) /\
  (trim (systemPrompt options) = EmptyString -> system params = None).
Proof.
  cbv zeta. unfold buildAnthropicParams, buildRequestBody. simpl.
  split; [|split; [done|split; [done|split]]].
  - by destruct (userPrompt options).
  - intros Hne. pose proof (trim_nonempty _ Hne).
    destruct (systemPrompt options) as [|c s] eqn:E; [done|].
    cbn [truthy andb]. by destruct (trim (String c s)).
  - intros ->. simpl. by rewrite andb_false_r.
Qed.



End AnthropicFacts.

(* ===================================================================== *)
(** ** Chrome cookies: normalization, merging, syncing *)
(* ===================================================================== *)

Module ChromeCookiesFacts.
Import JsString JsStringFacts Cookies ChromeCookies.

Local Arguments String.append : simpl nomatch.

(** *** Values *)

Lemma cleanValue_suffix value :
  exists dropped,
    value = dropped +:+ cleanValue value /\ all_chars is_control dropped = true.
Proof.
  induction value as [|c value (dropped & IH & Hall)]; simpl.
  - by exists EmptyString.
  - destruct (is_control c) eqn:Hc.
    + exists (String c dropped). simpl. rewrite Hc, Hall. split; [by rewrite IH at 1|done].
    + by exists EmptyString.
Qed.

Lemma cleanValue_clean value : starts_with_control (cleanValue value) = false.
Proof.
  induction value as [|c value IH]; simpl; [done|].
  destruct (is_control c) eqn:Hc; [done|]. unfold starts_with_control. simpl. done.
Qed.

Lemma cleanValue_fixed value : starts_with_control value = false -> cleanValue value = value.
Proof. destruct value as [|c value]; [done|]. unfold starts_with_control. simpl. by intros ->. Qed.

(** X18. [normalizeCookie] drops exactly the cookies without a name.  Of
    the others it keeps the name, strips the leading control characters of
    the value and nothing else, takes the domain without its one leading dot
    or, when the cookie has none, the fallback host, converts the expiration,
    and defaults the path to [/], [secure] to true and [httpOnly] to false.
    Cleaning a cleaned value changes nothing. *)
Theorem normalizeCookie_fields (cookie : RawCookie) (fallbackHost : string) :
  match normalizeCookie cookie fallbackHost with
  | None => raw_name cookie = None \/ raw_name cookie = Some EmptyString
  | Some normalized =>
      raw_name cookie = name normalized /\
      well_formed normalized /\
      (exists dropped v,
          value normalized = Some v /\
          default EmptyString (raw_value cookie) = dropped +:+ v /\
          all_chars is_control dropped = true /\
          cleanValue v = v) /\
      (raw_domain cookie = None -> domain normalized = Some fallbackHost) /\
      (forall d, raw_domain cookie = Some ("." +:+ d) -> domain normalized = Some d) /\
      (forall d, raw_domain cookie = Some d -> startsWith d "." = false ->
                 domain normalized = Some d) /\
      expires normalized = normalizeExpiration (raw_expires cookie) /\
      path normalized = Some (default "/" (raw_path cookie)) /\
      secure normalized = Some (default true (raw_Secure cookie)) /\
      httpOnly normalized = Some (default false (raw_HttpOnly cookie))
  end.
Proof.
  unfold normalizeCookie. destruct (raw_name cookie) as [[|c n]|] eqn:Hname; simpl; auto.
  split; [done|]. split; [|split].
  - unfold well_formed. simpl. repeat split; eauto.
    exists (cleanValue (default EmptyString (raw_value cookie))).
    split; [done|]. apply cleanValue_clean.
  - destruct (cleanValue_suffix (default EmptyString (raw_value cookie)))
      as (dropped & Hsplit & Hall).
    exists dropped, (cleanValue (default EmptyString (raw_value cookie))).
    split; [done|]. split; [done|]. split; [done|].
    apply cleanValue_fixed, cleanValue_clean.
  - repeat split; try done.
    + by intros ->.
    + intros d Hd. rewrite Hd.
      assert (startsWith (String "." d) "." = true) as ->; [|done].
      apply ToolsFacts.prefix_app. by exists d.
    + intros d Hd Hdot. by rewrite Hd, Hdot.
Qed.

(** *** Merging by key *)

Lemma has_spec merged key : has merged key = true <-> In key (map fst merged).
Proof.
  unfold has. rewrite existsb_exists, in_map_iff. split.
  - intros ([k c] & Hin & Heq). apply String.eqb_eq in Heq. simpl in Heq. subst.
    by exists (key, c).
  - intros ([k c] & Heq & Hin). simpl in Heq. subst. exists (key, c).
    split; [done|]. by apply String.eqb_eq.
Qed.

Lemma has_false merged key : has merged key = false <-> ~ In key (map fst merged).
Proof. rewrite <- has_spec. by destruct (has merged key). Qed.

Lemma cookie_key_of cookie fallbackHost :
  is_Some (domain cookie) -> cookie_key cookie fallbackHost = key_of cookie.
Proof. intros [d Hd]. unfold key_of, cookie_key. by rewrite Hd. Qed.

Lemma keyed_nil P : keyed P [].
Proof. split; constructor. Qed.

Lemma keyed_snoc P merged cookie :
  keyed P merged -> has merged (key_of cookie) = false -> P cookie ->
  keyed P (merged ++ [(key_of cookie, cookie)]).
Proof.
  intros [Hnodup Hall] Hfresh%has_false HP. split.
  - rewrite map_app. simpl. apply NoDup_ListNoDup, NoDup_app.
    split; [by apply NoDup_ListNoDup|]. split; [|apply NoDup_singleton].
    intros k Hk ->%list_elem_of_singleton. apply Hfresh. by apply list_elem_of_In.
  - apply Forall_app. split; [done|]. by repeat constructor.
Qed.

Lemma keyed_values P merged :
  keyed P merged ->
  List.NoDup (map key_of (values merged)) /\ Forall P (values merged).
Proof.
  intros [Hnodup Hall]. unfold values. split.
  - rewrite map_map.
    rewrite (map_ext_in (fun entry => key_of (snd entry)) fst); [done|].
    intros entry Hin. rewrite List.Forall_forall in Hall. symmetry. by apply Hall.
  - apply Forall_map. eapply Forall_impl; [exact Hall|]. by intros entry [_ HP].
Qed.

Lemma normalizeCookie_well_formed raw host cookie :
  normalizeCookie raw host = Some cookie -> well_formed cookie /\ raw_name raw = name cookie.
Proof.
  unfold normalizeCookie. destruct (raw_name raw) as [[|c n]|] eqn:Hname; simpl; try done.
  intros [= <-]. split; [|done]. unfold well_formed. simpl. repeat split; eauto.
  exists (cleanValue (default EmptyString (raw_value raw))).
  split; [done|]. apply cleanValue_clean.
Qed.

Lemma filtered_out_named names raw n :
  names <> [] -> filtered_out (Some names) raw = false -> raw_name raw = Some n -> In n names.
Proof.
  intros Hne Hfilter Hname. unfold filtered_out in Hfilter. rewrite Hname in Hfilter.
  destruct names as [|x names]; [done|]. simpl in Hfilter.
  apply negb_false_iff in Hfilter.
  change (existsb (String.eqb n) (x :: names) = true) in Hfilter.
  apply existsb_exists in Hfilter as (m & Hin & Heq). apply String.eqb_eq in Heq. by subst.
Qed.

(** *** The first occurrences *)

Lemma existsb_eqb_In (x : string) seen : existsb (String.eqb x) seen = true <-> In x seen.
Proof.
  rewrite existsb_exists. split.
  - by intros (y & Hy & ->%String.eqb_eq).
  - intros Hx. exists x. split; [done|apply String.eqb_refl].
Qed.

Lemma unique_from_In seen l v :
  In v (unique_from seen l) <-> In v l /\ ~ In v seen.
Proof.
  revert seen. induction l as [|x l IH]; intros seen; simpl; [tauto|].
  destruct (existsb (String.eqb x) seen) eqn:Hx.
  - apply existsb_eqb_In in Hx. rewrite IH. split; [tauto|].
    intros [[->|?] ?]; tauto.
  - assert (~ In x seen) by (rewrite <- existsb_eqb_In; congruence).
    simpl. rewrite IH, in_app_iff. simpl. split.
    + intros [->|(? & ?)]; tauto.
    + destruct (decide (x = v)) as [->|Hne]; [tauto|]. intros [[?|?] ?]; [done|].
      right. split; [done|]. intros [?|[?|[]]]; done.
Qed.

Lemma unique_from_NoDup seen l : List.NoDup (unique_from seen l).
Proof.
  revert seen. induction l as [|x l IH]; intros seen; simpl; [constructor|].
  destruct (existsb (String.eqb x) seen); [apply IH|].
  constructor; [|apply IH]. rewrite ChromeCookiesFacts.unique_from_In, in_app_iff. simpl. tauto.
Qed.

(** A name filter without a name in it filters nothing. *)
Lemma merge_raw_unfiltered host raws merged :
  merge_raw (Some []) host raws merged = merge_raw None host raws merged.
Proof.
  revert merged. induction raws as [|raw raws IH]; intros merged; simpl; [done|].
  destruct (normalizeCookie raw host) as [cookie|]; [|done].
  by destruct (negb (has merged _)).
Qed.

Section Load.
Variable hostname : string -> option string.
Variable stripQuery : string -> string.
Variable COOKIE_URLS : list string.
Variable resolveCookieFilePath : outcome error string.
Variable getCookiesPromised : string -> string -> outcome error (option (list RawCookie)).

(** A cookie of the result stems from a cookie Chrome returned for one of
    the URLs, passed the name filter and was normalized with the host of
    that URL. *)
Local Notation "'read_from' urls cookieFile filterNames" :=
  (fun cookie =>
     well_formed cookie /\
     exists u raws raw host,
       In u urls /\ getCookiesPromised u cookieFile = Ok (Some raws) /\
       hostname u = Some host /\ In raw raws /\
       filtered_out filterNames raw = false /\
       normalizeCookie raw host = Some cookie)
  (at level 10, urls at level 9, cookieFile at level 9, filterNames at level 9).

Lemma merge_raw_keyed (P : CookieParam -> Prop) filterNames host raws merged :
  (forall cookie, P cookie -> is_Some (domain cookie)) ->
  (forall raw cookie, In raw raws -> filtered_out filterNames raw = false ->
                      normalizeCookie raw host = Some cookie -> P cookie) ->
  keyed P merged -> keyed P (merge_raw filterNames host raws merged).
Proof.
  intros Hdom. revert merged. induction raws as [|raw raws IH]; intros merged HP Hkeyed;
    simpl; [done|].
  assert (HP' : forall raw' cookie, In raw' raws -> filtered_out filterNames raw' = false ->
                                    normalizeCookie raw' host = Some cookie -> P cookie)
    by (intros; eapply HP; eauto; by right).
  destruct (filtered_out filterNames raw) eqn:Hfilter; [by apply IH|].
  destruct (normalizeCookie raw host) as [cookie|] eqn:Hnorm; [|by apply IH].
  assert (Hcookie : P cookie) by (eapply HP; eauto; by left).
  rewrite (cookie_key_of cookie host) by by apply Hdom.
  destruct (has merged (key_of cookie)) eqn:Hhas; simpl; [by apply IH|].
  apply IH; [done|]. by apply keyed_snoc.
Qed.

Lemma load_loop_keyed cookieFile filterNames all_urls urls merged final :
  (forall u, In u urls -> In u all_urls) ->
  keyed (read_from all_urls cookieFile filterNames) merged ->
  load_loop hostname getCookiesPromised cookieFile filterNames urls merged = Ok final ->
  keyed (read_from all_urls cookieFile filterNames) final.
Proof.
  revert merged. induction urls as [|u urls IH]; intros merged Hurls Hkeyed; simpl.
  - by intros [= <-].
  - assert (Hurls' : forall v, In v urls -> In v all_urls) by (intros; apply Hurls; by right).
    destruct (getCookiesPromised u cookieFile) as [[raws|]|] eqn:Hget; simpl; [| |done].
    + destruct (hostname u) as [host|] eqn:Hhost; [|done].
      apply IH; [done|]. apply merge_raw_keyed; [|
        |done].
      * by intros cookie [(_ & _ & Hdomain & _) _].
      * intros raw cookie Hin Hfilter Hnorm. split.
        -- by apply normalizeCookie_well_formed in Hnorm as [? _].
        -- exists u, raws, raw, host. repeat split; try done. apply Hurls. by left.
    + by apply IH.
Qed.

Lemma unique_from_sub seen l v : In v (unique_from seen l) -> In v l.
Proof.
  revert seen. induction l as [|x l IH]; intros seen; simpl; [done|].
  destruct (existsb _ seen); [intros ?%IH; by right|].
  intros [->|?%IH]; [by left | by right].
Qed.

Lemma loadChromeCookies_keyed targetUrl filterNames cookies :
  loadChromeCookies hostname stripQuery COOKIE_URLS resolveCookieFilePath
                    getCookiesPromised targetUrl filterNames = Ok cookies ->
  exists cookieFile merged,
    resolveCookieFilePath = Ok cookieFile /\ cookies = values merged /\
    keyed (read_from (stripQuery targetUrl :: COOKIE_URLS) cookieFile filterNames) merged.
Proof.
  intros Hrun. unfold loadChromeCookies in Hrun.
  destruct resolveCookieFilePath as [cookieFile|] eqn:Hfile; [|done]. cbn [obind] in Hrun.
  destruct (load_loop _ _ _ _ _ _) as [merged|] eqn:Hloop; cbn [obind] in Hrun; [|done].
  injection Hrun as <-. exists cookieFile, merged. split; [done|]. split; [done|].
  eapply load_loop_keyed; [|apply keyed_nil|exact Hloop].
  intros u Hu. unfold urlsToCheck, unique in Hu. by apply unique_from_sub in Hu.
Qed.

(** X19. When [loadChromeCookies] returns, no two of the cookies have the
    same [domain:name] key; each has all its fields but [url], a name that
    is not empty and a value that does not start with a control character;
    each stems from a cookie Chrome returned for the target URL without its
    query or for one of the standard cookie URLs, normalized with the host
    of that URL; and with a name filter that is not empty, each has one of
    the names of the filter. *)
Theorem loadChromeCookies_merged
        (targetUrl : string) (filterNames : option (list string))
        (cookies : list CookieParam)
        (Hrun : loadChromeCookies hostname stripQuery COOKIE_URLS resolveCookieFilePath
                                  getCookiesPromised targetUrl filterNames = Ok cookies) :
  List.NoDup (map key_of cookies) /\
  Forall well_formed cookies /\
  Forall (fun cookie =>
            exists u cookieFile raws raw host,
              In u (stripQuery targetUrl :: COOKIE_URLS) /\
              resolveCookieFilePath = Ok cookieFile /\
              getCookiesPromised u cookieFile = Ok (Some raws) /\
              hostname u = Some host /\ In raw raws /\
              normalizeCookie raw host = Some cookie)
         cookies /\
  (forall names, filterNames = Some names -> names <> [] ->
                 Forall (named_in names) cookies).
Proof.
  apply loadChromeCookies_keyed in Hrun as (cookieFile & merged & Hfile & -> & Hkeyed).
  apply keyed_values in Hkeyed as [Hnodup Hall]. split; [done|].
  rewrite List.Forall_forall in Hall. split; [|split].
  - apply List.Forall_forall. intros cookie Hin. by apply Hall in Hin as [? _].
  - apply List.Forall_forall. intros cookie Hin.
    apply Hall in Hin as (_ & u & raws & raw & host & H1 & H2 & H3 & H4 & H5 & H6).
    by exists u, cookieFile, raws, raw, host.
  - intros names -> Hne. apply List.Forall_forall. intros cookie Hin.
    apply Hall in Hin as (_ & u & raws & raw & host & H1 & H2 & H3 & H4 & H5 & H6).
    pose proof (normalizeCookie_well_formed _ _ _ H6) as [[(n & Hn & _) _] Hname].
    exists n. split; [done|]. eapply filtered_out_named; eauto. congruence.
Qed.

Lemma merge_loaded_keyed (P : CookieParam -> Prop) host cookies merged :
  (forall cookie, P cookie -> is_Some (domain cookie)) ->
  Forall P cookies -> keyed P merged -> keyed P (merge_loaded host cookies merged).
Proof.
  intros Hdom Hall. revert merged.
  induction Hall as [|cookie cookies Hcookie _ IH]; intros merged Hkeyed; simpl; [done|].
  rewrite (cookie_key_of cookie host) by by apply Hdom.
  destruct (has merged (key_of cookie)) eqn:Hhas; simpl; [by apply IH|].
  apply IH. by apply keyed_snoc.
Qed.

(** A cookie read from Chrome that carries one of the names of the
    allowlist, when there is one with a name in it. *)
Local Notation "'allowed_by' allowlist" :=
  (fun cookie =>
     well_formed cookie /\
     forall names, allowlist = Some names -> names <> [] -> named_in names cookie)
  (at level 10, allowlist at level 9).

Lemma read_loop_keyed allowlist urls merged final :
  keyed (allowed_by allowlist) merged ->
  read_loop hostname stripQuery COOKIE_URLS resolveCookieFilePath getCookiesPromised
            allowlist urls merged = Ok final ->
  keyed (allowed_by allowlist) final.
Proof.
  revert merged. induction urls as [|u urls IH]; intros merged Hkeyed; simpl.
  - by intros [= <-].
  - destruct (loadChromeCookies _ _ _ _ _ u allowlist) as [cookies|] eqn:Hload; [|done].
    cbn [obind]. destruct (hostname u) as [host|]; [|done].
    apply IH.
    apply loadChromeCookies_keyed in Hload as (cookieFile & loaded & _ & -> & Hloaded).
    apply keyed_values in Hloaded as [_ Hall]. rewrite List.Forall_forall in Hall.
    apply merge_loaded_keyed; [| |done].
    + by intros cookie [(_ & _ & Hdomain & _) _].
    + apply List.Forall_forall. intros cookie Hin.
      apply Hall in Hin as (Hwf & v & raws & raw & rawHost & _ & _ & _ & _ & Hfilter & Hnorm).
      split; [done|]. intros names -> Hne.
      pose proof (normalizeCookie_well_formed _ _ _ Hnorm) as [[(n & Hn & _) _] Hname].
      exists n. split; [done|]. eapply filtered_out_named; eauto. congruence.
Qed.

Lemma load_loop_unfiltered cookieFile urls merged :
  load_loop hostname getCookiesPromised cookieFile (Some []) urls merged
  = load_loop hostname getCookiesPromised cookieFile None urls merged.
Proof.
  revert merged. induction urls as [|u urls IH]; intros merged; simpl; [done|].
  destruct (getCookiesPromised u cookieFile) as [[raws|]|]; simpl; [|done..].
  destruct (hostname u) as [host|]; [|done]. by rewrite merge_raw_unfiltered.
Qed.

Lemma read_loop_unfiltered urls merged :
  read_loop hostname stripQuery COOKIE_URLS resolveCookieFilePath getCookiesPromised
            (Some []) urls merged
  = read_loop hostname stripQuery COOKIE_URLS resolveCookieFilePath getCookiesPromised
              None urls merged.
Proof.
  revert merged. induction urls as [|u urls IH]; intros merged; simpl; [done|].
  assert (loadChromeCookies hostname stripQuery COOKIE_URLS resolveCookieFilePath
                            getCookiesPromised u (Some [])
          = loadChromeCookies hostname stripQuery COOKIE_URLS resolveCookieFilePath
                              getCookiesPromised u None) as ->.
  { unfold loadChromeCookies. destruct resolveCookieFilePath as [cookieFile|]; [|done].
    cbn [obind]. by rewrite load_loop_unfiltered. }
  destruct (loadChromeCookies _ _ _ _ _ u None) as [cookies|]; [|done].
  cbn [obind]. by destruct (hostname u).
Qed.

(** X20. When [readChromeCookies] returns, no two of the cookies have the
    same [domain:name] key, and each has all its fields but [url], a name
    that is not empty and a value that does not start with a control
    character.  The allowlist is made of the names asked for, trimmed,
    without the blank ones and each once: every name of the allowlist is
    such a name, and every name asked for that is not blank is in it, as
    trimmed.  When the allowlist has a name, every cookie returned has one
    of its names; when it has none, or when no names were asked for, the
    cookies returned are those of a call without names. *)
Theorem readChromeCookies_merged
        (u : string) (filterNames : option (list string)) (cookies : list CookieParam)
        (Hrun : readChromeCookies hostname stripQuery COOKIE_URLS resolveCookieFilePath
                                  getCookiesPromised u filterNames = Ok cookies) :
  List.NoDup (map key_of cookies) /\
  Forall well_formed cookies /\
  (forall allowlist,
      normalizeCookieNames filterNames = Some allowlist ->
      Forall (fun n => n <> EmptyString /\
                       exists names given,
                         filterNames = Some names /\ In given names /\ n = trim given)
             allowlist /\
      (allowlist <> [] -> Forall (named_in allowlist) cookies) /\
      (forall names given,
          filterNames = Some names -> In given names -> trim given <> EmptyString ->
          In (trim given) allowlist) /\
      List.NoDup allowlist /\
      (allowlist = [] ->
       readChromeCookies hostname stripQuery COOKIE_URLS resolveCookieFilePath
                         getCookiesPromised u None = Ok cookies)) /\
  (normalizeCookieNames filterNames = None ->
   readChromeCookies hostname stripQuery COOKIE_URLS resolveCookieFilePath
                     getCookiesPromised u None = Ok cookies).
Proof.
  pose proof Hrun as Hsame.
  unfold readChromeCookies in Hrun.
  destruct (read_loop _ _ _ _ _ _ _ _) as [merged|] eqn:Hloop; cbn [obind] in Hrun; [|done].
  injection Hrun as <-.
  apply read_loop_keyed in Hloop; [|apply keyed_nil].
  apply keyed_values in Hloop as [Hnodup Hall]. split; [done|].
  rewrite List.Forall_forall in Hall. split; [|split].
  - apply List.Forall_forall. intros cookie Hin. by apply Hall in Hin as [? _].
  - intros allowlist Hallow. split; [|split; [|split; [|split]]].
    + unfold normalizeCookieNames in Hallow. destruct filterNames as [names|]; [|done].
      destruct (length names =? 0)%nat; [done|]. injection Hallow as <-.
      apply List.Forall_forall. intros n Hn%unique_from_sub.
      apply filter_In in Hn as [Hn Htruthy]. apply in_map_iff in Hn as (given & <- & Hgiven).
      split; [by destruct (trim given)|]. by exists names, given.
    + intros Hne. apply List.Forall_forall. intros cookie Hin.
      apply Hall in Hin as [_ Hnamed]. by apply Hnamed.
    + intros names given -> Hgiven Hblank. unfold normalizeCookieNames in Hallow.
      destruct (length names =? 0)%nat; [done|]. injection Hallow as <-.
      unfold unique. apply unique_from_In. split; [|by intros []].
      apply filter_In. split; [by apply in_map|]. by destruct (trim given).
    + unfold normalizeCookieNames in Hallow. destruct filterNames as [names|]; [|done].
      destruct (length names =? 0)%nat; [done|]. injection Hallow as <-.
      apply unique_from_NoDup.
    + intros ->. unfold readChromeCookies in *. rewrite Hallow in Hsame.
      by rewrite <- read_loop_unfiltered.
  - intros Hnone. unfold readChromeCookies in *. by rewrite Hnone in Hsame.
Qed.

End Load.

(** *** Inline cookies *)

Lemma or_default_is_Some {A} (a : option A) (b : A) : is_Some (or_default a b).
Proof. destruct a; by eexists. Qed.

(** A cookie of the result is the normalization of one of the cookies
    given. *)
Local Notation "'inline_of' given host" :=
  (fun cookie =>
     inline_normalized cookie /\
     exists raw,
       In raw given /\
       name cookie = name raw /\ url cookie = url raw /\
       value cookie = or_default (value raw) EmptyString /\
       domain cookie = or_default (domain raw) host /\
       path cookie = or_default (path raw) "/" /\
       expires cookie = normalizeExpiration (expires raw) /\
       secure cookie = or_default (secure raw) true /\
       httpOnly cookie = or_default (httpOnly raw) false)
  (at level 10, given at level 9, host at level 9).

Lemma inline_loop_keyed given host rawCookies merged :
  (forall raw, In raw rawCookies -> In raw given) ->
  keyed (inline_of given host) merged ->
  keyed (inline_of given host) (inline_loop host rawCookies merged) /\
  (length (inline_loop host rawCookies merged) <= length merged + length rawCookies)%nat.
Proof.
  revert merged. induction rawCookies as [|raw rawCookies IH]; intros merged Hsub Hkeyed.
  - simpl. split; [done|lia].
  - assert (Hsub' : forall raw', In raw' rawCookies -> In raw' given)
      by (intros; apply Hsub; by right).
    assert (Hskip : keyed (inline_of given host) (inline_loop host rawCookies merged) /\
                    (length (inline_loop host rawCookies merged)
                     <= length merged + length (raw :: rawCookies))%nat).
    { destruct (IH merged Hsub' Hkeyed) as [Hk Hl]. split; [done|]. simpl. lia. }
    cbn [inline_loop]. unfold has_name.
    destruct (name raw) as [n|] eqn:Hname; [|exact Hskip].
    destruct (truthy n) eqn:Hn; [|exact Hskip]. cbn [negb].
    set (normalized := normalized_inline host raw).
    rewrite (cookie_key_of normalized host) by apply or_default_is_Some.
    destruct (has merged (key_of normalized)) eqn:Hhas; [exact Hskip|]. cbn [negb].
    destruct (IH (merged ++ [(key_of normalized, normalized)]) Hsub') as [Hk Hl].
    + apply keyed_snoc; [done|done|]. split.
      * split; [exists n; split; [done|by intros ->]|].
        repeat split; apply or_default_is_Some.
      * exists raw. split; [apply Hsub; by left|]. by repeat split.
    + split; [done|]. rewrite List.length_app in Hl. simpl in *. lia.
Qed.

Lemma has_seen merged key : has merged key = existsb (String.eqb key) (map fst merged).
Proof.
  apply eq_true_iff_eq. by rewrite has_spec, existsb_eqb_In.
Qed.

(** The loop keeps the first cookie of each key. *)
Lemma inline_loop_values host rawCookies merged :
  values (inline_loop host rawCookies merged)
  = values merged
      ++ first_of_each_key (map fst merged)
           (map (normalized_inline host) (List.filter has_name rawCookies)).
Proof.
  revert merged. induction rawCookies as [|raw rawCookies IH]; intros merged.
  - simpl. by rewrite List.app_nil_r.
  - cbn [inline_loop List.filter]. destruct (has_name raw); cbn [negb]; [|apply IH].
    cbn [map first_of_each_key].
    rewrite (cookie_key_of (normalized_inline host raw) host) by apply or_default_is_Some.
    rewrite has_seen. destruct (existsb _ (map fst merged)); cbn [negb]; [apply IH|].
    rewrite IH. unfold values. rewrite !List.map_app, <- List.app_assoc. reflexivity.
Qed.

Lemma first_of_each_key_sublist seen l : sublist (first_of_each_key seen l) l.
Proof.
  revert seen. induction l as [|cookie l IH]; intros seen; simpl; [constructor|].
  destruct (existsb _ seen); [by apply sublist_cons|by apply sublist_skip].
Qed.

Lemma first_of_each_key_In seen l cookie :
  In cookie (first_of_each_key seen l) <->
  exists i,
    l !! i = Some cookie /\ ~ In (key_of cookie) seen /\
    forall j earlier, (j < i)%nat -> l !! j = Some earlier -> key_of earlier <> key_of cookie.
Proof.
  revert seen. induction l as [|first l IH]; intros seen; simpl.
  - split; [done|]. by intros (i & Hi & _).
  - destruct (existsb (String.eqb (key_of first)) seen) eqn:Hseen.
    + apply existsb_eqb_In in Hseen. rewrite IH. split.
      * intros (i & Hi & Hnew & Hfirst). exists (S i). split; [done|]. split; [done|].
        intros [|j] earlier Hj Hearlier; simpl in Hearlier.
        -- injection Hearlier as <-. by intros Heq; rewrite Heq in Hseen.
        -- apply (Hfirst j); [lia|done].
      * intros ([|i] & Hi & Hnew & Hfirst); simpl in Hi.
        -- injection Hi as <-. done.
        -- exists i. split; [done|]. split; [done|].
           intros j earlier Hj Hearlier. apply (Hfirst (S j)); [lia|done].
    + assert (Hfresh : ~ In (key_of first) seen)
        by (rewrite <- existsb_eqb_In; congruence).
      simpl. rewrite IH. split.
      * intros [<-|(i & Hi & Hnew & Hfirst)].
        -- exists 0%nat. split; [done|]. split; [done|]. intros j earlier Hj. lia.
        -- exists (S i). split; [done|].
           rewrite in_app_iff in Hnew. simpl in Hnew. split; [tauto|].
           intros [|j] earlier Hj Hearlier; simpl in Hearlier.
           ++ injection Hearlier as <-. tauto.
           ++ apply (Hfirst j); [lia|done].
      * intros ([|i] & Hi & Hnew & Hfirst); simpl in Hi.
        -- injection Hi as <-. by left.
        -- right. exists i. split; [done|]. split.
           ++ rewrite in_app_iff. simpl. intros [?|[Heq|[]]]; [done|].
              by apply (Hfirst 0%nat first); [lia| |].
           ++ intros j earlier Hj Hearlier. apply (Hfirst (S j)); [lia|done].
Qed.

(** X21. [normalizeInlineCookies] keeps, in order, the first cookie of
    each [domain:name] key among the cookies that have a name, each with
    the fallbacks for the fields it lacks: a cookie is in the result exactly
    when it is the normalization of a named cookie given and no named cookie
    given before it has the same key after normalization, and the result
    lists these cookies in the order in which they were given.  So no two
    cookies of the result share a key and the result is no longer than the
    input.  A cookie of the result is one of the cookies given, with its
    name and [url] as given, its expiration converted, and the fallback
    host, the empty value, the path [/], [secure] true and [httpOnly] false
    where the cookie has no value of its own. *)
Theorem normalizeInlineCookies_merged (rawCookies : list CookieParam) (fallbackHost : string) :
  let cookies := normalizeInlineCookies rawCookies fallbackHost in
  let normalized :=
    map (normalized_inline fallbackHost) (List.filter has_name rawCookies) in
  List.NoDup (map key_of cookies) /\
  (length cookies <= length rawCookies)%nat /\
  Forall (fun cookie =>
            inline_normalized cookie /\
            exists raw,
              In raw rawCookies /\
              name cookie = name raw /\ url cookie = url raw /\
              value cookie = or_default (value raw) EmptyString /\
              domain cookie = or_default (domain raw) fallbackHost /\
              path cookie = or_default (path raw) "/" /\
              expires cookie = normalizeExpiration (expires raw) /\
              secure cookie = or_default (secure raw) true /\
              httpOnly cookie = or_default (httpOnly raw) false)
         cookies /\
  sublist cookies normalized /\
  (forall cookie,
      In cookie cookies <->
      exists i,
        normalized !! i = Some cookie /\
        forall j earlier, (j < i)%nat -> normalized !! j = Some earlier ->
                          key_of earlier <> key_of cookie).
Proof.
  cbv zeta. unfold normalizeInlineCookies.
  destruct (inline_loop_keyed rawCookies fallbackHost rawCookies []) as [Hkeyed Hlen];
    [done|apply keyed_nil|].
  apply keyed_values in Hkeyed as [Hnodup Hall].
  split; [done|]. split; [|split; [done|]].
  { unfold values. rewrite length_map. simpl in Hlen. lia. }
  rewrite inline_loop_values. cbn [values map app].
  split; [apply first_of_each_key_sublist|].
  intros cookie. rewrite first_of_each_key_In. split.
  - intros (i & Hi & _ & Hfirst). by exists i.
  - intros (i & Hi & Hfirst). exists i. split; [done|]. split; [by intros []|done].
Qed.

(** *** The URL of a cookie *)

(** X22. [attachUrl] never hands the browser a cookie with both a URL and
    a domain, and changes no other field.  A cookie that has a URL keeps it
    and loses its domain; one without gets the fallback URL when it has no
    domain or the domain [localhost], the [https] URL of its domain when
    the domain does not start with a dot, and keeps a domain that starts
    with a dot, without a URL. *)
Theorem attachUrl_url_or_domain (cookie : CookieParam) (fallbackUrl : string) :
  let result := attachUrl cookie fallbackUrl in
  (opt_truthy (url result) = true -> domain result = None) /\
  (opt_truthy (url result) = false -> domain result = domain cookie) /\
  name result = name cookie /\ value result = value cookie /\
  path result = path cookie /\ expires result = expires cookie /\
  secure result = secure cookie /\ httpOnly result = httpOnly cookie /\
  (opt_truthy (url cookie) = true -> url result = url cookie) /\
  (opt_truthy (url cookie) = false ->
   (opt_truthy (domain cookie) = false \/ domain cookie = Some "localhost" ->
    url result = Some fallbackUrl) /\
   (forall d, domain cookie = Some d -> d <> EmptyString -> d <> "localhost" ->
              startsWith d "." = false -> url result = Some ("https://" +:+ d)) /\
   (forall d, domain cookie = Some d -> startsWith d "." = true ->
              url result = url cookie /\ domain result = Some d)).
Proof.
  cbv zeta. unfold attachUrl. cbn [url domain name value path expires secure httpOnly].
  set (with_url := if negb (opt_truthy (url cookie)) then _ else _).
  split; [by intros ->|]. split; [by intros ->|].
  do 6 (split; [done|]). subst with_url. split.
  - by intros ->.
  - intros Hurl. rewrite Hurl. cbn [negb]. split; [|split].
    + intros [Hdomain | Hlocal].
      * by rewrite Hdomain.
      * rewrite Hlocal. reflexivity.
    + intros d Hd Hne Hlocal Hdot. rewrite Hd. cbn [opt_truthy default from_option id].
      destruct d as [|c d]; [done|]. cbn [truthy negb orb].
      destruct (String.eqb_spec (String c d) "localhost") as [E|_]; [done|].
      by rewrite Hdot.
    + intros d Hd Hdot. rewrite Hd. cbn [opt_truthy default from_option id].
      destruct d as [|c d]; [done|]. cbn [truthy negb orb].
      destruct (String.eqb_spec (String c d) "localhost") as [E|_].
      { rewrite E in Hdot. done. }
      rewrite Hdot. cbn [negb]. split; [done|].
      destruct (url cookie) as [[|? ?]|]; done.
Qed.

(** *** Syncing *)

Section Sync.
Variable hostname : string -> option string.
Variable stripQuery : string -> string.
Variable COOKIE_URLS : list string.
Variable resolveCookieFilePath : outcome error string.
Variable getCookiesPromised : string -> string -> outcome error (option (list RawCookie)).
Variable Network_setCookie : CookieParam -> outcome error (option bool).

Lemma apply_loop_counts u cookies applied logged :
  exists lines,
    apply_loop Network_setCookie u cookies applied logged
    = ((applied + length (List.filter (accepted Network_setCookie u) cookies))%nat,
       logged ++ lines) /\
    length lines = length (List.filter (rejected Network_setCookie u) cookies).
Proof.
  revert applied logged. induction cookies as [|cookie cookies IH]; intros applied logged.
  - exists []. simpl. by rewrite Nat.add_0_r, List.app_nil_r.
  - simpl. unfold accepted at 1, rejected at 1.
    destruct (Network_setCookie (attachUrl cookie u)) as [[[|]|]|e];
      cbn [default from_option id].
    + destruct (IH (S applied) logged) as (lines & -> & Hlen). exists lines.
      split; [|done]. simpl. f_equal. lia.
    + destruct (IH applied logged) as (lines & -> & Hlen). by exists lines.
    + destruct (IH applied logged) as (lines & -> & Hlen). by exists lines.
    + edestruct (IH applied) as (lines & Heq & Hlen). rewrite Heq.
      eexists (_ :: lines). rewrite <- List.app_assoc. split; [done|]. simpl. by rewrite Hlen.
Qed.

Lemma accepted_rejected_bound u cookies :
  (length (List.filter (accepted Network_setCookie u) cookies)
   + length (List.filter (rejected Network_setCookie u) cookies) <= length cookies)%nat.
Proof.
  induction cookies as [|cookie cookies IH]; simpl; [lia|].
  unfold accepted at 1, rejected at 1.
  destruct (Network_setCookie (attachUrl cookie u)) as [[[|]|]|e]; simpl; lia.
Qed.

(** X23. With cookies to apply, [syncCookies] returns the number of
    cookies the browser accepted and logs one line for each cookie whose
    [setCookie] call failed; such a failure does not stop the sync, and the
    two numbers together do not exceed the number of cookies.  When the
    cookies cannot be obtained, the call throws a [ChromeCookieSyncError]
    with the message of the failure, or, with [allowErrors], logs one line
    and returns 0: with [allowErrors] it never throws. *)
Theorem syncCookies_counts
        (u : string) (allowErrors : bool) (filterNames : option (list string))
        (inlineCookies : option (list CookieParam)) :
  let sync := syncCookies hostname stripQuery COOKIE_URLS resolveCookieFilePath
                          getCookiesPromised Network_setCookie
                          u allowErrors filterNames inlineCookies in
  let source := cookiesToSync hostname stripQuery COOKIE_URLS resolveCookieFilePath
                              getCookiesPromised u filterNames inlineCookies in
  (forall cookies,
      source = Ok cookies ->
      let applied := length (List.filter (accepted Network_setCookie u) cookies) in
      fst sync = Ok applied /\
      length (snd sync) = length (List.filter (rejected Network_setCookie u) cookies) /\
      (applied + length (snd sync) <= length cookies)%nat) /\
  (forall e,
      source = Throw e ->
      if allowErrors
      then sync = (Ok 0%nat,
                   ["Cookie sync failed (continuing with override): " +:+ message_of e])
      else sync = (Throw (ChromeCookieSyncError (message_of e)), [])) /\
  (allowErrors = true -> exists applied, fst sync = Ok applied).
Proof.
  cbv zeta. unfold syncCookies.
  destruct (cookiesToSync _ _ _ _ _ u filterNames inlineCookies) as [cookies|e] eqn:Hsource.
  - destruct cookies as [|cookie cookies].
    + simpl. split; [|split]; [|done|by eexists].
      intros cookies' [= <-]. simpl. repeat split; lia.
    + change (length (cookie :: cookies) =? 0)%nat with false. cbv iota.
      destruct (apply_loop_counts u (cookie :: cookies) 0 []) as (lines & -> & Hlen).
      cbn [fst snd Nat.add app]. split; [|split]; [|done|by eexists].
      intros cookies' [= <-]. cbv zeta. split; [done|]. split; [done|].
      rewrite Hlen. apply accepted_rejected_bound.
  - split; [done|]. split.
    + intros e' [= <-]. by destruct allowErrors.
    + intros ->. by eexists.
Qed.

End Sync.

Import CookieExamples.

Lemma loadChromeCookies_merged_witness :
  loadChromeCookies demo_hostname demo_stripQuery demo_urls (Ok "/profile/Cookies")
                    demo_getCookies "https://chatgpt.com/" (Some ["session"])
  = Ok [kept_cookie] /\
  List.NoDup (map key_of [kept_cookie]) /\
  Forall well_formed [kept_cookie] /\
  Forall (named_in ["session"]) [kept_cookie].
Proof.
  assert (Hrun : loadChromeCookies demo_hostname demo_stripQuery demo_urls
                   (Ok "/profile/Cookies") demo_getCookies "https://chatgpt.com/"
                   (Some ["session"]) = Ok [kept_cookie]) by reflexivity.
  destruct (loadChromeCookies_merged _ _ _ _ _ _ _ _ Hrun) as (Hnodup & Hwf & _ & Hnames).
  split; [exact Hrun|]. split; [exact Hnodup|]. split; [exact Hwf|].
  by apply Hnames.
Defined.

Lemma readChromeCookies_merged_witness :
  readChromeCookies demo_hostname demo_stripQuery demo_urls (Ok "/profile/Cookies")
                    demo_getCookies "https://chatgpt.com/" (Some [" session "; "  "])
  = Ok [kept_cookie] /\
  List.NoDup (map key_of [kept_cookie]) /\
  Forall well_formed [kept_cookie].
Proof.
  assert (Hrun : readChromeCookies demo_hostname demo_stripQuery demo_urls
                   (Ok "/profile/Cookies") demo_getCookies "https://chatgpt.com/"
                   (Some [" session "; "  "]) = Ok [kept_cookie]) by reflexivity.
  destruct (readChromeCookies_merged _ _ _ _ _ _ _ _ Hrun) as (Hnodup & Hwf & _).
  split; [exact Hrun|]. split; [exact Hnodup | exact Hwf].
Defined.

End ChromeCookiesFacts.

(* ===================================================================== *)
(** ** Locating the Chrome cookie database *)
(* ===================================================================== *)

Module CookieFileFacts.
Import JsString CookieFile.

Section WithSystem.
Variable stat : string -> option Files.Stats.
Variable existsSync : string -> bool.
Variable homedir : string.
Variable process_cwd : string.
Variable platform : string.
Variable LOCALAPPDATA : option string.
Variable path_join : string -> string -> string.
Variable path_isAbsolute : string -> bool.
Variable path_resolve : string -> string -> string.

Lemma fileExists_usable p : fileExists stat p = true -> usable_file stat p.
Proof.
  unfold fileExists, usable_file. destruct (stat p) as [stats|]; [|done].
  intros Hfile. exists stats. auto.
Qed.

Lemma ensureCookieFile_found inputPath :
  match ensureCookieFile stat homedir process_cwd path_join path_isAbsolute path_resolve
                         inputPath with
  | Ok p => usable_file stat p
  | Throw e => not_found stat path_join e
  end.
Proof.
  unfold ensureCookieFile.
  set (expanded := expandPath _ _ _ _ _ inputPath).
  destruct (stat expanded) as [stats|] eqn:Hstat.
  - destruct (Files.isDirectory stats) eqn:Hdir.
    + destruct (fileExists stat (path_join expanded "Cookies")) eqn:Hdirect;
        [by apply fileExists_usable|].
      cbn [join_all fold_left].
      destruct (fileExists stat (path_join (path_join expanded "Network") "Cookies"))
        eqn:Hnetwork; [by apply fileExists_usable|].
      exists expanded. right. eauto 8.
    + exists stats. auto.
  - exists expanded. left. auto.
Qed.

(** X30. The cookie database that [resolveCookieFilePath] returns was seen
    by [stat] in this call as a file, or at least as no directory: a
    missing path or a bare directory is never returned.  It throws only for
    an unsupported platform, for a place where nothing is, or for a
    directory that holds neither [Cookies] nor [Network/Cookies].  An
    explicit path that is not blank decides alone, whatever the profile; a
    blank one counts as none. *)
Theorem resolveCookieFilePath_found (explicitPath profile : option string) :
  let resolve :=
    resolveCookieFilePath stat existsSync homedir process_cwd platform LOCALAPPDATA
                          path_join path_isAbsolute path_resolve in
  match resolve explicitPath profile with
  | Ok p => usable_file stat p
  | Throw e =>
      e = ChromeCookies.Error ("Unsupported platform: " +:+ platform) \/
      not_found stat path_join e
  end /\
  (not_blank explicitPath = true ->
   forall other, resolve explicitPath other = resolve explicitPath profile) /\
  (not_blank explicitPath = false -> resolve explicitPath profile = resolve None profile).
Proof.
  cbv zeta. split; [|split].
  - unfold resolveCookieFilePath.
    destruct (not_blank explicitPath).
    { pose proof (ensureCookieFile_found (default EmptyString explicitPath)) as Hfound.
      destruct (ensureCookieFile _ _ _ _ _ _ _); auto. }
    destruct (match profile with Some p => _ | None => false end).
    { pose proof (ensureCookieFile_found (default EmptyString profile)) as Hfound.
      destruct (ensureCookieFile _ _ _ _ _ _ _); auto. }
    unfold defaultProfileRoot, profileCandidates.
    destruct (String.eqb platform "darwin"); [|destruct (String.eqb platform "linux");
      [|destruct (String.eqb platform "win32"); [|by left]]];
      cbn [obind]; destruct (find existsSync _); cbn [obind];
      match goal with
      | |- context [ensureCookieFile _ _ _ _ _ _ ?input] =>
          pose proof (ensureCookieFile_found input) as Hfound;
          destruct (ensureCookieFile _ _ _ _ _ _ input); auto
      end.
  - unfold resolveCookieFilePath. by intros ->.
  - unfold resolveCookieFilePath. by intros ->.
Qed.

End WithSystem.

End CookieFileFacts.

(* ===================================================================== *)
(** ** Expanding directories on a caller-supplied file system *)
(* ===================================================================== *)

Module CustomFsFacts.
Import JsString Files CustomFs.

(** *** The first occurrences *)

Lemma unique_from_app seen a b :
  exists nested,
    ChromeCookies.unique_from seen (a ++ b) = ChromeCookies.unique_from seen a ++ nested.
Proof.
  revert seen. induction a as [|x a IH]; intros seen; simpl; [by eexists|].
  destruct (existsb (String.eqb x) seen); [apply IH|].
  destruct (IH (seen ++ [x])) as [nested ->]. by exists nested.
Qed.

Section WithFs.
Variable readdir : string -> outcome string (list string).
Variable stat : string -> outcome string Stats.
Variable path_join : string -> string -> string.

(** *** What the walk collects *)

Lemma expand_loop_collects recur directory entries :
  (forall child nested, recur child = Some (Ok nested) ->
                        forall p, In p nested <->
                                  found_below readdir stat path_join child p /\
                                  regular_file stat p) ->
  forall results collected,
    expand_loop stat path_join recur directory entries results = Some (Ok collected) ->
    forall p, In p collected <->
              In p results \/
              exists e, In e entries /\
                        ((p = path_join directory e /\ regular_file stat p) \/
                         (exists stats, stat (path_join directory e) = Ok stats /\
                                        isDirectory stats = true /\
                                        found_below readdir stat path_join
                                                    (path_join directory e) p /\
                                        regular_file stat p)).
Proof.
  intros Hrecur. induction entries as [|entry rest IH]; intros results collected; simpl.
  - intros [= <-] p. split; [by left|]. by intros [?|(? & [] & _)].
  - destruct (stat (path_join directory entry)) as [stats|] eqn:Hstat; [|done].
    destruct (isDirectory stats) eqn:Hdir.
    + destruct (recur (path_join directory entry)) as [[nested|]|] eqn:Hnested; try done.
      intros Hrest p. rewrite (IH _ _ Hrest), in_app_iff, (Hrecur _ _ Hnested). split.
      * intros [[?|[? ?]]|(e & He & Hcase)]; [by left| |].
        -- right. exists entry. split; [by left|]. right. by exists stats.
        -- right. exists e. split; [by right|done].
      * intros [?|(e & [<-|He] & Hcase)]; [by left; left| |].
        -- destruct Hcase as [[-> (st & Hst & Hnodir & _)]|(st & _ & _ & ? & ?)].
           ++ congruence.
           ++ left. by right.
        -- right. by exists e.
    + destruct (isFile stats) eqn:Hfile.
      * intros Hrest p. rewrite (IH _ _ Hrest), in_app_iff. simpl. split.
        -- intros [[?|[<-|[]]]|(e & He & Hcase)]; [by left| |].
           ++ right. exists entry. split; [by left|]. left. split; [done|]. by exists stats.
           ++ right. exists e. split; [by right|done].
        -- intros [?|(e & [<-|He] & Hcase)]; [by left; left| |].
           ++ destruct Hcase as [[-> _]|(st & Hst & Hisdir & _)]; [left; right; by left|].
              congruence.
           ++ right. by exists e.
      * intros Hrest p. rewrite (IH _ _ Hrest). split.
        -- intros [?|(e & He & Hcase)]; [by left|]. right. exists e. split; [by right|done].
        -- intros [?|(e & [<-|He] & Hcase)]; [by left| |].
           ++ destruct Hcase as [[-> (st & Hst & _ & Hisfile)]|(st & Hst & Hisdir & _)];
                congruence.
           ++ right. by exists e.
Qed.

Lemma expand_collects fuel :
  forall directory collected,
    expandDirectoryRecursive readdir stat path_join fuel directory = Some (Ok collected) ->
    forall p, In p collected <->
              found_below readdir stat path_join directory p /\ regular_file stat p.
Proof.
  induction fuel as [|fuel IH]; intros directory collected; simpl; [done|].
  destruct (readdir directory) as [entries|] eqn:Hentries; [|done].
  intros Hrun p. rewrite (expand_loop_collects _ _ _ IH _ _ Hrun). simpl. split.
  - intros [[]|(e & He & [[-> Hreg]|(stats & Hstat & Hdir & Hbelow & Hreg)])].
    + split; [|done]. by eapply found_child.
    + split; [|done]. by eapply found_deeper.
  - intros [Hbelow Hreg]. right.
    destruct Hbelow as [d entries' e Hd He|d entries' e stats q Hd He Hstat Hdir Hq];
      rewrite Hentries in Hd; injection Hd as <-; exists e; (split; [done|]).
    + by left.
    + right. by exists stats.
Qed.

(** *** Enough nested calls *)

Lemma expand_loop_returns recur recur' directory entries :
  (forall e stats, In e entries -> stat (path_join directory e) = Ok stats ->
                   isDirectory stats = true ->
                   exists r, recur (path_join directory e) = Some r /\
                             recur' (path_join directory e) = Some r) ->
  forall results,
    exists r, expand_loop stat path_join recur directory entries results = Some r /\
              expand_loop stat path_join recur' directory entries results = Some r.
Proof.
  induction entries as [|entry rest IH]; intros Hrecur results; simpl; [by eexists|].
  destruct (stat (path_join directory entry)) as [stats|] eqn:Hstat; [|by eexists].
  destruct (isDirectory stats) eqn:Hdir.
  - destruct (Hrecur entry stats) as (r & -> & ->); [by left|done|done|].
    destruct r as [nested|]; [|by eexists].
    apply IH. intros e st He. apply Hrecur. by right.
  - destruct (isFile stats); apply IH; intros e st He; apply Hrecur; by right.
Qed.

Lemma expand_returns depth (Hdepth : measures_depth readdir stat path_join depth) fuel :
  forall directory more,
    (depth directory < fuel)%nat -> (fuel <= more)%nat ->
    exists r, expandDirectoryRecursive readdir stat path_join fuel directory = Some r /\ expandDirectoryRecursive readdir stat path_join more directory = Some r.
Proof.
  induction fuel as [|fuel IH]; intros directory more Hfuel Hmore; [lia|].
  destruct more as [|more]; [lia|]. simpl.
  destruct (readdir directory) as [entries|] eqn:Hentries; [|by eexists].
  apply expand_loop_returns. intros e stats He Hstat Hdir.
  apply IH; [|lia].
  pose proof (Hdepth directory entries e stats Hentries He Hstat Hdir). lia.
Qed.

Lemma directories_loop_returns depth (Hdepth : measures_depth readdir stat path_join depth)
      fuel more directories :
  Forall (fun d => (depth d < fuel)%nat) directories -> (fuel <= more)%nat ->
  forall paths,
    exists r, directories_loop readdir stat path_join fuel directories paths = Some r /\
              directories_loop readdir stat path_join more directories paths = Some r.
Proof.
  intros Hall Hmore. induction Hall as [|d rest Hd _ IH]; intros paths; simpl; [by eexists|].
  destruct (expand_returns depth Hdepth fuel d more Hd Hmore) as (r & -> & ->).
  destruct r as [nested|]; [apply IH|by eexists].
Qed.

Lemma directories_loop_collects fuel directories :
  forall paths collected,
    directories_loop readdir stat path_join fuel directories paths = Some (Ok collected) ->
    (exists nested, collected = paths ++ nested) /\
    forall p, In p collected <->
              In p paths \/
              exists d, In d directories /\
                        found_below readdir stat path_join d p /\ regular_file stat p.
Proof.
  induction directories as [|d rest IH]; intros paths collected; simpl.
  - intros [= <-]. split; [exists []; by rewrite List.app_nil_r|].
    intros p. split; [by left|]. by intros [?|(? & [] & _)].
  - destruct (expandDirectoryRecursive readdir stat path_join fuel d) as [[nested|]|] eqn:Hnested; try done.
    intros Hrest. destruct (IH _ _ Hrest) as [[more ->] Hin]. split.
    + exists (nested ++ more). by rewrite List.app_assoc.
    + intros p. rewrite Hin, in_app_iff, (expand_collects _ _ _ Hnested). split.
      * intros [[?|?]|(d' & ? & ?)]; [by left| |].
        -- right. exists d. split; [by left|done].
        -- right. exists d'. split; [by right|done].
      * intros [?|(d' & [<-|?] & ?)]; [by left; left|by left; right|].
        right. by exists d'.
Qed.

(** X28. On a tree of directories, with calls enough for its depth,
    [expandWithCustomFs] returns or throws, and more calls change nothing.
    What it returns holds no path twice and is exactly the literal files
    together with the regular files found below the literal directories:
    no directory and no other kind of entry is returned, and no regular
    file below is left out.  The literal files come first, in their order. *)
Theorem expandWithCustomFs_files
        (partitioned : Partitioned) (depth : string -> nat) (fuel : nat)
        (Hdepth : measures_depth readdir stat path_join depth)
        (Hfuel : Forall (fun d => (depth d < fuel)%nat) (literalDirectories partitioned)) :
  exists result,
    expandWithCustomFs readdir stat path_join fuel partitioned = Some result /\
    (forall more, (fuel <= more)%nat ->
                  expandWithCustomFs readdir stat path_join more partitioned = Some result) /\
    forall paths,
      result = Ok paths ->
      List.NoDup paths /\
      (forall p, In p paths <->
                 In p (literalFiles partitioned) \/
                 exists d, In d (literalDirectories partitioned) /\
                           found_below readdir stat path_join d p /\ regular_file stat p) /\
      exists nested,
        paths = ChromeCookies.unique (literalFiles partitioned) ++ nested.
Proof.
  unfold expandWithCustomFs.
  destruct (directories_loop_returns depth Hdepth fuel fuel _ Hfuel (le_n _)
                                     (literalFiles partitioned)) as (r & Hrun & _).
  rewrite Hrun. destruct r as [collected|e].
  - eexists. split; [done|]. split.
    + intros more Hmore.
      destruct (directories_loop_returns depth Hdepth fuel more _ Hfuel Hmore
                                         (literalFiles partitioned)) as (r' & Hrun' & ->).
      by rewrite Hrun in Hrun'; injection Hrun' as <-.
    + intros paths [= <-].
      destruct (directories_loop_collects _ _ _ _ Hrun) as [[nested ->] Hin].
      split; [apply ChromeCookiesFacts.unique_from_NoDup|]. split.
      * intros p. unfold ChromeCookies.unique. rewrite ChromeCookiesFacts.unique_from_In, Hin. simpl. tauto.
      * apply unique_from_app.
  - eexists. split; [done|]. split; [|done].
    intros more Hmore.
    destruct (directories_loop_returns depth Hdepth fuel more _ Hfuel Hmore
                                       (literalFiles partitioned)) as (r' & Hrun' & ->).
    by rewrite Hrun in Hrun'; injection Hrun' as <-.
Qed.

End WithFs.

Import CustomFsExamples.

Lemma expandWithCustomFs_files_witness :
  expandWithCustomFs tree_readdir tree_stat tree_join 3 tree_inputs
  = Some (Ok ["/src/a.ts"; "/src/lib/b.ts"]) /\
  expandWithCustomFs tree_readdir tree_stat tree_join 7 tree_inputs
  = Some (Ok ["/src/a.ts"; "/src/lib/b.ts"]).
Proof.
  destruct (expandWithCustomFs_files tree_readdir tree_stat tree_join tree_inputs
                                     tree_depth 3) as (result & Hrun & Hmore & _).
  - intros d entries e stats Hd He Hstat Hdir. unfold tree_readdir in Hd.
    destruct (String.eqb d "/src") eqn:Hsrc.
    + apply String.eqb_eq in Hsrc. subst d. injection Hd as <-.
      destruct He as [<-|[<-|[]]].
      * vm_compute in Hstat. injection Hstat as <-. discriminate.
      * vm_compute. lia.
    + destruct (String.eqb d "/src/lib") eqn:Hlib; [|discriminate].
      apply String.eqb_eq in Hlib. subst d. injection Hd as <-.
      destruct He as [<-|[]]. vm_compute in Hstat. injection Hstat as <-. discriminate.
  - repeat constructor.
  - pose proof Hrun as Hvalue. vm_compute in Hvalue. injection Hvalue as <-.
    split; [exact Hrun|]. apply Hmore. lia.
Defined.

End CustomFsFacts.

(* ===================================================================== *)
(** ** Command-line options *)
(* ===================================================================== *)

Module CliOptionsFacts.
Import JsString JsStringFacts CliOptions.

Local Arguments String.append : simpl nomatch.

(** *** Trimming *)

Lemma trimStart_suffix s :
  exists pre, s = pre +:+ trimStart s /\ all_chars is_space pre = true.
Proof.
  induction s as [|c s (pre & IH & Hpre)]; simpl; [by exists EmptyString|].
  destruct (is_space c) eqn:Hc.
  - exists (String c pre). simpl. rewrite Hc, Hpre. by rewrite IH at 1.
  - by exists EmptyString.
Qed.

Lemma trimStart_head s : starts_with_char is_space (trimStart s) = false.
Proof.
  induction s as [|c s IH]; simpl; [done|].
  destruct (is_space c) eqn:Hc; [done|]. simpl. done.
Qed.

Lemma trimStart_fixed s : starts_with_char is_space s = false -> trimStart s = s.
Proof. destruct s as [|c s]; simpl; [done|]. by intros ->. Qed.

Lemma trimEnd_head s :
  starts_with_char is_space s = false -> starts_with_char is_space (trimEnd s) = false.
Proof.
  destruct s as [|c s]; simpl; [done|]. intros Hc.
  destruct (trimEnd s); [by rewrite Hc|done].
Qed.

Lemma trim_idem s : trim (trim s) = trim s.
Proof.
  unfold trim. rewrite (trimStart_fixed (trimEnd _)).
  - apply PromptMarkdownFacts.trimEnd_idem.
  - apply trimEnd_head, trimStart_head.
Qed.

Lemma all_chars_trim P s : all_chars P s = true -> all_chars P (trim s) = true.
Proof.
  intros Hs. unfold trim.
  destruct (trimStart_suffix s) as (pre & Hpre & _).
  destruct (PromptMarkdownFacts.trimEnd_prefix (trimStart s)) as (tail & Htail).
  rewrite Hpre, Htail, !all_chars_app in Hs.
  by apply andb_true_iff in Hs as [_ [? _]%andb_true_iff].
Qed.

Lemma trimStart_spaces pre s : all_chars is_space pre = true -> trimStart (pre +:+ s) = trimStart s.
Proof.
  induction pre as [|c pre IH]; simpl; [done|].
  intros [Hc Hpre]%andb_true_iff. rewrite Hc. auto.
Qed.

Lemma trimEnd_spaces post : all_chars is_space post = true -> trimEnd post = EmptyString.
Proof.
  induction post as [|c post IH]; simpl; [done|].
  intros [Hc Hpost]%andb_true_iff. by rewrite IH, Hc.
Qed.

Lemma trimEnd_app_spaces s post :
  all_chars is_space post = true -> trimEnd (s +:+ post) = trimEnd s.
Proof.
  intros Hpost. induction s as [|c s IH]; simpl.
  - by apply trimEnd_spaces.
  - by rewrite IH.
Qed.

Lemma trimStart_app_spaces s post :
  all_chars is_space post = true ->
  exists post', trimStart (s +:+ post) = trimStart s +:+ post' /\ all_chars is_space post' = true.
Proof.
  intros Hpost. induction s as [|c s IH]; simpl.
  - exists EmptyString. split; [|done]. rewrite <- (app_nil_r post).
    rewrite trimStart_spaces by done. done.
  - destruct (is_space c); [done|]. by exists post.
Qed.

Lemma trim_padded pre s post :
  all_chars is_space pre = true -> all_chars is_space post = true ->
  trim (pre +:+ s +:+ post) = trim s.
Proof.
  intros Hpre Hpost. unfold trim. rewrite trimStart_spaces by done.
  destruct (trimStart_app_spaces s post Hpost) as (post' & -> & Hpost').
  by apply trimEnd_app_spaces.
Qed.

(** *** Lower case *)

Lemma lower_char_space c : is_space (lower_char c) = is_space c.
Proof. by destruct c as [[] [] [] [] [] [] [] []]. Qed.

Lemma lower_char_idem c : lower_char (lower_char c) = lower_char c.
Proof. by destruct c as [[] [] [] [] [] [] [] []]. Qed.

Lemma toLowerCase_idem s : toLowerCase (toLowerCase s) = toLowerCase s.
Proof. induction s as [|c s IH]; simpl; [done|]. by rewrite lower_char_idem, IH. Qed.

Lemma trimStart_lower s : trimStart (toLowerCase s) = toLowerCase (trimStart s).
Proof.
  induction s as [|c s IH]; simpl; [done|].
  rewrite lower_char_space. by destruct (is_space c).
Qed.

Lemma trimEnd_lower s : trimEnd (toLowerCase s) = toLowerCase (trimEnd s).
Proof.
  induction s as [|c s IH]; simpl; [done|].
  rewrite IH, lower_char_space. destruct (trimEnd s); simpl; [|done].
  by destruct (is_space c).
Qed.

Lemma trim_lower s : trim (toLowerCase s) = toLowerCase (trim s).
Proof. unfold trim. by rewrite trimStart_lower, trimEnd_lower. Qed.

(** *** Splitting at commas *)

Lemma split_pieces (c : ascii) s :
  Forall (fun w => all_chars (fun x => negb (bool_decide (x = c))) w = true) (split c s).
Proof.
  induction s as [|x s IH]; simpl; [by repeat constructor|].
  destruct (bool_decide (x = c)) eqn:Hx; [by constructor|].
  destruct (split c s) as [|w ws]; [repeat constructor; simpl; by rewrite Hx|].
  apply Forall_cons in IH as [Hw Hws]. constructor; [|done]. simpl. by rewrite Hx, Hw.
Qed.

Lemma flat_map_split_pieces (c : ascii) (pieces : list string) :
  Forall (fun w => all_chars (fun x => negb (bool_decide (x = c))) w = true) pieces ->
  flat_map (split c) pieces = pieces.
Proof.
  induction 1 as [|w ws Hw _ IH]; simpl; [done|].
  by rewrite (split_no_sep c w Hw), IH.
Qed.

(** X26. [collectPaths] keeps what was collected before and adds entries
    after it; each entry added is trimmed, not empty and holds no comma.  A
    comma-separated string adds what the array of its pieces adds, so
    [--file a,b] and [--file a --file b] collect the same. *)
Theorem collectPaths_entries (value : option (string + list string)) (previous : list string) :
  (exists added,
      collectPaths value previous = previous ++ added /\ Forall tidy_entry added) /\
  (forall s, collectPaths (Some (inl s)) previous
             = collectPaths (Some (inr (split "," s))) previous) /\
  (forall a b, collectPaths (Some (inr b)) (collectPaths (Some (inr a)) previous)
               = collectPaths (Some (inr (a ++ b))) previous).
Proof.
  assert (Htidy : forall values,
             Forall tidy_entry (List.filter truthy (map trim (flat_map (split ",") values)))).
  { intros values. apply List.Forall_forall. intros e [He Hne]%filter_In.
    apply in_map_iff in He as (piece & <- & Hpiece).
    apply in_flat_map in Hpiece as (v & _ & Hpiece).
    split; [by destruct (trim piece)|]. split; [apply trim_idem|].
    apply all_chars_trim. pose proof (split_pieces "," v) as Hall.
    rewrite List.Forall_forall in Hall. by apply Hall. }
  split; [|split].
  - unfold collectPaths. destruct value as [[s|l]|].
    + destruct (negb (truthy s)); [exists []; by rewrite List.app_nil_r|]. eauto.
    + cbv iota. eauto.
    + exists []. by rewrite List.app_nil_r.
  - intros s. unfold collectPaths. cbv iota.
    rewrite (flat_map_split_pieces "," (split "," s)) by apply split_pieces.
    destruct s as [|c s]; [cbn; by rewrite List.app_nil_r|].
    cbn [truthy negb flat_map]. by rewrite List.app_nil_r.
  - intros a b. unfold collectPaths. cbv iota.
    by rewrite List.flat_map_app, List.map_app, List.filter_app, List.app_assoc.
Qed.

(** X27. [parseSearchOption] looks at its value without the white space
    around it and without regard to case: padding the value with white
    space, or lower-casing it, changes neither the answer nor the error. *)
Theorem parseSearchOption_normalizes (value pre post : string)
        (Hpre : all_chars is_space pre = true) (Hpost : all_chars is_space post = true) :
  parseSearchOption (pre +:+ value +:+ post) = parseSearchOption value /\
  parseSearchOption (toLowerCase value) = parseSearchOption value /\
  parseSearchOption (trim value) = parseSearchOption value.
Proof.
  unfold parseSearchOption.
  rewrite (trim_padded pre value post Hpre Hpost), trim_lower, toLowerCase_idem, trim_idem.
  done.
Qed.

Lemma parseSearchOption_normalizes_witness :
  parseSearchOption "  ON " = parseSearchOption "ON" /\
  parseSearchOption "ON" = Ok true.
Proof.
  split; [|reflexivity].
  by destruct (parseSearchOption_normalizes "ON" "  " " " eq_refl eq_refl) as [Hpad _].
Defined.

End CliOptionsFacts.
